(** * ngx-signal-hub: a shallow embedding of the signal hub services

    The repository ships three generations of the same service:

    - [Bus]    : the first [SignalBusService] (queued emit, plain callbacks);
    - [Queued] : [SignalHubService] of [signal-bus.service.ts] (queued
                 publish, promise-based fan-out, [once]/[onceAsync],
                 [destroyRef] handling);
    - [Sync]   : the later [SignalHubService] (synchronous publish,
                 regular-expression wildcards, [until] conditions,
                 [onCombineLatest]);
    - [Throwing] : the fan-out and the registration of [Sync] once more,
                 with [onError] handlers that may throw.

    JavaScript objects that the code compares by reference (callbacks,
    subscriber records, events) carry an allocation index; a [Map] or [Set]
    is an insertion-ordered list; exceptions are results that keep the
    state reached when they were raised. *)

From Stdlib Require Import List String Ascii Bool ZArith Lia Arith PeanoNat.
From Stdlib Require Import Permutation Sorted.
Import ListNotations.
Local Open Scope string_scope.
Local Open Scope list_scope.

(* ================================================================== *)
(** * Part I: definitions *)
(* ================================================================== *)

(** ** JavaScript values, strings and insertion-ordered maps *)

Module Js.

(** Payloads and thrown values. *)
Inductive value : Type :=
| JUndefined
| JNull
| JNum (z : Z)
| JStr (s : string).

(** [data == null] holds of [null] and [undefined] only. *)
Definition looselyNull (v : value) : bool :=
  match v with
  | JUndefined | JNull => true
  | _ => false
  end.

(** [!s] on a string: only the empty string is falsy. *)
Definition falsy (s : string) : bool :=
  match s with
  | EmptyString => true
  | _ => false
  end.

(** [s.includes(c)] for a one-character needle. *)
Fixpoint includes (c : ascii) (s : string) : bool :=
  match s with
  | EmptyString => false
  | String a rest => Ascii.eqb a c || includes c rest
  end.

(** [s.split(sep)] for a one-character separator. *)
Fixpoint split (sep : ascii) (s : string) : list string :=
  match s with
  | EmptyString => [EmptyString]
  | String a rest =>
      if Ascii.eqb a sep then EmptyString :: split sep rest
      else match split sep rest with
           | [] => [String a EmptyString]
           | part :: parts => String a part :: parts
           end
  end.

Definition colon : ascii := ":"%char.
Definition star : ascii := "*"%char.
Definition backslash : ascii := "\"%char.

(** Array destructuring [const [a, b] = arr]: a missing slot is [undefined]. *)
Definition slot (i : nat) (parts : list string) : option string := nth_error parts i.

Definition option_string_eqb (a : option string) (b : string) : bool :=
  match a with
  | Some x => String.eqb x b
  | None => false
  end.

(** A [Map<string, V>]: keys are unique and keep their insertion order. *)
Definition jsmap (V : Type) : Type := list (string * V).

Fixpoint mget {V} (k : string) (m : jsmap V) : option V :=
  match m with
  | [] => None
  | (k', v) :: rest => if String.eqb k k' then Some v else mget k rest
  end.

(** [m.set(k, v)]: an existing key keeps its position. *)
Fixpoint mset {V} (k : string) (v : V) (m : jsmap V) : jsmap V :=
  match m with
  | [] => [(k, v)]
  | (k', v') :: rest =>
      if String.eqb k k' then (k, v) :: rest else (k', v') :: mset k v rest
  end.

(** [m.delete(k)] *)
Definition mdelete {V} (k : string) (m : jsmap V) : jsmap V :=
  filter (fun entry => negb (String.eqb k (fst entry))) m.

Definition mkeys {V} (m : jsmap V) : list string := map fst m.
Definition mvalues {V} (m : jsmap V) : list V := map snd m.

(** [Array.prototype.sort(cmp)] is a stable sort; for a consistent
    comparator its result is the one of stable insertion. *)
Fixpoint sortInsert {A} (cmp : A -> A -> Z) (x : A) (l : list A) : list A :=
  match l with
  | [] => [x]
  | y :: rest =>
      if (cmp x y <=? 0)%Z then x :: y :: rest else y :: sortInsert cmp x rest
  end.

Definition sort {A} (cmp : A -> A -> Z) (l : list A) : list A :=
  fold_right (sortInsert cmp) [] l.

(** What a call of a callback does, as far as the hub can see it:
    it returns, throws, or hands back a promise that later fulfils or
    rejects.  A promise that stays pending is not among the outcomes:
    every promise a callback hands back is taken to settle within the
    scheduling tick of the call, and what is stated about a tick is
    stated of such callbacks. *)
Inductive Outcome : Type :=
| Returned
| Threw (error : value)
| Resolved
| Rejected (error : value).

(** [throw new Error(...)] of the services. *)
Inductive Error : Type :=
| KeyCannotBeEmpty
| DataCannotBeNullOrUndefined
| CallbackMustBeAFunction
| KeysArrayCannotBeEmpty
| AllKeysMustBeNonEmpty
| ToSignalDoesNotSupportWildcards.

(** The result of a method: a value, or the error it threw. *)
Inductive Result (A : Type) : Type :=
| Ok (a : A)
| Throw (e : Error).
Arguments Ok {A} a.
Arguments Throw {A} e.

(** [HubEvent] / [BusEvent].  [oid] is the identity of the object the
    literal [{ key, data, timestamp }] allocates: two events are the same
    JavaScript object exactly when their [oid] agree. *)
Record HubEvent : Type := mkEvent {
  oid : nat;
  key : string;
  data : value;
  timestamp : Z
}.

Definition value_eqb (a b : value) : bool :=
  match a, b with
  | JUndefined, JUndefined => true
  | JNull, JNull => true
  | JNum x, JNum y => Z.eqb x y
  | JStr x, JStr y => String.eqb x y
  | _, _ => false
  end.

(** [a === b] on event objects. *)
Definition sameEvent (a b : HubEvent) : bool := Nat.eqb (oid a) (oid b).

Definition sameEventOpt (a b : option HubEvent) : bool :=
  match a, b with
  | Some x, Some y => sameEvent x y
  | None, None => true
  | _, _ => false
  end.

End Js.

(** ** Regular expressions built by [buildWildcardRegex] *)

Module Regex.
Import Js.

(** [/[.+?^${}()|[\]\\]/]: the characters the first [replace] escapes. *)
Definition isSpecial (c : ascii) : bool :=
  existsb (Ascii.eqb c)
    ["."; "+"; "?"; "^"; "$"; "{"; "}"; "("; ")"; "|"; "["; "]"; "\"]%char.

(** [query.replace(/[.+?^${}()|[\]\\]/g, '\\$&')] *)
Fixpoint escapeSpecials (s : string) : string :=
  match s with
  | EmptyString => EmptyString
  | String c rest =>
      if isSpecial c then String backslash (String c (escapeSpecials rest))
      else String c (escapeSpecials rest)
  end.

(** [.replace(/\*/g, '[^:]+')] *)
Fixpoint replaceStars (s : string) : string :=
  match s with
  | EmptyString => EmptyString
  | String c rest =>
      if Ascii.eqb c star then "[^:]+" ++ replaceStars rest
      else String c (replaceStars rest)
  end.

(** The source text handed to [new RegExp]. *)
Definition buildWildcardRegex (query : string) : string :=
  "^" ++ replaceStars (escapeSpecials query) ++ "$".

(** The fragment of the regular-expression language those sources use. *)
Inductive Atom : Type :=
| Bol                       (* ^ *)
| Eol                       (* $ *)
| Lit (c : ascii)           (* a character, escaped or plain *)
| Segment.                  (* [^:]+ *)

Fixpoint parse (fuel : nat) (src : string) : option (list Atom) :=
  match fuel with
  | O => None
  | S fuel' =>
      match src with
      | EmptyString => Some []
      | String "\" (String c rest) =>
          option_map (cons (Lit c)) (parse fuel' rest)
      | String "\" EmptyString => None
      | String "[" (String "^" (String ":" (String "]" (String "+" rest)))) =>
          option_map (cons Segment) (parse fuel' rest)
      | String "[" _ => None
      | String "^" rest => option_map (cons Bol) (parse fuel' rest)
      | String "$" rest => option_map (cons Eol) (parse fuel' rest)
      | String c rest => option_map (cons (Lit c)) (parse fuel' rest)
      end
  end.

(** Backtracking match of the atoms against the text that is left;
    [atStart] tells whether the position is the start of the input. *)
Fixpoint matchHere (atoms : list Atom) (atStart : bool) (s : string) : bool :=
  match atoms with
  | [] => true
  | Bol :: more => atStart && matchHere more atStart s
  | Eol :: more => falsy s && matchHere more atStart s
  | Lit c :: more =>
      match s with
      | String a rest => Ascii.eqb a c && matchHere more false rest
      | EmptyString => false
      end
  | Segment :: more =>
      (fix segment (t : string) : bool :=
         match t with
         | EmptyString => false
         | String a rest =>
             negb (Ascii.eqb a colon) && (matchHere more false rest || segment rest)
         end) s
  end.

(** An unanchored search: try every start position. *)
Fixpoint matchFrom (atoms : list Atom) (atStart : bool) (s : string) : bool :=
  matchHere atoms atStart s ||
  match s with
  | EmptyString => false
  | String _ rest => matchFrom atoms false rest
  end.

(** [new RegExp(src).test(text)] *)
Definition test (src : string) (text : string) : bool :=
  match parse (S (String.length src)) src with
  | Some atoms => matchFrom atoms true text
  | None => false
  end.

End Regex.

(** ** [SignalBusService]: the first generation *)

Module Bus.
Import Js.

(** A subscriber is a bare function [(event) => void], known by reference. *)
Inductive LogItem : Type :=
| Called (f : nat) (ev : HubEvent)
| Warned (query : string) (error : value).     (* console.warn *)

Record Hub : Type := mkHub {
  eventQueue : list HubEvent;
  eventRegistry : jsmap HubEvent;
  subscribers : jsmap (list nat);
  destroyHooks : list (nat * (string * nat));   (* destroyRef, (query, callback) *)
  log : list LogItem;
  now : Z;                                        (* what Date.now() returns *)
  nextId : nat
}.

Definition empty : Hub := mkHub [] [] [] [] [] 0%Z 0.

Definition withSubscribers (s : jsmap (list nat)) (h : Hub) : Hub :=
  mkHub (eventQueue h) (eventRegistry h) s (destroyHooks h) (log h) (now h) (nextId h).

Definition withLog (l : list LogItem) (h : Hub) : Hub :=
  mkHub (eventQueue h) (eventRegistry h) (subscribers h) (destroyHooks h) l (now h) (nextId h).

Definition matchQuery (key query : string) : bool :=
  if String.eqb key query then true
  else if String.eqb query "*" then true
  else if includes colon key && includes colon query then
    let keyPart1 := slot 0 (split colon key) in
    let queryPart1 := slot 0 (split colon query) in
    let queryPart2 := slot 1 (split colon query) in
    match keyPart1, queryPart1 with
    | Some k1, Some q1 => String.eqb k1 q1 && option_string_eqb queryPart2 "*"
    | _, _ => false
    end
  else false.

Definition unsubscribe (query : string) (callback : nat) (h : Hub) : Hub :=
  match mget query (subscribers h) with
  | None => h
  | Some callbacks =>
      let updatedCallbacks := filter (fun cb => negb (Nat.eqb cb callback)) callbacks in
      match updatedCallbacks with
      | _ :: _ => withSubscribers (mset query updatedCallbacks (subscribers h)) h
      | [] => withSubscribers (mdelete query (subscribers h)) h
      end
  end.

(** The function [internalSubscribe] returns. *)
Record Unsubscriber : Type := mkUnsubscriber {
  uQuery : string;
  uCallback : nat;
  manualUnsubscribe : bool
}.

Definition runUnsubscriber (u : Unsubscriber) (h : Hub) : Hub :=
  if manualUnsubscribe u then unsubscribe (uQuery u) (uCallback u) h else h.

Definition internalSubscribe (query : string) (callback : nat)
    (destroyRef : option nat) (h : Hub) : Unsubscriber * Hub :=
  let callbacks := match mget query (subscribers h) with
                   | Some l => l
                   | None => []
                   end in
  let h1 := withSubscribers (mset query (callbacks ++ [callback]) (subscribers h)) h in
  match destroyRef with
  | Some d =>
      (mkUnsubscriber query callback false,
       mkHub (eventQueue h1) (eventRegistry h1) (subscribers h1)
             (destroyHooks h1 ++ [(d, (query, callback))]) (log h1) (now h1) (nextId h1))
  | None => (mkUnsubscriber query callback true, h1)
  end.

Definition subscribe (query : string) (callback : nat) (destroyRef : option nat)
    (h : Hub) : Unsubscriber * Hub :=
  internalSubscribe query callback destroyRef h.

Section Dispatch.
(** [behaviour f ev] is [Some error] when the call [f(ev)] throws. *)
Variable behaviour : nat -> HubEvent -> option value.

Definition callSubscriber (query : string) (ev : HubEvent) (h : Hub) (callback : nat) : Hub :=
  let h1 := withLog (log h ++ [Called callback ev]) h in
  match behaviour callback ev with
  | Some error => withLog (log h1 ++ [Warned query error]) h1
  | None => h1
  end.

Definition notifySubscribers (ev : HubEvent) (h : Hub) : Hub :=
  fold_left
    (fun acc entry =>
       if matchQuery (key ev) (fst entry)
       then fold_left (callSubscriber (fst entry) ev) (snd entry) acc
       else acc)
    (subscribers h) h.

(** The body of the constructor's [effect]. *)
Definition drainQueue (h : Hub) : Hub :=
  match eventQueue h with
  | [] => h
  | queuedEvents =>
      let step (acc : jsmap HubEvent * Hub) (ev : HubEvent) :=
        (mset (key ev) ev (fst acc), notifySubscribers ev (snd acc)) in
      let '(updatedRegistry, h1) := fold_left step queuedEvents (eventRegistry h, h) in
      mkHub [] updatedRegistry (subscribers h1) (destroyHooks h1) (log h1) (now h1) (nextId h1)
  end.

End Dispatch.

Definition emit (key : string) (data : value) (h : Hub) : Result unit * Hub :=
  if falsy key then (Throw KeyCannotBeEmpty, h)
  else if looselyNull data then (Throw DataCannotBeNullOrUndefined, h)
  else
    let event := mkEvent (nextId h) key data (now h) in
    (Ok tt, mkHub (eventQueue h ++ [event]) (eventRegistry h) (subscribers h)
                  (destroyHooks h) (log h) (now h) (S (nextId h))).

Definition withRegistry (r : jsmap HubEvent) (h : Hub) : Hub :=
  mkHub (eventQueue h) r (subscribers h) (destroyHooks h) (log h) (now h) (nextId h).

(** A [Signal<A>] is read against the current state of the bus. *)
Definition Signal (A : Type) : Type := Hub -> A.

(** [toSignal(key)]: this generation does not check the key. *)
Definition toSignal (key : string) : Signal (option HubEvent) :=
  fun h => mget key (eventRegistry h).

(** [.filter(Boolean)] on an array of events and [undefined]. *)
Fixpoint filterBoolean {A} (l : list (option A)) : list A :=
  match l with
  | [] => []
  | Some a :: rest => a :: filterBoolean rest
  | None :: rest => filterBoolean rest
  end.

Definition toSignalMultiple (keys : list string) : Signal (list HubEvent) :=
  fun h =>
    let registry := eventRegistry h in
    filterBoolean (map (fun key => mget key registry) keys).

Definition drop (key : string) (h : Hub) : Hub :=
  withRegistry (mdelete key (eventRegistry h)) h.

Definition reset (h : Hub) : Hub := withRegistry [] h.

(** [destroyRef.onDestroy] callbacks run when the owner [d] is destroyed. *)
Definition triggerDestroy (d : nat) (h : Hub) : Hub :=
  let mine := filter (fun hook => Nat.eqb (fst hook) d) (destroyHooks h) in
  let h1 := fold_left (fun acc hook => unsubscribe (fst (snd hook)) (snd (snd hook)) acc) mine h in
  mkHub (eventQueue h1) (eventRegistry h1) (subscribers h1)
        (filter (fun hook => negb (Nat.eqb (fst hook) d)) (destroyHooks h1))
        (log h1) (now h1) (nextId h1).

End Bus.

(** ** [SignalHubService] of [signal-bus.service.ts]: queued dispatch *)

Module Queued.
Import Js.

(** Functions the registry can hold, known by reference.  [CbUser f] is a
    function of the caller; [CbOnce c u] and [CbOnceAsync c u] are the
    arrow functions [once] and [onceAsync] create, [c] naming the closure
    that holds their [hasRun] and [subscription] variables. *)
Inductive Callback : Type :=
| CbUser (f : nat)
| CbNotAFunction
| CbOnce (cell : nat) (user : Callback)
| CbOnceAsync (cell : nat) (user : Callback).

(** [a === b] on callbacks. *)
Fixpoint callback_eqb (a b : Callback) : bool :=
  match a, b with
  | CbUser f, CbUser g => Nat.eqb f g
  | CbNotAFunction, CbNotAFunction => true
  | CbOnce c u, CbOnce d v => Nat.eqb c d && callback_eqb u v
  | CbOnceAsync c u, CbOnceAsync d v => Nat.eqb c d && callback_eqb u v
  | _, _ => false
  end.

(** [typeof callback === 'function'] *)
Definition isFunction (cb : Callback) : bool :=
  match cb with
  | CbNotAFunction => false
  | _ => true
  end.

Record Entry : Type := mkEntry {
  callback : Callback;
  onError : option nat
}.

(** [HubSubscription]: the closure [{ unsubscribe }] of [internalSubscribe]. *)
Record HubSubscription : Type := mkSubscription {
  sQuery : string;
  sCallback : Callback;
  manualUnsubscribe : bool
}.

(** The local variables of one call of [once] or [onceAsync]. *)
Record Closure : Type := mkClosure {
  hasRun : bool;
  subscription : option HubSubscription
}.

(** Promise reactions waiting in the microtask queue. *)
Inductive Task : Type :=
| TCall (query : string) (entry : Entry) (ev : HubEvent)
    (* .then(() => callback(event)) *)
| TCatch (query : string) (entry : Entry) (error : value) (ev : HubEvent)
    (* .catch((error) => ...) *)
| TResume (cell : nat).
    (* the rest of the onceAsync arrow function after its await *)

Inductive LogItem : Type :=
| Called (cb : Callback) (ev : HubEvent)
| HandlerCalled (handler : nat) (error : value) (ev : HubEvent)
| Warned (query : string) (error : value)
| ReplayWarned (query : string) (error : value).

Record Hub : Type := mkHub {
  eventQueue : list HubEvent;
  eventRegistry : jsmap HubEvent;
  subscribers : jsmap (list Entry);
  closures : list (nat * Closure);
  destroyHooks : list (nat * (string * Callback));
  microtasks : list Task;
  log : list LogItem;
  now : Z;
  nextId : nat
}.

Definition empty : Hub := mkHub [] [] [] [] [] [] [] 0%Z 0.

Definition withQueue (q : list HubEvent) (h : Hub) : Hub :=
  mkHub q (eventRegistry h) (subscribers h) (closures h) (destroyHooks h)
        (microtasks h) (log h) (now h) (nextId h).

Definition withRegistry (r : jsmap HubEvent) (h : Hub) : Hub :=
  mkHub (eventQueue h) r (subscribers h) (closures h) (destroyHooks h)
        (microtasks h) (log h) (now h) (nextId h).

Definition withSubscribers (s : jsmap (list Entry)) (h : Hub) : Hub :=
  mkHub (eventQueue h) (eventRegistry h) s (closures h) (destroyHooks h)
        (microtasks h) (log h) (now h) (nextId h).

Definition withClosures (c : list (nat * Closure)) (h : Hub) : Hub :=
  mkHub (eventQueue h) (eventRegistry h) (subscribers h) c (destroyHooks h)
        (microtasks h) (log h) (now h) (nextId h).

Definition withDestroyHooks (d : list (nat * (string * Callback))) (h : Hub) : Hub :=
  mkHub (eventQueue h) (eventRegistry h) (subscribers h) (closures h) d
        (microtasks h) (log h) (now h) (nextId h).

Definition withMicrotasks (m : list Task) (h : Hub) : Hub :=
  mkHub (eventQueue h) (eventRegistry h) (subscribers h) (closures h) (destroyHooks h)
        m (log h) (now h) (nextId h).

Definition withLog (l : list LogItem) (h : Hub) : Hub :=
  mkHub (eventQueue h) (eventRegistry h) (subscribers h) (closures h) (destroyHooks h)
        (microtasks h) l (now h) (nextId h).

Definition withNow (t : Z) (h : Hub) : Hub :=
  mkHub (eventQueue h) (eventRegistry h) (subscribers h) (closures h) (destroyHooks h)
        (microtasks h) (log h) t (nextId h).

Definition withNextId (n : nat) (h : Hub) : Hub :=
  mkHub (eventQueue h) (eventRegistry h) (subscribers h) (closures h) (destroyHooks h)
        (microtasks h) (log h) (now h) n.

Definition addLog (item : LogItem) (h : Hub) : Hub := withLog (log h ++ [item]) h.
Definition addTask (t : Task) (h : Hub) : Hub := withMicrotasks (microtasks h ++ [t]) h.

(** The clock moves forward between two calls. *)
Definition tick (dt : N) (h : Hub) : Hub := withNow (now h + Z.of_N dt)%Z h.

Fixpoint lookupClosure (c : nat) (l : list (nat * Closure)) : Closure :=
  match l with
  | [] => mkClosure false None
  | (c', v) :: rest => if Nat.eqb c c' then v else lookupClosure c rest
  end.

Fixpoint storeClosure (c : nat) (v : Closure) (l : list (nat * Closure)) : list (nat * Closure) :=
  match l with
  | [] => [(c, v)]
  | (c', v') :: rest =>
      if Nat.eqb c c' then (c, v) :: rest else (c', v') :: storeClosure c v rest
  end.

Definition getClosure (c : nat) (h : Hub) : Closure := lookupClosure c (closures h).

Definition setHasRun (c : nat) (h : Hub) : Hub :=
  withClosures (storeClosure c (mkClosure true (subscription (getClosure c h))) (closures h)) h.

Definition setSubscription (c : nat) (s : HubSubscription) (h : Hub) : Hub :=
  withClosures (storeClosure c (mkClosure (hasRun (getClosure c h)) (Some s)) (closures h)) h.

Definition matchQuery (key query : string) : bool :=
  if String.eqb key query then true
  else if String.eqb query "*" then true
  else if includes colon key && includes colon query then
    let keyPart1 := slot 0 (split colon key) in
    let queryPart1 := slot 0 (split colon query) in
    let queryPart2 := slot 1 (split colon query) in
    match keyPart1, queryPart1 with
    | Some k1, Some q1 => String.eqb k1 q1 && option_string_eqb queryPart2 "*"
    | _, _ => false
    end
  else false.

Definition unsubscribe (query : string) (cb : Callback) (h : Hub) : Hub :=
  match mget query (subscribers h) with
  | None => h
  | Some callbacks =>
      let updatedCallbacks :=
        filter (fun sub => negb (callback_eqb (callback sub) cb)) callbacks in
      match updatedCallbacks with
      | _ :: _ => withSubscribers (mset query updatedCallbacks (subscribers h)) h
      | [] => withSubscribers (mdelete query (subscribers h)) h
      end
  end.

(** [subscription.unsubscribe()] *)
Definition runSubscription (s : HubSubscription) (h : Hub) : Hub :=
  if manualUnsubscribe s then unsubscribe (sQuery s) (sCallback s) h else h.

Definition internalSubscribe (query : string) (cb : Callback)
    (destroyRef : option nat) (onErr : option nat) (h : Hub) : HubSubscription * Hub :=
  let callbacks := match mget query (subscribers h) with
                   | Some l => l
                   | None => []
                   end in
  let h1 := withSubscribers (mset query (callbacks ++ [mkEntry cb onErr]) (subscribers h)) h in
  match destroyRef with
  | Some d =>
      (mkSubscription query cb false,
       withDestroyHooks (destroyHooks h1 ++ [(d, (query, cb))]) h1)
  | None => (mkSubscription query cb true, h1)
  end.

(** [destroyRef.onDestroy] callbacks run when the owner [d] is destroyed. *)
Definition triggerDestroy (d : nat) (h : Hub) : Hub :=
  let mine := filter (fun hook => Nat.eqb (fst hook) d) (destroyHooks h) in
  let h1 := fold_left (fun acc hook => unsubscribe (fst (snd hook)) (snd (snd hook)) acc) mine h in
  withDestroyHooks (filter (fun hook => negb (Nat.eqb (fst hook) d)) (destroyHooks h1)) h1.

Definition publish (key : string) (data : value) (h : Hub) : Result unit * Hub :=
  if falsy key then (Throw KeyCannotBeEmpty, h)
  else if looselyNull data then (Throw DataCannotBeNullOrUndefined, h)
  else
    let event := mkEvent (nextId h) key data (now h) in
    (Ok tt, withNextId (S (nextId h)) (withQueue (eventQueue h ++ [event]) h)).

Definition publishNoData (key : string) (h : Hub) : Result unit * Hub :=
  if falsy key then (Throw KeyCannotBeEmpty, h)
  else
    let event := mkEvent (nextId h) key JUndefined (now h) in
    (Ok tt, withNextId (S (nextId h)) (withQueue (eventQueue h ++ [event]) h)).

(** A [Signal<A>] is read against the current state of the hub. *)
Definition Signal (A : Type) : Type := Hub -> A.

Definition toSignal (key : string) : Result (Signal (option HubEvent)) :=
  if falsy key then Throw KeyCannotBeEmpty
  else Ok (fun h => mget key (eventRegistry h)).

Fixpoint filterBoolean {A} (l : list (option A)) : list A :=
  match l with
  | [] => []
  | Some a :: rest => a :: filterBoolean rest
  | None :: rest => filterBoolean rest
  end.

Definition toSignalMultiple (keys : list string) : Result (Signal (list HubEvent)) :=
  match keys with
  | [] => Throw KeysArrayCannotBeEmpty
  | _ =>
      if existsb falsy keys then Throw AllKeysMustBeNonEmpty
      else Ok (fun h =>
                 let registry := eventRegistry h in
                 filterBoolean (map (fun key => mget key registry) keys))
  end.

Definition clearEvent (key : string) (h : Hub) : Result unit * Hub :=
  if falsy key then (Throw KeyCannotBeEmpty, h)
  else (Ok tt, withRegistry (mdelete key (eventRegistry h)) h).

Definition reset (clearSubscribers : bool) (h : Hub) : Hub :=
  let h1 := withRegistry [] h in
  if clearSubscribers then withSubscribers [] h1 else h1.

(** [unsubscribeAll(key?)]: an absent or empty key clears everything. *)
Definition unsubscribeAll (key : option string) (h : Hub) : Hub :=
  match key with
  | Some k => if falsy k then withSubscribers [] h
              else withSubscribers (mdelete k (subscribers h)) h
  | None => withSubscribers [] h
  end.

Record HubEventOptions : Type := mkOptions {
  optKey : string;
  optCallback : Callback;
  optDestroyRef : option nat;
  optReplayLatest : bool;
  optOnError : option nat
}.

Section Dispatch.
(** What the caller's function [f] does when it is called with an event. *)
Variable behaviour : nat -> HubEvent -> Outcome.

(** A call [cb(ev)]: its outcome and the state it leaves. *)
Fixpoint invoke (cb : Callback) (ev : HubEvent) (h : Hub) : Outcome * Hub :=
  match cb with
  | CbUser f => (behaviour f ev, addLog (Called cb ev) h)
  | CbNotAFunction => (Threw (JStr "TypeError"), h)
  | CbOnce c user =>
      let h0 := addLog (Called cb ev) h in
      if hasRun (getClosure c h0) then (Returned, h0)
      else
        let h1 := setHasRun c h0 in
        let h2 := match subscription (getClosure c h1) with
                  | Some s => runSubscription s h1
                  | None => h1
                  end in
        let '(out, h3) := invoke user ev h2 in
        (match out with
         | Threw error => Threw error
         | _ => Returned
         end, h3)
  | CbOnceAsync c user =>
      let h0 := addLog (Called cb ev) h in
      let '(out, h1) := invoke user ev h0 in
      match out with
      | Threw error | Rejected error => (Rejected error, h1)
      | _ => (Resolved, addTask (TResume c) h1)
      end
  end.

(** One promise reaction: [TCall] is the reaction [() => callback(event)]
    of [notifySubscribers], [TCatch] its [catch] reaction, [TResume] the
    rest of the arrow function of [onceAsync] after its [await].  The
    [catch] reaction of a promise that the callback handed back and that
    rejects is queued here at once, like the one of an exception; an
    engine queues it some microtasks later.  The order in which the
    handlers of several subscribers run is therefore not the engine's,
    and nothing is stated about it.  An [onError] handler runs inside its
    reaction: what it throws rejects a promise nobody waits for and
    changes nothing in the service, so handlers are not followed further
    here. *)
Definition runTask (t : Task) (h : Hub) : Hub :=
  match t with
  | TCall query entry ev =>
      let '(out, h1) := invoke (callback entry) ev h in
      match out with
      | Threw error | Rejected error => addTask (TCatch query entry error ev) h1
      | _ => h1
      end
  | TCatch query entry error ev =>
      match onError entry with
      | Some handler => addLog (HandlerCalled handler error ev) h
      | None => addLog (Warned query error) h
      end
  | TResume c =>
      match subscription (getClosure c h) with
      | Some s => runSubscription s h
      | None => h
      end
  end.

(** The microtask queue is served first in, first out. *)
Fixpoint runTasks (fuel : nat) (h : Hub) : Hub :=
  match fuel with
  | O => h
  | S fuel' =>
      match microtasks h with
      | [] => h
      | t :: rest => runTasks fuel' (runTask t (withMicrotasks rest h))
      end
  end.

(** The reactions a task can still put into the queue: a call may leave
    one [TResume] for every [onceAsync] arrow function it goes through and
    one [TCatch]; the other tasks leave none. *)
Fixpoint resumptions (cb : Callback) : nat :=
  match cb with
  | CbUser _ | CbNotAFunction => 0
  | CbOnce _ user => resumptions user
  | CbOnceAsync _ user => S (resumptions user)
  end.

Definition taskWeight (t : Task) : nat :=
  match t with
  | TCall _ entry _ => 2 + resumptions (callback entry)
  | _ => 1
  end.

Definition runMicrotasks (h : Hub) : Hub :=
  runTasks (list_sum (map taskWeight (microtasks h))) h.

Definition notifySubscribers (ev : HubEvent) (h : Hub) : Hub :=
  fold_left
    (fun acc group =>
       if matchQuery (key ev) (fst group)
       then fold_left (fun acc' entry => addTask (TCall (fst group) entry ev) acc')
                      (snd group) acc
       else acc)
    (subscribers h) h.

(** The body of the constructor's [effect]. *)
Definition drainQueue (h : Hub) : Hub :=
  match eventQueue h with
  | [] => h
  | queuedEvents =>
      let step (acc : jsmap HubEvent * Hub) (ev : HubEvent) :=
        (mset (key ev) ev (fst acc), notifySubscribers ev (snd acc)) in
      let '(updatedRegistry, h1) := fold_left step queuedEvents (eventRegistry h, h) in
      withQueue [] (withRegistry updatedRegistry h1)
  end.

(** One scheduling tick: the effect runs, then the promise reactions. *)
Definition settle (h : Hub) : Hub := runMicrotasks (drainQueue h).

Definition reportReplayError (o : HubEventOptions) (error : value) (ev : HubEvent)
    (h : Hub) : Hub :=
  match optOnError o with
  | Some handler => addLog (HandlerCalled handler error ev) h
  | None => addLog (ReplayWarned (optKey o) error) h
  end.

Definition subscribe (o : HubEventOptions) (h : Hub) : Result HubSubscription * Hub :=
  if falsy (optKey o) then (Throw KeyCannotBeEmpty, h)
  else if negb (isFunction (optCallback o)) then (Throw CallbackMustBeAFunction, h)
  else
    let h1 :=
      if optReplayLatest o then
        match mget (optKey o) (eventRegistry h) with
        | Some latestEvent =>
            let '(out, h') := invoke (optCallback o) latestEvent h in
            match out with
            | Threw error => reportReplayError o error latestEvent h'
            | _ => h'
            end
        | None => h
        end
      else h in
    let '(s, h2) := internalSubscribe (optKey o) (optCallback o)
                      (optDestroyRef o) (optOnError o) h1 in
    (Ok s, h2).

(** An [await] lets the pending promise reactions run; a [Throw] result
    of an async method is the rejection of the promise it returns. *)
Definition subscribeAsync (o : HubEventOptions) (h : Hub) : Result HubSubscription * Hub :=
  if falsy (optKey o) then (Throw KeyCannotBeEmpty, h)
  else if negb (isFunction (optCallback o)) then (Throw CallbackMustBeAFunction, h)
  else
    let h1 :=
      if optReplayLatest o then
        match mget (optKey o) (eventRegistry h) with
        | Some latestEvent =>
            let '(out, h') := invoke (optCallback o) latestEvent h in
            let h'' := runMicrotasks h' in
            match out with
            | Threw error | Rejected error => reportReplayError o error latestEvent h''
            | _ => h''
            end
        | None => h
        end
      else h in
    let '(s, h2) := internalSubscribe (optKey o) (optCallback o)
                      (optDestroyRef o) (optOnError o) h1 in
    (Ok s, h2).

Definition on (o : HubEventOptions) (h : Hub) : Result HubSubscription * Hub :=
  subscribe (mkOptions (optKey o) (optCallback o) (optDestroyRef o)
                       (optReplayLatest o) (optOnError o)) h.

Definition onAsync (o : HubEventOptions) (h : Hub) : Result HubSubscription * Hub :=
  subscribeAsync (mkOptions (optKey o) (optCallback o) (optDestroyRef o)
                            (optReplayLatest o) (optOnError o)) h.

Definition newClosure (h : Hub) : nat * Hub :=
  (nextId h,
   withNextId (S (nextId h))
     (withClosures (storeClosure (nextId h) (mkClosure false None) (closures h)) h)).

Definition once (o : HubEventOptions) (h : Hub) : Result HubSubscription * Hub :=
  let '(c, h0) := newClosure h in
  let '(r, h1) := subscribe (mkOptions (optKey o) (CbOnce c (optCallback o)) None
                                       (optReplayLatest o) (optOnError o)) h0 in
  match r with
  | Ok s => (Ok s, setSubscription c s h1)
  | Throw e => (Throw e, h1)
  end.

Definition onceAsync (o : HubEventOptions) (h : Hub) : Result HubSubscription * Hub :=
  let '(c, h0) := newClosure h in
  let '(r, h1) := subscribeAsync (mkOptions (optKey o) (CbOnceAsync c (optCallback o)) None
                                            (optReplayLatest o) (optOnError o)) h0 in
  match r with
  | Ok s => (Ok s, setSubscription c s (runMicrotasks h1))
  | Throw e => (Throw e, h1)
  end.

End Dispatch.

End Queued.

(** ** The later [SignalHubService]: synchronous dispatch *)

Module Sync.
Import Js.

(** Functions held by subscriber records.  Besides the caller's functions
    there are the three closures the service builds itself:
    [onceCallback] of [once], the [unsubscribeAll] of an [on] call
    (registered under its stop keys) and the self-removing wrapper that
    [internalSubscribe] installs when [once = true]. *)
Inductive Callback : Type :=
| CbUser (f : nat)
| CbNotAFunction
| CbOnce (cell : nat) (user : Callback) (onErr : option nat) (key : string)
| CbUnsubscribeAll (reg : nat)
| CbSelfRemoving (query : string) (sid : nat) (original : Callback).

Definition isFunction (cb : Callback) : bool :=
  match cb with
  | CbNotAFunction => false
  | _ => true
  end.

(** The object [{ callback, onError }]; [sid] is its identity in the [Set]. *)
Record Subscriber : Type := mkSubscriber {
  sid : nat;
  callback : Callback;
  onError : option nat
}.

(** The two teardown closures the service creates: the [unsubscribe] of
    [internalSubscribe] and [() => effectRef.destroy()]. *)
Inductive Teardown : Type :=
| RemoveSubscriber (query : string) (subscriber : nat)
| DestroyEffect (effect : nat).

(** The [unsubscribe] member of a returned [HubSubscription]. *)
Inductive HubSubscription : Type :=
| Inert                          (* () => {} *)
| Single (t : Teardown)
| UnsubscribeAll (reg : nat).    (* the unsubscribeAll of one call of on *)

(** The variables [unsubscribers] and [mainSubscription] of a call of [on]. *)
Record Registration : Type := mkRegistration {
  unsubscribers : list Teardown;
  mainSubscription : option Teardown
}.

Inductive Condition : Type :=
| StopKey (key : string)
| StopSignal (signal : nat).

(** [until?: c | c[]] *)
Inductive Until : Type :=
| NoUntil
| UntilOne (c : Condition)
| UntilMany (cs : list Condition).

Inductive SortBy : Type :=
| Unsorted
| ByTimestamp
| ByKey.

Record HubEventOptions : Type := mkOptions {
  optKey : string;
  optCallback : Callback;
  optDestroyRef : option nat;
  optReplayLatest : bool;
  optOnError : option nat;
  optUntil : Until
}.

Record HubCombineLatestOptions : Type := mkCombineOptions {
  optKeys : list string;
  optCombineCallback : nat;
  optCombineDestroyRef : option nat;
  optCombineReplayLatest : bool;
  optCombineOnError : option nat;
  optSortBy : SortBy
}.

(** What an [onCombineLatest] effect remembers from its last poll: whether
    it ever ran, the values its source signals had, and the version of
    [eventRegistry] it read, when it read it. *)
Record CombineState : Type := mkCombineState {
  hasRunOnce : bool;
  seenSources : list (option HubEvent);
  seenRegistry : option nat
}.

Inductive EffectBody : Type :=
| UntilSignal (signal : nat) (reg : nat)
| CombineLatest (o : HubCombineLatestOptions) (st : CombineState).

Record Effect : Type := mkEffect {
  eid : nat;
  body : EffectBody
}.

(** A rejected promise whose [catch] reaction is still to run. *)
Inductive Task : Type :=
| TCatch (query : string) (handler : option nat) (error : value) (ev : HubEvent).

Inductive LogItem : Type :=
| Called (cb : Callback) (ev : HubEvent)
| CombineCalled (effect : nat) (f : nat) (events : list HubEvent)
| HandlerCalled (handler : nat) (error : value) (ev : HubEvent)
| CombineHandlerCalled (handler : nat) (error : value) (events : list HubEvent)
| Warned (query : string) (eventKey : string) (error : value)
| CombineWarned (keys : list string) (error : value).

Record Hub : Type := mkHub {
  eventRegistry : jsmap HubEvent;
  registryVersion : nat;          (* counts the writes of the eventRegistry signal *)
  subscribers : jsmap (list Subscriber);
  registrations : list (nat * Registration);
  onceCells : list (nat * option HubSubscription);
  effects : list Effect;
  signals : list (nat * bool);    (* the Signal<boolean> conditions of callers *)
  destroyHooks : list (nat * Teardown);
  microtasks : list Task;
  log : list LogItem;
  now : Z;
  nextId : nat
}.

Definition empty : Hub := mkHub [] 0 [] [] [] [] [] [] [] [] 0%Z 0.

Definition withRegistry (r : jsmap HubEvent) (h : Hub) : Hub :=
  mkHub r (S (registryVersion h)) (subscribers h) (registrations h) (onceCells h)
        (effects h) (signals h) (destroyHooks h) (microtasks h) (log h) (now h) (nextId h).

Definition withSubscribers (s : jsmap (list Subscriber)) (h : Hub) : Hub :=
  mkHub (eventRegistry h) (registryVersion h) s (registrations h) (onceCells h)
        (effects h) (signals h) (destroyHooks h) (microtasks h) (log h) (now h) (nextId h).

Definition withRegistrations (r : list (nat * Registration)) (h : Hub) : Hub :=
  mkHub (eventRegistry h) (registryVersion h) (subscribers h) r (onceCells h)
        (effects h) (signals h) (destroyHooks h) (microtasks h) (log h) (now h) (nextId h).

Definition withOnceCells (c : list (nat * option HubSubscription)) (h : Hub) : Hub :=
  mkHub (eventRegistry h) (registryVersion h) (subscribers h) (registrations h) c
        (effects h) (signals h) (destroyHooks h) (microtasks h) (log h) (now h) (nextId h).

Definition withEffects (e : list Effect) (h : Hub) : Hub :=
  mkHub (eventRegistry h) (registryVersion h) (subscribers h) (registrations h) (onceCells h)
        e (signals h) (destroyHooks h) (microtasks h) (log h) (now h) (nextId h).

Definition withSignals (s : list (nat * bool)) (h : Hub) : Hub :=
  mkHub (eventRegistry h) (registryVersion h) (subscribers h) (registrations h) (onceCells h)
        (effects h) s (destroyHooks h) (microtasks h) (log h) (now h) (nextId h).

Definition withDestroyHooks (d : list (nat * Teardown)) (h : Hub) : Hub :=
  mkHub (eventRegistry h) (registryVersion h) (subscribers h) (registrations h) (onceCells h)
        (effects h) (signals h) d (microtasks h) (log h) (now h) (nextId h).

Definition withMicrotasks (m : list Task) (h : Hub) : Hub :=
  mkHub (eventRegistry h) (registryVersion h) (subscribers h) (registrations h) (onceCells h)
        (effects h) (signals h) (destroyHooks h) m (log h) (now h) (nextId h).

Definition withLog (l : list LogItem) (h : Hub) : Hub :=
  mkHub (eventRegistry h) (registryVersion h) (subscribers h) (registrations h) (onceCells h)
        (effects h) (signals h) (destroyHooks h) (microtasks h) l (now h) (nextId h).

Definition withNow (t : Z) (h : Hub) : Hub :=
  mkHub (eventRegistry h) (registryVersion h) (subscribers h) (registrations h) (onceCells h)
        (effects h) (signals h) (destroyHooks h) (microtasks h) (log h) t (nextId h).

Definition withNextId (n : nat) (h : Hub) : Hub :=
  mkHub (eventRegistry h) (registryVersion h) (subscribers h) (registrations h) (onceCells h)
        (effects h) (signals h) (destroyHooks h) (microtasks h) (log h) (now h) n.

Definition addLog (item : LogItem) (h : Hub) : Hub := withLog (log h ++ [item]) h.
Definition addTask (t : Task) (h : Hub) : Hub := withMicrotasks (microtasks h ++ [t]) h.
Definition tick (dt : N) (h : Hub) : Hub := withNow (now h + Z.of_N dt)%Z h.

(** Allocation of a fresh identity. *)
Definition fresh (h : Hub) : nat * Hub := (nextId h, withNextId (S (nextId h)) h).

Fixpoint lookup {V} (n : nat) (l : list (nat * V)) : option V :=
  match l with
  | [] => None
  | (n', v) :: rest => if Nat.eqb n n' then Some v else lookup n rest
  end.

Fixpoint store {V} (n : nat) (v : V) (l : list (nat * V)) : list (nat * V) :=
  match l with
  | [] => [(n, v)]
  | (n', v') :: rest =>
      if Nat.eqb n n' then (n, v) :: rest else (n', v') :: store n v rest
  end.

(** [signal()] of a caller's boolean signal. *)
Definition readSignal (s : nat) (h : Hub) : bool :=
  match lookup s (signals h) with
  | Some b => b
  | None => false
  end.

(** The caller writes one of its boolean signals. *)
Definition setSignal (s : nat) (b : bool) (h : Hub) : Hub :=
  withSignals (store s b (signals h)) h.

Definition buildWildcardRegex (query : string) : string := Regex.buildWildcardRegex query.

Definition matchQuery (key query : string) : bool :=
  if String.eqb query "*" || String.eqb key query then true
  else if negb (includes star query) then false
  else Regex.test (buildWildcardRegex query) key.

(** The [unsubscribe] closure of [internalSubscribe]. *)
Definition removeSubscriber (query : string) (subscriber : nat) (h : Hub) : Hub :=
  match mget query (subscribers h) with
  | None => h
  | Some currentSubscribers =>
      let remaining := filter (fun s => negb (Nat.eqb (sid s) subscriber)) currentSubscribers in
      match remaining with
      | [] => withSubscribers (mdelete query (subscribers h)) h
      | _ :: _ => withSubscribers (mset query remaining (subscribers h)) h
      end
  end.

(** [effectRef.destroy()] *)
Definition destroyEffect (e : nat) (h : Hub) : Hub :=
  withEffects (filter (fun x => negb (Nat.eqb (eid x) e)) (effects h)) h.

Definition runTeardown (t : Teardown) (h : Hub) : Hub :=
  match t with
  | RemoveSubscriber query subscriber => removeSubscriber query subscriber h
  | DestroyEffect e => destroyEffect e h
  end.

(** [unsubscribeAll] of the call of [on] that owns registration [reg]. *)
Definition unsubscribeAll (reg : nat) (h : Hub) : Hub :=
  match lookup reg (registrations h) with
  | None => h
  | Some r =>
      let h1 := fold_left (fun acc unsub => runTeardown unsub acc) (unsubscribers r) h in
      match mainSubscription r with
      | Some main => runTeardown main h1
      | None => h1
      end
  end.

(** [subscription.unsubscribe()] *)
Definition runSubscription (s : HubSubscription) (h : Hub) : Hub :=
  match s with
  | Inert => h
  | Single t => runTeardown t h
  | UnsubscribeAll reg => unsubscribeAll reg h
  end.

Definition internalSubscribe (query : string) (cb : Callback) (destroyRef : option nat)
    (onErr : option nat) (once : bool) (h : Hub) : Teardown * Hub :=
  let '(id, h0) := fresh h in
  let subscriber := mkSubscriber id (if once then CbSelfRemoving query id cb else cb) onErr in
  let subscriberSet := match mget query (subscribers h0) with
                       | Some set => set
                       | None => []
                       end in
  let h1 := withSubscribers (mset query (subscriberSet ++ [subscriber]) (subscribers h0)) h0 in
  let unsubscribe := RemoveSubscriber query id in
  match destroyRef with
  | Some d => (unsubscribe, withDestroyHooks (destroyHooks h1 ++ [(d, unsubscribe)]) h1)
  | None => (unsubscribe, h1)
  end.

Definition triggerDestroy (d : nat) (h : Hub) : Hub :=
  let mine := filter (fun hook => Nat.eqb (fst hook) d) (destroyHooks h) in
  let h1 := fold_left (fun acc hook => runTeardown (snd hook) acc) mine h in
  withDestroyHooks (filter (fun hook => negb (Nat.eqb (fst hook) d)) (destroyHooks h1)) h1.

(** [handleError(error, event, handler, query)] *)
Definition handleError (error : value) (ev : HubEvent) (handler : option nat)
    (query : string) (h : Hub) : Hub :=
  match handler with
  | Some g => addLog (HandlerCalled g error ev) h
  | None => addLog (Warned query (key ev) error) h
  end.

Definition findLatestEventForKey (k : string) (h : Hub) : option HubEvent :=
  if negb (includes star k) then mget k (eventRegistry h)
  else
    let regex := buildWildcardRegex k in
    fold_left
      (fun latestEvent entry =>
         if Regex.test regex (fst entry) then
           match latestEvent with
           | None => Some (snd entry)
           | Some latest =>
               if (timestamp latest <? timestamp (snd entry))%Z then Some (snd entry)
               else latestEvent
           end
         else latestEvent)
      (eventRegistry h) None.

Definition Signal (A : Type) : Type := Hub -> A.

Definition toSignal (k : string) : Result (Signal (option HubEvent)) :=
  if falsy k then Throw KeyCannotBeEmpty
  else if includes star k then Throw ToSignalDoesNotSupportWildcards
  else Ok (fun h => mget k (eventRegistry h)).

Definition clearEvent (k : string) (h : Hub) : Result unit * Hub :=
  if falsy k then (Throw KeyCannotBeEmpty, h)
  else (Ok tt, withRegistry (mdelete k (eventRegistry h)) h).

Definition reset (clearSubscribers : bool) (h : Hub) : Hub :=
  let h1 := withRegistry [] h in
  if clearSubscribers then withSubscribers [] h1 else h1.

(** [if (until)]: absent and the empty string are falsy. *)
Definition conditionsOf (u : Until) : option (list Condition) :=
  match u with
  | NoUntil => None
  | UntilOne (StopKey k) => if falsy k then None else Some [StopKey k]
  | UntilOne c => Some [c]
  | UntilMany cs => Some cs
  end.

Definition signalIsTrue (h : Hub) (c : Condition) : bool :=
  match c with
  | StopKey _ => false
  | StopSignal s => readSignal s h
  end.

Definition pushUnsubscriber (reg : nat) (t : Teardown) (h : Hub) : Hub :=
  match lookup reg (registrations h) with
  | Some r =>
      withRegistrations
        (store reg (mkRegistration (unsubscribers r ++ [t]) (mainSubscription r))
               (registrations h)) h
  | None => h
  end.

Definition setMainSubscription (reg : nat) (t : Teardown) (h : Hub) : Hub :=
  match lookup reg (registrations h) with
  | Some r =>
      withRegistrations
        (store reg (mkRegistration (unsubscribers r) (Some t)) (registrations h)) h
  | None => h
  end.

(** One turn of the loop [for (const condition of conditions)]. *)
Definition installCondition (reg : nat) (h : Hub) (c : Condition) : Hub :=
  match c with
  | StopKey k =>
      let '(sub, h1) := internalSubscribe k (CbUnsubscribeAll reg) None None true h in
      pushUnsubscriber reg sub h1
  | StopSignal s =>
      let '(e, h1) := fresh h in
      let h2 := withEffects (effects h1 ++ [mkEffect e (UntilSignal s reg)]) h1 in
      pushUnsubscriber reg (DestroyEffect e) h2
  end.

Fixpoint filterNonNull {A} (l : list (option A)) : list A :=
  match l with
  | [] => []
  | Some a :: rest => a :: filterNonNull rest
  | None :: rest => filterNonNull rest
  end.

Definition isNone {A} (o : option A) : bool :=
  match o with
  | None => true
  | Some _ => false
  end.

Fixpoint sameSources (a b : list (option HubEvent)) : bool :=
  match a, b with
  | [], [] => true
  | x :: a', y :: b' => sameEventOpt x y && sameSources a' b'
  | _, _ => false
  end.

Definition findEffect (e : nat) (h : Hub) : option Effect :=
  find (fun x => Nat.eqb (eid x) e) (effects h).

Definition updateEffect (e : nat) (b : EffectBody) (h : Hub) : Hub :=
  withEffects
    (map (fun x => if Nat.eqb (eid x) e then mkEffect e b else x) (effects h)) h.

(** [toSignal] applied to every key of [onCombineLatest]; the first
    failure is the one thrown. *)
Fixpoint firstToSignalError (keys : list string) : option Error :=
  match keys with
  | [] => None
  | k :: rest =>
      match toSignal k with
      | Throw e => Some e
      | Ok _ => firstToSignalError rest
      end
  end.

Definition isSubscribed (query : string) (subscriber : nat) (h : Hub) : bool :=
  match mget query (subscribers h) with
  | Some set => existsb (fun s => Nat.eqb (sid s) subscriber) set
  | None => false
  end.

Section Dispatch.
(** What the caller's functions do when called: [behaviour] for event
    callbacks, [combineBehaviour] for [onCombineLatest] callbacks; and
    the collation [String.prototype.localeCompare] of the host. *)
Variable behaviour : nat -> HubEvent -> Outcome.
Variable combineBehaviour : nat -> list HubEvent -> Outcome.
Variable localeCompare : string -> string -> Z.

Definition getOnceCell (c : nat) (h : Hub) : option HubSubscription :=
  match lookup c (onceCells h) with
  | Some s => s
  | None => None
  end.

(** A call [cb(ev)]: its outcome and the state it leaves. *)
Fixpoint invoke (cb : Callback) (ev : HubEvent) (h : Hub) : Outcome * Hub :=
  match cb with
  | CbUser f => (behaviour f ev, addLog (Called cb ev) h)
  | CbNotAFunction => (Threw (JStr "TypeError"), h)
  | CbOnce c user onErr k =>
      let h0 := addLog (Called cb ev) h in
      let h1 := match getOnceCell c h0 with
                | Some s => runSubscription s h0
                | None => h0
                end in
      let '(out, h2) := invoke user ev h1 in
      match out with
      | Threw error => (Returned, handleError error ev onErr k h2)
      | _ => (Returned, h2)
      end
  | CbUnsubscribeAll reg =>
      (Returned, unsubscribeAll reg (addLog (Called cb ev) h))
  | CbSelfRemoving query subscriber original =>
      let h0 := addLog (Called cb ev) h in
      invoke original ev (removeSubscriber query subscriber h0)
  end.

(** The body of the inner [forEach] of [notifySubscribers]. *)
Definition deliver (query : string) (ev : HubEvent) (s : Subscriber) (h : Hub) : Hub :=
  let '(out, h1) := invoke (callback s) ev h in
  match out with
  | Threw error => handleError error ev (onError s) query h1
  | Rejected error => addTask (TCatch query (onError s) error ev) h1
  | _ => h1
  end.

(** [Set.prototype.forEach] and [Map.prototype.forEach] skip what was
    deleted before its turn came.  No callback of this model adds a
    subscriber while an event is fanned out, so the walk is over the
    members present at its start, each checked again when reached. *)
Fixpoint notifySet (ev : HubEvent) (query : string) (pending : list Subscriber)
    (h : Hub) : Hub :=
  match pending with
  | [] => h
  | s :: rest =>
      notifySet ev query rest
        (if isSubscribed query (sid s) h then deliver query ev s h else h)
  end.

Fixpoint notifyQueries (ev : HubEvent) (pending : list string) (h : Hub) : Hub :=
  match pending with
  | [] => h
  | query :: rest =>
      notifyQueries ev rest
        (match mget query (subscribers h) with
         | Some set => if matchQuery (key ev) query then notifySet ev query set h else h
         | None => h
         end)
  end.

Definition notifySubscribers (ev : HubEvent) (h : Hub) : Hub :=
  notifyQueries ev (mkeys (subscribers h)) h.

Definition publish (k : string) (d : value) (h : Hub) : Result unit * Hub :=
  if falsy k then (Throw KeyCannotBeEmpty, h)
  else
    let '(id, h0) := fresh h in
    let event := mkEvent id k d (now h0) in
    let h1 := withRegistry (mset k event (eventRegistry h0)) h0 in
    (Ok tt, notifySubscribers event h1).

Definition runTask (h : Hub) (t : Task) : Hub :=
  match t with
  | TCatch query handler error ev => handleError error ev handler query h
  end.

(** The pending [catch] reactions run once the current call has returned. *)
Definition runMicrotasks (h : Hub) : Hub :=
  fold_left runTask (microtasks h) (withMicrotasks [] h).

Definition replay (o : HubEventOptions) (h : Hub) : Hub :=
  if optReplayLatest o then
    match findLatestEventForKey (optKey o) h with
    | Some latestEvent =>
        let '(out, h1) := invoke (optCallback o) latestEvent h in
        match out with
        | Threw error => handleError error latestEvent (optOnError o) (optKey o) h1
        | _ => h1
        end
    | None => h
    end
  else h.

Definition on (o : HubEventOptions) (h : Hub) : Result HubSubscription * Hub :=
  if falsy (optKey o) then (Throw KeyCannotBeEmpty, h)
  else if negb (isFunction (optCallback o)) then (Throw CallbackMustBeAFunction, h)
  else
    let conditions := match conditionsOf (optUntil o) with
                      | Some cs => cs
                      | None => []
                      end in
    if existsb (signalIsTrue h) conditions then (Ok Inert, h)
    else
      let '(reg, h0) := fresh h in
      let h1 := withRegistrations (store reg (mkRegistration [] None) (registrations h0)) h0 in
      let h2 := fold_left (installCondition reg) conditions h1 in
      let h3 := replay o h2 in
      let '(main, h4) := internalSubscribe (optKey o) (optCallback o)
                           (optDestroyRef o) (optOnError o) false h3 in
      (Ok (UnsubscribeAll reg), setMainSubscription reg main h4).

Definition subscribe := on.

Definition once (o : HubEventOptions) (h : Hub) : Result HubSubscription * Hub :=
  let '(c, h0) := fresh h in
  let h1 := withOnceCells (store c None (onceCells h0)) h0 in
  let onceCallback := CbOnce c (optCallback o) (optOnError o) (optKey o) in
  let '(r, h2) := on (mkOptions (optKey o) onceCallback None (optReplayLatest o)
                                (optOnError o) (optUntil o)) h1 in
  match r with
  | Ok s => (Ok s, withOnceCells (store c (Some s) (onceCells h2)) h2)
  | Throw e => (Throw e, h2)
  end.

Definition byTimestamp (a b : HubEvent) : Z := (timestamp b - timestamp a)%Z.
Definition byKey (a b : HubEvent) : Z := localeCompare (key a) (key b).

Definition sortEvents (sortBy : SortBy) (events : list HubEvent) : list HubEvent :=
  match sortBy with
  | ByTimestamp => sort byTimestamp events
  | ByKey => sort byKey events
  | Unsorted => events
  end.

(** The value of [combinedSignal] for given values of the source signals. *)
Definition combinedValue (o : HubCombineLatestOptions)
    (sources : list (option HubEvent)) : option (list HubEvent) :=
  let events := filterNonNull sources in
  if Nat.eqb (List.length events) (List.length (optKeys o))
  then Some (sortEvents (optSortBy o) events)
  else None.

Definition reportCombineError (o : HubCombineLatestOptions) (error : value)
    (events : list HubEvent) (h : Hub) : Hub :=
  match optCombineOnError o with
  | Some g => addLog (CombineHandlerCalled g error events) h
  | None => addLog (CombineWarned (optKeys o) error) h
  end.

(** The effect of [onCombineLatest], when the scheduler reaches it.  It
    first polls its producers: [combinedSignal] has changed when a source
    signal holds another object than at the last poll, unless it was
    [null] and stays [null]; [eventRegistry] has changed when it was
    written since the run that read it.  The body runs on the first turn
    and whenever a producer has changed. *)
Definition runCombine (e : nat) (o : HubCombineLatestOptions) (st : CombineState)
    (h : Hub) : Hub :=
  let current := map (fun k => mget k (eventRegistry h)) (optKeys o) in
  let previous := combinedValue o (seenSources st) in
  let combined := combinedValue o current in
  let combinedChanged :=
    negb (sameSources (seenSources st) current) && negb (isNone previous && isNone combined) in
  let registryChanged :=
    match seenRegistry st with
    | Some v => negb (Nat.eqb v (registryVersion h))
    | None => false
    end in
  if hasRunOnce st && negb (combinedChanged || registryChanged) then
    updateEffect e (CombineLatest o (mkCombineState true current (seenRegistry st))) h
  else
    match combined with
    | None => updateEffect e (CombineLatest o (mkCombineState true current None)) h
    | Some combinedEvents =>
        if negb (optCombineReplayLatest o) && Nat.eqb (List.length (eventRegistry h)) 0
        then updateEffect e
               (CombineLatest o (mkCombineState true current (Some (registryVersion h)))) h
        else
          let h1 := updateEffect e
                      (CombineLatest o
                         (mkCombineState true current
                            (if optCombineReplayLatest o then None
                             else Some (registryVersion h)))) h in
          let h2 := addLog (CombineCalled e (optCombineCallback o) combinedEvents) h1 in
          match combineBehaviour (optCombineCallback o) combinedEvents with
          | Threw error => reportCombineError o error combinedEvents h2
          | _ => h2
          end
    end.

Definition runEffect (e : Effect) (h : Hub) : Hub :=
  match body e with
  | UntilSignal s reg => if readSignal s h then unsubscribeAll reg h else h
  | CombineLatest o st => runCombine (eid e) o st h
  end.

(** The scheduler runs every effect that is still alive. *)
Fixpoint flushPending (pending : list nat) (h : Hub) : Hub :=
  match pending with
  | [] => h
  | e :: rest =>
      flushPending rest
        (match findEffect e h with
         | Some eff => runEffect eff h
         | None => h
         end)
  end.

Definition flushEffects (h : Hub) : Hub := flushPending (map eid (effects h)) h.

Definition onCombineLatest (o : HubCombineLatestOptions) (h : Hub)
    : Result HubSubscription * Hub :=
  match optKeys o with
  | [] => (Throw KeysArrayCannotBeEmpty, h)
  | _ =>
      match firstToSignalError (optKeys o) with
      | Some err => (Throw err, h)
      | None =>
          let '(e, h0) := fresh h in
          let h1 := withEffects
                      (effects h0 ++ [mkEffect e (CombineLatest o (mkCombineState false [] None))])
                      h0 in
          let unsubscribe := DestroyEffect e in
          match optCombineDestroyRef o with
          | Some d => (Ok (Single unsubscribe),
                       withDestroyHooks (destroyHooks h1 ++ [(d, unsubscribe)]) h1)
          | None => (Ok (Single unsubscribe), h1)
          end
      end
  end.

(** The [Map] that [toSignalMultiple] fills for one entry of [keys]. *)
Definition collect (registry : jsmap HubEvent) (matchingEvents : jsmap HubEvent)
    (query : string) : jsmap HubEvent :=
  if falsy query then matchingEvents
  else if negb (includes star query) then
    match mget query registry with
    | Some event => mset (key event) event matchingEvents
    | None => matchingEvents
    end
  else
    let regex := buildWildcardRegex query in
    fold_left
      (fun acc entry =>
         if Regex.test regex (fst entry) then mset (fst entry) (snd entry) acc else acc)
      registry matchingEvents.

Definition toSignalMultiple (keys : list string) (sortBy : SortBy)
    : Result (Signal (list HubEvent)) :=
  match keys with
  | [] => Throw KeysArrayCannotBeEmpty
  | _ =>
      Ok (fun h =>
            let registry := eventRegistry h in
            let matchingEvents := fold_left (collect registry) keys [] in
            let eventsArray := mvalues matchingEvents in
            sortEvents sortBy eventsArray)
  end.

End Dispatch.

End Sync.

(** ** The synchronous service, with error handlers that may throw

    [Sync.handleError] takes an [onError] handler to return.  The source
    calls the handler unprotected: [handleError] is [handler(error,
    event)], and [notifySubscribers] calls it inside its [catch] block,
    in the middle of the two [forEach] loops; the [catch] of the wrapper
    of [once] and the one of the replay of [on] do the same.  What a
    handler throws there leaves the loops and [publish], or [on], by
    exception.  The definitions below are those of [Sync] with this
    made explicit: they return what was thrown along with the state.
    A handler called by the [catch] reaction of a rejected promise
    throws into that promise only, so [Sync.runMicrotasks] is as it is
    in [Sync]. *)
Module Throwing.
Import Js.

(** How a method ends: it returns, throws one of the errors of the
    service, or lets through what an error handler threw. *)
Inductive Completion (A : Type) : Type :=
| Returns (a : A)
| Throws (e : Error)
| LetsThrough (thrown : value).
Arguments Returns {A} a.
Arguments Throws {A} e.
Arguments LetsThrough {A} thrown.

Definition ofResult {A} (r : Result A) : Completion A :=
  match r with
  | Ok a => Returns a
  | Throw e => Throws e
  end.

(** No handler throws. *)
Definition handlersReturn (handlerBehaviour : nat -> value -> HubEvent -> option value)
    : Prop :=
  forall g error ev, handlerBehaviour g error ev = None.

Section Dispatch.
(** What the caller's functions do when called: [behaviour] for event
    callbacks; [handlerBehaviour g error ev] is what the [onError] handler
    [g] throws when called with [error] and [ev], if it throws. *)
Variable behaviour : nat -> HubEvent -> Outcome.
Variable handlerBehaviour : nat -> value -> HubEvent -> option value.

(** [handleError(error, event, handler, query)]: what it throws, and the
    state it leaves. *)
Definition handleError (error : value) (ev : HubEvent) (handler : option nat)
    (query : string) (h : Sync.Hub) : option value * Sync.Hub :=
  match handler with
  | Some g => (handlerBehaviour g error ev, Sync.addLog (Sync.HandlerCalled g error ev) h)
  | None => (None, Sync.addLog (Sync.Warned query (key ev) error) h)
  end.

(** A call [cb(ev)]: its outcome and the state it leaves. *)
Fixpoint invoke (cb : Sync.Callback) (ev : HubEvent) (h : Sync.Hub) : Outcome * Sync.Hub :=
  match cb with
  | Sync.CbUser f => (behaviour f ev, Sync.addLog (Sync.Called cb ev) h)
  | Sync.CbNotAFunction => (Threw (JStr "TypeError"), h)
  | Sync.CbOnce c user onErr k =>
      let h0 := Sync.addLog (Sync.Called cb ev) h in
      let h1 := match Sync.getOnceCell c h0 with
                | Some s => Sync.runSubscription s h0
                | None => h0
                end in
      let '(out, h2) := invoke user ev h1 in
      match out with
      | Threw error =>
          let '(thrown, h3) := handleError error ev onErr k h2 in
          (match thrown with
           | Some e => Threw e
           | None => Returned
           end, h3)
      | _ => (Returned, h2)
      end
  | Sync.CbUnsubscribeAll reg =>
      (Returned, Sync.unsubscribeAll reg (Sync.addLog (Sync.Called cb ev) h))
  | Sync.CbSelfRemoving query subscriber original =>
      let h0 := Sync.addLog (Sync.Called cb ev) h in
      invoke original ev (Sync.removeSubscriber query subscriber h0)
  end.

(** The body of the inner [forEach] of [notifySubscribers]: what it
    throws, and the state it leaves. *)
Definition deliver (query : string) (ev : HubEvent) (s : Sync.Subscriber) (h : Sync.Hub)
    : option value * Sync.Hub :=
  let '(out, h1) := invoke (Sync.callback s) ev h in
  match out with
  | Threw error => handleError error ev (Sync.onError s) query h1
  | Rejected error => (None, Sync.addTask (Sync.TCatch query (Sync.onError s) error ev) h1)
  | _ => (None, h1)
  end.

(** An exception ends the walk. *)
Fixpoint notifySet (ev : HubEvent) (query : string) (pending : list Sync.Subscriber)
    (h : Sync.Hub) : option value * Sync.Hub :=
  match pending with
  | [] => (None, h)
  | s :: rest =>
      if Sync.isSubscribed query (Sync.sid s) h then
        let '(thrown, h1) := deliver query ev s h in
        match thrown with
        | Some e => (Some e, h1)
        | None => notifySet ev query rest h1
        end
      else notifySet ev query rest h
  end.

Fixpoint notifyQueries (ev : HubEvent) (pending : list string) (h : Sync.Hub)
    : option value * Sync.Hub :=
  match pending with
  | [] => (None, h)
  | query :: rest =>
      match mget query (Sync.subscribers h) with
      | Some set =>
          if Sync.matchQuery (key ev) query then
            let '(thrown, h1) := notifySet ev query set h in
            match thrown with
            | Some e => (Some e, h1)
            | None => notifyQueries ev rest h1
            end
          else notifyQueries ev rest h
      | None => notifyQueries ev rest h
      end
  end.

Definition notifySubscribers (ev : HubEvent) (h : Sync.Hub) : option value * Sync.Hub :=
  notifyQueries ev (mkeys (Sync.subscribers h)) h.

Definition publish (k : string) (d : value) (h : Sync.Hub) : Completion unit * Sync.Hub :=
  if falsy k then (Throws KeyCannotBeEmpty, h)
  else
    let '(id, h0) := Sync.fresh h in
    let event := mkEvent id k d (Sync.now h0) in
    let h1 := Sync.withRegistry (mset k event (Sync.eventRegistry h0)) h0 in
    let '(thrown, h2) := notifySubscribers event h1 in
    (match thrown with
     | Some e => LetsThrough e
     | None => Returns tt
     end, h2).

Definition replay (o : Sync.HubEventOptions) (h : Sync.Hub) : option value * Sync.Hub :=
  if Sync.optReplayLatest o then
    match Sync.findLatestEventForKey (Sync.optKey o) h with
    | Some latestEvent =>
        let '(out, h1) := invoke (Sync.optCallback o) latestEvent h in
        match out with
        | Threw error =>
            handleError error latestEvent (Sync.optOnError o) (Sync.optKey o) h1
        | _ => (None, h1)
        end
    | None => (None, h)
    end
  else (None, h).

Definition on (o : Sync.HubEventOptions) (h : Sync.Hub)
    : Completion Sync.HubSubscription * Sync.Hub :=
  if falsy (Sync.optKey o) then (Throws KeyCannotBeEmpty, h)
  else if negb (Sync.isFunction (Sync.optCallback o)) then (Throws CallbackMustBeAFunction, h)
  else
    let conditions := match Sync.conditionsOf (Sync.optUntil o) with
                      | Some cs => cs
                      | None => []
                      end in
    if existsb (Sync.signalIsTrue h) conditions then (Returns Sync.Inert, h)
    else
      let '(reg, h0) := Sync.fresh h in
      let h1 := Sync.withRegistrations
                  (Sync.store reg (Sync.mkRegistration [] None) (Sync.registrations h0)) h0 in
      let h2 := fold_left (Sync.installCondition reg) conditions h1 in
      let '(thrown, h3) := replay o h2 in
      match thrown with
      | Some e => (LetsThrough e, h3)
      | None =>
          let '(main, h4) := Sync.internalSubscribe (Sync.optKey o) (Sync.optCallback o)
                               (Sync.optDestroyRef o) (Sync.optOnError o) false h3 in
          (Returns (Sync.UnsubscribeAll reg), Sync.setMainSubscription reg main h4)
      end.

Definition subscribe := on.

Definition once (o : Sync.HubEventOptions) (h : Sync.Hub)
    : Completion Sync.HubSubscription * Sync.Hub :=
  let '(c, h0) := Sync.fresh h in
  let h1 := Sync.withOnceCells (Sync.store c None (Sync.onceCells h0)) h0 in
  let onceCallback := Sync.CbOnce c (Sync.optCallback o) (Sync.optOnError o) (Sync.optKey o) in
  let '(r, h2) := on (Sync.mkOptions (Sync.optKey o) onceCallback None
                                     (Sync.optReplayLatest o) (Sync.optOnError o)
                                     (Sync.optUntil o)) h1 in
  match r with
  | Returns s => (Returns s, Sync.withOnceCells (Sync.store c (Some s) (Sync.onceCells h2)) h2)
  | _ => (r, h2)
  end.

End Dispatch.

End Throwing.

(* ================================================================== *)
(** * Part II: properties *)
(* ================================================================== *)

Import Js.

(** ** Insertion-ordered maps *)

Section MapFacts.
Context {V : Type}.
Implicit Types (m : jsmap V) (k : string) (v : V).

Lemma mget_mset_same k v m : mget k (mset k v m) = Some v.
Proof.
  induction m as [|[k' v'] m IH]; simpl.
  - now rewrite String.eqb_refl.
  - destruct (String.eqb k k') eqn:E; simpl.
    + now rewrite String.eqb_refl.
    + now rewrite E.
Qed.

Lemma mget_mset_other k k' v m : k <> k' -> mget k (mset k' v m) = mget k m.
Proof.
  intros Hne. induction m as [|[k0 v0] m IH]; simpl.
  - destruct (String.eqb_spec k k'); congruence.
  - destruct (String.eqb_spec k' k0) as [->|Hk]; simpl.
    + destruct (String.eqb_spec k k0); congruence.
    + now rewrite IH.
Qed.

Lemma mget_mdelete_same k m : mget k (mdelete k m) = None.
Proof.
  unfold mdelete. induction m as [|[k' v'] m IH]; simpl; [reflexivity|].
  destruct (String.eqb k k') eqn:E; simpl; [assumption|].
  now rewrite E.
Qed.

Lemma mget_mdelete_other k k' m : k <> k' -> mget k (mdelete k' m) = mget k m.
Proof.
  intros Hne. unfold mdelete. induction m as [|[k0 v0] m IH]; simpl; [reflexivity|].
  destruct (String.eqb_spec k' k0) as [->|Hk]; simpl.
  - destruct (String.eqb_spec k k0); congruence.
  - now rewrite IH.
Qed.

Lemma mset_same k v m : mget k m = Some v -> mset k v m = m.
Proof.
  induction m as [|[k' v'] m IH]; simpl; [discriminate|].
  destruct (String.eqb_spec k k') as [->|Hk]; intros H.
  - now inversion H.
  - now rewrite IH.
Qed.

Lemma mset_mset k v v' m : mset k v (mset k v' m) = mset k v m.
Proof.
  induction m as [|[k' w] m IH]; simpl.
  - now rewrite String.eqb_refl.
  - destruct (String.eqb k k') eqn:E; simpl.
    + now rewrite String.eqb_refl.
    + now rewrite E, IH.
Qed.

Lemma mdelete_absent k m : mget k m = None -> mdelete k m = m.
Proof.
  unfold mdelete. induction m as [|[k' w] m IH]; simpl; [reflexivity|].
  destruct (String.eqb k k') eqn:E; [discriminate|]. simpl.
  intros H. now rewrite IH.
Qed.

Lemma mget_In k v m : mget k m = Some v -> In (k, v) m.
Proof.
  induction m as [|[k' w] m IH]; simpl; [discriminate|].
  destruct (String.eqb_spec k k') as [->|Hk]; intros H.
  - inversion H. now left.
  - right. auto.
Qed.

Lemma In_mget_unique k v m : NoDup (mkeys m) -> In (k, v) m -> mget k m = Some v.
Proof.
  unfold mkeys. induction m as [|[k' w] m IH]; simpl; [tauto|].
  intros Hnd [H|H].
  - inversion H; subst. now rewrite String.eqb_refl.
  - inversion Hnd as [|? ? Hnot Hnd']; subst.
    destruct (String.eqb_spec k k') as [->|Hk].
    + exfalso. apply Hnot. change k' with (fst (k', v)). now apply in_map.
    + auto.
Qed.

Lemma mkeys_mset_present k v m :
  mget k m <> None -> mkeys (mset k v m) = mkeys m.
Proof.
  unfold mkeys. induction m as [|[k' w] m IH]; simpl; [congruence|].
  destruct (String.eqb_spec k k') as [->|Hk]; simpl; intros H.
  - reflexivity.
  - now rewrite IH.
Qed.

Lemma mkeys_mset_absent k v m :
  mget k m = None -> mkeys (mset k v m) = mkeys m ++ [k].
Proof.
  unfold mkeys. induction m as [|[k' w] m IH]; simpl; [reflexivity|].
  destruct (String.eqb_spec k k') as [->|Hk]; simpl; intros H; [discriminate|].
  now rewrite IH.
Qed.

Lemma mget_None_not_key k m : mget k m = None -> ~ In k (mkeys m).
Proof.
  unfold mkeys. induction m as [|[k' w] m IH]; simpl; [tauto|].
  destruct (String.eqb_spec k k') as [->|Hk]; [discriminate|].
  intros H [E|E]; [congruence|]. now apply IH.
Qed.

Lemma mget_key_Some k m : In k (mkeys m) -> exists v, mget k m = Some v.
Proof.
  unfold mkeys. induction m as [|[k' w] m IH]; simpl; [tauto|].
  destruct (String.eqb_spec k k') as [->|Hk]; [eauto|].
  intros [E|E]; [congruence|]. auto.
Qed.

End MapFacts.

(** ** The key matcher *)

Lemma split_matchQuery_star k : Queued.matchQuery k "*" = true.
Proof. unfold Queued.matchQuery. now destruct (String.eqb k "*"). Qed.

Lemma split_matchQuery_refl k : Queued.matchQuery k k = true.
Proof. unfold Queued.matchQuery. now rewrite String.eqb_refl. Qed.

Lemma bus_matchQuery_agrees k q : Bus.matchQuery k q = Queued.matchQuery k q.
Proof. reflexivity. Qed.

Lemma regex_matchQuery_star k : Sync.matchQuery k "*" = true.
Proof. reflexivity. Qed.

Lemma regex_matchQuery_refl k : Sync.matchQuery k k = true.
Proof.
  unfold Sync.matchQuery. now rewrite String.eqb_refl, Bool.orb_true_r.
Qed.

(** C2.  In each of the three services the matcher accepts every key for
    the pattern ["*"], accepts ["a:b"] and ["a:anything"] for ["a:*"],
    refuses ["b:a"] and ["a"] for ["a:*"], and accepts every key for the
    pattern equal to it. *)
Theorem matchQuery_wildcards :
  ((forall k, Bus.matchQuery k "*" = true) /\
   Bus.matchQuery "a:b" "a:*" = true /\
   Bus.matchQuery "a:anything" "a:*" = true /\
   Bus.matchQuery "b:a" "a:*" = false /\
   Bus.matchQuery "a" "a:*" = false /\
   (forall k, Bus.matchQuery k k = true)) /\
  ((forall k, Queued.matchQuery k "*" = true) /\
   Queued.matchQuery "a:b" "a:*" = true /\
   Queued.matchQuery "a:anything" "a:*" = true /\
   Queued.matchQuery "b:a" "a:*" = false /\
   Queued.matchQuery "a" "a:*" = false /\
   (forall k, Queued.matchQuery k k = true)) /\
  ((forall k, Sync.matchQuery k "*" = true) /\
   Sync.matchQuery "a:b" "a:*" = true /\
   Sync.matchQuery "a:anything" "a:*" = true /\
   Sync.matchQuery "b:a" "a:*" = false /\
   Sync.matchQuery "a" "a:*" = false /\
   (forall k, Sync.matchQuery k k = true)).
Proof.
  repeat split; try reflexivity.
  - intros k. rewrite bus_matchQuery_agrees. apply split_matchQuery_star.
  - intros k. rewrite bus_matchQuery_agrees. apply split_matchQuery_refl.
  - apply split_matchQuery_star.
  - apply split_matchQuery_refl.
  - apply regex_matchQuery_refl.
Qed.

(** ** The queued service: what the promise reactions leave alone *)

Section QueuedFrame.
Variable behaviour : nat -> HubEvent -> Outcome.

(** The parts of the state no callback of the model writes. *)
Definition queuedFrame (h h' : Queued.Hub) : Prop :=
  Queued.eventRegistry h' = Queued.eventRegistry h /\
  Queued.eventQueue h' = Queued.eventQueue h /\
  Queued.now h' = Queued.now h /\
  Queued.destroyHooks h' = Queued.destroyHooks h.

Lemma queuedFrame_refl h : queuedFrame h h.
Proof. now repeat split. Qed.

Lemma queuedFrame_trans h1 h2 h3 :
  queuedFrame h1 h2 -> queuedFrame h2 h3 -> queuedFrame h1 h3.
Proof.
  unfold queuedFrame. intros (A & B & C & D) (A' & B' & C' & D').
  repeat split; congruence.
Qed.

Lemma queued_unsubscribe_frame q cb h : queuedFrame h (Queued.unsubscribe q cb h).
Proof.
  unfold Queued.unsubscribe.
  destruct (mget q (Queued.subscribers h)); [|apply queuedFrame_refl].
  destruct (filter _ l); now repeat split.
Qed.

Lemma queued_runSubscription_frame s h : queuedFrame h (Queued.runSubscription s h).
Proof.
  unfold Queued.runSubscription.
  destruct (Queued.manualUnsubscribe s);
    [apply queued_unsubscribe_frame | apply queuedFrame_refl].
Qed.

Lemma queued_invoke_frame cb : forall ev h,
  queuedFrame h (snd (Queued.invoke behaviour cb ev h)).
Proof.
  induction cb as [f| |c user IH|c user IH]; intros ev h; simpl.
  - now repeat split.
  - apply queuedFrame_refl.
  - destruct (Queued.hasRun _); simpl; [now repeat split|].
    match goal with
    | |- context [Queued.invoke behaviour user ev ?x] =>
        specialize (IH ev x); destruct (Queued.invoke behaviour user ev x) as [out h3]
    end.
    simpl in *. eapply queuedFrame_trans; [|exact IH].
    destruct (Queued.subscription _).
    + eapply queuedFrame_trans; [|apply queued_runSubscription_frame]. now repeat split.
    + now repeat split.
  - match goal with
    | |- context [Queued.invoke behaviour user ev ?x] =>
        specialize (IH ev x); destruct (Queued.invoke behaviour user ev x) as [out h3]
    end.
    simpl in *.
    assert (queuedFrame h h3) as F
      by (eapply queuedFrame_trans; [|exact IH]; now repeat split).
    destruct out; simpl; try exact F;
      (eapply queuedFrame_trans; [exact F|now repeat split]).
Qed.

Lemma queued_runTask_frame t h : queuedFrame h (Queued.runTask behaviour t h).
Proof.
  destruct t as [q en ev|q en err ev|c]; simpl.
  - pose proof (queued_invoke_frame (Queued.callback en) ev h) as F.
    destruct (Queued.invoke behaviour (Queued.callback en) ev h) as [out h1].
    simpl in F.
    destruct out; try exact F;
      (eapply queuedFrame_trans; [exact F|now repeat split]).
  - destruct (Queued.onError en); now repeat split.
  - destruct (Queued.subscription _);
      [apply queued_runSubscription_frame | apply queuedFrame_refl].
Qed.

Lemma queued_runTasks_frame fuel : forall h,
  queuedFrame h (Queued.runTasks behaviour fuel h).
Proof.
  induction fuel as [|fuel IH]; intros h; simpl; [apply queuedFrame_refl|].
  destruct (Queued.microtasks h) as [|t rest] eqn:E; [apply queuedFrame_refl|].
  eapply queuedFrame_trans; [|apply IH].
  eapply queuedFrame_trans; [|apply queued_runTask_frame].
  now repeat split.
Qed.

Lemma queued_runMicrotasks_frame h : queuedFrame h (Queued.runMicrotasks behaviour h).
Proof. apply queued_runTasks_frame. Qed.

Lemma queued_schedule_frame query ev entries : forall acc,
  let r := fold_left
             (fun acc' entry => Queued.addTask (Queued.TCall query entry ev) acc')
             entries acc in
  queuedFrame acc r /\ Queued.subscribers r = Queued.subscribers acc.
Proof.
  induction entries as [|en entries IH]; intros acc; simpl.
  - split; [apply queuedFrame_refl|reflexivity].
  - destruct (IH (Queued.addTask (Queued.TCall query en ev) acc)) as [F S].
    split; [eapply queuedFrame_trans; [|exact F]; now repeat split|].
    now rewrite S.
Qed.

Lemma queued_notify_fold ev groups : forall h,
  let r := fold_left
             (fun acc group =>
                if Queued.matchQuery (key ev) (fst group)
                then fold_left
                       (fun acc' entry => Queued.addTask (Queued.TCall (fst group) entry ev) acc')
                       (snd group) acc
                else acc)
             groups h in
  queuedFrame h r /\ Queued.subscribers r = Queued.subscribers h.
Proof.
  induction groups as [|g groups IH]; intros h; simpl.
  - split; [apply queuedFrame_refl|reflexivity].
  - match goal with |- context [fold_left _ groups ?x] => destruct (IH x) as [F S] end.
    destruct (Queued.matchQuery (key ev) (fst g)).
    + destruct (queued_schedule_frame (fst g) ev (snd g) h) as [F' S']. split.
      * eapply queuedFrame_trans; [exact F'|exact F].
      * now rewrite S, S'.
    + now split.
Qed.

Lemma queued_notifySubscribers_frame ev h :
  queuedFrame h (Queued.notifySubscribers ev h) /\
  Queued.subscribers (Queued.notifySubscribers ev h) = Queued.subscribers h.
Proof. apply queued_notify_fold. Qed.

(** The registry the effect writes back: the queued events, set in order. *)
Lemma queued_drain_fold queue : forall registry h,
  fst (fold_left
         (fun (acc : jsmap HubEvent * Queued.Hub) ev =>
            (mset (key ev) ev (fst acc), Queued.notifySubscribers ev (snd acc)))
         queue (registry, h))
  = fold_left (fun r ev => mset (key ev) ev r) queue registry.
Proof.
  induction queue as [|ev queue IH]; intros registry h; simpl; [reflexivity|].
  apply IH.
Qed.

Lemma queued_drain_registry h :
  Queued.eventRegistry (Queued.drainQueue h)
  = fold_left (fun r ev => mset (key ev) ev r) (Queued.eventQueue h) (Queued.eventRegistry h).
Proof.
  unfold Queued.drainQueue.
  destruct (Queued.eventQueue h) as [|ev queue] eqn:E; [reflexivity|].
  pose proof (queued_drain_fold (ev :: queue) (Queued.eventRegistry h) h) as F.
  destruct (fold_left _ (ev :: queue) (Queued.eventRegistry h, h)) as [updated h1].
  simpl in F. simpl. exact F.
Qed.

Lemma queued_settle_registry h :
  Queued.eventRegistry (Queued.settle behaviour h)
  = fold_left (fun r ev => mset (key ev) ev r) (Queued.eventQueue h) (Queued.eventRegistry h).
Proof.
  unfold Queued.settle.
  destruct (queued_runMicrotasks_frame (Queued.drainQueue h)) as (R & _).
  rewrite R. apply queued_drain_registry.
Qed.

End QueuedFrame.

(** [publish] rejects the payloads [null] and [undefined]. *)
Lemma queued_publish_null_payload k d h :
  k <> EmptyString -> looselyNull d = true ->
  Queued.publish k d h = (Throw DataCannotBeNullOrUndefined, h).
Proof.
  intros Hk Hd. unfold Queued.publish.
  destruct k; [congruence|]. simpl. now rewrite Hd.
Qed.

(** C4, as the code has it.  For every non-empty key [k] and every payload
    [d] other than [null] and [undefined]: [publish(k, d)] succeeds and,
    once the scheduler has drained the event queue, the latest event read
    for [k] carries [d] and a timestamp that is not before the clock value
    observed before the publish ([dt] is the time that passed in between).
    A [null] or [undefined] payload is refused and nothing is written. *)
Theorem publish_then_latest :
  forall (behaviour : nat -> HubEvent -> Outcome) (h : Queued.Hub)
         (k : string) (d : value) (dt : N),
    k <> EmptyString ->
    (looselyNull d = false ->
     exists h1 read ev,
       Queued.publish k d (Queued.tick dt h) = (Ok tt, h1) /\
       Queued.toSignal k = Ok read /\
       read (Queued.settle behaviour h1) = Some ev /\
       key ev = k /\ data ev = d /\ (Queued.now h <= timestamp ev)%Z) /\
    (looselyNull d = true ->
     Queued.publish k d (Queued.tick dt h)
     = (Throw DataCannotBeNullOrUndefined, Queued.tick dt h)).
Proof.
  intros behaviour h k d dt Hk. split; [|now apply queued_publish_null_payload].
  intros Hd.
  set (h0 := Queued.tick dt h).
  set (ev := mkEvent (Queued.nextId h0) k d (Queued.now h0)).
  exists (Queued.withNextId (S (Queued.nextId h0))
            (Queued.withQueue (Queued.eventQueue h0 ++ [ev]) h0)),
         (fun x => mget k (Queued.eventRegistry x)), ev.
  assert (falsy k = false) as Fk by (destruct k; [congruence|reflexivity]).
  repeat split.
  - unfold Queued.publish. now rewrite Fk, Hd.
  - unfold Queued.toSignal. now rewrite Fk.
  - rewrite queued_settle_registry. cbn [Queued.eventQueue Queued.withNextId Queued.withQueue
                                          Queued.eventRegistry].
    rewrite fold_left_app. simpl. apply mget_mset_same.
  - simpl. lia.
Qed.

(** A run of the theorem: two seconds pass, then [publish("user:login", 1)]. *)
Lemma publish_then_latest_witness :
  exists h1 read ev,
    Queued.publish "user:login" (JNum 1) (Queued.tick 2 Queued.empty) = (Ok tt, h1) /\
    Queued.toSignal "user:login" = Ok read /\
    read (Queued.settle (fun _ _ => Returned) h1) = Some ev /\
    key ev = "user:login" /\ data ev = JNum 1 /\ (0 <= timestamp ev)%Z.
Proof.
  apply (proj1 (publish_then_latest (fun _ _ => Returned) Queued.empty
                  "user:login" (JNum 1) 2%N ltac:(discriminate))).
  reflexivity.
Defined.

(** C4 as stated fails for the payload [null]: [publish("k", null)] throws
    and a later read of ["k"] finds no event at all. *)
Lemma publish_null_then_latest_absent :
  fst (Queued.publish "k" JNull Queued.empty) = Throw DataCannotBeNullOrUndefined /\
  ~ (exists read ev,
       Queued.toSignal "k" = Ok read /\
       read (Queued.settle (fun _ _ => Returned)
               (snd (Queued.publish "k" JNull Queued.empty))) = Some ev /\
       data ev = JNull).
Proof.
  split; [reflexivity|].
  intros (read & ev & Hs & Hr & _).
  inversion Hs; subst read. discriminate Hr.
Qed.

(** C5.  [publish] with an empty key and [subscribe] with an empty key
    throw the invalid-key error whatever the payload, the callback and the
    other options are, and the whole state of the hub, with the
    latest-event registry, the event queue and the subscriber registry, is
    the one before the call.  The same holds for [on] and [publish] of the
    synchronous service. *)
Theorem empty_key_fails_before_writing :
  forall (behaviour : nat -> HubEvent -> Outcome) (d : value),
    (forall (h : Queued.Hub), Queued.publish EmptyString d h = (Throw KeyCannotBeEmpty, h)) /\
    (forall (h : Queued.Hub) cb destroyRef replayLatest onErr,
       Queued.subscribe behaviour
         (Queued.mkOptions EmptyString cb destroyRef replayLatest onErr) h
       = (Throw KeyCannotBeEmpty, h)) /\
    (forall (h : Sync.Hub), Sync.publish behaviour EmptyString d h = (Throw KeyCannotBeEmpty, h)) /\
    (forall (h : Sync.Hub) cb destroyRef replayLatest onErr until,
       Sync.subscribe behaviour
         (Sync.mkOptions EmptyString cb destroyRef replayLatest onErr until) h
       = (Throw KeyCannotBeEmpty, h)).
Proof.
  intros behaviour d. repeat split.
Qed.

(** ** Unsubscribing twice *)

Lemma filter_filter_same {A} (p : A -> bool) (l : list A) :
  filter p (filter p l) = filter p l.
Proof.
  induction l as [|a l IH]; simpl; [reflexivity|].
  destruct (p a) eqn:E; simpl; [rewrite E|]; now rewrite ?IH.
Qed.

Lemma filter_all_true {A} (p : A -> bool) (l : list A) :
  forallb p l = true -> filter p l = l.
Proof.
  induction l as [|a l IH]; simpl; [reflexivity|].
  destruct (p a); simpl; [|discriminate]. intros H. now rewrite IH.
Qed.

Lemma forallb_filter_same {A} (p : A -> bool) (l : list A) :
  forallb p (filter p l) = true.
Proof.
  induction l as [|a l IH]; simpl; [reflexivity|].
  destruct (p a) eqn:E; simpl; [rewrite E|]; assumption.
Qed.

Lemma forallb_filter_other {A} (p r : A -> bool) (l : list A) :
  forallb p l = true -> forallb p (filter r l) = true.
Proof.
  induction l as [|a l IH]; simpl; [reflexivity|].
  destruct (p a) eqn:E; simpl; [|discriminate]. intros H.
  destruct (r a); simpl; [rewrite E|]; auto.
Qed.

Lemma queued_unsubscribe_twice q cb h :
  Queued.unsubscribe q cb (Queued.unsubscribe q cb h) = Queued.unsubscribe q cb h.
Proof.
  unfold Queued.unsubscribe at 2 3.
  destruct (mget q (Queued.subscribers h)) as [l|] eqn:E.
  - destruct (filter _ l) as [|x xs] eqn:F.
    + unfold Queued.unsubscribe. simpl. now rewrite mget_mdelete_same.
    + unfold Queued.unsubscribe. simpl. rewrite mget_mset_same.
      rewrite <- F, filter_filter_same, F. unfold Queued.withSubscribers. simpl.
      now rewrite mset_mset.
  - unfold Queued.unsubscribe. now rewrite E.
Qed.

Lemma queued_runSubscription_twice s h :
  Queued.runSubscription s (Queued.runSubscription s h) = Queued.runSubscription s h.
Proof.
  unfold Queued.runSubscription. destruct (Queued.manualUnsubscribe s); [|reflexivity].
  apply queued_unsubscribe_twice.
Qed.

Lemma queued_unsubscribe_absent q cb h :
  mget q (Queued.subscribers h) = None -> Queued.unsubscribe q cb h = h.
Proof. intros E. unfold Queued.unsubscribe. now rewrite E. Qed.

Lemma queued_runSubscription_absent s h :
  mget (Queued.sQuery s) (Queued.subscribers h) = None -> Queued.runSubscription s h = h.
Proof.
  intros E. unfold Queued.runSubscription.
  destruct (Queued.manualUnsubscribe s); [now apply queued_unsubscribe_absent|reflexivity].
Qed.

Lemma sync_withSubscribers_same h : Sync.withSubscribers (Sync.subscribers h) h = h.
Proof. now destruct h. Qed.

Lemma sync_withEffects_same h : Sync.withEffects (Sync.effects h) h = h.
Proof. now destruct h. Qed.

(** A teardown has nothing left to do. *)
Definition subscriberGone (query : string) (subscriber : nat)
    (subs : jsmap (list Sync.Subscriber)) : Prop :=
  match mget query subs with
  | None => True
  | Some set =>
      set <> [] /\
      forallb (fun s => negb (Nat.eqb (Sync.sid s) subscriber)) set = true
  end.

Definition tornDown (t : Sync.Teardown) (h : Sync.Hub) : Prop :=
  match t with
  | Sync.RemoveSubscriber query subscriber =>
      subscriberGone query subscriber (Sync.subscribers h)
  | Sync.DestroyEffect e =>
      forallb (fun x => negb (Nat.eqb (Sync.eid x) e)) (Sync.effects h) = true
  end.

Lemma tornDown_fixed t h : tornDown t h -> Sync.runTeardown t h = h.
Proof.
  destruct t as [q s|e]; simpl.
  - unfold subscriberGone, Sync.removeSubscriber.
    destruct (mget q (Sync.subscribers h)) as [set|] eqn:E; [|reflexivity].
    intros [Hne Hall]. rewrite (filter_all_true _ _ Hall).
    destruct set as [|x xs]; [congruence|].
    rewrite (mset_same _ _ _ E). apply sync_withSubscribers_same.
  - intros Hall. unfold Sync.destroyEffect. rewrite (filter_all_true _ _ Hall).
    apply sync_withEffects_same.
Qed.

Lemma tornDown_after t h : tornDown t (Sync.runTeardown t h).
Proof.
  destruct t as [q s|e]; simpl.
  - unfold subscriberGone, Sync.removeSubscriber.
    destruct (mget q (Sync.subscribers h)) as [set|] eqn:E.
    + destruct (filter _ set) as [|x xs] eqn:F; simpl.
      * now rewrite mget_mdelete_same.
      * rewrite mget_mset_same. split; [discriminate|].
        rewrite <- F. apply forallb_filter_same.
    + now rewrite E.
  - apply forallb_filter_same.
Qed.

Lemma tornDown_stable t t' h : tornDown t h -> tornDown t (Sync.runTeardown t' h).
Proof.
  destruct t as [q s|e]; destruct t' as [q' s'|e']; simpl; try (intros H; exact H).
  - unfold subscriberGone, Sync.removeSubscriber.
    destruct (mget q' (Sync.subscribers h)) as [set'|] eqn:E'; [|tauto].
    destruct (String.eqb_spec q q') as [->|Hq].
    + rewrite E'. intros [Hne Hall].
      destruct (filter _ set') as [|x xs] eqn:F; simpl.
      * now rewrite mget_mdelete_same.
      * rewrite mget_mset_same. split; [discriminate|].
        rewrite <- F. now apply forallb_filter_other.
    + destruct (filter _ set') as [|x xs]; simpl.
      * now rewrite mget_mdelete_other.
      * now rewrite mget_mset_other.
  - unfold Sync.removeSubscriber.
    destruct (mget q' (Sync.subscribers h)) as [set'|]; [|tauto].
    now destruct (filter _ set').
  - apply forallb_filter_other.
Qed.

Lemma tornDown_all ts : forall h,
  let h' := fold_left (fun acc unsub => Sync.runTeardown unsub acc) ts h in
  (forall t, tornDown t h -> tornDown t h') /\ (forall t, In t ts -> tornDown t h').
Proof.
  induction ts as [|t0 ts IH]; intros h; simpl.
  - tauto.
  - destruct (IH (Sync.runTeardown t0 h)) as [Keep Done]. split.
    + intros t H. apply Keep. now apply tornDown_stable.
    + intros t [<-|H]; [apply Keep, tornDown_after|now apply Done].
Qed.

Lemma tornDown_all_fixed ts : forall h,
  (forall t, In t ts -> tornDown t h) ->
  fold_left (fun acc unsub => Sync.runTeardown unsub acc) ts h = h.
Proof.
  induction ts as [|t0 ts IH]; intros h H; simpl; [reflexivity|].
  rewrite (tornDown_fixed t0 h) by (apply H; now left).
  apply IH. intros t Ht. apply H. now right.
Qed.

Lemma sync_runTeardown_registrations t h :
  Sync.registrations (Sync.runTeardown t h) = Sync.registrations h.
Proof.
  destruct t as [q s|e]; simpl; [|reflexivity].
  unfold Sync.removeSubscriber.
  destruct (mget q (Sync.subscribers h)) as [set|]; [|reflexivity].
  now destruct (filter _ set).
Qed.

Lemma sync_teardowns_registrations ts : forall h,
  Sync.registrations (fold_left (fun acc unsub => Sync.runTeardown unsub acc) ts h)
  = Sync.registrations h.
Proof.
  induction ts as [|t ts IH]; intros h; simpl; [reflexivity|].
  now rewrite IH, sync_runTeardown_registrations.
Qed.

Lemma sync_unsubscribeAll_registrations reg h :
  Sync.registrations (Sync.unsubscribeAll reg h) = Sync.registrations h.
Proof.
  unfold Sync.unsubscribeAll.
  destruct (Sync.lookup reg (Sync.registrations h)) as [r|]; [|reflexivity].
  destruct (Sync.mainSubscription r);
    now rewrite ?sync_runTeardown_registrations, sync_teardowns_registrations.
Qed.

Lemma sync_unsubscribeAll_twice reg h :
  Sync.unsubscribeAll reg (Sync.unsubscribeAll reg h) = Sync.unsubscribeAll reg h.
Proof.
  unfold Sync.unsubscribeAll at 1.
  rewrite sync_unsubscribeAll_registrations.
  unfold Sync.unsubscribeAll.
  destruct (Sync.lookup reg (Sync.registrations h)) as [r|]; [|reflexivity].
  destruct (tornDown_all (Sync.unsubscribers r) h) as [Keep Done].
  set (h1 := fold_left _ (Sync.unsubscribers r) h) in *.
  destruct (Sync.mainSubscription r) as [main|].
  - rewrite tornDown_all_fixed.
    + apply tornDown_fixed, tornDown_after.
    + intros t Ht. apply tornDown_stable. now apply Done.
  - apply tornDown_all_fixed. exact Done.
Qed.

Lemma sync_runSubscription_twice s h :
  Sync.runSubscription s (Sync.runSubscription s h) = Sync.runSubscription s h.
Proof.
  destruct s as [|t|reg]; simpl.
  - reflexivity.
  - apply tornDown_fixed, tornDown_after.
  - apply sync_unsubscribeAll_twice.
Qed.

Lemma sync_runTeardown_no_subscribers t h :
  Sync.subscribers h = [] -> Sync.subscribers (Sync.runTeardown t h) = [].
Proof.
  intros E. destruct t as [q s|e]; simpl; [|exact E].
  unfold Sync.removeSubscriber. now rewrite E.
Qed.

Lemma sync_runSubscription_no_subscribers s h :
  Sync.subscribers h = [] -> Sync.subscribers (Sync.runSubscription s h) = [].
Proof.
  intros E. destruct s as [|t|reg]; simpl; [exact E|now apply sync_runTeardown_no_subscribers|].
  unfold Sync.unsubscribeAll.
  destruct (Sync.lookup reg (Sync.registrations h)) as [r|]; [|exact E].
  assert (forall ts x, Sync.subscribers x = [] ->
            Sync.subscribers (fold_left (fun acc unsub => Sync.runTeardown unsub acc) ts x) = [])
    as F.
  { induction ts as [|t ts IH]; intros x Hx; simpl; [exact Hx|].
    apply IH. now apply sync_runTeardown_no_subscribers. }
  destruct (Sync.mainSubscription r); [apply sync_runTeardown_no_subscribers|]; now apply F.
Qed.

(** ** The queued service: every scheduled reaction is served *)

Section QueuedDelivery.
Variable behaviour : nat -> HubEvent -> Outcome.

(** The error a call ends with, thrown or as a rejected promise. *)
Definition failure (o : Outcome) : option value :=
  match o with
  | Threw e | Rejected e => Some e
  | _ => None
  end.

(** Where the fan-out sends the error of a subscriber. *)
Definition queuedRouted (query : string) (en : Queued.Entry) (error : value)
    (ev : HubEvent) : Queued.LogItem :=
  match Queued.onError en with
  | Some handler => Queued.HandlerCalled handler error ev
  | None => Queued.Warned query error
  end.

(** What the log must show once a task has been served. *)
Definition queuedServed (t : Queued.Task) (l : list Queued.LogItem) : Prop :=
  match t with
  | Queued.TCall q en ev =>
      (Queued.isFunction (Queued.callback en) = true ->
       In (Queued.Called (Queued.callback en) ev) l) /\
      (forall f error, Queued.callback en = Queued.CbUser f ->
         failure (behaviour f ev) = Some error -> In (queuedRouted q en error ev) l) /\
      (forall c user, Queued.callback en = Queued.CbOnceAsync c user ->
         Queued.isFunction user = true -> In (Queued.Called user ev) l) /\
      (forall c f error, Queued.callback en = Queued.CbOnceAsync c (Queued.CbUser f) ->
         failure (behaviour f ev) = Some error -> In (queuedRouted q en error ev) l)
  | Queued.TCatch q en error ev => In (queuedRouted q en error ev) l
  | Queued.TResume _ => True
  end.

(** [h'] continues [h]: the log and the microtask queue only grew. *)
Definition queuedGrows (h h' : Queued.Hub) (added : list Queued.LogItem)
    (spawned : list Queued.Task) : Prop :=
  Queued.log h' = Queued.log h ++ added /\
  Queued.microtasks h' = Queued.microtasks h ++ spawned.

Lemma queued_unsubscribe_grows q cb h : queuedGrows h (Queued.unsubscribe q cb h) [] [].
Proof.
  unfold Queued.unsubscribe, queuedGrows.
  destruct (mget q (Queued.subscribers h)); [destruct (filter _ l)|]; simpl;
    now rewrite !app_nil_r.
Qed.

Lemma queued_runSubscription_grows s h : queuedGrows h (Queued.runSubscription s h) [] [].
Proof.
  unfold Queued.runSubscription. destruct (Queued.manualUnsubscribe s).
  - apply queued_unsubscribe_grows.
  - unfold queuedGrows. now rewrite !app_nil_r.
Qed.

Lemma queuedGrows_trans h1 h2 h3 a b s t :
  queuedGrows h1 h2 a s -> queuedGrows h2 h3 b t -> queuedGrows h1 h3 (a ++ b) (s ++ t).
Proof.
  unfold queuedGrows. intros [A B] [C D]. rewrite C, D, A, B. now rewrite !app_assoc.
Qed.

Definition onlyResumes (spawned : list Queued.Task) : Prop :=
  forall t, In t spawned -> exists c, t = Queued.TResume c.

Lemma onlyResumes_weight spawned :
  onlyResumes spawned -> list_sum (map Queued.taskWeight spawned) = List.length spawned.
Proof.
  induction spawned as [|t sp IH]; intros H; simpl; [reflexivity|].
  destruct (H t (or_introl eq_refl)) as [c ->]. simpl.
  rewrite IH; [reflexivity|]. intros t' Ht'. apply H. now right.
Qed.

(** A call logs itself first and leaves at most [resumptions cb] tasks;
    the arrow function of [onceAsync] always calls the function it wraps. *)
Lemma queued_invoke_grows cb : forall ev h,
  exists added spawned,
    queuedGrows h (snd (Queued.invoke behaviour cb ev h)) added spawned /\
    onlyResumes spawned /\ List.length spawned <= Queued.resumptions cb /\
    (Queued.isFunction cb = true -> In (Queued.Called cb ev) added) /\
    (forall c user, cb = Queued.CbOnceAsync c user ->
       Queued.isFunction user = true -> In (Queued.Called user ev) added).
Proof.
  induction cb as [f| |c user IH|c user IH]; intros ev h; simpl.
  - exists [Queued.Called (Queued.CbUser f) ev], [].
    refine (conj _ (conj _ (conj _ (conj _ _)))); simpl; auto.
    + unfold queuedGrows. simpl. now rewrite app_nil_r.
    + intros t [].
    + discriminate.
  - exists [], [].
    refine (conj _ (conj _ (conj _ (conj _ _)))); simpl; auto.
    + unfold queuedGrows. now rewrite !app_nil_r.
    + intros t [].
    + discriminate.
    + discriminate.
  - destruct (Queued.hasRun _).
    + exists [Queued.Called (Queued.CbOnce c user) ev], [].
      refine (conj _ (conj _ (conj _ (conj _ _)))); simpl; auto.
      * unfold queuedGrows. simpl. now rewrite app_nil_r.
      * intros t [].
      * lia.
      * discriminate.
    + match goal with
      | |- context [Queued.invoke behaviour user ev ?x] =>
          destruct (IH ev x) as (added & spawned & G & R & L & _);
          assert (queuedGrows h x [Queued.Called (Queued.CbOnce c user) ev] []) as G0
      end.
      { destruct (Queued.subscription _).
        - change [Queued.Called (Queued.CbOnce c user) ev]
            with ([Queued.Called (Queued.CbOnce c user) ev] ++ []).
          change (@nil Queued.Task) with (@nil Queued.Task ++ []).
          eapply queuedGrows_trans; [|apply queued_runSubscription_grows].
          unfold queuedGrows. simpl. now rewrite app_nil_r.
        - unfold queuedGrows. simpl. now rewrite app_nil_r. }
      destruct (Queued.invoke behaviour user ev _) as [out h3]. simpl in *.
      exists ([Queued.Called (Queued.CbOnce c user) ev] ++ added), ([] ++ spawned).
      refine (conj _ (conj _ (conj _ (conj _ _)))); auto.
      * eapply queuedGrows_trans; eassumption.
      * intros _. now left.
      * discriminate.
  - match goal with
    | |- context [Queued.invoke behaviour user ev ?x] =>
        destruct (IH ev x) as (added & spawned & G & R & L & U & _);
        assert (queuedGrows h x [Queued.Called (Queued.CbOnceAsync c user) ev] []) as G0
          by (unfold queuedGrows; simpl; now rewrite app_nil_r)
    end.
    destruct (Queued.invoke behaviour user ev _) as [out h3]. simpl in *.
    pose proof (queuedGrows_trans _ _ _ _ _ _ _ G0 G) as G1. simpl in G1.
    assert (queuedGrows h (Queued.addTask (Queued.TResume c) h3)
              (Queued.Called (Queued.CbOnceAsync c user) ev :: added)
              (spawned ++ [Queued.TResume c])) as G2.
    { destruct G1 as [A B]. split; simpl; [exact A|]. rewrite B. now rewrite app_assoc. }
    assert (onlyResumes (spawned ++ [Queued.TResume c])) as R2.
    { intros t Ht. apply in_app_or in Ht as [Ht|[<-|[]]]; eauto. }
    assert (List.length (spawned ++ [Queued.TResume c]) <= S (Queued.resumptions user)) as L2.
    { rewrite length_app. simpl. lia. }
    assert (forall c' user', Queued.CbOnceAsync c user = Queued.CbOnceAsync c' user' ->
              Queued.isFunction user' = true ->
              In (Queued.Called user' ev)
                 (Queued.Called (Queued.CbOnceAsync c user) ev :: added)) as N.
    { intros c' user' E Hf. inversion E; subst. right. auto. }
    destruct out; simpl.
    + exists (Queued.Called (Queued.CbOnceAsync c user) ev :: added),
             (spawned ++ [Queued.TResume c]).
      refine (conj G2 (conj R2 (conj L2 (conj _ N)))). intros _. now left.
    + exists (Queued.Called (Queued.CbOnceAsync c user) ev :: added), spawned.
      refine (conj G1 (conj R (conj _ (conj _ N)))); [lia|]. intros _. now left.
    + exists (Queued.Called (Queued.CbOnceAsync c user) ev :: added),
             (spawned ++ [Queued.TResume c]).
      refine (conj G2 (conj R2 (conj L2 (conj _ N)))). intros _. now left.
    + exists (Queued.Called (Queued.CbOnceAsync c user) ev :: added), spawned.
      refine (conj G1 (conj R (conj _ (conj _ N)))); [lia|]. intros _. now left.
Qed.

Lemma queued_runTask_spec t h :
  exists added spawned,
    queuedGrows h (Queued.runTask behaviour t h) added spawned /\
    list_sum (map Queued.taskWeight spawned) < Queued.taskWeight t /\
    (forall l, incl added l -> (forall t', In t' spawned -> queuedServed t' l) ->
               queuedServed t l).
Proof.
  destruct t as [q en ev|q en error ev|c]; simpl.
  - destruct (queued_invoke_grows (Queued.callback en) ev h)
      as (added & spawned & G & R & L & C & U).
    destruct (Queued.invoke behaviour (Queued.callback en) ev h) as [out h1] eqn:EI.
    simpl in G.
    assert (forall f error, Queued.callback en = Queued.CbUser f ->
              failure (behaviour f ev) = Some error -> failure out = Some error) as Out.
    { intros f error Ecb Hf. rewrite Ecb in EI. simpl in EI. now inversion EI; subst. }
    assert (forall c f error, Queued.callback en = Queued.CbOnceAsync c (Queued.CbUser f) ->
              failure (behaviour f ev) = Some error -> failure out = Some error) as OutAsync.
    { intros c f error Ecb Hf. rewrite Ecb in EI. simpl in EI.
      destruct (behaviour f ev); simpl in Hf; try discriminate;
        inversion Hf; subst; now inversion EI. }
    assert (failure out = None ->
            exists added' spawned',
              queuedGrows h h1 added' spawned' /\
              list_sum (map Queued.taskWeight spawned') < S (S (Queued.resumptions (Queued.callback en))) /\
              (forall l, incl added' l -> (forall t', In t' spawned' -> queuedServed t' l) ->
                 queuedServed (Queued.TCall q en ev) l)) as Quiet.
    { intros Hnone. exists added, spawned. refine (conj G (conj _ _)).
      - rewrite (onlyResumes_weight _ R). lia.
      - intros l Hl _. refine (conj _ (conj _ (conj _ _))); [intros Hfn; apply Hl; auto| | |].
        + intros f error Ecb Hf. rewrite (Out _ _ Ecb Hf) in Hnone. discriminate.
        + intros c user Ecb Hu. apply Hl. eauto.
        + intros c f error Ecb Hf. rewrite (OutAsync _ _ _ Ecb Hf) in Hnone. discriminate. }
    assert (forall e, failure out = Some e ->
            exists added' spawned',
              queuedGrows h (Queued.addTask (Queued.TCatch q en e ev) h1) added' spawned' /\
              list_sum (map Queued.taskWeight spawned') < S (S (Queued.resumptions (Queued.callback en))) /\
              (forall l, incl added' l -> (forall t', In t' spawned' -> queuedServed t' l) ->
                 queuedServed (Queued.TCall q en ev) l)) as Loud.
    { intros e He. exists added, (spawned ++ [Queued.TCatch q en e ev]).
      refine (conj _ (conj _ _)).
      - destruct G as [A B]. split; simpl; [exact A|]. rewrite B. now rewrite app_assoc.
      - rewrite map_app, list_sum_app, (onlyResumes_weight _ R). simpl. lia.
      - intros l Hl Hs. refine (conj _ (conj _ (conj _ _))); [intros Hfn; apply Hl; auto| | |].
        + intros f error Ecb Hf. rewrite (Out _ _ Ecb Hf) in He. inversion He; subst e.
          apply (Hs (Queued.TCatch q en error ev)). apply in_or_app. right. now left.
        + intros c user Ecb Hu. apply Hl. eauto.
        + intros c f error Ecb Hf. rewrite (OutAsync _ _ _ Ecb Hf) in He. inversion He; subst e.
          apply (Hs (Queued.TCatch q en error ev)). apply in_or_app. right. now left. }
    destruct out; simpl in *; eauto.
  - exists [queuedRouted q en error ev], []. refine (conj _ (conj _ _)).
    + unfold queuedRouted. destruct (Queued.onError en); split; simpl;
        now rewrite ?app_nil_r.
    + simpl. lia.
    + intros l Hl _. apply Hl. now left.
  - exists [], []. refine (conj _ (conj _ _)).
    + destruct (Queued.subscription _); [apply queued_runSubscription_grows|].
      split; now rewrite app_nil_r.
    + simpl. lia.
    + intros; exact I.
Qed.

Lemma queuedServed_more t l l' : incl l l' -> queuedServed t l -> queuedServed t l'.
Proof.
  intros Hl. destruct t as [q en ev|q en error ev|c]; simpl; auto.
  intros (A & B & C & D). refine (conj _ (conj _ (conj _ _))); eauto.
Qed.

(** With fuel for the whole queue, the queue empties and every task that
    was waiting has been served in the part of the log written since. *)
Lemma queued_runTasks_serves fuel : forall h,
  list_sum (map Queued.taskWeight (Queued.microtasks h)) <= fuel ->
  exists added,
    Queued.log (Queued.runTasks behaviour fuel h) = Queued.log h ++ added /\
    Queued.microtasks (Queued.runTasks behaviour fuel h) = [] /\
    forall t, In t (Queued.microtasks h) -> queuedServed t added.
Proof.
  induction fuel as [|fuel IH]; intros h Hfuel.
  - simpl. exists []. rewrite app_nil_r.
    destruct (Queued.microtasks h) as [|t rest] eqn:E.
    + repeat split; auto. intros t [].
    + exfalso. simpl in Hfuel. destruct t; simpl in Hfuel; lia.
  - simpl. destruct (Queued.microtasks h) as [|t rest] eqn:E.
    + exists []. rewrite app_nil_r. repeat split; auto. intros t [].
    + destruct (queued_runTask_spec t (Queued.withMicrotasks rest h))
        as (added & spawned & [GL GM] & W & S).
      simpl in GL, GM.
      set (h1 := Queued.runTask behaviour t (Queued.withMicrotasks rest h)) in *.
      destruct (IH h1) as (added' & L' & M' & S').
      { rewrite GM, map_app, list_sum_app. simpl in Hfuel. lia. }
      exists (added ++ added'). refine (conj _ (conj M' _)).
      * rewrite L', GL. now rewrite app_assoc.
      * intros t' [<-|Ht'].
        -- apply S; [apply incl_appl, incl_refl|].
           intros t'' Ht''. eapply queuedServed_more; [apply incl_appr, incl_refl|].
           apply S'. rewrite GM. apply in_or_app. now right.
        -- eapply queuedServed_more; [apply incl_appr, incl_refl|].
           apply S'. rewrite GM. apply in_or_app. now left.
Qed.

Lemma queued_runMicrotasks_serves h :
  exists added,
    Queued.log (Queued.runMicrotasks behaviour h) = Queued.log h ++ added /\
    Queued.microtasks (Queued.runMicrotasks behaviour h) = [] /\
    forall t, In t (Queued.microtasks h) -> queuedServed t added.
Proof. apply queued_runTasks_serves. apply Nat.le_refl. Qed.

(** [notifySubscribers] schedules a call for every entry of every matching
    query and writes nothing to the log. *)
Lemma queued_schedule_tasks query ev entries : forall acc,
  let r := fold_left
             (fun acc' entry => Queued.addTask (Queued.TCall query entry ev) acc')
             entries acc in
  Queued.log r = Queued.log acc /\
  (forall t, In t (Queued.microtasks acc) -> In t (Queued.microtasks r)) /\
  (forall en, In en entries -> In (Queued.TCall query en ev) (Queued.microtasks r)).
Proof.
  induction entries as [|en0 entries IH]; intros acc; simpl.
  - repeat split; auto. intros en [].
  - destruct (IH (Queued.addTask (Queued.TCall query en0 ev) acc)) as (L & K & N).
    refine (conj L (conj _ _)).
    + intros t Ht. apply K. simpl. apply in_or_app. now left.
    + intros en [<-|Hen]; [|now apply N].
      apply K. simpl. apply in_or_app. right. now left.
Qed.

Lemma queued_notify_tasks ev groups : forall h,
  let r := fold_left
             (fun acc group =>
                if Queued.matchQuery (key ev) (fst group)
                then fold_left
                       (fun acc' entry => Queued.addTask (Queued.TCall (fst group) entry ev) acc')
                       (snd group) acc
                else acc)
             groups h in
  Queued.log r = Queued.log h /\
  (forall t, In t (Queued.microtasks h) -> In t (Queued.microtasks r)) /\
  (forall q entries en, In (q, entries) groups -> Queued.matchQuery (key ev) q = true ->
     In en entries -> In (Queued.TCall q en ev) (Queued.microtasks r)).
Proof.
  induction groups as [|g groups IH]; intros h; simpl.
  - repeat split; auto. intros q entries en [].
  - match goal with |- context [fold_left _ groups ?x] => destruct (IH x) as (L & K & N) end.
    destruct (Queued.matchQuery (key ev) (fst g)) eqn:M.
    + destruct (queued_schedule_tasks (fst g) ev (snd g) h) as (L' & K' & N').
      refine (conj _ (conj _ _)).
      * now rewrite L.
      * auto.
      * intros q entries en [Hg|Hg] Hm Hen; [|eapply N; eassumption].
        subst g. simpl in *. apply K. now apply N'.
    + refine (conj L (conj K _)).
      intros q entries en [Hg|Hg] Hm Hen; [|eapply N; eassumption].
      subst g. simpl in M. congruence.
Qed.

Lemma queued_notifySubscribers_tasks ev h :
  Queued.log (Queued.notifySubscribers ev h) = Queued.log h /\
  (forall t, In t (Queued.microtasks h) ->
             In t (Queued.microtasks (Queued.notifySubscribers ev h))) /\
  (forall q entries en, In (q, entries) (Queued.subscribers h) ->
     Queued.matchQuery (key ev) q = true -> In en entries ->
     In (Queued.TCall q en ev) (Queued.microtasks (Queued.notifySubscribers ev h))).
Proof. apply queued_notify_tasks. Qed.

(** The effect schedules the fan-out of every queued event. *)
Lemma queued_drain_steps queue : forall registry h,
  let r := fold_left
             (fun (acc : jsmap HubEvent * Queued.Hub) ev =>
                (mset (key ev) ev (fst acc), Queued.notifySubscribers ev (snd acc)))
             queue (registry, h) in
  Queued.log (snd r) = Queued.log h /\
  Queued.subscribers (snd r) = Queued.subscribers h /\
  (forall ev q entries en, In ev queue -> In (q, entries) (Queued.subscribers h) ->
     Queued.matchQuery (key ev) q = true -> In en entries ->
     In (Queued.TCall q en ev) (Queued.microtasks (snd r))) /\
  (forall t, In t (Queued.microtasks h) -> In t (Queued.microtasks (snd r))).
Proof.
  induction queue as [|ev0 queue IH]; intros registry h; simpl.
  - repeat split; auto. intros ev q entries en [].
  - destruct (IH (mset (key ev0) ev0 registry) (Queued.notifySubscribers ev0 h))
      as (L & S & N & K).
    destruct (queued_notifySubscribers_tasks ev0 h) as (L0 & K0 & N0).
    destruct (queued_notifySubscribers_frame ev0 h) as (_ & S0).
    refine (conj _ (conj _ (conj _ _))).
    + now rewrite L.
    + now rewrite S.
    + intros ev q entries en [<-|Hev] Hg Hm Hen.
      * apply K. now apply (N0 q entries).
      * apply (N ev q entries en Hev); auto. now rewrite S0.
    + auto.
Qed.

Lemma queued_drain_tasks h :
  Queued.log (Queued.drainQueue h) = Queued.log h /\
  (forall ev q entries en, In ev (Queued.eventQueue h) ->
     In (q, entries) (Queued.subscribers h) ->
     Queued.matchQuery (key ev) q = true -> In en entries ->
     In (Queued.TCall q en ev) (Queued.microtasks (Queued.drainQueue h))).
Proof.
  unfold Queued.drainQueue.
  destruct (Queued.eventQueue h) as [|ev0 queue] eqn:E.
  - split; [reflexivity|]. intros ev q entries en [].
  - destruct (queued_drain_steps (ev0 :: queue) (Queued.eventRegistry h) h)
      as (L & S & N & K).
    destruct (fold_left _ (ev0 :: queue) (Queued.eventRegistry h, h)) as [updated h1].
    simpl in *. split; [exact L|exact N].
Qed.

(** The fan-out of one publish, seen from the log: after the scheduling
    tick every function registered under a matching query has been called
    with the event, and the error of a caller's function has gone to its
    own handler, or to [console.warn] when it has none. *)
Lemma queued_publish_delivers h k d :
  k <> EmptyString -> looselyNull d = false ->
  let ev := mkEvent (Queued.nextId h) k d (Queued.now h) in
  fst (Queued.publish k d h) = Ok tt /\
  exists added,
    Queued.log (Queued.settle behaviour (snd (Queued.publish k d h)))
    = Queued.log h ++ added /\
    forall q entries en,
      In (q, entries) (Queued.subscribers h) -> Queued.matchQuery k q = true ->
      In en entries ->
      (Queued.isFunction (Queued.callback en) = true ->
       In (Queued.Called (Queued.callback en) ev) added) /\
      (forall f error, Queued.callback en = Queued.CbUser f ->
         failure (behaviour f ev) = Some error -> In (queuedRouted q en error ev) added).
Proof.
  intros Hk Hd ev.
  assert (falsy k = false) as Fk by (destruct k; [congruence|reflexivity]).
  unfold Queued.publish. rewrite Fk, Hd. fold ev. simpl.
  split; [reflexivity|].
  set (h1 := Queued.withNextId _ _).
  destruct (queued_drain_tasks h1) as (L & N).
  destruct (queued_runMicrotasks_serves (Queued.drainQueue h1)) as (added & LA & _ & S).
  exists added. split.
  - unfold Queued.settle. rewrite LA, L. reflexivity.
  - intros q entries en Hg Hm Hen.
    destruct (S (Queued.TCall q en ev)) as (A & B & _); [|now split].
    apply (N ev q entries en); auto.
    subst h1. simpl. apply in_or_app. right. now left.
Qed.

Lemma queued_publish_routes_onceAsync h k d :
  k <> EmptyString -> looselyNull d = false ->
  let ev := mkEvent (Queued.nextId h) k d (Queued.now h) in
  exists added,
    Queued.log (Queued.settle behaviour (snd (Queued.publish k d h)))
    = Queued.log h ++ added /\
    forall q entries en c f error,
      In (q, entries) (Queued.subscribers h) -> Queued.matchQuery k q = true ->
      In en entries ->
      Queued.callback en = Queued.CbOnceAsync c (Queued.CbUser f) ->
      failure (behaviour f ev) = Some error -> In (queuedRouted q en error ev) added.
Proof.
  intros Hk Hd ev.
  assert (falsy k = false) as Fk by (destruct k; [congruence|reflexivity]).
  unfold Queued.publish. rewrite Fk, Hd. fold ev. simpl.
  set (h1 := Queued.withNextId _ _).
  destruct (queued_drain_tasks h1) as (L & N).
  destruct (queued_runMicrotasks_serves (Queued.drainQueue h1)) as (added & LA & _ & S).
  exists added. split.
  - unfold Queued.settle. rewrite LA, L. reflexivity.
  - intros q entries en c f error Hg Hm Hen Ecb Hf.
    destruct (S (Queued.TCall q en ev)) as (_ & _ & _ & D); [|now apply (D c f error)].
    apply (N ev q entries en); auto.
    subst h1. simpl. apply in_or_app. right. now left.
Qed.

End QueuedDelivery.

(** ** The queued service: [destroyRef] and the handle *)

Lemma callback_eqb_refl cb : Queued.callback_eqb cb cb = true.
Proof.
  induction cb as [f| |c u IH|c u IH]; simpl; rewrite ?Nat.eqb_refl; auto.
Qed.

(** Nothing registered under [query] is the function [cb]. *)
Definition queuedAbsent (query : string) (cb : Queued.Callback) (h : Queued.Hub) : Prop :=
  forall entries en,
    mget query (Queued.subscribers h) = Some entries -> In en entries ->
    Queued.callback en <> cb.

Lemma queuedAbsent_after query cb h : queuedAbsent query cb (Queued.unsubscribe query cb h).
Proof.
  unfold queuedAbsent, Queued.unsubscribe. intros entries en.
  destruct (mget query (Queued.subscribers h)) as [l|] eqn:E.
  - destruct (filter _ l) as [|x xs] eqn:F; simpl.
    + now rewrite mget_mdelete_same.
    + rewrite mget_mset_same. intros H Hin. inversion H; subst entries.
      rewrite <- F in Hin. apply filter_In in Hin as [_ Hne].
      intros Heq. rewrite Heq, callback_eqb_refl in Hne. discriminate.
  - rewrite E. discriminate.
Qed.

Lemma queuedAbsent_stable query cb q' cb' h :
  queuedAbsent query cb h -> queuedAbsent query cb (Queued.unsubscribe q' cb' h).
Proof.
  unfold queuedAbsent, Queued.unsubscribe. intros P entries en.
  destruct (mget q' (Queued.subscribers h)) as [l|] eqn:E; [|apply P].
  destruct (String.eqb_spec query q') as [->|Hq].
  - destruct (filter _ l) as [|x xs] eqn:F; simpl.
    + now rewrite mget_mdelete_same.
    + rewrite mget_mset_same. intros H Hin. inversion H; subst entries.
      rewrite <- F in Hin. apply filter_In in Hin as [Hin _]. eapply P; eassumption.
  - destruct (filter _ l) as [|x xs]; simpl.
    + rewrite mget_mdelete_other by assumption. apply P.
    + rewrite mget_mset_other by assumption. apply P.
Qed.

Lemma queuedAbsent_hooks query cb (hooks : list (nat * (string * Queued.Callback))) :
  forall h,
  (queuedAbsent query cb h \/ exists d, In (d, (query, cb)) hooks) ->
  queuedAbsent query cb
    (fold_left (fun acc hook => Queued.unsubscribe (fst (snd hook)) (snd (snd hook)) acc)
               hooks h).
Proof.
  induction hooks as [|hook hooks IH]; intros h [P|[d Hd]]; simpl.
  - exact P.
  - destruct Hd.
  - apply IH. left. now apply queuedAbsent_stable.
  - destruct Hd as [->|Hd]; apply IH; [left; apply queuedAbsent_after|right; eauto].
Qed.

Lemma queued_triggerDestroy_removes d query cb h :
  In (d, (query, cb)) (Queued.destroyHooks h) ->
  queuedAbsent query cb (Queued.triggerDestroy d h).
Proof.
  intros Hin. unfold Queued.triggerDestroy.
  set (mine := filter _ (Queued.destroyHooks h)).
  assert (queuedAbsent query cb
            (fold_left (fun acc hook => Queued.unsubscribe (fst (snd hook)) (snd (snd hook)) acc)
                       mine h)) as P.
  { apply queuedAbsent_hooks. right. exists d. apply filter_In. split; [exact Hin|].
    simpl. apply Nat.eqb_refl. }
  exact P.
Qed.

(** C10.  In the queued service a subscription made with a [destroyRef]
    cannot be ended through its handle: [handle.unsubscribe()] returns the
    state it was given, the entry stays under its query and the next
    matching publish still reaches the callback; the entry goes when the
    destroy hook of the owner runs. *)
Theorem destroyRef_handle_does_not_unsubscribe :
  forall (behaviour : nat -> HubEvent -> Outcome) (h : Queued.Hub)
         (k : string) (cb : Queued.Callback) (d : nat) (replayLatest : bool)
         (onErr : option nat),
    k <> EmptyString -> Queued.isFunction cb = true ->
    exists handle h1,
      Queued.subscribe behaviour (Queued.mkOptions k cb (Some d) replayLatest onErr) h
      = (Ok handle, h1) /\
      Queued.runSubscription handle h1 = h1 /\
      (exists entries,
         mget k (Queued.subscribers h1) = Some entries /\
         In (Queued.mkEntry cb onErr) entries) /\
      (forall k' payload,
         k' <> EmptyString -> looselyNull payload = false -> Queued.matchQuery k' k = true ->
         exists added,
           Queued.log (Queued.settle behaviour
                         (snd (Queued.publish k' payload (Queued.runSubscription handle h1))))
           = Queued.log h1 ++ added /\
           In (Queued.Called cb (mkEvent (Queued.nextId h1) k' payload (Queued.now h1))) added) /\
      queuedAbsent k cb (Queued.triggerDestroy d h1).
Proof.
  intros behaviour h k cb d replayLatest onErr Hk Hcb.
  assert (falsy k = false) as Fk by (destruct k; [congruence|reflexivity]).
  unfold Queued.subscribe. cbn [Queued.optKey Queued.optCallback Queued.optDestroyRef
                                Queued.optReplayLatest Queued.optOnError].
  rewrite Fk, Hcb. cbn [negb].
  match goal with
  | |- context [Queued.internalSubscribe k cb (Some d) onErr ?x] => set (h0 := x)
  end.
  unfold Queued.internalSubscribe.
  set (callbacks := match mget k (Queued.subscribers h0) with Some l => l | None => [] end).
  eexists; eexists. split; [reflexivity|].
  assert (mget k (mset k (callbacks ++ [Queued.mkEntry cb onErr]) (Queued.subscribers h0))
          = Some (callbacks ++ [Queued.mkEntry cb onErr])) as Hget by apply mget_mset_same.
  refine (conj eq_refl (conj _ (conj _ _))).
  - eexists. split; [exact Hget|]. apply in_or_app. right. now left.
  - intros k' payload Hk' Hp Hm. cbn [Queued.runSubscription Queued.manualUnsubscribe].
    match goal with
    | |- context [Queued.publish k' payload ?x] =>
        destruct (queued_publish_delivers behaviour x k' payload Hk' Hp) as (_ & added & L & D)
    end.
    exists added. split; [exact L|].
    apply mget_In in Hget.
    destruct (D k _ (Queued.mkEntry cb onErr) Hget Hm) as [C _].
    { apply in_or_app. right. now left. }
    apply C. exact Hcb.
  - apply queued_triggerDestroy_removes. simpl. apply in_or_app. right. now left.
Qed.

(** A component subscribes to ["data"] with its [destroyRef]. *)
Lemma destroyRef_handle_does_not_unsubscribe_witness :
  exists handle h1,
    Queued.subscribe (fun _ _ => Returned)
      (Queued.mkOptions "data" (Queued.CbUser 1) (Some 7) false None) Queued.empty
    = (Ok handle, h1) /\
    Queued.runSubscription handle h1 = h1 /\
    (exists entries,
       mget "data" (Queued.subscribers h1) = Some entries /\
       In (Queued.mkEntry (Queued.CbUser 1) None) entries) /\
    (forall k' payload,
       k' <> EmptyString -> looselyNull payload = false ->
       Queued.matchQuery k' "data" = true ->
       exists added,
         Queued.log (Queued.settle (fun _ _ => Returned)
                       (snd (Queued.publish k' payload (Queued.runSubscription handle h1))))
         = Queued.log h1 ++ added /\
         In (Queued.Called (Queued.CbUser 1)
               (mkEvent (Queued.nextId h1) k' payload (Queued.now h1))) added) /\
    queuedAbsent "data" (Queued.CbUser 1) (Queued.triggerDestroy 7 h1).
Proof.
  apply (destroyRef_handle_does_not_unsubscribe (fun _ _ => Returned) Queued.empty
           "data" (Queued.CbUser 1) 7 false None).
  - discriminate.
  - reflexivity.
Defined.

(** ** [once] and [onceAsync] of the queued service *)

(** The events the caller's function [f] was called with, in order. *)
Fixpoint queuedCallsOf (f : nat) (l : list Queued.LogItem) : list HubEvent :=
  match l with
  | [] => []
  | Queued.Called (Queued.CbUser g) ev :: rest =>
      if Nat.eqb f g then ev :: queuedCallsOf f rest else queuedCallsOf f rest
  | _ :: rest => queuedCallsOf f rest
  end.

(** Two publishes in a row, then one scheduling tick. *)
Definition twoPublishes (behaviour : nat -> HubEvent -> Outcome) (h : Queued.Hub)
    : Queued.Hub :=
  Queued.settle behaviour
    (snd (Queued.publish "k" (JNum 2) (snd (Queued.publish "k" (JNum 1) h)))).

(** C1 at its failing input, for every hub without pending reactions.
    After [onceAsync({ key: k, callback: f })] two publishes to [k] that
    reach the same scheduling tick both call [f]: the arrow function of
    [onceAsync] keeps no [hasRun] flag and unsubscribes only after its
    [await], when both promise reactions are already scheduled. *)
Theorem onceAsync_runs_twice :
  forall (behaviour : nat -> HubEvent -> Outcome) (h : Queued.Hub) (k : string)
         (f : nat) (onErr : option nat) (d1 d2 : value),
    k <> EmptyString -> looselyNull d1 = false -> looselyNull d2 = false ->
    Queued.microtasks h = [] ->
    let h1 := snd (Queued.onceAsync behaviour
                     (Queued.mkOptions k (Queued.CbUser f) None false onErr) h) in
    let ev1 := mkEvent (Queued.nextId h1) k d1 (Queued.now h1) in
    let ev2 := mkEvent (S (Queued.nextId h1)) k d2 (Queued.now h1) in
    exists added,
      Queued.log (Queued.settle behaviour
                    (snd (Queued.publish k d2 (snd (Queued.publish k d1 h1)))))
      = Queued.log h1 ++ added /\
      In (Queued.Called (Queued.CbUser f) ev1) added /\
      In (Queued.Called (Queued.CbUser f) ev2) added.
Proof.
  intros behaviour h k f onErr d1 d2 Hk Hd1 Hd2 Hm h1 ev1 ev2.
  assert (falsy k = false) as Fk by (destruct k; [congruence|reflexivity]).
  set (wrapper := Queued.CbOnceAsync (Queued.nextId h) (Queued.CbUser f)).
  assert (exists entries,
            mget k (Queued.subscribers h1) = Some entries /\
            In (Queued.mkEntry wrapper onErr) entries) as (entries & Hget & Hin).
  { subst h1. unfold Queued.onceAsync, Queued.newClosure, Queued.subscribeAsync.
    cbn [Queued.optKey Queued.optCallback Queued.optDestroyRef Queued.optReplayLatest
         Queued.optOnError Queued.isFunction negb].
    rewrite Fk. unfold Queued.internalSubscribe.
    cbn [snd Queued.setSubscription Queued.subscribers Queued.withClosures].
    unfold Queued.runMicrotasks.
    cbn [Queued.microtasks Queued.withSubscribers Queued.withNextId Queued.withClosures].
    rewrite Hm. cbn [map list_sum Queued.runTasks Queued.subscribers Queued.withSubscribers].
    eexists. split; [apply mget_mset_same|]. apply in_or_app. right. now left. }
  unfold Queued.publish. rewrite Fk, Hd1, Hd2.
  cbn [snd Queued.nextId Queued.now Queued.withNextId Queued.withQueue Queued.eventQueue].
  fold ev1. fold ev2.
  match goal with |- context [Queued.settle behaviour ?x] => set (h3 := x) end.
  destruct (queued_drain_tasks h3) as (L & N).
  destruct (queued_runMicrotasks_serves behaviour (Queued.drainQueue h3)) as (added & LA & _ & S).
  exists added. split; [unfold Queued.settle; rewrite LA, L; reflexivity|].
  apply mget_In in Hget.
  assert (forall ev, In ev [ev1; ev2] -> key ev = k ->
            In (Queued.Called (Queued.CbUser f) ev) added) as Both.
  { intros ev Hev Hkey.
    destruct (S (Queued.TCall k (Queued.mkEntry wrapper onErr) ev)) as (_ & _ & U & _).
    - apply (N ev k entries); auto.
      + subst h3. simpl. rewrite <- app_assoc. apply in_or_app. now right.
      + rewrite Hkey. apply split_matchQuery_refl.
    - apply (U (Queued.nextId h) (Queued.CbUser f)); reflexivity. }
  split; apply Both; simpl; auto.
Qed.

(** The theorem on a fresh hub, for a callback that returns normally. *)
Lemma onceAsync_runs_twice_witness :
  exists added,
    Queued.log
      (Queued.settle (fun _ _ => Returned)
         (snd (Queued.publish "k" (JNum 2)
            (snd (Queued.publish "k" (JNum 1)
               (snd (Queued.onceAsync (fun _ _ => Returned)
                       (Queued.mkOptions "k" (Queued.CbUser 7) None false None)
                       Queued.empty)))))))
    = [] ++ added /\
    In (Queued.Called (Queued.CbUser 7) (mkEvent 1 "k" (JNum 1) 0)) added /\
    In (Queued.Called (Queued.CbUser 7) (mkEvent 2 "k" (JNum 2) 0)) added.
Proof.
  apply (onceAsync_runs_twice (fun _ _ => Returned) Queued.empty "k" 7 None (JNum 1) (JNum 2)).
  - discriminate.
  - reflexivity.
  - reflexivity.
  - reflexivity.
Defined.

(** Whatever the callback does with the first event ([o1]) and with the
    second ([o2]). *)
Definition outcomes (o1 o2 : Outcome) (f : nat) (ev : HubEvent) : Outcome :=
  if Nat.eqb (oid ev) 1 then o1 else o2.

(** The exact calls on a fresh hub: [onceAsync] calls twice ... *)
Lemma onceAsync_call_list (o1 o2 : Outcome) :
  queuedCallsOf 7
    (Queued.log
       (twoPublishes (outcomes o1 o2)
          (snd (Queued.onceAsync (outcomes o1 o2)
                  (Queued.mkOptions "k" (Queued.CbUser 7) None false None) Queued.empty))))
  = [mkEvent 1 "k" (JNum 1) 0; mkEvent 2 "k" (JNum 2) 0].
Proof. destruct o1, o2; vm_compute; reflexivity. Qed.

(** ... where the sibling [once], with its [hasRun] flag, calls once. *)
Lemma once_call_list (o1 o2 : Outcome) :
  queuedCallsOf 7
    (Queued.log
       (twoPublishes (outcomes o1 o2)
          (snd (Queued.once (outcomes o1 o2)
                  (Queued.mkOptions "k" (Queued.CbUser 7) None false None) Queued.empty))))
  = [mkEvent 1 "k" (JNum 1) 0].
Proof. destruct o1, o2; vm_compute; reflexivity. Qed.

(** ** Sorting as [Array.prototype.sort] does *)

Section SortFacts.
Context {A : Type} (cmp : A -> A -> Z).

(** [cmp] puts [a] no later than [b]. *)
Definition inOrder (a b : A) : Prop := (cmp a b <= 0)%Z.

Hypothesis cmp_total : forall a b, (0 < cmp a b)%Z -> (cmp b a <= 0)%Z.
Hypothesis cmp_trans : forall a b c, (cmp a b <= 0)%Z -> (cmp b c <= 0)%Z -> (cmp a c <= 0)%Z.

Lemma sortInsert_perm x l : Permutation (x :: l) (sortInsert cmp x l).
Proof.
  induction l as [|y l IH]; simpl; [apply Permutation_refl|].
  destruct (cmp x y <=? 0)%Z; [apply Permutation_refl|].
  eapply Permutation_trans; [apply perm_swap|]. now apply perm_skip.
Qed.

Lemma sort_perm l : Permutation l (sort cmp l).
Proof.
  induction l as [|x l IH]; simpl; [apply perm_nil|].
  eapply Permutation_trans; [|apply sortInsert_perm]. now apply perm_skip.
Qed.

Lemma sortInsert_sorted x l :
  StronglySorted inOrder l -> StronglySorted inOrder (sortInsert cmp x l).
Proof.
  induction l as [|y l IH]; intros Hs; simpl.
  - constructor; [constructor|constructor].
  - inversion Hs as [|? ? Hl Hy]; subst.
    destruct (Z.leb_spec (cmp x y) 0) as [Hle|Hgt].
    + constructor; [exact Hs|]. constructor; [exact Hle|].
      rewrite Forall_forall in *. intros z Hz. eapply cmp_trans; [exact Hle|]. now apply Hy.
    + constructor; [now apply IH|].
      rewrite Forall_forall in *. intros z Hz.
      apply (Permutation_in _ (Permutation_sym (sortInsert_perm x l))) in Hz.
      destruct Hz as [<-|Hz]; [now apply cmp_total|now apply Hy].
Qed.

Lemma sort_sorted l : StronglySorted inOrder (sort cmp l).
Proof.
  induction l as [|x l IH]; simpl; [constructor|]. now apply sortInsert_sorted.
Qed.

End SortFacts.

Lemma StronglySorted_weaken {A} (R R' : A -> A -> Prop) (l : list A) :
  (forall a b, R a b -> R' a b) -> StronglySorted R l -> StronglySorted R' l.
Proof.
  intros Himp. induction 1 as [|a l Hs IH Hall]; constructor; auto.
  rewrite Forall_forall in *. auto.
Qed.

(** ** The multi-key read *)

(** The registry as [publish], [clearEvent] and [reset] leave it: one
    binding per key, each event stored under its own key. *)
Definition registryOk (registry : jsmap HubEvent) : Prop :=
  NoDup (mkeys registry) /\ forall k ev, In (k, ev) registry -> key ev = k.

(** How [toSignalMultiple] of the synchronous service reads one entry of
    its list: through the wildcard expression when the entry has a [*],
    as the exact key otherwise. *)
Definition entryMatches (query k : string) : bool :=
  if includes star query then Regex.test (Sync.buildWildcardRegex query) k
  else String.eqb query k.

(** A collection that holds current events only. *)
Definition currentOnly (registry acc : jsmap HubEvent) : Prop :=
  NoDup (mkeys acc) /\ forall k ev, mget k acc = Some ev -> mget k registry = Some ev.

Lemma mkeys_mset_NoDup {V} k (v : V) m : NoDup (mkeys m) -> NoDup (mkeys (mset k v m)).
Proof.
  intros Hnd. destruct (mget k m) as [v0|] eqn:E.
  - rewrite mkeys_mset_present; [exact Hnd|congruence].
  - rewrite mkeys_mset_absent by exact E.
    apply NoDup_app; [exact Hnd|repeat constructor; intros []|].
    intros x Hx [<-|[]]. now apply (mget_None_not_key _ _ E).
Qed.

Lemma currentOnly_mset registry acc k ev :
  currentOnly registry acc -> mget k registry = Some ev ->
  currentOnly registry (mset k ev acc) /\
  forall k' ev', mget k' (mset k ev acc) = Some ev' <->
                 (mget k' acc = Some ev' \/ (k' = k /\ ev' = ev)).
Proof.
  intros [Hnd Hsub] Hreg. split; [split|].
  - now apply mkeys_mset_NoDup.
  - intros k' ev'. destruct (String.eqb_spec k' k) as [->|Hne].
    + rewrite mget_mset_same. intros H. inversion H; subst. exact Hreg.
    + rewrite mget_mset_other by exact Hne. apply Hsub.
  - intros k' ev'. destruct (String.eqb_spec k' k) as [->|Hne].
    + rewrite mget_mset_same. split.
      * intros H. inversion H; subst. now right.
      * intros [H|[_ ->]]; [|reflexivity]. apply Hsub in H. congruence.
    + rewrite mget_mset_other by exact Hne. split; [now left|].
      intros [H|[H _]]; [exact H|congruence].
Qed.

(** The wildcard branch: one pass over the entries of the registry. *)
Lemma collect_wildcard registry regex entries : forall acc,
  currentOnly registry acc ->
  (forall k ev, In (k, ev) entries -> mget k registry = Some ev) ->
  let acc' := fold_left
                (fun a (entry : string * HubEvent) =>
                   if Regex.test regex (fst entry) then mset (fst entry) (snd entry) a else a)
                entries acc in
  currentOnly registry acc' /\
  forall k ev, mget k acc' = Some ev <->
               (mget k acc = Some ev \/ (In (k, ev) entries /\ Regex.test regex k = true)).
Proof.
  induction entries as [|[k0 ev0] entries IH]; intros acc Hacc Hreg; simpl.
  - split; [exact Hacc|]. intros k ev. tauto.
  - assert (forall k ev, In (k, ev) entries -> mget k registry = Some ev) as Hreg'
      by (intros; apply Hreg; now right).
    destruct (Regex.test regex k0) eqn:T.
    + destruct (currentOnly_mset registry acc k0 ev0 Hacc (Hreg _ _ (or_introl eq_refl)))
        as [Hacc1 Hiff1].
      destruct (IH _ Hacc1 Hreg') as [Hacc2 Hiff2]. split; [exact Hacc2|].
      intros k ev. rewrite Hiff2, Hiff1. split.
      * intros [[H|[-> ->]]|[H1 H2]]; auto.
      * intros [H|[[H|H] H2]]; auto.
        inversion H; subst. auto.
    + destruct (IH _ Hacc Hreg') as [Hacc2 Hiff2]. split; [exact Hacc2|].
      intros k ev. rewrite Hiff2. split.
      * intros [H|[H1 H2]]; auto.
      * intros [H|[[H|H] H2]]; auto.
        inversion H; subst. congruence.
Qed.

Lemma collect_spec registry acc query :
  registryOk registry -> currentOnly registry acc ->
  currentOnly registry (Sync.collect registry acc query) /\
  forall k ev, mget k (Sync.collect registry acc query) = Some ev <->
               (mget k acc = Some ev \/
                (falsy query = false /\ entryMatches query k = true /\
                 mget k registry = Some ev)).
Proof.
  intros [Hnd Hkey] Hacc. unfold Sync.collect, entryMatches.
  destruct (falsy query) eqn:F.
  - split; [exact Hacc|]. intros k ev. split; [now left|].
    intros [H|[H _]]; [exact H|discriminate].
  - destruct (includes star query) eqn:W; simpl.
    + destruct (collect_wildcard registry (Sync.buildWildcardRegex query) registry acc Hacc)
        as [Hacc' Hiff].
      { intros k ev Hin. now apply In_mget_unique. }
      split; [exact Hacc'|]. intros k ev. rewrite Hiff. split.
      * intros [H|[H1 H2]]; [now left|]. right. repeat split; auto. now apply In_mget_unique.
      * intros [H|(_ & H1 & H2)]; [now left|]. right. split; [now apply mget_In|exact H1].
    + destruct (mget query registry) as [event|] eqn:G.
      * assert (key event = query) as Ek by (apply Hkey; now apply mget_In).
        rewrite Ek.
        destruct (currentOnly_mset registry acc query event Hacc G) as [Hacc' Hiff].
        split; [exact Hacc'|]. intros k ev. rewrite Hiff. split.
        -- intros [H|[-> ->]]; [now left|]. right. now rewrite String.eqb_refl.
        -- intros [H|(_ & H1 & H2)]; [now left|]. right.
           apply String.eqb_eq in H1. subst k. split; congruence.
      * split; [exact Hacc|]. intros k ev. split; [now left|].
        intros [H|(_ & H1 & H2)]; [exact H|].
        apply String.eqb_eq in H1. subst k. congruence.
Qed.

Lemma collect_all registry keys : forall acc,
  registryOk registry -> currentOnly registry acc ->
  let acc' := fold_left (Sync.collect registry) keys acc in
  currentOnly registry acc' /\
  forall k ev, mget k acc' = Some ev <->
               (mget k acc = Some ev \/
                (mget k registry = Some ev /\
                 exists query, In query keys /\ query <> EmptyString /\
                               entryMatches query k = true)).
Proof.
  induction keys as [|query keys IH]; intros acc Hreg Hacc; simpl.
  - split; [exact Hacc|]. intros k ev. split; [now left|].
    intros [H|(_ & q & [] & _)]. exact H.
  - destruct (collect_spec registry acc query Hreg Hacc) as [Hacc1 Hiff1].
    destruct (IH _ Hreg Hacc1) as [Hacc2 Hiff2]. split; [exact Hacc2|].
    intros k ev. rewrite Hiff2, Hiff1. split.
    + intros [[H|(F & M & G)]|(G & q & Hq & Hne & M)]; auto.
      * right. split; [exact G|]. exists query. repeat split; auto.
        intros ->. discriminate.
      * right. split; [exact G|]. exists q. auto.
    + intros [H|(G & q & [<-|Hq] & Hne & M)]; auto.
      * left. right. repeat split; auto. destruct query; [congruence|reflexivity].
      * right. split; [exact G|]. exists q. auto.
Qed.

Lemma mvalues_In {V} (m : jsmap V) v :
  NoDup (mkeys m) -> (In v (mvalues m) <-> exists k, mget k m = Some v).
Proof.
  intros Hnd. unfold mvalues. rewrite in_map_iff. split.
  - intros ([k v'] & E & Hin). simpl in E. subst v'. exists k. now apply In_mget_unique.
  - intros [k Hk]. exists (k, v). split; [reflexivity|now apply mget_In].
Qed.

Lemma mvalues_keys (m : jsmap HubEvent) :
  (forall k ev, In (k, ev) m -> key ev = k) -> map key (mvalues m) = mkeys m.
Proof.
  unfold mvalues, mkeys. induction m as [|[k ev] m IH]; intros H; simpl; [reflexivity|].
  rewrite (H k ev (or_introl eq_refl)), IH; [reflexivity|].
  intros k' ev' Hin. apply H. now right.
Qed.

Lemma registryOk_mset registry ev :
  registryOk registry -> registryOk (mset (key ev) ev registry).
Proof.
  intros [Hnd Hkey]. split; [now apply mkeys_mset_NoDup|].
  intros k' ev' Hin.
  assert (mget k' (mset (key ev) ev registry) = Some ev') as G
    by (apply In_mget_unique; [now apply mkeys_mset_NoDup|exact Hin]).
  destruct (String.eqb_spec k' (key ev)) as [->|Hne].
  - rewrite mget_mset_same in G. now inversion G.
  - rewrite mget_mset_other in G by exact Hne. apply Hkey. now apply mget_In.
Qed.

Lemma registryOk_mdelete registry k : registryOk registry -> registryOk (mdelete k registry).
Proof.
  intros [Hnd Hkey]. unfold mdelete. split.
  - unfold mkeys in *. induction registry as [|[k' ev'] registry IH]; simpl; [constructor|].
    inversion Hnd as [|? ? Hnot Hnd']; subst.
    destruct (negb (String.eqb k k')); simpl.
    + constructor.
      * intros Hin. apply Hnot. apply in_map_iff in Hin as (x & E & Hx).
        apply filter_In in Hx as [Hx _]. apply in_map_iff. eauto.
      * apply IH; [exact Hnd'|]. intros; apply Hkey; now right.
    + apply IH; [exact Hnd'|]. intros; apply Hkey; now right.
  - intros k' ev' Hin. apply filter_In in Hin as [Hin _]. now apply Hkey.
Qed.

Lemma registryOk_empty : registryOk [].
Proof. split; [constructor|intros k ev []]. Qed.

Lemma filterBoolean_In {A} (l : list (option A)) a :
  In a (Queued.filterBoolean l) <-> In (Some a) l.
Proof.
  induction l as [|[x|] l IH]; simpl; [tauto| |].
  - rewrite IH. split; intros [H|H]; auto; left; congruence.
  - rewrite IH. split; [auto|]. intros [H|H]; [discriminate|exact H].
Qed.

(** What a host collation must satisfy for [sort] to order the keys. *)
Definition collation (localeCompare : string -> string -> Z) : Prop :=
  (forall a b, (0 < localeCompare a b)%Z -> (localeCompare b a <= 0)%Z) /\
  (forall a b c, (localeCompare a b <= 0)%Z -> (localeCompare b c <= 0)%Z ->
                 (localeCompare a c <= 0)%Z).

Lemma sortEvents_perm localeCompare sortBy events :
  Permutation events (Sync.sortEvents localeCompare sortBy events).
Proof. destruct sortBy; simpl; [apply Permutation_refl|apply sort_perm|apply sort_perm]. Qed.

(** C7, as the code has it.  Both services refuse an empty list.  The
    queued service also refuses a list with an empty entry and otherwise
    returns, for the listed keys in their order, the events the registry
    holds for exactly these keys.  The synchronous service skips empty
    entries; every other entry is expanded through the wildcard expression
    against the stored keys when it contains [*] and is looked up as an
    exact key otherwise; the result is the union of the events found, one
    per key, keys without an event being left out, sorted by falling
    timestamp or by rising key in the host collation when that is asked
    for. *)
Theorem toSignalMultiple_reads :
  forall (localeCompare : string -> string -> Z) (keys : list string)
         (sortBy : Sync.SortBy),
    (Sync.toSignalMultiple localeCompare [] sortBy = Throw KeysArrayCannotBeEmpty /\
     (keys <> [] ->
      exists read,
        Sync.toSignalMultiple localeCompare keys sortBy = Ok read /\
        forall h, registryOk (Sync.eventRegistry h) ->
          (forall ev,
             In ev (read h) <->
             (mget (key ev) (Sync.eventRegistry h) = Some ev /\
              exists query, In query keys /\ query <> EmptyString /\
                            entryMatches query (key ev) = true)) /\
          NoDup (map key (read h)) /\
          (sortBy = Sync.ByTimestamp ->
           StronglySorted (fun a b => (timestamp b <= timestamp a)%Z) (read h)) /\
          (sortBy = Sync.ByKey -> collation localeCompare ->
           StronglySorted (fun a b => (localeCompare (key a) (key b) <= 0)%Z) (read h)))) /\
    (Queued.toSignalMultiple [] = Throw KeysArrayCannotBeEmpty /\
     (keys <> [] -> existsb falsy keys = true ->
      Queued.toSignalMultiple keys = Throw AllKeysMustBeNonEmpty) /\
     (keys <> [] -> existsb falsy keys = false ->
      exists read,
        Queued.toSignalMultiple keys = Ok read /\
        forall h,
          read h = Queued.filterBoolean (map (fun k => mget k (Queued.eventRegistry h)) keys) /\
          forall ev, In ev (read h) <->
                     exists k, In k keys /\ mget k (Queued.eventRegistry h) = Some ev)).
Proof.
  intros localeCompare keys sortBy. split; [split; [reflexivity|]|].
  - intros Hne. destruct keys as [|k0 keys]; [congruence|].
    eexists. split; [reflexivity|]. intros h Hreg.
    set (acc := fold_left (Sync.collect (Sync.eventRegistry h)) (k0 :: keys) []).
    destruct (collect_all (Sync.eventRegistry h) (k0 :: keys) [] Hreg) as [[Hnd Hsub] Hiff].
    { split; [constructor|discriminate]. }
    fold acc in Hnd, Hsub, Hiff.
    assert (forall k ev, In (k, ev) acc -> key ev = k) as Hkeys.
    { intros k ev Hin. apply Hreg. apply mget_In, Hsub. now apply In_mget_unique. }
    pose proof (sortEvents_perm localeCompare sortBy (mvalues acc)) as P.
    refine (conj _ (conj _ (conj _ _))).
    + intros ev. split.
      * intros Hin. apply (Permutation_in _ (Permutation_sym P)) in Hin.
        apply (mvalues_In _ _ Hnd) in Hin as [k Hk].
        assert (key ev = k) as <- by (apply Hkeys; now apply mget_In).
        apply Hiff in Hk as [Hk|Hk]; [discriminate|exact Hk].
      * intros [G M]. apply (Permutation_in _ P).
        apply (mvalues_In _ _ Hnd). exists (key ev). apply Hiff. now right.
    + apply (Permutation_NoDup (Permutation_map key P)).
      now rewrite (mvalues_keys _ Hkeys).
    + intros ->. simpl.
      apply (StronglySorted_weaken (inOrder Sync.byTimestamp)).
      * unfold inOrder, Sync.byTimestamp. intros; lia.
      * apply sort_sorted; unfold Sync.byTimestamp; intros; lia.
    + intros -> [Ht Htr]. simpl.
      apply (StronglySorted_weaken (inOrder (Sync.byKey localeCompare))).
      * unfold inOrder, Sync.byKey. auto.
      * apply sort_sorted; unfold Sync.byKey; intros; eauto.
  - split; [reflexivity|split].
    + intros Hne He. destruct keys as [|k0 keys]; [congruence|].
      unfold Queued.toSignalMultiple. now rewrite He.
    + intros Hne He. destruct keys as [|k0 keys]; [congruence|].
      unfold Queued.toSignalMultiple. rewrite He.
      eexists. split; [reflexivity|]. intros h. split; [reflexivity|].
      intros ev. rewrite filterBoolean_In, in_map_iff. split.
      * intros (k & E & Hk). eauto.
      * intros (k & Hk & E). eauto.
Qed.

(** A comparator to run the theorem with: shorter keys first. *)
Definition byLength (a b : string) : Z :=
  (Z.of_nat (String.length a) - Z.of_nat (String.length b))%Z.

(** Three published events, read back through a wildcard, an empty entry
    and an exact key. *)
Definition sampleRegistry : Sync.Hub :=
  Sync.withRegistry
    [("a:x", mkEvent 0 "a:x" (JNum 1) 10%Z);
     ("bb", mkEvent 1 "bb" (JNum 2) 30%Z);
     ("a:y", mkEvent 2 "a:y" (JNum 3) 20%Z)]
    Sync.empty.

Lemma toSignalMultiple_reads_witness :
  exists read,
    Sync.toSignalMultiple byLength ["a:*"; EmptyString; "bb"] Sync.ByKey = Ok read /\
    map key (read sampleRegistry) = ["bb"; "a:x"; "a:y"] /\
    NoDup (map key (read sampleRegistry)) /\
    StronglySorted (fun a b => (byLength (key a) (key b) <= 0)%Z) (read sampleRegistry).
Proof.
  destruct (proj2 (proj1 (toSignalMultiple_reads byLength
                            ["a:*"; EmptyString; "bb"] Sync.ByKey)))
    as (read & E & H); [discriminate|].
  exists read. split; [exact E|].
  assert (registryOk (Sync.eventRegistry sampleRegistry)) as R.
  { split; simpl.
    - repeat constructor; simpl; intuition discriminate.
    - intros k ev [X|[X|[X|[]]]]; inversion X; reflexivity. }
  destruct (H sampleRegistry R) as (_ & Hnd & _ & Hs).
  inversion E; subst read.
  split; [reflexivity|]. split; [exact Hnd|].
  apply Hs; [reflexivity|]. unfold collation, byLength. split; intros; lia.
Defined.

(** C7 as stated fails in the synchronous service: a list with an empty
    entry is not refused, the entry is skipped and the others are read. *)
Lemma toSignalMultiple_skips_empty_entry :
  ~ (exists e, Sync.toSignalMultiple byLength ["bb"; EmptyString] Sync.Unsorted = Throw e) /\
  exists read,
    Sync.toSignalMultiple byLength ["bb"; EmptyString] Sync.Unsorted = Ok read /\
    map key (read sampleRegistry) = ["bb"].
Proof.
  split.
  - intros [e E]. discriminate E.
  - eexists. split; reflexivity.
Qed.

(** In [toSignalMultiple] the entry ["*"] goes through the wildcard
    expression, where it stands for one segment without a colon: unlike
    [matchQuery], it does not reach the keys ["a:x"] and ["a:y"]. *)
Lemma toSignalMultiple_star_is_one_segment :
  exists read,
    Sync.toSignalMultiple byLength ["*"] Sync.Unsorted = Ok read /\
    map key (read sampleRegistry) = ["bb"] /\
    Sync.matchQuery "a:x" "*" = true.
Proof. eexists. repeat split. Qed.

(** ** The first service: fan-out inside the effect *)

Section BusDelivery.
Variable behaviour : nat -> HubEvent -> option value.

Lemma bus_callSubscriber_spec query ev h f :
  let h' := Bus.callSubscriber behaviour query ev h f in
  Bus.subscribers h' = Bus.subscribers h /\
  exists added,
    Bus.log h' = Bus.log h ++ added /\ In (Bus.Called f ev) added /\
    forall error, behaviour f ev = Some error -> In (Bus.Warned query error) added.
Proof.
  unfold Bus.callSubscriber. destruct (behaviour f ev) as [error|]; simpl.
  - split; [reflexivity|]. exists [Bus.Called f ev; Bus.Warned query error].
    rewrite <- app_assoc. simpl. repeat split; auto.
    intros e E. inversion E; subst. auto.
  - split; [reflexivity|]. exists [Bus.Called f ev]. repeat split; simpl; auto.
    discriminate.
Qed.

Lemma bus_callAll_spec query ev callbacks : forall h,
  let h' := fold_left (Bus.callSubscriber behaviour query ev) callbacks h in
  Bus.subscribers h' = Bus.subscribers h /\
  exists added,
    Bus.log h' = Bus.log h ++ added /\
    forall f, In f callbacks ->
      In (Bus.Called f ev) added /\
      forall error, behaviour f ev = Some error -> In (Bus.Warned query error) added.
Proof.
  induction callbacks as [|f0 callbacks IH]; intros h; simpl.
  - split; [reflexivity|]. exists []. rewrite app_nil_r. split; [reflexivity|]. intros f [].
  - destruct (bus_callSubscriber_spec query ev h f0) as (S0 & a0 & L0 & C0 & W0).
    destruct (IH (Bus.callSubscriber behaviour query ev h f0)) as (S1 & a1 & L1 & D1).
    split; [now rewrite S1|]. exists (a0 ++ a1). split.
    + rewrite L1, L0. now rewrite app_assoc.
    + intros f [<-|Hf].
      * split; [apply in_or_app; now left|]. intros e E. apply in_or_app. left. auto.
      * destruct (D1 f Hf) as [C W]. split; [apply in_or_app; now right|].
        intros e E. apply in_or_app. right. auto.
Qed.

Lemma bus_notify_fold ev groups : forall h,
  let h' := fold_left
              (fun acc (entry : string * list nat) =>
                 if Bus.matchQuery (key ev) (fst entry)
                 then fold_left (Bus.callSubscriber behaviour (fst entry) ev) (snd entry) acc
                 else acc)
              groups h in
  Bus.subscribers h' = Bus.subscribers h /\
  exists added,
    Bus.log h' = Bus.log h ++ added /\
    forall q callbacks f,
      In (q, callbacks) groups -> Bus.matchQuery (key ev) q = true -> In f callbacks ->
      In (Bus.Called f ev) added /\
      forall error, behaviour f ev = Some error -> In (Bus.Warned q error) added.
Proof.
  induction groups as [|g groups IH]; intros h; simpl.
  - split; [reflexivity|]. exists []. rewrite app_nil_r. split; [reflexivity|].
    intros q callbacks f [].
  - destruct (Bus.matchQuery (key ev) (fst g)) eqn:M.
    + destruct (bus_callAll_spec (fst g) ev (snd g) h) as (S0 & a0 & L0 & D0).
      match goal with |- context [fold_left _ groups ?x] =>
        destruct (IH x) as (S1 & a1 & L1 & D1) end.
      split; [now rewrite S1|]. exists (a0 ++ a1). split.
      * rewrite L1, L0. now rewrite app_assoc.
      * intros q callbacks f [Hg|Hg] Hm Hf.
        -- subst g. simpl in *. destruct (D0 f Hf) as [C W].
           split; [apply in_or_app; now left|]. intros e E. apply in_or_app. left. auto.
        -- destruct (D1 q callbacks f Hg Hm Hf) as [C W].
           split; [apply in_or_app; now right|]. intros e E. apply in_or_app. right. auto.
    + destruct (IH h) as (S1 & a1 & L1 & D1). split; [exact S1|]. exists a1.
      split; [exact L1|]. intros q callbacks f [Hg|Hg] Hm Hf.
      * subst g. simpl in M. congruence.
      * eauto.
Qed.

Lemma bus_notifySubscribers_spec ev h :
  let h' := Bus.notifySubscribers behaviour ev h in
  Bus.subscribers h' = Bus.subscribers h /\
  exists added,
    Bus.log h' = Bus.log h ++ added /\
    forall q callbacks f,
      In (q, callbacks) (Bus.subscribers h) -> Bus.matchQuery (key ev) q = true ->
      In f callbacks ->
      In (Bus.Called f ev) added /\
      forall error, behaviour f ev = Some error -> In (Bus.Warned q error) added.
Proof. apply bus_notify_fold. Qed.

Lemma bus_drain_steps queue : forall registry h,
  let r := fold_left
             (fun (acc : jsmap HubEvent * Bus.Hub) ev =>
                (mset (key ev) ev (fst acc), Bus.notifySubscribers behaviour ev (snd acc)))
             queue (registry, h) in
  Bus.subscribers (snd r) = Bus.subscribers h /\
  exists added,
    Bus.log (snd r) = Bus.log h ++ added /\
    forall ev q callbacks f,
      In ev queue -> In (q, callbacks) (Bus.subscribers h) ->
      Bus.matchQuery (key ev) q = true -> In f callbacks ->
      In (Bus.Called f ev) added /\
      forall error, behaviour f ev = Some error -> In (Bus.Warned q error) added.
Proof.
  induction queue as [|ev0 queue IH]; intros registry h; simpl.
  - split; [reflexivity|]. exists []. rewrite app_nil_r. split; [reflexivity|].
    intros ev q callbacks f [].
  - destruct (bus_notifySubscribers_spec ev0 h) as (S0 & a0 & L0 & D0).
    destruct (IH (mset (key ev0) ev0 registry) (Bus.notifySubscribers behaviour ev0 h))
      as (S1 & a1 & L1 & D1).
    split; [now rewrite S1|]. exists (a0 ++ a1). split.
    + rewrite L1, L0. now rewrite app_assoc.
    + intros ev q callbacks f [<-|Hev] Hg Hm Hf.
      * destruct (D0 q callbacks f Hg Hm Hf) as [C W].
        split; [apply in_or_app; now left|]. intros e E. apply in_or_app. left. auto.
      * rewrite <- S0 in Hg. destruct (D1 ev q callbacks f Hev Hg Hm Hf) as [C W].
        split; [apply in_or_app; now right|]. intros e E. apply in_or_app. right. auto.
Qed.

(** [emit] then the effect: every callback under a matching query is
    called, and an error it throws goes to [console.warn]. *)
Lemma bus_emit_delivers h k d :
  k <> EmptyString -> looselyNull d = false ->
  let ev := mkEvent (Bus.nextId h) k d (Bus.now h) in
  fst (Bus.emit k d h) = Ok tt /\
  exists added,
    Bus.log (Bus.drainQueue behaviour (snd (Bus.emit k d h))) = Bus.log h ++ added /\
    forall q callbacks f,
      In (q, callbacks) (Bus.subscribers h) -> Bus.matchQuery k q = true ->
      In f callbacks ->
      In (Bus.Called f ev) added /\
      forall error, behaviour f ev = Some error -> In (Bus.Warned q error) added.
Proof.
  intros Hk Hd ev.
  assert (falsy k = false) as Fk by (destruct k; [congruence|reflexivity]).
  unfold Bus.emit. rewrite Fk, Hd. fold ev. cbn [fst snd]. split; [reflexivity|].
  match goal with |- context [Bus.drainQueue behaviour ?x] => set (h0 := x) end.
  unfold Bus.drainQueue.
  change (Bus.eventQueue h0) with (Bus.eventQueue h ++ [ev]).
  destruct (Bus.eventQueue h ++ [ev]) as [|ev0 queue] eqn:Q.
  { destruct (Bus.eventQueue h); discriminate. }
  destruct (bus_drain_steps (ev0 :: queue) (Bus.eventRegistry h0) h0)
    as (S1 & added & L1 & D1).
  destruct (fold_left _ (ev0 :: queue) (Bus.eventRegistry h0, h0)) as [updated h1].
  cbn [snd Bus.log] in *. exists added. split; [exact L1|].
  intros q callbacks f Hg Hm Hf. apply (D1 ev q callbacks f); auto.
  rewrite <- Q. apply in_or_app. right. now left.
Qed.

End BusDelivery.

(** ** The synchronous service: what a fan-out can change *)

(** The record [s] is a member of the set registered under [q]. *)
Definition stillIn (q : string) (s : Sync.Subscriber) (h : Sync.Hub) : Prop :=
  exists set, mget q (Sync.subscribers h) = Some set /\ In s set.

(** No subscriber is added on the way from [h] to [h']. *)
Definition shrinks (h h' : Sync.Hub) : Prop :=
  forall q set', mget q (Sync.subscribers h') = Some set' ->
    exists set, mget q (Sync.subscribers h) = Some set /\ incl set' set.

(** One stretch of a fan-out: the registry of events, the closures, the
    signals and the clock stay; subscribers and effects can only go; the
    log and the queue of [catch] reactions can only grow. *)
Record syncStep (h h' : Sync.Hub) (added : list Sync.LogItem)
    (spawned : list Sync.Task) : Prop := mkSyncStep {
  step_registry : Sync.eventRegistry h' = Sync.eventRegistry h;
  step_version : Sync.registryVersion h' = Sync.registryVersion h;
  step_registrations : Sync.registrations h' = Sync.registrations h;
  step_onceCells : Sync.onceCells h' = Sync.onceCells h;
  step_signals : Sync.signals h' = Sync.signals h;
  step_destroyHooks : Sync.destroyHooks h' = Sync.destroyHooks h;
  step_now : Sync.now h' = Sync.now h;
  step_nextId : Sync.nextId h' = Sync.nextId h;
  step_shrinks : shrinks h h';
  step_effects : exists keep, Sync.effects h' = filter keep (Sync.effects h);
  step_log : Sync.log h' = Sync.log h ++ added;
  step_tasks : Sync.microtasks h' = Sync.microtasks h ++ spawned
}.

Lemma shrinks_refl h : shrinks h h.
Proof. intros q set' E. exists set'. split; [exact E|apply incl_refl]. Qed.

Lemma shrinks_trans h1 h2 h3 : shrinks h1 h2 -> shrinks h2 h3 -> shrinks h1 h3.
Proof.
  intros A B q set3 E3. destruct (B q set3 E3) as (set2 & E2 & I2).
  destruct (A q set2 E2) as (set1 & E1 & I1).
  exists set1. split; [exact E1|]. eapply incl_tran; eassumption.
Qed.

Lemma shrinks_stillIn h h' q s : shrinks h h' -> stillIn q s h' -> stillIn q s h.
Proof.
  intros Hs (set' & E & Hin). destruct (Hs q set' E) as (set & E0 & I).
  exists set. auto.
Qed.

Lemma shrinks_same h h' : Sync.subscribers h' = Sync.subscribers h -> shrinks h h'.
Proof. intros E q set' G. rewrite E in G. exists set'. split; [exact G|apply incl_refl]. Qed.

Lemma filter_true {A} (l : list A) : filter (fun _ => true) l = l.
Proof. induction l as [|a l IH]; simpl; now rewrite ?IH. Qed.

Lemma filter_and {A} (p r : A -> bool) (l : list A) :
  filter r (filter p l) = filter (fun x => p x && r x) l.
Proof.
  induction l as [|a l IH]; simpl; [reflexivity|].
  destruct (p a); simpl; [destruct (r a)|]; now rewrite IH.
Qed.

Lemma effects_kept h : exists keep, Sync.effects h = filter keep (Sync.effects h).
Proof. exists (fun _ => true). now rewrite filter_true. Qed.

Lemma syncStep_refl h : syncStep h h [] [].
Proof.
  constructor; try reflexivity; try (now rewrite app_nil_r);
    [apply shrinks_refl|apply effects_kept].
Qed.

Lemma syncStep_trans h1 h2 h3 a b s t :
  syncStep h1 h2 a s -> syncStep h2 h3 b t -> syncStep h1 h3 (a ++ b) (s ++ t).
Proof.
  intros A B. destruct A, B. constructor; try congruence.
  - eapply shrinks_trans; eassumption.
  - destruct step_effects0 as [p Hp]. destruct step_effects1 as [r Hr].
    exists (fun x => p x && r x). now rewrite Hr, Hp, filter_and.
  - rewrite step_log1, step_log0. now rewrite app_assoc.
  - rewrite step_tasks1, step_tasks0. now rewrite app_assoc.
Qed.

Lemma syncStep_log h item : syncStep h (Sync.addLog item h) [item] [].
Proof.
  constructor; try reflexivity; simpl; try (now rewrite app_nil_r);
    [now apply shrinks_same|apply effects_kept].
Qed.

Lemma syncStep_task h t : syncStep h (Sync.addTask t h) [] [t].
Proof.
  constructor; try reflexivity; simpl; try (now rewrite app_nil_r);
    [now apply shrinks_same|apply effects_kept].
Qed.

Lemma sync_removeSubscriber_step q subscriber h :
  syncStep h (Sync.removeSubscriber q subscriber h) [] [].
Proof.
  unfold Sync.removeSubscriber.
  destruct (mget q (Sync.subscribers h)) as [set|] eqn:E; [|apply syncStep_refl].
  assert (forall subs',
            (forall q', q' <> q -> mget q' subs' = mget q' (Sync.subscribers h)) ->
            (forall set', mget q subs' = Some set' -> incl set' set) ->
            syncStep h (Sync.withSubscribers subs' h) [] []) as K.
  { intros subs' Hother Hsame.
    constructor; try reflexivity; simpl; try (now rewrite app_nil_r); [|apply effects_kept].
    intros q' set' E'. destruct (String.eqb_spec q' q) as [->|Hne].
    - exists set. split; [exact E|]. now apply Hsame.
    - rewrite Hother in E' by exact Hne. exists set'. split; [exact E'|apply incl_refl]. }
  destruct (filter _ set) as [|x xs] eqn:F; apply K.
  - intros q' Hne. now apply mget_mdelete_other.
  - intros set'. rewrite mget_mdelete_same. discriminate.
  - intros q' Hne. now apply mget_mset_other.
  - intros set'. rewrite mget_mset_same. intros H. inversion H; subst set'.
    rewrite <- F. intros y Hy. now apply filter_In in Hy as [Hy _].
Qed.

Lemma sync_destroyEffect_step e h : syncStep h (Sync.destroyEffect e h) [] [].
Proof.
  constructor; try reflexivity; simpl; try (now rewrite app_nil_r);
    [now apply shrinks_same|].
  eexists. reflexivity.
Qed.

Lemma sync_runTeardown_step t h : syncStep h (Sync.runTeardown t h) [] [].
Proof.
  destruct t; [apply sync_removeSubscriber_step|apply sync_destroyEffect_step].
Qed.

Lemma sync_teardowns_step ts : forall h,
  syncStep h (fold_left (fun acc unsub => Sync.runTeardown unsub acc) ts h) [] [].
Proof.
  induction ts as [|t ts IH]; intros h; simpl; [apply syncStep_refl|].
  change (@nil Sync.LogItem) with (@nil Sync.LogItem ++ []).
  change (@nil Sync.Task) with (@nil Sync.Task ++ []).
  eapply syncStep_trans; [apply sync_runTeardown_step|apply IH].
Qed.

Lemma sync_unsubscribeAll_step reg h : syncStep h (Sync.unsubscribeAll reg h) [] [].
Proof.
  unfold Sync.unsubscribeAll.
  destruct (Sync.lookup reg (Sync.registrations h)) as [r|]; [|apply syncStep_refl].
  destruct (Sync.mainSubscription r); [|apply sync_teardowns_step].
  change (@nil Sync.LogItem) with (@nil Sync.LogItem ++ []).
  change (@nil Sync.Task) with (@nil Sync.Task ++ []).
  eapply syncStep_trans; [apply sync_teardowns_step|apply sync_runTeardown_step].
Qed.

Lemma sync_runSubscription_step s h : syncStep h (Sync.runSubscription s h) [] [].
Proof.
  destruct s; simpl;
    [apply syncStep_refl|apply sync_runTeardown_step|apply sync_unsubscribeAll_step].
Qed.

(** Where the synchronous service sends the error of a subscriber. *)
Definition syncRouted (query : string) (handler : option nat) (error : value)
    (ev : HubEvent) : Sync.LogItem :=
  match handler with
  | Some g => Sync.HandlerCalled g error ev
  | None => Sync.Warned query (key ev) error
  end.

Lemma sync_handleError_step error ev handler query h :
  syncStep h (Sync.handleError error ev handler query h)
           [syncRouted query handler error ev] [].
Proof. unfold Sync.handleError, syncRouted. destruct handler; apply syncStep_log. Qed.

Section SyncDelivery.
Variable behaviour : nat -> HubEvent -> Outcome.

(** A call changes the state by a [syncStep] that leaves no reaction
    behind, and it logs itself first. *)
Lemma sync_invoke_step cb : forall ev h,
  exists added,
    syncStep h (snd (Sync.invoke behaviour cb ev h)) added [] /\
    (Sync.isFunction cb = true -> In (Sync.Called cb ev) added).
Proof.
  induction cb as [f| |c user IH onErr k|reg|q subscriber original IH]; intros ev h; simpl.
  - exists [Sync.Called (Sync.CbUser f) ev]. split; [apply syncStep_log|]. intros _. now left.
  - exists []. split; [apply syncStep_refl|discriminate].
  - set (h0 := Sync.addLog (Sync.Called (Sync.CbOnce c user onErr k) ev) h).
    set (h1 := match Sync.getOnceCell c h0 with
               | Some s => Sync.runSubscription s h0
               | None => h0
               end).
    assert (syncStep h h1 [Sync.Called (Sync.CbOnce c user onErr k) ev] []) as S1.
    { subst h1. destruct (Sync.getOnceCell c h0).
      - change [Sync.Called (Sync.CbOnce c user onErr k) ev]
          with ([Sync.Called (Sync.CbOnce c user onErr k) ev] ++ []).
        change (@nil Sync.Task) with (@nil Sync.Task ++ []).
        eapply syncStep_trans; [apply syncStep_log|apply sync_runSubscription_step].
      - apply syncStep_log. }
    destruct (IH ev h1) as (added & S2 & _).
    destruct (Sync.invoke behaviour user ev h1) as [out h2]. simpl in S2.
    pose proof (syncStep_trans _ _ _ _ _ _ _ S1 S2) as S3. simpl in S3.
    destruct out; simpl.
    + eexists. split; [exact S3|]. intros _. now left.
    + eexists. split.
      * change (@nil Sync.Task) with (@nil Sync.Task ++ []).
        eapply syncStep_trans; [exact S3|apply sync_handleError_step].
      * intros _. now left.
    + eexists. split; [exact S3|]. intros _. now left.
    + eexists. split; [exact S3|]. intros _. now left.
  - exists [Sync.Called (Sync.CbUnsubscribeAll reg) ev]. split; [|intros _; now left].
    change [Sync.Called (Sync.CbUnsubscribeAll reg) ev]
      with ([Sync.Called (Sync.CbUnsubscribeAll reg) ev] ++ []).
    change (@nil Sync.Task) with (@nil Sync.Task ++ []).
    eapply syncStep_trans; [apply syncStep_log|apply sync_unsubscribeAll_step].
  - match goal with
    | |- context [Sync.invoke behaviour original ev ?x] =>
        destruct (IH ev x) as (added & S2 & _);
        assert (syncStep h x [Sync.Called (Sync.CbSelfRemoving q subscriber original) ev] [])
          as S1
    end.
    { change [Sync.Called (Sync.CbSelfRemoving q subscriber original) ev]
        with ([Sync.Called (Sync.CbSelfRemoving q subscriber original) ev] ++ []).
      change (@nil Sync.Task) with (@nil Sync.Task ++ []).
      eapply syncStep_trans; [apply syncStep_log|apply sync_removeSubscriber_step]. }
    pose proof (syncStep_trans _ _ _ _ _ _ _ S1 S2) as S3. simpl in S3.
    eexists. split; [exact S3|]. intros _. now left.
Qed.

(** What the log and the reaction queue must show for a subscriber that
    was reached: its call, and for a caller's function that failed the
    report of the error, made at once or waiting as a reaction. *)
Definition syncServed (q : string) (s : Sync.Subscriber) (ev : HubEvent)
    (added : list Sync.LogItem) (spawned : list Sync.Task) : Prop :=
  (Sync.isFunction (Sync.callback s) = true -> In (Sync.Called (Sync.callback s) ev) added) /\
  (forall f error, Sync.callback s = Sync.CbUser f ->
     failure (behaviour f ev) = Some error ->
     In (syncRouted q (Sync.onError s) error ev) added \/
     In (Sync.TCatch q (Sync.onError s) error ev) spawned).

Lemma syncServed_more q s ev a a' sp sp' :
  incl a a' -> incl sp sp' -> syncServed q s ev a sp -> syncServed q s ev a' sp'.
Proof.
  intros Ha Hs [C R]. split; [auto|].
  intros f error Ecb Hf. destruct (R f error Ecb Hf); auto.
Qed.

Lemma sync_deliver_step q ev s h :
  exists added spawned,
    syncStep h (Sync.deliver behaviour q ev s h) added spawned /\
    syncServed q s ev added spawned.
Proof.
  unfold Sync.deliver.
  destruct (sync_invoke_step (Sync.callback s) ev h) as (added & S1 & C).
  destruct (Sync.invoke behaviour (Sync.callback s) ev h) as [out h1] eqn:EI.
  simpl in S1.
  assert (forall f error, Sync.callback s = Sync.CbUser f ->
            failure (behaviour f ev) = Some error -> failure out = Some error) as Out.
  { intros f error Ecb Hf. rewrite Ecb in EI. simpl in EI. now inversion EI; subst. }
  destruct out as [|error| |error].
  - exists added, []. split; [exact S1|]. split; [exact C|].
    intros f e Ecb Hf. specialize (Out f e Ecb Hf). discriminate.
  - exists (added ++ [syncRouted q (Sync.onError s) error ev]), ([] ++ []). split.
    + eapply syncStep_trans; [exact S1|apply sync_handleError_step].
    + split; [intros Hf; apply in_or_app; left; auto|].
      intros f e Ecb Hf. specialize (Out f e Ecb Hf). inversion Out; subst.
      left. apply in_or_app. right. now left.
  - exists added, []. split; [exact S1|]. split; [exact C|].
    intros f e Ecb Hf. specialize (Out f e Ecb Hf). discriminate.
  - exists (added ++ []), ([] ++ [Sync.TCatch q (Sync.onError s) error ev]). split.
    + eapply syncStep_trans; [exact S1|apply syncStep_task].
    + split; [intros Hf; apply in_or_app; left; auto|].
      intros f e Ecb Hf. specialize (Out f e Ecb Hf). inversion Out; subst.
      right. now left.
Qed.

Lemma stillIn_isSubscribed q s h : stillIn q s h -> Sync.isSubscribed q (Sync.sid s) h = true.
Proof.
  intros (set & E & Hin). unfold Sync.isSubscribed. rewrite E.
  apply existsb_exists. exists s. split; [exact Hin|apply Nat.eqb_refl].
Qed.

(** The walk over one set: every member still registered at the end was
    reached. *)
Lemma sync_notifySet_step ev q pending : forall h,
  exists added spawned,
    syncStep h (Sync.notifySet behaviour ev q pending h) added spawned /\
    forall s, In s pending -> stillIn q s (Sync.notifySet behaviour ev q pending h) ->
              syncServed q s ev added spawned.
Proof.
  induction pending as [|s0 pending IH]; intros h; simpl.
  - exists [], []. split; [apply syncStep_refl|]. intros s [].
  - set (h1 := if Sync.isSubscribed q (Sync.sid s0) h
               then Sync.deliver behaviour q ev s0 h else h).
    destruct (IH h1) as (a2 & sp2 & S2 & D2).
    assert (exists a1 sp1, syncStep h h1 a1 sp1 /\
              (Sync.isSubscribed q (Sync.sid s0) h = true -> syncServed q s0 ev a1 sp1))
      as (a1 & sp1 & S1 & D1).
    { subst h1. destruct (Sync.isSubscribed q (Sync.sid s0) h).
      - destruct (sync_deliver_step q ev s0 h) as (a & sp & S & D). eauto.
      - exists [], []. split; [apply syncStep_refl|discriminate]. }
    exists (a1 ++ a2), (sp1 ++ sp2). split; [eapply syncStep_trans; eassumption|].
    intros s [<-|Hs] Hstill.
    + eapply syncServed_more; [apply incl_appl, incl_refl|apply incl_appl, incl_refl|].
      apply D1. apply stillIn_isSubscribed.
      eapply shrinks_stillIn; [|exact Hstill].
      eapply shrinks_trans; [apply (step_shrinks _ _ _ _ S1)|apply (step_shrinks _ _ _ _ S2)].
    + eapply syncServed_more; [apply incl_appr, incl_refl|apply incl_appr, incl_refl|].
      now apply D2.
Qed.

(** The walk over the queries. *)
Lemma sync_notifyQueries_step ev pending : forall h,
  exists added spawned,
    syncStep h (Sync.notifyQueries behaviour ev pending h) added spawned /\
    forall q s, In q pending -> Sync.matchQuery (key ev) q = true ->
                stillIn q s (Sync.notifyQueries behaviour ev pending h) ->
                syncServed q s ev added spawned.
Proof.
  induction pending as [|q0 pending IH]; intros h; simpl.
  - exists [], []. split; [apply syncStep_refl|]. intros q s [].
  - set (h1 := match mget q0 (Sync.subscribers h) with
               | Some set =>
                   if Sync.matchQuery (key ev) q0
                   then Sync.notifySet behaviour ev q0 set h else h
               | None => h
               end).
    destruct (IH h1) as (a2 & sp2 & S2 & D2).
    assert (exists a1 sp1, syncStep h h1 a1 sp1 /\
              (Sync.matchQuery (key ev) q0 = true ->
               forall s, stillIn q0 s h1 -> syncServed q0 s ev a1 sp1))
      as (a1 & sp1 & S1 & D1).
    { subst h1. destruct (mget q0 (Sync.subscribers h)) as [set|] eqn:E.
      - destruct (Sync.matchQuery (key ev) q0).
        + destruct (sync_notifySet_step ev q0 set h) as (a & sp & S & D).
          exists a, sp. split; [exact S|]. intros _ s Hstill. apply D; [|exact Hstill].
          destruct (shrinks_stillIn _ _ _ _ (step_shrinks _ _ _ _ S) Hstill)
            as (set0 & E0 & Hin).
          congruence.
        + exists [], []. split; [apply syncStep_refl|discriminate].
      - exists [], []. split; [apply syncStep_refl|].
        intros _ s (set & E' & _). congruence. }
    exists (a1 ++ a2), (sp1 ++ sp2). split; [eapply syncStep_trans; eassumption|].
    intros q s [<-|Hq] Hm Hstill.
    + eapply syncServed_more; [apply incl_appl, incl_refl|apply incl_appl, incl_refl|].
      apply D1; [exact Hm|].
      eapply shrinks_stillIn; [apply (step_shrinks _ _ _ _ S2)|exact Hstill].
    + eapply syncServed_more; [apply incl_appr, incl_refl|apply incl_appr, incl_refl|].
      now apply D2.
Qed.

Lemma sync_runTasks_spec tasks : forall h,
  let h' := fold_left (Sync.runTask) tasks h in
  Sync.subscribers h' = Sync.subscribers h /\
  exists added,
    Sync.log h' = Sync.log h ++ added /\
    forall q handler error ev,
      In (Sync.TCatch q handler error ev) tasks -> In (syncRouted q handler error ev) added.
Proof.
  induction tasks as [|[q0 g0 e0 ev0] tasks IH]; intros h; simpl.
  - split; [reflexivity|]. exists []. rewrite app_nil_r. split; [reflexivity|].
    intros q handler error ev [].
  - destruct (IH (Sync.handleError e0 ev0 g0 q0 h)) as (S1 & a1 & L1 & D1).
    pose proof (sync_handleError_step e0 ev0 g0 q0 h) as S0.
    split.
    + rewrite S1. unfold Sync.handleError. now destruct g0.
    + exists ([syncRouted q0 g0 e0 ev0] ++ a1). split.
      * rewrite L1, (step_log _ _ _ _ S0). now rewrite app_assoc.
      * intros q handler error ev [E|Hin].
        -- inversion E; subst. now left.
        -- right. eauto.
Qed.

Lemma sync_runMicrotasks_spec h :
  Sync.subscribers (Sync.runMicrotasks h) = Sync.subscribers h /\
  exists added,
    Sync.log (Sync.runMicrotasks h) = Sync.log h ++ added /\
    forall q handler error ev,
      In (Sync.TCatch q handler error ev) (Sync.microtasks h) ->
      In (syncRouted q handler error ev) added.
Proof.
  unfold Sync.runMicrotasks.
  destruct (sync_runTasks_spec (Sync.microtasks h) (Sync.withMicrotasks [] h))
    as (S1 & added & L1 & D1).
  split; [exact S1|]. exists added. split; [exact L1|exact D1].
Qed.

Lemma mget_Some_key {V} k (v : V) m : mget k m = Some v -> In k (mkeys m).
Proof.
  intros E. apply mget_In in E. unfold mkeys.
  change k with (fst (k, v)). now apply in_map.
Qed.

(** The fan-out of one publish of the synchronous service, seen from the
    log once the pending [catch] reactions have run. *)
Lemma sync_publish_delivers h k d :
  k <> EmptyString ->
  let ev := mkEvent (Sync.nextId h) k d (Sync.now h) in
  let h' := snd (Sync.publish behaviour k d h) in
  fst (Sync.publish behaviour k d h) = Ok tt /\
  shrinks h h' /\
  exists added,
    Sync.log (Sync.runMicrotasks h') = Sync.log h ++ added /\
    forall q s,
      stillIn q s h' -> Sync.matchQuery k q = true ->
      (Sync.isFunction (Sync.callback s) = true ->
       In (Sync.Called (Sync.callback s) ev) added) /\
      (forall f error, Sync.callback s = Sync.CbUser f ->
         failure (behaviour f ev) = Some error ->
         In (syncRouted q (Sync.onError s) error ev) added).
Proof.
  intros Hk ev h'.
  assert (falsy k = false) as Fk by (destruct k; [congruence|reflexivity]).
  subst h'. unfold Sync.publish. rewrite Fk. cbn [Sync.fresh fst snd].
  change (Sync.now (Sync.withNextId (S (Sync.nextId h)) h)) with (Sync.now h).
  fold ev.
  set (h1 := Sync.withRegistry _ _).
  unfold Sync.notifySubscribers.
  destruct (sync_notifyQueries_step ev (mkeys (Sync.subscribers h1)) h1)
    as (a1 & sp1 & S1 & D1).
  set (h2 := Sync.notifyQueries behaviour ev (mkeys (Sync.subscribers h1)) h1) in *.
  destruct (sync_runMicrotasks_spec h2) as (_ & a2 & L2 & D2).
  split; [reflexivity|]. split.
  { eapply shrinks_trans; [|apply (step_shrinks _ _ _ _ S1)]. now apply shrinks_same. }
  exists (a1 ++ a2). split.
  - rewrite L2, (step_log _ _ _ _ S1). subst h1. simpl. now rewrite app_assoc.
  - intros q s Hstill Hm.
    assert (In q (mkeys (Sync.subscribers h1))) as Hq.
    { destruct (shrinks_stillIn _ _ _ _ (step_shrinks _ _ _ _ S1) Hstill) as (set & E & _).
      eapply mget_Some_key. exact E. }
    destruct (D1 q s Hq Hm Hstill) as [C R]. split.
    + intros Hf. apply in_or_app. left. auto.
    + intros f error Ecb Hf. destruct (R f error Ecb Hf) as [Hin|Hin].
      * apply in_or_app. now left.
      * apply in_or_app. right. apply D2.
        rewrite (step_tasks _ _ _ _ S1). apply in_or_app. now right.
Qed.

(** A hub whose subscribers are all functions of callers. *)
Definition plainSubscribers (h : Sync.Hub) : Prop :=
  forall q set s, mget q (Sync.subscribers h) = Some set -> In s set ->
    exists f, Sync.callback s = Sync.CbUser f.

Lemma sync_deliver_user q ev s h f :
  Sync.callback s = Sync.CbUser f ->
  Sync.subscribers (Sync.deliver behaviour q ev s h) = Sync.subscribers h.
Proof.
  intros E. unfold Sync.deliver. rewrite E. simpl.
  destruct (behaviour f ev); simpl; try reflexivity.
  unfold Sync.handleError. now destruct (Sync.onError s).
Qed.

Lemma sync_notifySet_plain ev q pending : forall h,
  (forall s, In s pending -> exists f, Sync.callback s = Sync.CbUser f) ->
  Sync.subscribers (Sync.notifySet behaviour ev q pending h) = Sync.subscribers h.
Proof.
  induction pending as [|s0 pending IH]; intros h Hp; simpl; [reflexivity|].
  rewrite IH by (intros; apply Hp; now right).
  destruct (Sync.isSubscribed q (Sync.sid s0) h); [|reflexivity].
  destruct (Hp s0 (or_introl eq_refl)) as [f E]. eapply sync_deliver_user; eassumption.
Qed.

Lemma sync_notifyQueries_plain ev pending : forall h,
  plainSubscribers h ->
  Sync.subscribers (Sync.notifyQueries behaviour ev pending h) = Sync.subscribers h.
Proof.
  induction pending as [|q0 pending IH]; intros h Hp; simpl; [reflexivity|].
  assert (Sync.subscribers
            (match mget q0 (Sync.subscribers h) with
             | Some set =>
                 if Sync.matchQuery (key ev) q0
                 then Sync.notifySet behaviour ev q0 set h else h
             | None => h
             end) = Sync.subscribers h) as E.
  { destruct (mget q0 (Sync.subscribers h)) as [set|] eqn:G; [|reflexivity].
    destruct (Sync.matchQuery (key ev) q0); [|reflexivity].
    apply sync_notifySet_plain. intros s Hs. eapply Hp; eassumption. }
  rewrite IH; [exact E|].
  intros q set s G Hs. rewrite E in G. eapply Hp; eassumption.
Qed.

Lemma sync_publish_plain h k d :
  plainSubscribers h ->
  Sync.subscribers (snd (Sync.publish behaviour k d h)) = Sync.subscribers h.
Proof.
  intros Hp. unfold Sync.publish. destruct (falsy k); [reflexivity|].
  cbn [Sync.fresh fst snd]. unfold Sync.notifySubscribers.
  now rewrite sync_notifyQueries_plain.
Qed.

End SyncDelivery.

(** ** Error handlers that return: [Throwing] is [Sync] *)

Section HandlersReturn.
Variable behaviour : nat -> HubEvent -> Outcome.
Variable handlerBehaviour : nat -> value -> HubEvent -> option value.
Hypothesis quiet : Throwing.handlersReturn handlerBehaviour.

Lemma throwing_handleError error ev handler q h :
  Throwing.handleError handlerBehaviour error ev handler q h
  = (None, Sync.handleError error ev handler q h).
Proof.
  unfold Throwing.handleError, Sync.handleError.
  destruct handler; [now rewrite quiet|reflexivity].
Qed.

Lemma throwing_invoke cb : forall ev h,
  Throwing.invoke behaviour handlerBehaviour cb ev h = Sync.invoke behaviour cb ev h.
Proof.
  induction cb as [f| |c user IH onErr k|reg|q subscriber original IH]; intros ev h; simpl;
    try reflexivity.
  - rewrite IH. destruct (Sync.invoke behaviour user ev _) as [out h2].
    destruct out; try reflexivity. now rewrite throwing_handleError.
  - apply IH.
Qed.

Lemma throwing_deliver q ev s h :
  Throwing.deliver behaviour handlerBehaviour q ev s h
  = (None, Sync.deliver behaviour q ev s h).
Proof.
  unfold Throwing.deliver, Sync.deliver. rewrite throwing_invoke.
  destruct (Sync.invoke behaviour (Sync.callback s) ev h) as [out h1].
  destruct out; try reflexivity. apply throwing_handleError.
Qed.

Lemma throwing_notifySet ev q pending : forall h,
  Throwing.notifySet behaviour handlerBehaviour ev q pending h
  = (None, Sync.notifySet behaviour ev q pending h).
Proof.
  induction pending as [|s pending IH]; intros h; simpl; [reflexivity|].
  destruct (Sync.isSubscribed q (Sync.sid s) h); [|apply IH].
  rewrite throwing_deliver. apply IH.
Qed.

Lemma throwing_notifyQueries ev pending : forall h,
  Throwing.notifyQueries behaviour handlerBehaviour ev pending h
  = (None, Sync.notifyQueries behaviour ev pending h).
Proof.
  induction pending as [|q pending IH]; intros h; simpl; [reflexivity|].
  destruct (mget q (Sync.subscribers h)) as [set|]; [|apply IH].
  destruct (Sync.matchQuery (key ev) q); [|apply IH].
  rewrite throwing_notifySet. apply IH.
Qed.

Lemma throwing_publish k d h :
  Throwing.publish behaviour handlerBehaviour k d h
  = (Throwing.ofResult (fst (Sync.publish behaviour k d h)),
     snd (Sync.publish behaviour k d h)).
Proof.
  unfold Throwing.publish, Sync.publish. destruct (falsy k); [reflexivity|].
  cbn [Sync.fresh fst snd]. unfold Throwing.notifySubscribers, Sync.notifySubscribers.
  now rewrite throwing_notifyQueries.
Qed.

Lemma throwing_replay o h :
  Throwing.replay behaviour handlerBehaviour o h = (None, Sync.replay behaviour o h).
Proof.
  unfold Throwing.replay, Sync.replay. destruct (Sync.optReplayLatest o); [|reflexivity].
  destruct (Sync.findLatestEventForKey (Sync.optKey o) h) as [ev|]; [|reflexivity].
  rewrite throwing_invoke.
  destruct (Sync.invoke behaviour (Sync.optCallback o) ev h) as [out h1].
  destruct out; try reflexivity. apply throwing_handleError.
Qed.

Lemma throwing_on o h :
  Throwing.on behaviour handlerBehaviour o h
  = (Throwing.ofResult (fst (Sync.on behaviour o h)), snd (Sync.on behaviour o h)).
Proof.
  unfold Throwing.on, Sync.on. destruct (falsy (Sync.optKey o)); [reflexivity|].
  destruct (negb (Sync.isFunction (Sync.optCallback o))); [reflexivity|].
  destruct (existsb _ _); [reflexivity|].
  cbn [Sync.fresh]. rewrite throwing_replay.
  now destruct (Sync.internalSubscribe _ _ _ _ false _).
Qed.

Lemma throwing_once o h :
  Throwing.once behaviour handlerBehaviour o h
  = (Throwing.ofResult (fst (Sync.once behaviour o h)), snd (Sync.once behaviour o h)).
Proof.
  unfold Throwing.once, Sync.once. cbn [Sync.fresh]. rewrite throwing_on.
  destruct (Sync.on behaviour _ _) as [r h2]. now destruct r.
Qed.

End HandlersReturn.

(** An error handler that throws.  Two subscribers of ["a"]: the callback
    [1] of the first throws and its handler [9] throws in turn; the
    callback [2] of the second returns.  [publish] lets through what the
    handler threw, and the second subscriber is not called. *)
Definition handlerThrows (g : nat) (error : value) (ev : HubEvent) : option value :=
  if Nat.eqb g 9 then Some (JStr "handler failed") else None.

Lemma throwing_handler_aborts_publish :
  let behaviour := fun (f : nat) (_ : HubEvent) =>
                     if Nat.eqb f 1 then Threw (JStr "boom") else Returned in
  let h := Sync.withSubscribers
             [("a"%string, [Sync.mkSubscriber 0 (Sync.CbUser 1) (Some 9);
                            Sync.mkSubscriber 1 (Sync.CbUser 2) None])]
             (Sync.withNextId 2 Sync.empty) in
  let ev := mkEvent 2 "a" (JNum 7) 0 in
  fst (Throwing.publish behaviour handlerThrows "a" (JNum 7) h)
  = Throwing.LetsThrough (JStr "handler failed") /\
  Sync.log (snd (Throwing.publish behaviour handlerThrows "a" (JNum 7) h))
  = [Sync.Called (Sync.CbUser 1) ev; Sync.HandlerCalled 9 (JStr "boom") ev] /\
  Sync.log (snd (Sync.publish behaviour "a" (JNum 7) h))
  = [Sync.Called (Sync.CbUser 1) ev; Sync.HandlerCalled 9 (JStr "boom") ev;
     Sync.Called (Sync.CbUser 2) ev].
Proof. vm_compute. repeat split. Qed.

(** In general: when the callback of a subscriber throws and its handler
    throws in turn, the walk over the set ends there, whoever is left. *)
Lemma throwing_notifySet_aborts behaviour handlerBehaviour ev q s rest h f g error e :
  Sync.isSubscribed q (Sync.sid s) h = true ->
  Sync.callback s = Sync.CbUser f -> Sync.onError s = Some g ->
  behaviour f ev = Threw error -> handlerBehaviour g error ev = Some e ->
  Throwing.notifySet behaviour handlerBehaviour ev q (s :: rest) h
  = (Some e,
     Sync.addLog (Sync.HandlerCalled g error ev)
       (Sync.addLog (Sync.Called (Sync.CbUser f) ev) h)).
Proof.
  intros Hs Ecb Eh Hb Hh. cbn [Throwing.notifySet]. rewrite Hs.
  unfold Throwing.deliver. rewrite Ecb. cbn [Throwing.invoke]. rewrite Hb, Eh.
  unfold Throwing.handleError. now rewrite Hh.
Qed.

(** ** The queued service: the wrapper of [once] does not wait *)

Section QueuedOnce.
Variable behaviour : nat -> HubEvent -> Outcome.

(** What the wrapper of [once] lets the fan-out see of its callback: an
    exception, and nothing of the promise the callback hands back. *)
Definition seenThroughOnce (o : Outcome) : option value :=
  match o with
  | Threw error => Some error
  | _ => None
  end.

Lemma queued_once_invoke c f ev h :
  Queued.hasRun (Queued.getClosure c h) = false ->
  exists h',
    Queued.invoke behaviour (Queued.CbOnce c (Queued.CbUser f)) ev h
    = (match behaviour f ev with
       | Threw error => Threw error
       | _ => Returned
       end, h') /\
    Queued.log h' = Queued.log h ++ [Queued.Called (Queued.CbOnce c (Queued.CbUser f)) ev;
                                     Queued.Called (Queued.CbUser f) ev] /\
    Queued.microtasks h' = Queued.microtasks h.
Proof.
  intros Hrun. cbn [Queued.invoke].
  set (h0 := Queued.addLog _ h).
  assert (Queued.hasRun (Queued.getClosure c h0) = false) as Hrun0 by exact Hrun.
  rewrite Hrun0.
  set (h1 := Queued.setHasRun c h0).
  set (h2 := match Queued.subscription (Queued.getClosure c h1) with
             | Some s => Queued.runSubscription s h1
             | None => h1
             end).
  assert (Queued.log h2 = Queued.log h0 /\ Queued.microtasks h2 = Queued.microtasks h0)
    as [L2 M2].
  { subst h2. destruct (Queued.subscription _) as [s|]; [|split; reflexivity].
    destruct (queued_runSubscription_grows s h1) as [A B].
    rewrite A, B, !app_nil_r. split; reflexivity. }
  eexists. split; [reflexivity|]. simpl. rewrite L2, M2. subst h0. simpl.
  rewrite <- app_assoc. split; reflexivity.
Qed.

(** One scheduled call of the wrapper of [once] that has not run yet,
    with nothing else pending: the callback is called; what it throws is
    routed to the handler of the entry, or to the default sink; a promise
    it hands back is dropped, and its rejection is routed nowhere. *)
Lemma queued_once_call q c f onErr ev h :
  Queued.microtasks h = [] -> Queued.hasRun (Queued.getClosure c h) = false ->
  let en := Queued.mkEntry (Queued.CbOnce c (Queued.CbUser f)) onErr in
  Queued.log (Queued.runMicrotasks behaviour (Queued.addTask (Queued.TCall q en ev) h))
  = Queued.log h ++
    [Queued.Called (Queued.CbOnce c (Queued.CbUser f)) ev; Queued.Called (Queued.CbUser f) ev] ++
    match seenThroughOnce (behaviour f ev) with
    | Some error => [queuedRouted q en error ev]
    | None => []
    end.
Proof.
  intros Hm Hrun en. unfold Queued.runMicrotasks.
  assert (Queued.microtasks (Queued.addTask (Queued.TCall q en ev) h)
          = [Queued.TCall q en ev]) as M by (simpl; now rewrite Hm).
  rewrite M. change (list_sum (map Queued.taskWeight [Queued.TCall q en ev])) with 2.
  cbn [Queued.runTasks]. rewrite M.
  set (x := Queued.withMicrotasks [] _).
  assert (Queued.hasRun (Queued.getClosure c x) = false) as Hx by exact Hrun.
  destruct (queued_once_invoke c f ev x Hx) as (h' & EI & L & Mt).
  cbn [Queued.runTask Queued.callback en]. rewrite EI.
  assert (Queued.log x = Queued.log h) as Lx by reflexivity.
  assert (Queued.microtasks x = []) as Mx by reflexivity.
  rewrite Lx in L. rewrite Mx in Mt.
  destruct (behaviour f ev) as [|error| |error]; cbn [seenThroughOnce];
    try (simpl; rewrite Mt; rewrite L; now rewrite ?app_nil_r).
  cbn [Queued.runTasks Queued.addTask Queued.withMicrotasks Queued.microtasks].
  rewrite Mt. cbn [app Queued.runTask].
  unfold queuedRouted. cbn [Queued.onError en].
  destruct onErr; simpl; rewrite L, <- app_assoc; reflexivity.
Qed.

End QueuedOnce.

(** ** The synchronous service: what the wrapper of [once] catches *)

Section SyncOnce.
Variable behaviour : nat -> HubEvent -> Outcome.

(** Every call of a wrapper of [once] whose callback throws is followed
    by the report of the error to the handler given to [once], or to the
    default sink. *)
Definition onceReported (added : list Sync.LogItem) : Prop :=
  forall c f onErr k ev error,
    In (Sync.Called (Sync.CbOnce c (Sync.CbUser f) onErr k) ev) added ->
    behaviour f ev = Threw error ->
    In (syncRouted k onErr error ev) added.

Definition reportsOnce (h h' : Sync.Hub) : Prop :=
  exists added, Sync.log h' = Sync.log h ++ added /\ onceReported added.

Lemma reportsOnce_refl h : reportsOnce h h.
Proof. exists []. split; [now rewrite app_nil_r|]. intros c f onErr k ev error []. Qed.

Lemma reportsOnce_trans h1 h2 h3 : reportsOnce h1 h2 -> reportsOnce h2 h3 -> reportsOnce h1 h3.
Proof.
  intros (a & La & Ra) (b & Lb & Rb). exists (a ++ b). split.
  - now rewrite Lb, La, app_assoc.
  - intros c f onErr k ev error Hin Hb. apply in_or_app.
    apply in_app_or in Hin as [Hin|Hin]; [left|right]; eauto.
Qed.

Lemma reportsOnce_same h h' : Sync.log h' = Sync.log h -> reportsOnce h h'.
Proof.
  intros L. exists []. split; [now rewrite app_nil_r|]. intros c f onErr k ev error [].
Qed.

Lemma reportsOnce_step h h' sp : syncStep h h' [] sp -> reportsOnce h h'.
Proof. intros S. apply reportsOnce_same. rewrite (step_log _ _ _ _ S). apply app_nil_r. Qed.

Lemma reportsOnce_log item h :
  (forall c f onErr k ev, item <> Sync.Called (Sync.CbOnce c (Sync.CbUser f) onErr k) ev) ->
  reportsOnce h (Sync.addLog item h).
Proof.
  intros Hne. exists [item]. split; [reflexivity|].
  intros c f onErr k ev error [E|[]]. exfalso. exact (Hne _ _ _ _ _ E).
Qed.

Lemma reportsOnce_handleError error ev handler q h :
  reportsOnce h (Sync.handleError error ev handler q h).
Proof.
  unfold Sync.handleError. destruct handler; apply reportsOnce_log; discriminate.
Qed.

Lemma reportsOnce_invoke cb : forall ev h,
  reportsOnce h (snd (Sync.invoke behaviour cb ev h)).
Proof.
  induction cb as [f| |c user IH onErr k|reg|q subscriber original IH]; intros ev h; simpl.
  - apply reportsOnce_log. discriminate.
  - apply reportsOnce_refl.
  - set (h0 := Sync.addLog (Sync.Called (Sync.CbOnce c user onErr k) ev) h).
    set (h1 := match Sync.getOnceCell c h0 with
               | Some s => Sync.runSubscription s h0
               | None => h0
               end).
    assert (Sync.log h1 = Sync.log h ++ [Sync.Called (Sync.CbOnce c user onErr k) ev]) as L1.
    { subst h1. destruct (Sync.getOnceCell c h0) as [s|]; [|reflexivity].
      rewrite (step_log _ _ _ _ (sync_runSubscription_step s h0)). apply app_nil_r. }
    destruct (IH ev h1) as (a2 & L2 & R2).
    destruct (Sync.invoke behaviour user ev h1) as [out h2] eqn:EI. simpl in L2.
    assert (forall f, user = Sync.CbUser f -> out = behaviour f ev) as Out.
    { intros f ->. simpl in EI. now inversion EI. }
    assert (forall tail,
              (forall item, In item tail ->
                 forall c' f onErr' k' ev', item <> Sync.Called (Sync.CbOnce c' (Sync.CbUser f) onErr' k') ev') ->
              (forall f error, user = Sync.CbUser f -> behaviour f ev = Threw error ->
                 In (syncRouted k onErr error ev) tail) ->
              onceReported ([Sync.Called (Sync.CbOnce c user onErr k) ev] ++ a2 ++ tail)) as K.
    { intros tail Hplain Hrouted c' f onErr' k' ev' error Hin Hb.
      cbn [app] in Hin |- *. destruct Hin as [E|Hin].
      - inversion E; subst. right. apply in_or_app. right.
        exact (Hrouted f error eq_refl Hb).
      - right. apply in_app_or in Hin as [Hin|Hin].
        + apply in_or_app. left. now apply (R2 c' f onErr' k' ev' error).
        + exfalso. exact (Hplain _ Hin _ _ _ _ _ eq_refl). }
    destruct out as [|error| |error]; simpl.
    + exists ([Sync.Called (Sync.CbOnce c user onErr k) ev] ++ a2 ++ []). split.
      * now rewrite L2, L1, app_nil_r, <- app_assoc.
      * apply K; [intros item []|]. intros f error -> Hb. specialize (Out f eq_refl). congruence.
    + exists ([Sync.Called (Sync.CbOnce c user onErr k) ev] ++ a2 ++
              [syncRouted k onErr error ev]). split.
      * rewrite (step_log _ _ _ _ (sync_handleError_step error ev onErr k h2)), L2, L1.
        now rewrite <- !app_assoc.
      * apply K.
        -- intros item [<-|[]]. unfold syncRouted. destruct onErr; discriminate.
        -- intros f error' -> Hb. specialize (Out f eq_refl).
           assert (error' = error) as -> by congruence. now left.
    + exists ([Sync.Called (Sync.CbOnce c user onErr k) ev] ++ a2 ++ []). split.
      * now rewrite L2, L1, app_nil_r, <- app_assoc.
      * apply K; [intros item []|]. intros f error -> Hb. specialize (Out f eq_refl). congruence.
    + exists ([Sync.Called (Sync.CbOnce c user onErr k) ev] ++ a2 ++ []). split.
      * now rewrite L2, L1, app_nil_r, <- app_assoc.
      * apply K; [intros item []|]. intros f error' -> Hb. specialize (Out f eq_refl). congruence.
  - eapply reportsOnce_trans;
      [apply (reportsOnce_log (Sync.Called (Sync.CbUnsubscribeAll reg) ev)); discriminate|].
    eapply reportsOnce_step. apply sync_unsubscribeAll_step.
  - eapply reportsOnce_trans;
      [apply (reportsOnce_log (Sync.Called (Sync.CbSelfRemoving q subscriber original) ev));
       discriminate|].
    eapply reportsOnce_trans; [eapply reportsOnce_step; apply sync_removeSubscriber_step|].
    apply IH.
Qed.

Lemma reportsOnce_deliver q ev s h : reportsOnce h (Sync.deliver behaviour q ev s h).
Proof.
  unfold Sync.deliver. pose proof (reportsOnce_invoke (Sync.callback s) ev h) as R.
  destruct (Sync.invoke behaviour (Sync.callback s) ev h) as [out h1]. simpl in R.
  destruct out as [|error| |error]; try exact R.
  eapply reportsOnce_trans; [exact R|apply reportsOnce_handleError].
Qed.

Lemma reportsOnce_notifySet ev q pending : forall h,
  reportsOnce h (Sync.notifySet behaviour ev q pending h).
Proof.
  induction pending as [|s pending IH]; intros h; simpl; [apply reportsOnce_refl|].
  eapply reportsOnce_trans; [|apply IH].
  destruct (Sync.isSubscribed q (Sync.sid s) h); [apply reportsOnce_deliver|apply reportsOnce_refl].
Qed.

Lemma reportsOnce_notifyQueries ev pending : forall h,
  reportsOnce h (Sync.notifyQueries behaviour ev pending h).
Proof.
  induction pending as [|q pending IH]; intros h; simpl; [apply reportsOnce_refl|].
  eapply reportsOnce_trans; [|apply IH].
  destruct (mget q (Sync.subscribers h)) as [set|]; [|apply reportsOnce_refl].
  destruct (Sync.matchQuery (key ev) q); [apply reportsOnce_notifySet|apply reportsOnce_refl].
Qed.

Lemma reportsOnce_tasks tasks : forall h, reportsOnce h (fold_left Sync.runTask tasks h).
Proof.
  induction tasks as [|t tasks IH]; intros h; simpl; [apply reportsOnce_refl|].
  eapply reportsOnce_trans; [|apply IH]. destruct t. apply reportsOnce_handleError.
Qed.

Lemma reportsOnce_publish k d h :
  reportsOnce h (Sync.runMicrotasks (snd (Sync.publish behaviour k d h))).
Proof.
  assert (forall x, reportsOnce x (Sync.runMicrotasks x)) as Run.
  { intros x. unfold Sync.runMicrotasks.
    eapply reportsOnce_trans; [apply (reportsOnce_same x (Sync.withMicrotasks [] x)); reflexivity|].
    apply reportsOnce_tasks. }
  eapply reportsOnce_trans; [|apply Run].
  unfold Sync.publish. destruct (falsy k); [apply reportsOnce_refl|].
  cbn [Sync.fresh fst snd]. unfold Sync.notifySubscribers.
  set (h1 := Sync.withRegistry _ _).
  eapply reportsOnce_trans; [apply (reportsOnce_same h h1); reflexivity|].
  apply reportsOnce_notifyQueries.
Qed.

End SyncOnce.

(** ** The synchronous service: every exception of a caller's function is caught *)

Section SyncThrown.
Variable behaviour : nat -> HubEvent -> Outcome.

(** Every call of a caller's function that throws is followed by the
    report of the error to a handler, or to the default sink. *)
Definition thrownReported (added : list Sync.LogItem) : Prop :=
  forall f ev error,
    In (Sync.Called (Sync.CbUser f) ev) added ->
    behaviour f ev = Threw error ->
    exists q handler, In (syncRouted q handler error ev) added.

Definition reportsThrown (h h' : Sync.Hub) : Prop :=
  exists added, Sync.log h' = Sync.log h ++ added /\ thrownReported added.

Lemma reportsThrown_refl h : reportsThrown h h.
Proof. exists []. split; [now rewrite app_nil_r|]. intros f ev error []. Qed.

Lemma reportsThrown_trans h1 h2 h3 :
  reportsThrown h1 h2 -> reportsThrown h2 h3 -> reportsThrown h1 h3.
Proof.
  intros (a & La & Ra) (b & Lb & Rb). exists (a ++ b). split.
  - now rewrite Lb, La, app_assoc.
  - intros f ev error Hin Hb. apply in_app_or in Hin as [Hin|Hin].
    + destruct (Ra f ev error Hin Hb) as (q & g & R). exists q, g. apply in_or_app. now left.
    + destruct (Rb f ev error Hin Hb) as (q & g & R). exists q, g. apply in_or_app. now right.
Qed.

Lemma reportsThrown_same h h' : Sync.log h' = Sync.log h -> reportsThrown h h'.
Proof.
  intros L. exists []. split; [now rewrite app_nil_r|]. intros f ev error [].
Qed.

Lemma reportsThrown_handleError error ev handler q h :
  reportsThrown h (Sync.handleError error ev handler q h).
Proof.
  exists [syncRouted q handler error ev]. split.
  - apply (step_log _ _ _ _ (sync_handleError_step error ev handler q h)).
  - intros f ev' error' [E|[]]. unfold syncRouted in E. destruct handler; discriminate.
Qed.

(** A call leaves at most the exception it ends with unreported. *)
Lemma sync_invoke_thrown cb : forall ev h,
  exists added,
    Sync.log (snd (Sync.invoke behaviour cb ev h)) = Sync.log h ++ added /\
    forall f ev0 error,
      In (Sync.Called (Sync.CbUser f) ev0) added -> behaviour f ev0 = Threw error ->
      (exists q handler, In (syncRouted q handler error ev0) added) \/
      (ev0 = ev /\ fst (Sync.invoke behaviour cb ev h) = Threw error).
Proof.
  induction cb as [f| |c user IH onErr k|reg|q subscriber original IH]; intros ev h; simpl.
  - exists [Sync.Called (Sync.CbUser f) ev]. split; [reflexivity|].
    intros f' ev0 error [E|[]] Hb. inversion E; subst. right. split; [reflexivity|exact Hb].
  - exists []. split; [now rewrite app_nil_r|]. intros f ev0 error [].
  - set (h0 := Sync.addLog (Sync.Called (Sync.CbOnce c user onErr k) ev) h).
    set (h1 := match Sync.getOnceCell c h0 with
               | Some s => Sync.runSubscription s h0
               | None => h0
               end).
    assert (Sync.log h1 = Sync.log h ++ [Sync.Called (Sync.CbOnce c user onErr k) ev]) as L1.
    { subst h1. destruct (Sync.getOnceCell c h0) as [s|]; [|reflexivity].
      rewrite (step_log _ _ _ _ (sync_runSubscription_step s h0)). apply app_nil_r. }
    destruct (IH ev h1) as (a2 & L2 & R2).
    destruct (Sync.invoke behaviour user ev h1) as [out h2]. cbn [fst snd] in L2, R2.
    assert (forall tail,
              (forall item, In item tail -> forall f ev0, item <> Sync.Called (Sync.CbUser f) ev0) ->
              (forall error, out = Threw error -> In (syncRouted k onErr error ev) tail) ->
              forall f ev0 error,
                In (Sync.Called (Sync.CbUser f) ev0)
                   (Sync.Called (Sync.CbOnce c user onErr k) ev :: a2 ++ tail) ->
                behaviour f ev0 = Threw error ->
                exists q handler,
                  In (syncRouted q handler error ev0)
                     (Sync.Called (Sync.CbOnce c user onErr k) ev :: a2 ++ tail)) as K.
    { intros tail Hplain Hrouted f ev0 error Hin Hb.
      destruct Hin as [E|Hin]; [discriminate|].
      apply in_app_or in Hin as [Hin|Hin].
      - destruct (R2 f ev0 error Hin Hb) as [(q & g & R)|[-> Eout]].
        + exists q, g. right. apply in_or_app. now left.
        + exists k, onErr. right. apply in_or_app. right. now apply Hrouted.
      - exfalso. exact (Hplain _ Hin _ _ eq_refl). }
    destruct out as [|error| |error]; cbn [fst snd].
    + exists (Sync.Called (Sync.CbOnce c user onErr k) ev :: a2 ++ []). split.
      * now rewrite L2, L1, app_nil_r, <- app_assoc.
      * intros f ev0 error Hin Hb. left.
        apply (K [] ltac:(intros item []) ltac:(discriminate) f ev0 error Hin Hb).
    + exists (Sync.Called (Sync.CbOnce c user onErr k) ev :: a2 ++
              [syncRouted k onErr error ev]). split.
      * rewrite (step_log _ _ _ _ (sync_handleError_step error ev onErr k h2)), L2, L1.
        now rewrite <- !app_assoc.
      * intros f ev0 error' Hin Hb. left.
        refine (K [syncRouted k onErr error ev] _ _ f ev0 error' Hin Hb).
        -- intros item [<-|[]] f' ev'. unfold syncRouted. destruct onErr; discriminate.
        -- intros e E. inversion E; subst. now left.
    + exists (Sync.Called (Sync.CbOnce c user onErr k) ev :: a2 ++ []). split.
      * now rewrite L2, L1, app_nil_r, <- app_assoc.
      * intros f ev0 error Hin Hb. left.
        apply (K [] ltac:(intros item []) ltac:(discriminate) f ev0 error Hin Hb).
    + exists (Sync.Called (Sync.CbOnce c user onErr k) ev :: a2 ++ []). split.
      * now rewrite L2, L1, app_nil_r, <- app_assoc.
      * intros f ev0 error' Hin Hb. left.
        apply (K [] ltac:(intros item []) ltac:(discriminate) f ev0 error' Hin Hb).
  - exists [Sync.Called (Sync.CbUnsubscribeAll reg) ev]. split.
    + rewrite (step_log _ _ _ _ (sync_unsubscribeAll_step reg _)). simpl. apply app_nil_r.
    + intros f ev0 error [E|[]]. discriminate.
  - match goal with
    | |- context [Sync.invoke behaviour original ev ?x] =>
        destruct (IH ev x) as (a2 & L2 & R2);
        assert (Sync.log x = Sync.log h ++
                  [Sync.Called (Sync.CbSelfRemoving q subscriber original) ev]) as L1
          by (rewrite (step_log _ _ _ _ (sync_removeSubscriber_step q subscriber _));
              simpl; apply app_nil_r)
    end.
    exists (Sync.Called (Sync.CbSelfRemoving q subscriber original) ev :: a2). split.
    + now rewrite L2, L1, <- app_assoc.
    + intros f ev0 error [E|Hin] Hb; [discriminate|].
      destruct (R2 f ev0 error Hin Hb) as [(q' & g & R)|P]; [|now right].
      left. exists q', g. now right.
Qed.

Lemma reportsThrown_deliver q ev s h : reportsThrown h (Sync.deliver behaviour q ev s h).
Proof.
  unfold Sync.deliver.
  destruct (sync_invoke_thrown (Sync.callback s) ev h) as (added & L & R).
  destruct (Sync.invoke behaviour (Sync.callback s) ev h) as [out h1]. cbn [fst snd] in L, R.
  assert ((forall error, out <> Threw error) -> thrownReported added) as Calm.
  { intros Hne f ev0 error Hin Hb. destruct (R f ev0 error Hin Hb) as [P|[_ E]]; [exact P|].
    exfalso. exact (Hne error E). }
  destruct out as [|error| |error].
  - exists added. split; [exact L|]. apply Calm. discriminate.
  - exists (added ++ [syncRouted q (Sync.onError s) error ev]). split.
    + rewrite (step_log _ _ _ _ (sync_handleError_step error ev (Sync.onError s) q h1)), L.
      now rewrite app_assoc.
    + intros f ev0 error' Hin Hb. apply in_app_or in Hin as [Hin|[E|[]]].
      * destruct (R f ev0 error' Hin Hb) as [(q' & g & P)|[-> E]].
        -- exists q', g. apply in_or_app. now left.
        -- inversion E; subst. exists q, (Sync.onError s). apply in_or_app. right. now left.
      * unfold syncRouted in E. destruct (Sync.onError s); discriminate.
  - exists added. split; [exact L|]. apply Calm. discriminate.
  - exists added. split; [simpl; exact L|]. apply Calm. discriminate.
Qed.

Lemma reportsThrown_notifySet ev q pending : forall h,
  reportsThrown h (Sync.notifySet behaviour ev q pending h).
Proof.
  induction pending as [|s pending IH]; intros h; simpl; [apply reportsThrown_refl|].
  eapply reportsThrown_trans; [|apply IH].
  destruct (Sync.isSubscribed q (Sync.sid s) h);
    [apply reportsThrown_deliver|apply reportsThrown_refl].
Qed.

Lemma reportsThrown_notifyQueries ev pending : forall h,
  reportsThrown h (Sync.notifyQueries behaviour ev pending h).
Proof.
  induction pending as [|q pending IH]; intros h; simpl; [apply reportsThrown_refl|].
  eapply reportsThrown_trans; [|apply IH].
  destruct (mget q (Sync.subscribers h)) as [set|]; [|apply reportsThrown_refl].
  destruct (Sync.matchQuery (key ev) q);
    [apply reportsThrown_notifySet|apply reportsThrown_refl].
Qed.

Lemma reportsThrown_tasks tasks : forall h, reportsThrown h (fold_left Sync.runTask tasks h).
Proof.
  induction tasks as [|t tasks IH]; intros h; simpl; [apply reportsThrown_refl|].
  eapply reportsThrown_trans; [|apply IH]. destruct t. apply reportsThrown_handleError.
Qed.

Lemma reportsThrown_publish k d h :
  reportsThrown h (Sync.runMicrotasks (snd (Sync.publish behaviour k d h))).
Proof.
  assert (forall x, reportsThrown x (Sync.runMicrotasks x)) as Run.
  { intros x. unfold Sync.runMicrotasks.
    eapply reportsThrown_trans;
      [apply (reportsThrown_same x (Sync.withMicrotasks [] x)); reflexivity|].
    apply reportsThrown_tasks. }
  eapply reportsThrown_trans; [|apply Run].
  unfold Sync.publish. destruct (falsy k); [apply reportsThrown_refl|].
  cbn [Sync.fresh fst snd]. unfold Sync.notifySubscribers.
  set (h1 := Sync.withRegistry _ _).
  eapply reportsThrown_trans; [apply (reportsThrown_same h h1); reflexivity|].
  apply reportsThrown_notifyQueries.
Qed.

End SyncThrown.

(** ** The synchronous service: who is called does not depend on how calls end *)

(** The calls of callbacks that a log records, in their order. *)
Definition callsIn (l : list Sync.LogItem) : list Sync.LogItem :=
  filter (fun item => match item with
                      | Sync.Called _ _ => true
                      | _ => false
                      end) l.

Lemma callsIn_app a b : callsIn (a ++ b) = callsIn a ++ callsIn b.
Proof. apply filter_app. Qed.

(** Two states with the same subscribers, registrations, [once] closures
    and effects, whose logs record the same calls. *)
Record twin (h1 h2 : Sync.Hub) : Prop := mkTwin {
  tw_subscribers : Sync.subscribers h1 = Sync.subscribers h2;
  tw_registrations : Sync.registrations h1 = Sync.registrations h2;
  tw_onceCells : Sync.onceCells h1 = Sync.onceCells h2;
  tw_effects : Sync.effects h1 = Sync.effects h2;
  tw_calls : callsIn (Sync.log h1) = callsIn (Sync.log h2)
}.

Lemma twin_refl h : twin h h.
Proof. now constructor. Qed.

Lemma twin_sym h1 h2 : twin h1 h2 -> twin h2 h1.
Proof. intros [A B C D E]. now constructor. Qed.

Lemma twin_trans h1 h2 h3 : twin h1 h2 -> twin h2 h3 -> twin h1 h3.
Proof. intros [A B C D E] [A' B' C' D' E']. constructor; congruence. Qed.

Lemma twin_handleError error ev handler q h : twin h (Sync.handleError error ev handler q h).
Proof.
  unfold Sync.handleError.
  destruct handler; constructor; try reflexivity; simpl;
    now rewrite callsIn_app, app_nil_r.
Qed.

Lemma twin_task t h : twin h (Sync.addTask t h).
Proof. now constructor. Qed.

Lemma twin_call cb ev h1 h2 :
  twin h1 h2 -> twin (Sync.addLog (Sync.Called cb ev) h1) (Sync.addLog (Sync.Called cb ev) h2).
Proof.
  intros [A B C D E]. constructor; try assumption. simpl.
  now rewrite !callsIn_app, E.
Qed.

Lemma twin_removeSubscriber q n h1 h2 :
  twin h1 h2 -> twin (Sync.removeSubscriber q n h1) (Sync.removeSubscriber q n h2).
Proof.
  intros [A B C D E]. unfold Sync.removeSubscriber. rewrite A.
  destruct (mget q (Sync.subscribers h2)) as [set|]; [|now constructor].
  destruct (filter _ set); constructor; simpl; congruence.
Qed.

Lemma twin_runTeardown t h1 h2 :
  twin h1 h2 -> twin (Sync.runTeardown t h1) (Sync.runTeardown t h2).
Proof.
  destruct t as [q n|e]; simpl; [apply twin_removeSubscriber|].
  intros [A B C D E]. constructor; simpl; congruence.
Qed.

Lemma twin_teardowns ts : forall h1 h2,
  twin h1 h2 ->
  twin (fold_left (fun acc unsub => Sync.runTeardown unsub acc) ts h1)
       (fold_left (fun acc unsub => Sync.runTeardown unsub acc) ts h2).
Proof.
  induction ts as [|t ts IH]; intros h1 h2 T; simpl; [exact T|].
  apply IH. now apply twin_runTeardown.
Qed.

Lemma twin_unsubscribeAll reg h1 h2 :
  twin h1 h2 -> twin (Sync.unsubscribeAll reg h1) (Sync.unsubscribeAll reg h2).
Proof.
  intros T. unfold Sync.unsubscribeAll. rewrite (tw_registrations _ _ T).
  destruct (Sync.lookup reg (Sync.registrations h2)) as [r|]; [|exact T].
  destruct (Sync.mainSubscription r); [apply twin_runTeardown|]; now apply twin_teardowns.
Qed.

Lemma twin_runSubscription s h1 h2 :
  twin h1 h2 -> twin (Sync.runSubscription s h1) (Sync.runSubscription s h2).
Proof.
  destruct s; simpl; [auto|apply twin_runTeardown|apply twin_unsubscribeAll].
Qed.

Section Independent.
Variable b1 b2 : nat -> HubEvent -> Outcome.

Lemma twin_invoke cb : forall ev h1 h2,
  twin h1 h2 ->
  twin (snd (Sync.invoke b1 cb ev h1)) (snd (Sync.invoke b2 cb ev h2)).
Proof.
  induction cb as [f| |c user IH onErr k|reg|q subscriber original IH];
    intros ev h1 h2 T; simpl.
  - now apply twin_call.
  - exact T.
  - set (x1 := Sync.addLog _ h1). set (x2 := Sync.addLog _ h2).
    assert (twin x1 x2) as T0 by now apply twin_call.
    assert (twin (match Sync.getOnceCell c x1 with
                  | Some s => Sync.runSubscription s x1
                  | None => x1
                  end)
                 (match Sync.getOnceCell c x2 with
                  | Some s => Sync.runSubscription s x2
                  | None => x2
                  end)) as T1.
    { unfold Sync.getOnceCell. rewrite (tw_onceCells _ _ T0).
      destruct (Sync.lookup c (Sync.onceCells x2)) as [[s|]|]; try exact T0.
      now apply twin_runSubscription. }
    specialize (IH ev _ _ T1).
    destruct (Sync.invoke b1 user ev _) as [o1 y1].
    destruct (Sync.invoke b2 user ev _) as [o2 y2]. simpl in IH.
    assert (forall o y, twin y (snd (match o with
                                     | Threw error => (Returned, Sync.handleError error ev onErr k y)
                                     | _ => (Returned, y)
                                     end))) as Tail.
    { intros o y. destruct o; simpl; try apply twin_refl. apply twin_handleError. }
    eapply twin_trans; [apply twin_sym, Tail|].
    eapply twin_trans; [exact IH|]. apply Tail.
  - apply twin_unsubscribeAll. now apply twin_call.
  - apply IH. apply twin_removeSubscriber. now apply twin_call.
Qed.

Lemma twin_deliver q ev s h1 h2 :
  twin h1 h2 -> twin (Sync.deliver b1 q ev s h1) (Sync.deliver b2 q ev s h2).
Proof.
  intros T. unfold Sync.deliver. pose proof (twin_invoke (Sync.callback s) ev _ _ T) as I.
  destruct (Sync.invoke b1 (Sync.callback s) ev h1) as [o1 y1].
  destruct (Sync.invoke b2 (Sync.callback s) ev h2) as [o2 y2]. simpl in I.
  assert (forall o y, twin y (match o with
                              | Threw error => Sync.handleError error ev (Sync.onError s) q y
                              | Rejected error =>
                                  Sync.addTask (Sync.TCatch q (Sync.onError s) error ev) y
                              | _ => y
                              end)) as Tail.
  { intros o y. destruct o; try apply twin_refl;
      [apply twin_handleError|apply twin_task]. }
  eapply twin_trans; [apply twin_sym, Tail|].
  eapply twin_trans; [exact I|]. apply Tail.
Qed.

Lemma twin_notifySet ev q pending : forall h1 h2,
  twin h1 h2 ->
  twin (Sync.notifySet b1 ev q pending h1) (Sync.notifySet b2 ev q pending h2).
Proof.
  induction pending as [|s pending IH]; intros h1 h2 T; simpl; [exact T|].
  apply IH. unfold Sync.isSubscribed. rewrite (tw_subscribers _ _ T).
  destruct (match mget q (Sync.subscribers h2) with
            | Some set => existsb (fun s0 => Nat.eqb (Sync.sid s0) (Sync.sid s)) set
            | None => false
            end); [now apply twin_deliver|exact T].
Qed.

Lemma twin_notifyQueries ev pending : forall h1 h2,
  twin h1 h2 ->
  twin (Sync.notifyQueries b1 ev pending h1) (Sync.notifyQueries b2 ev pending h2).
Proof.
  induction pending as [|q pending IH]; intros h1 h2 T; simpl; [exact T|].
  apply IH. rewrite (tw_subscribers _ _ T).
  destruct (mget q (Sync.subscribers h2)) as [set|]; [|exact T].
  destruct (Sync.matchQuery (key ev) q); [now apply twin_notifySet|exact T].
Qed.

Lemma twin_tasks tasks : forall h, twin h (fold_left Sync.runTask tasks h).
Proof.
  induction tasks as [|t tasks IH]; intros h; simpl; [apply twin_refl|].
  eapply twin_trans; [|apply IH]. destruct t. apply twin_handleError.
Qed.

(** The fan-out of a publish calls the same callbacks in the same order,
    and leaves the same subscribers, whatever the callbacks do. *)
Lemma sync_publish_independent k d h :
  Sync.subscribers (snd (Sync.publish b1 k d h))
  = Sync.subscribers (snd (Sync.publish b2 k d h)) /\
  callsIn (Sync.log (Sync.runMicrotasks (snd (Sync.publish b1 k d h))))
  = callsIn (Sync.log (Sync.runMicrotasks (snd (Sync.publish b2 k d h)))).
Proof.
  assert (twin (snd (Sync.publish b1 k d h)) (snd (Sync.publish b2 k d h))) as T.
  { unfold Sync.publish. destruct (falsy k); [apply twin_refl|].
    cbn [Sync.fresh fst snd]. unfold Sync.notifySubscribers.
    apply twin_notifyQueries, twin_refl. }
  split; [apply T|].
  assert (forall x, twin x (Sync.runMicrotasks x)) as Run.
  { intros x. unfold Sync.runMicrotasks.
    eapply twin_trans; [|apply twin_tasks]. now constructor. }
  apply (tw_calls _ _ (twin_trans _ _ _ (twin_sym _ _ (Run _))
                         (twin_trans _ _ _ T (Run _)))).
Qed.

End Independent.


(** Two subscribers of ["k"]; the first one throws. *)
Definition firstThrows (f : nat) (ev : HubEvent) : Outcome :=
  if Nat.eqb f 1 then Threw (JStr "boom") else Returned.

Definition twoSubscribers : Sync.Hub :=
  snd (Sync.on firstThrows (Sync.mkOptions "k" (Sync.CbUser 2) None false None Sync.NoUntil)
         (snd (Sync.on firstThrows
                 (Sync.mkOptions "k" (Sync.CbUser 1) None false None Sync.NoUntil)
                 Sync.empty))).


(** A [once] subscriber whose callback hands back a promise that
    rejects, with a handler [9] given to [once].  In the queued and in
    the synchronous service the publish succeeds, the wrapper and the
    callback are called, and the error reaches neither the handler nor
    the default sink: nothing else is logged and no reaction is left. *)
Definition rejects (f : nat) (ev : HubEvent) : Outcome := Rejected (JStr "boom").

Definition queuedOnceA : Queued.HubEventOptions :=
  Queued.mkOptions "a" (Queued.CbUser 1) None false (Some 9).

Definition syncOnceA : Sync.HubEventOptions :=
  Sync.mkOptions "a" (Sync.CbUser 1) None false (Some 9) Sync.NoUntil.


(** ** Identities in use: the states the synchronous service can reach *)

Section StoreFacts.
Context {V : Type}.
Implicit Types (l : list (nat * V)) (n : nat) (v : V).

Lemma lookup_store_same n v l : Sync.lookup n (Sync.store n v l) = Some v.
Proof.
  induction l as [|[n' v'] l IH]; simpl.
  - now rewrite Nat.eqb_refl.
  - destruct (Nat.eqb n n') eqn:E; simpl; [now rewrite Nat.eqb_refl|now rewrite E].
Qed.

Lemma lookup_store_other n n' v l : n <> n' -> Sync.lookup n (Sync.store n' v l) = Sync.lookup n l.
Proof.
  intros Hne. induction l as [|[n0 v0] l IH]; simpl.
  - destruct (Nat.eqb_spec n n'); congruence.
  - destruct (Nat.eqb_spec n' n0) as [->|Hn]; simpl.
    + destruct (Nat.eqb_spec n n0); congruence.
    + now rewrite IH.
Qed.

Lemma lookup_In n v l : Sync.lookup n l = Some v -> In (n, v) l.
Proof.
  induction l as [|[n' v'] l IH]; simpl; [discriminate|].
  destruct (Nat.eqb_spec n n') as [->|Hn]; intros H.
  - inversion H. now left.
  - right. auto.
Qed.

Lemma store_In n v l x : In x (Sync.store n v l) -> x = (n, v) \/ In x l.
Proof.
  induction l as [|[n' v'] l IH]; simpl.
  - intros [<-|[]]. now left.
  - destruct (Nat.eqb n n'); simpl; intros [<-|H]; auto.
    destruct (IH H); auto.
Qed.

End StoreFacts.

(** The identities a callback, a teardown or a registration can remove
    lie below [n]. *)
Fixpoint removalsBelow (n : nat) (cb : Sync.Callback) : Prop :=
  match cb with
  | Sync.CbSelfRemoving _ subscriber original => subscriber < n /\ removalsBelow n original
  | Sync.CbOnce _ user _ _ => removalsBelow n user
  | _ => True
  end.

Definition teardownBelow (n : nat) (t : Sync.Teardown) : Prop :=
  match t with
  | Sync.RemoveSubscriber _ subscriber => subscriber < n
  | Sync.DestroyEffect e => e < n
  end.

Definition registrationBelow (n : nat) (r : Sync.Registration) : Prop :=
  (forall t, In t (Sync.unsubscribers r) -> teardownBelow n t) /\
  (forall t, Sync.mainSubscription r = Some t -> teardownBelow n t).

(** A teardown of registration [r] destroys effect [x]. *)
Definition destroys (r : Sync.Registration) (x : nat) : Prop :=
  In (Sync.DestroyEffect x) (Sync.unsubscribers r) \/
  Sync.mainSubscription r = Some (Sync.DestroyEffect x).

(** Every identity in the state was handed out by [fresh] before; effects
    have distinct identities; the handle kept by a [once] closure is the
    one [on] returned; and a registration destroys none but the effects
    of its own [until] signals. *)
Record wellFormed (h : Sync.Hub) : Prop := mkWellFormed {
  wf_subscribers : forall q set s,
    mget q (Sync.subscribers h) = Some set -> In s set ->
    Sync.sid s < Sync.nextId h /\ removalsBelow (Sync.nextId h) (Sync.callback s);
  wf_registrations : forall reg r,
    In (reg, r) (Sync.registrations h) ->
    reg < Sync.nextId h /\ registrationBelow (Sync.nextId h) r;
  wf_onceCells : forall c t, ~ In (c, Some (Sync.Single t)) (Sync.onceCells h);
  wf_effect_ids : NoDup (map Sync.eid (Sync.effects h));
  wf_effects : forall e, In e (Sync.effects h) ->
    Sync.eid e < Sync.nextId h /\
    match Sync.body e with
    | Sync.CombineLatest o st =>
        forall ev, In (Some ev) (Sync.seenSources st) -> oid ev < Sync.nextId h
    | Sync.UntilSignal _ _ => True
    end;
  wf_registry : forall k ev, In (k, ev) (Sync.eventRegistry h) -> oid ev < Sync.nextId h;
  wf_owned : forall reg r x e,
    In (reg, r) (Sync.registrations h) -> destroys r x ->
    In e (Sync.effects h) -> Sync.eid e = x ->
    exists s g, Sync.body e = Sync.UntilSignal s g
}.

Lemma wellFormed_empty : wellFormed Sync.empty.
Proof.
  constructor; simpl; try tauto; try discriminate; try constructor.
Qed.

Lemma removalsBelow_more n n' cb : n <= n' -> removalsBelow n cb -> removalsBelow n' cb.
Proof.
  intros Hle. induction cb; simpl; auto.
  intros [A B]. split; [lia|auto].
Qed.

Lemma teardownBelow_more n n' t : n <= n' -> teardownBelow n t -> teardownBelow n' t.
Proof. intros Hle. destruct t; simpl; lia. Qed.

Lemma registrationBelow_more n n' r :
  n <= n' -> registrationBelow n r -> registrationBelow n' r.
Proof.
  intros Hle [A B]. split; intros t Ht; eapply teardownBelow_more; eauto.
Qed.

(** ** [until]: the dynamics of a registration *)

Lemma isSubscribed_shrinks h h' q n :
  shrinks h h' -> Sync.isSubscribed q n h = false -> Sync.isSubscribed q n h' = false.
Proof.
  intros Hs Hf. unfold Sync.isSubscribed in *.
  destruct (mget q (Sync.subscribers h')) as [set'|] eqn:E'; [|reflexivity].
  destruct (Hs q set' E') as (set & E & I). rewrite E in Hf.
  destruct (existsb _ set') eqn:X; [|reflexivity].
  apply existsb_exists in X as (s & Hin & Hs').
  assert (existsb (fun s0 => Nat.eqb (Sync.sid s0) n) set = true) as Y
    by (apply existsb_exists; exists s; auto).
  congruence.
Qed.

Lemma isSubscribed_removed q n h :
  Sync.isSubscribed q n (Sync.removeSubscriber q n h) = false.
Proof.
  pose proof (tornDown_after (Sync.RemoveSubscriber q n) h) as T. simpl in T.
  unfold subscriberGone in T. unfold Sync.isSubscribed.
  destruct (mget q (Sync.subscribers (Sync.removeSubscriber q n h))) as [set|]; [|reflexivity].
  destruct T as [_ T].
  destruct (existsb _ set) eqn:X; [|reflexivity].
  apply existsb_exists in X as (s & Hin & Hs).
  rewrite forallb_forall in T. specialize (T s Hin). rewrite Hs in T. discriminate.
Qed.

Lemma stillIn_removeSubscriber q s q' n h :
  Sync.sid s <> n -> stillIn q s h -> stillIn q s (Sync.removeSubscriber q' n h).
Proof.
  intros Hne (set & E & Hin). unfold stillIn, Sync.removeSubscriber.
  destruct (mget q' (Sync.subscribers h)) as [set'|] eqn:E'; [|eauto].
  destruct (String.eqb_spec q q') as [->|Hq].
  - assert (set' = set) by congruence. subst set'.
    assert (In s (filter (fun s0 => negb (Nat.eqb (Sync.sid s0) n)) set)) as Hf.
    { apply filter_In. split; [exact Hin|]. apply Bool.negb_true_iff.
      now apply Nat.eqb_neq. }
    destruct (filter _ set) as [|x xs] eqn:F; [destruct Hf|].
    simpl. rewrite mget_mset_same. eauto.
  - destruct (filter _ set') as [|x xs]; simpl.
    + rewrite mget_mdelete_other by exact Hq. eauto.
    + rewrite mget_mset_other by exact Hq. eauto.
Qed.

Section UntilDynamics.
Variable behaviour : nat -> HubEvent -> Outcome.
(** A call of [on] made when [fresh] stood at [base]: its registration
    [reg] and its main subscriber [mainId] under [mainKey]. *)
Variables (base reg : nat) (mainKey : string) (mainId : nat).

(** Callbacks that remove nothing made by this call of [on], except
    through its own [unsubscribeAll]. *)
Fixpoint tame (cb : Sync.Callback) : Prop :=
  match cb with
  | Sync.CbSelfRemoving _ subscriber original =>
      (subscriber < base /\ tame original) \/ original = Sync.CbUnsubscribeAll reg
  | Sync.CbOnce _ user _ _ => tame user
  | _ => True
  end.

Definition allTame (h : Sync.Hub) : Prop :=
  forall q set s, mget q (Sync.subscribers h) = Some set -> In s set ->
    tame (Sync.callback s).

Definition mainGone (h : Sync.Hub) : Prop := Sync.isSubscribed mainKey mainId h = false.

(** What this call of [on] made is still there. *)
Definition keepsNew (h h' : Sync.Hub) : Prop :=
  (forall q s, base <= Sync.sid s -> stillIn q s h -> stillIn q s h') /\
  (forall e, base <= Sync.eid e -> In e (Sync.effects h) -> In e (Sync.effects h')).

Definition harmless (h h' : Sync.Hub) : Prop := mainGone h' \/ keepsNew h h'.

(** The closures the dynamics depend on. *)
Record installed (h : Sync.Hub) : Prop := mkInstalled {
  inst_main : exists r,
    Sync.lookup reg (Sync.registrations h) = Some r /\
    Sync.mainSubscription r = Some (Sync.RemoveSubscriber mainKey mainId);
  inst_foreign : forall r' x,
    r' <> reg -> Sync.lookup r' (Sync.registrations h) = Some x -> registrationBelow base x;
  inst_cells : forall c t, Sync.getOnceCell c h <> Some (Sync.Single t)
}.

Lemma installed_same h h' :
  Sync.registrations h' = Sync.registrations h -> Sync.onceCells h' = Sync.onceCells h ->
  installed h -> installed h'.
Proof.
  intros R C [A B D]. constructor; unfold Sync.getOnceCell in *; rewrite ?R, ?C; auto.
Qed.

Lemma installed_step h h' a sp : syncStep h h' a sp -> installed h -> installed h'.
Proof. intros S. apply installed_same; apply S. Qed.

Lemma allTame_shrinks h h' : shrinks h h' -> allTame h -> allTame h'.
Proof.
  intros Hs Ht q set' s E Hin. destruct (Hs q set' E) as (set & E0 & I). eauto.
Qed.

Lemma mainGone_step h h' a sp : syncStep h h' a sp -> mainGone h -> mainGone h'.
Proof. intros S. apply isSubscribed_shrinks, S. Qed.

Lemma keepsNew_refl h : keepsNew h h.
Proof. split; auto. Qed.

Lemma keepsNew_same h h' :
  Sync.subscribers h' = Sync.subscribers h -> Sync.effects h' = Sync.effects h ->
  keepsNew h h'.
Proof. intros S E. unfold keepsNew, stillIn. rewrite S, E. auto. Qed.

Lemma keepsNew_trans h1 h2 h3 : keepsNew h1 h2 -> keepsNew h2 h3 -> keepsNew h1 h3.
Proof. intros [A B] [C D]. split; auto. Qed.

Lemma harmless_then h1 h2 h3 a sp :
  harmless h1 h2 -> syncStep h2 h3 a sp -> harmless h2 h3 -> harmless h1 h3.
Proof.
  intros [G|K] S [G'|K']; try (now left).
  - left. eapply mainGone_step; eassumption.
  - right. eapply keepsNew_trans; eassumption.
Qed.

Lemma teardown_below_keeps t h : teardownBelow base t -> keepsNew h (Sync.runTeardown t h).
Proof.
  destruct t as [q n|e]; simpl; intros Hlt; split.
  - intros q' s Hs. apply stillIn_removeSubscriber. lia.
  - intros e He Hin. unfold Sync.removeSubscriber.
    destruct (mget q (Sync.subscribers h)) as [set|]; [|exact Hin].
    now destruct (filter _ set).
  - auto.
  - intros x Hx Hin. simpl. apply filter_In. split; [exact Hin|].
    apply Bool.negb_true_iff. apply Nat.eqb_neq. lia.
Qed.

Lemma teardowns_below_keep ts : forall h,
  (forall t, In t ts -> teardownBelow base t) ->
  keepsNew h (fold_left (fun acc unsub => Sync.runTeardown unsub acc) ts h).
Proof.
  induction ts as [|t ts IH]; intros h Hb; simpl; [apply keepsNew_refl|].
  eapply keepsNew_trans; [apply teardown_below_keeps; apply Hb; now left|].
  apply IH. intros; apply Hb; now right.
Qed.

Lemma unsubscribeAll_own h : installed h -> mainGone (Sync.unsubscribeAll reg h).
Proof.
  intros [(r & L & M) _ _]. unfold Sync.unsubscribeAll, mainGone. rewrite L, M.
  simpl. apply isSubscribed_removed.
Qed.

Lemma unsubscribeAll_foreign h r' :
  installed h -> r' <> reg -> keepsNew h (Sync.unsubscribeAll r' h).
Proof.
  intros [_ F _] Hne. unfold Sync.unsubscribeAll.
  destruct (Sync.lookup r' (Sync.registrations h)) as [x|] eqn:L; [|apply keepsNew_refl].
  destruct (F r' x Hne L) as [A B].
  destruct (Sync.mainSubscription x) as [t|] eqn:M.
  - eapply keepsNew_trans; [apply teardowns_below_keep; exact A|].
    apply teardown_below_keeps. now apply B.
  - apply teardowns_below_keep. exact A.
Qed.

Lemma unsubscribeAll_harmless h r' : installed h -> harmless h (Sync.unsubscribeAll r' h).
Proof.
  intros Hi. destruct (Nat.eq_dec r' reg) as [->|Hne].
  - left. now apply unsubscribeAll_own.
  - right. now apply unsubscribeAll_foreign.
Qed.

Lemma invoke_tame cb : forall ev h,
  tame cb -> installed h -> harmless h (snd (Sync.invoke behaviour cb ev h)).
Proof.
  induction cb as [f| |c user IH onErr k|r|q n original IH]; intros ev h Ht Hi; simpl.
  - right. now apply keepsNew_same.
  - right. apply keepsNew_refl.
  - set (h0 := Sync.addLog (Sync.Called (Sync.CbOnce c user onErr k) ev) h).
    assert (installed h0) as Hi0 by (eapply installed_step; [apply syncStep_log|exact Hi]).
    set (h1 := match Sync.getOnceCell c h0 with
               | Some s => Sync.runSubscription s h0
               | None => h0
               end).
    assert (harmless h h1 /\ exists a sp, syncStep h0 h1 a sp) as [H1 (a & sp & S1)].
    { subst h1. destruct (Sync.getOnceCell c h0) as [s|] eqn:G.
      - split; [|eexists; eexists; apply sync_runSubscription_step].
        destruct s as [|t|r]; simpl.
        + right. now apply keepsNew_same.
        + exfalso. exact (inst_cells _ Hi0 c t G).
        + destruct (unsubscribeAll_harmless h0 r Hi0) as [G'|K']; [now left|].
          right. eapply keepsNew_trans; [|exact K']. now apply keepsNew_same.
      - split; [right; now apply keepsNew_same|].
        eexists; eexists; apply syncStep_refl. }
    assert (installed h1) as Hi1 by (eapply installed_step; eassumption).
    specialize (IH ev h1 Ht Hi1).
    destruct (sync_invoke_step behaviour user ev h1) as (a2 & S2 & _).
    destruct (Sync.invoke behaviour user ev h1) as [out h2]. simpl in IH, S2.
    assert (harmless h h2) as H2 by (eapply harmless_then; eassumption).
    assert (forall error, harmless h (Sync.handleError error ev onErr k h2)) as H3.
    { intros error. eapply harmless_then; [exact H2|apply sync_handleError_step|].
      right. apply keepsNew_same; unfold Sync.handleError; now destruct onErr. }
    destruct out; simpl; auto.
  - destruct (unsubscribeAll_harmless
                (Sync.addLog (Sync.Called (Sync.CbUnsubscribeAll r) ev) h) r) as [G|K].
    + eapply installed_step; [apply syncStep_log|exact Hi].
    + now left.
    + right. eapply keepsNew_trans; [|exact K]. now apply keepsNew_same.
  - set (h0 := Sync.addLog (Sync.Called (Sync.CbSelfRemoving q n original) ev) h).
    set (h1 := Sync.removeSubscriber q n h0).
    assert (installed h1) as Hi1.
    { eapply installed_step; [apply sync_removeSubscriber_step|].
      eapply installed_step; [apply syncStep_log|exact Hi]. }
    destruct Ht as [[Hn Ht]|Eown]; [|subst original].
    + destruct (sync_invoke_step behaviour original ev h1) as (a2 & S2 & _).
      eapply harmless_then; [|exact S2|now apply IH].
      right. eapply keepsNew_trans; [apply (keepsNew_same h h0); reflexivity|].
      apply (teardown_below_keeps (Sync.RemoveSubscriber q n)). exact Hn.
    + left. simpl. apply unsubscribeAll_own.
      eapply installed_step; [apply syncStep_log|exact Hi1].
Qed.

Lemma deliver_tame q ev s h :
  tame (Sync.callback s) -> installed h -> harmless h (Sync.deliver behaviour q ev s h).
Proof.
  intros Ht Hi. unfold Sync.deliver.
  pose proof (invoke_tame (Sync.callback s) ev h Ht Hi) as H1.
  destruct (sync_invoke_step behaviour (Sync.callback s) ev h) as (a & S1 & _).
  destruct (Sync.invoke behaviour (Sync.callback s) ev h) as [out h1]. simpl in H1, S1.
  destruct out as [|error| |error]; try exact H1.
  eapply harmless_then; [exact H1|apply sync_handleError_step|].
  right. apply keepsNew_same; unfold Sync.handleError; now destruct (Sync.onError s).
Qed.

(** One turn of the walk over a set. *)
Definition visit (ev : HubEvent) (q : string) (s : Sync.Subscriber) (h : Sync.Hub)
    : Sync.Hub :=
  if Sync.isSubscribed q (Sync.sid s) h then Sync.deliver behaviour q ev s h else h.

Lemma visit_step ev q s h : exists a sp, syncStep h (visit ev q s h) a sp.
Proof.
  unfold visit. destruct (Sync.isSubscribed q (Sync.sid s) h).
  - destruct (sync_deliver_step behaviour q ev s h) as (a & sp & S & _). eauto.
  - eexists; eexists; apply syncStep_refl.
Qed.

Lemma visit_tame ev q s h :
  tame (Sync.callback s) -> installed h -> harmless h (visit ev q s h).
Proof.
  intros Ht Hi. unfold visit. destruct (Sync.isSubscribed q (Sync.sid s) h).
  - now apply deliver_tame.
  - right. apply keepsNew_refl.
Qed.

Lemma notifySet_tame ev q pending : forall h,
  (forall s, In s pending -> tame (Sync.callback s)) -> installed h ->
  harmless h (Sync.notifySet behaviour ev q pending h).
Proof.
  induction pending as [|s0 pending IH]; intros h Ht Hi; simpl.
  - right. apply keepsNew_refl.
  - fold (visit ev q s0 h).
    destruct (visit_step ev q s0 h) as (a & sp & S).
    destruct (sync_notifySet_step behaviour ev q pending (visit ev q s0 h))
      as (a2 & sp2 & S2 & _).
    eapply harmless_then; [apply visit_tame; auto|exact S2|].
    + apply Ht. now left.
    + apply IH; [intros; apply Ht; now right|]. eapply installed_step; eassumption.
Qed.

(** The subscriber this call of [on] registered under a stop key. *)
Variables (stopKey : string) (stopId : nat).
Hypothesis stopId_new : base <= stopId.

Definition stopSubscriber : Sync.Subscriber :=
  Sync.mkSubscriber stopId
    (Sync.CbSelfRemoving stopKey stopId (Sync.CbUnsubscribeAll reg)) None.

(** Either the main subscription has ended or the stop subscriber waits. *)
Definition armed (h : Sync.Hub) : Prop := mainGone h \/ stillIn stopKey stopSubscriber h.

Lemma armed_harmless h h' a sp : syncStep h h' a sp -> harmless h h' -> armed h -> armed h'.
Proof.
  intros S [G|[K _]] [G'|St]; try (now left).
  - left. eapply mainGone_step; eassumption.
  - right. apply K; [exact stopId_new|exact St].
Qed.

Lemma visit_stop ev h :
  installed h -> armed h -> mainGone (visit ev stopKey stopSubscriber h).
Proof.
  intros Hi [G|St]; unfold visit.
  - destruct (Sync.isSubscribed stopKey (Sync.sid stopSubscriber) h); [|exact G].
    destruct (sync_deliver_step behaviour stopKey ev stopSubscriber h) as (a & sp & S & _).
    eapply mainGone_step; eassumption.
  - rewrite (stillIn_isSubscribed _ _ _ St).
    unfold Sync.deliver. simpl.
    apply unsubscribeAll_own.
    eapply installed_step; [apply syncStep_log|].
    eapply installed_step; [apply sync_removeSubscriber_step|].
    eapply installed_step; [apply syncStep_log|exact Hi].
Qed.

Lemma notifySet_mainGone ev q pending h :
  mainGone h -> mainGone (Sync.notifySet behaviour ev q pending h).
Proof.
  destruct (sync_notifySet_step behaviour ev q pending h) as (a & sp & S & _).
  eapply mainGone_step; eassumption.
Qed.

Lemma notifySet_fires ev pending : forall h,
  (forall s, In s pending -> tame (Sync.callback s)) -> installed h -> armed h ->
  In stopSubscriber pending ->
  mainGone (Sync.notifySet behaviour ev stopKey pending h).
Proof.
  induction pending as [|s0 pending IH]; intros h Ht Hi Ha Hin; [destruct Hin|].
  simpl. fold (visit ev stopKey s0 h).
  destruct (visit_step ev stopKey s0 h) as (a & sp & S).
  destruct Hin as [->|Hin].
  - apply notifySet_mainGone. now apply visit_stop.
  - apply IH; auto.
    + intros; apply Ht; now right.
    + eapply installed_step; eassumption.
    + eapply armed_harmless; [exact S| |exact Ha].
      apply visit_tame; [apply Ht; now left|exact Hi].
Qed.

(** One turn of the walk over the queries. *)
Definition visitQuery (ev : HubEvent) (q : string) (h : Sync.Hub) : Sync.Hub :=
  match mget q (Sync.subscribers h) with
  | Some set => if Sync.matchQuery (key ev) q then Sync.notifySet behaviour ev q set h else h
  | None => h
  end.

Lemma visitQuery_step ev q h : exists a sp, syncStep h (visitQuery ev q h) a sp.
Proof.
  unfold visitQuery. destruct (mget q (Sync.subscribers h)) as [set|].
  - destruct (Sync.matchQuery (key ev) q).
    + destruct (sync_notifySet_step behaviour ev q set h) as (a & sp & S & _). eauto.
    + eexists; eexists; apply syncStep_refl.
  - eexists; eexists; apply syncStep_refl.
Qed.

Lemma visitQuery_tame ev q h :
  allTame h -> installed h -> harmless h (visitQuery ev q h).
Proof.
  intros Ht Hi. unfold visitQuery.
  destruct (mget q (Sync.subscribers h)) as [set|] eqn:E; [|right; apply keepsNew_refl].
  destruct (Sync.matchQuery (key ev) q); [|right; apply keepsNew_refl].
  apply notifySet_tame; [|exact Hi]. intros s Hs. eapply Ht; eassumption.
Qed.

Lemma notifyQueries_mainGone ev pending h :
  mainGone h -> mainGone (Sync.notifyQueries behaviour ev pending h).
Proof.
  destruct (sync_notifyQueries_step behaviour ev pending h) as (a & sp & S & _).
  eapply mainGone_step; eassumption.
Qed.

Lemma notifyQueries_fires ev pending : forall h,
  allTame h -> installed h -> armed h ->
  Sync.matchQuery (key ev) stopKey = true -> In stopKey pending ->
  mainGone (Sync.notifyQueries behaviour ev pending h).
Proof.
  induction pending as [|q0 pending IH]; intros h Ht Hi Ha Hm Hin; [destruct Hin|].
  simpl. fold (visitQuery ev q0 h).
  destruct (visitQuery_step ev q0 h) as (a & sp & S).
  destruct Hin as [->|Hin].
  - apply notifyQueries_mainGone. unfold visitQuery.
    destruct Ha as [G|St].
    + destruct (mget stopKey (Sync.subscribers h)); [|exact G].
      rewrite Hm. now apply notifySet_mainGone.
    + pose proof St as (set & E & Hs). rewrite E, Hm.
      apply notifySet_fires; auto.
      * intros s Hin. eapply Ht; eassumption.
      * now right.
  - apply IH; auto.
    + eapply allTame_shrinks; [apply S|exact Ht].
    + eapply installed_step; eassumption.
    + eapply armed_harmless; [exact S| |exact Ha]. now apply visitQuery_tame.
Qed.

(** A publish that matches the stop key ends the main subscription. *)
Lemma publish_fires h k d :
  allTame h -> installed h -> stillIn stopKey stopSubscriber h ->
  k <> EmptyString -> Sync.matchQuery k stopKey = true ->
  mainGone (snd (Sync.publish behaviour k d h)).
Proof.
  intros Ht Hi St Hk Hm.
  assert (falsy k = false) as Fk by (destruct k; [congruence|reflexivity]).
  unfold Sync.publish. rewrite Fk. cbn [Sync.fresh fst snd].
  unfold Sync.notifySubscribers.
  set (h1 := Sync.withRegistry _ _).
  apply notifyQueries_fires.
  - exact Ht.
  - revert Hi. now apply installed_same.
  - right. exact St.
  - exact Hm.
  - destruct St as (set & E & _). eapply mget_Some_key. exact E.
Qed.

End UntilDynamics.

(** ** Effects at a scheduler turn *)

Lemma findEffect_In x h eff :
  Sync.findEffect x h = Some eff -> In eff (Sync.effects h) /\ Sync.eid eff = x.
Proof.
  unfold Sync.findEffect. intros F. apply find_some in F as [Hin E].
  split; [exact Hin|]. now apply Nat.eqb_eq.
Qed.

Lemma find_unique (l : list Sync.Effect) eff :
  NoDup (map Sync.eid l) -> In eff l ->
  find (fun x => Nat.eqb (Sync.eid x) (Sync.eid eff)) l = Some eff.
Proof.
  induction l as [|a l IH]; intros Hnd Hin; [destruct Hin|].
  simpl in *. inversion Hnd as [|? ? Hnot Hnd']; subst.
  destruct Hin as [->|Hin].
  - now rewrite Nat.eqb_refl.
  - destruct (Nat.eqb_spec (Sync.eid a) (Sync.eid eff)) as [E|E].
    + exfalso. apply Hnot. rewrite E. now apply in_map.
    + auto.
Qed.

Lemma findEffect_unique h eff :
  NoDup (map Sync.eid (Sync.effects h)) -> In eff (Sync.effects h) ->
  Sync.findEffect (Sync.eid eff) h = Some eff.
Proof. apply find_unique. Qed.

Lemma NoDup_eid_filter keep (l : list Sync.Effect) :
  NoDup (map Sync.eid l) -> NoDup (map Sync.eid (filter keep l)).
Proof.
  induction l as [|a l IH]; simpl; intros Hnd; [constructor|].
  inversion Hnd as [|? ? Hnot Hnd']; subst.
  destruct (keep a); simpl; [|auto]. constructor; [|auto].
  intros Hin. apply Hnot. apply in_map_iff in Hin as (x & E & Hx).
  apply filter_In in Hx as [Hx _]. apply in_map_iff. eauto.
Qed.

Lemma updateEffect_ids x b h :
  map Sync.eid (Sync.effects (Sync.updateEffect x b h)) = map Sync.eid (Sync.effects h).
Proof.
  simpl. rewrite map_map. apply map_ext_in. intros a _.
  destruct (Nat.eqb_spec (Sync.eid a) x) as [E|E]; simpl; auto.
Qed.

Lemma updateEffect_In x b h eff :
  In eff (Sync.effects (Sync.updateEffect x b h)) ->
  (Sync.eid eff <> x /\ In eff (Sync.effects h)) \/ eff = Sync.mkEffect x b.
Proof.
  simpl. intros Hin. apply in_map_iff in Hin as (a & E & Ha).
  destruct (Nat.eqb_spec (Sync.eid a) x) as [Ex|Ex]; subst; auto.
Qed.

Lemma updateEffect_other x b h eff :
  Sync.eid eff <> x -> In eff (Sync.effects h) ->
  In eff (Sync.effects (Sync.updateEffect x b h)).
Proof.
  intros Hne Hin. simpl. apply in_map_iff. exists eff. split; [|exact Hin].
  destruct (Nat.eqb_spec (Sync.eid eff) x); congruence.
Qed.

Section CombineRun.
Variable combineBehaviour : nat -> list HubEvent -> Outcome.
Variable localeCompare : string -> string -> Z.

(** A run of a combine effect rewrites its own memory and may add to the
    log; it touches nothing else. *)
Lemma runCombine_shape e o st h :
  exists st' added,
    let h' := Sync.runCombine combineBehaviour localeCompare e o st h in
    Sync.effects h' = Sync.effects (Sync.updateEffect e (Sync.CombineLatest o st') h) /\
    Sync.seenSources st' = map (fun k => mget k (Sync.eventRegistry h)) (Sync.optKeys o) /\
    Sync.log h' = Sync.log h ++ added /\
    Sync.subscribers h' = Sync.subscribers h /\
    Sync.registrations h' = Sync.registrations h /\
    Sync.onceCells h' = Sync.onceCells h /\
    Sync.signals h' = Sync.signals h /\
    Sync.eventRegistry h' = Sync.eventRegistry h /\
    Sync.registryVersion h' = Sync.registryVersion h /\
    Sync.nextId h' = Sync.nextId h.
Proof.
  unfold Sync.runCombine.
  match goal with
  | |- context [if ?c then _ else _] => destruct c
  end.
  - eexists; exists []. simpl. rewrite app_nil_r. repeat split; reflexivity.
  - destruct (Sync.combinedValue localeCompare o _) as [combinedEvents|].
    + destruct (negb (Sync.optCombineReplayLatest o) &&
                Nat.eqb (List.length (Sync.eventRegistry h)) 0).
      * eexists; exists []. simpl. rewrite app_nil_r. repeat split; reflexivity.
      * destruct (combineBehaviour (Sync.optCombineCallback o) combinedEvents);
          try (eexists; eexists; simpl; repeat split; reflexivity).
        unfold Sync.reportCombineError.
        destruct (Sync.optCombineOnError o);
          eexists; eexists; simpl; rewrite <- app_assoc; repeat split; reflexivity.
    + eexists; exists []. simpl. rewrite app_nil_r. repeat split; reflexivity.
Qed.

(** What no effect changes, whichever it is. *)
Definition quietStep (h h' : Sync.Hub) : Prop :=
  Sync.registrations h' = Sync.registrations h /\
  Sync.onceCells h' = Sync.onceCells h /\
  Sync.signals h' = Sync.signals h /\
  Sync.eventRegistry h' = Sync.eventRegistry h /\
  Sync.registryVersion h' = Sync.registryVersion h /\
  Sync.nextId h' = Sync.nextId h /\
  shrinks h h'.

Lemma quietStep_refl h : quietStep h h.
Proof. repeat split. apply shrinks_refl. Qed.

Lemma quietStep_trans h1 h2 h3 : quietStep h1 h2 -> quietStep h2 h3 -> quietStep h1 h3.
Proof.
  intros (A & B & C & D & E & F & G) (A' & B' & C' & D' & E' & F' & G').
  repeat split; try congruence. eapply shrinks_trans; eassumption.
Qed.

Lemma syncStep_quiet h h' a sp : syncStep h h' a sp -> quietStep h h'.
Proof. intros S. repeat split; apply S. Qed.

Lemma runEffect_quiet eff h :
  quietStep h (Sync.runEffect combineBehaviour localeCompare eff h).
Proof.
  unfold Sync.runEffect. destruct (Sync.body eff) as [s r|o st].
  - destruct (Sync.readSignal s h); [|apply quietStep_refl].
    eapply syncStep_quiet. apply sync_unsubscribeAll_step.
  - destruct (runCombine_shape (Sync.eid eff) o st h)
      as (st' & added & _ & _ & _ & S & R & C & G & Y & V & N).
    repeat split; auto. now apply shrinks_same.
Qed.

Lemma flushPending_quiet pending : forall h,
  quietStep h (Sync.flushPending combineBehaviour localeCompare pending h).
Proof.
  induction pending as [|x pending IH]; intros h; simpl; [apply quietStep_refl|].
  eapply quietStep_trans; [|apply IH].
  destruct (Sync.findEffect x h); [apply runEffect_quiet|apply quietStep_refl].
Qed.

End CombineRun.

Section SignalDynamics.
Variable behaviour : nat -> HubEvent -> Outcome.
Variable combineBehaviour : nat -> list HubEvent -> Outcome.
Variable localeCompare : string -> string -> Z.
Variables (base reg : nat) (mainKey : string) (mainId : nat).
(** The effect this call of [on] created for one of its signals. *)
Variables (effId signal : nat).
Hypothesis effId_new : base <= effId.

Definition ownEffect : Sync.Effect := Sync.mkEffect effId (Sync.UntilSignal signal reg).

(** The effects made by this call of [on] watch its own registration. *)
Definition effectsOk (h : Sync.Hub) : Prop :=
  NoDup (map Sync.eid (Sync.effects h)) /\
  forall eff, In eff (Sync.effects h) ->
    Sync.eid eff < base \/ exists s, Sync.body eff = Sync.UntilSignal s reg.

Definition watching (h : Sync.Hub) : Prop :=
  mainGone mainKey mainId h \/ In ownEffect (Sync.effects h).

Lemma installed_quiet h h' :
  quietStep h h' -> installed base reg mainKey mainId h -> installed base reg mainKey mainId h'.
Proof. intros (R & C & _). now apply installed_same. Qed.

Lemma mainGone_quiet h h' :
  quietStep h h' -> mainGone mainKey mainId h -> mainGone mainKey mainId h'.
Proof. intros (_ & _ & _ & _ & _ & _ & S). now apply isSubscribed_shrinks. Qed.

Lemma runEffect_effectsOk eff h :
  effectsOk h -> In eff (Sync.effects h) ->
  effectsOk (Sync.runEffect combineBehaviour localeCompare eff h).
Proof.
  intros [Hnd Hok] Hin. unfold Sync.runEffect.
  destruct (Sync.body eff) as [s r|o st] eqn:B.
  - destruct (Sync.readSignal s h); [|now split].
    destruct (step_effects _ _ _ _ (sync_unsubscribeAll_step r h)) as [keep E].
    split; rewrite E.
    + now apply NoDup_eid_filter.
    + intros x Hx. apply filter_In in Hx as [Hx _]. auto.
  - destruct (runCombine_shape combineBehaviour localeCompare (Sync.eid eff) o st h)
      as (st' & added & E & _).
    cbv zeta in E. split; rewrite E.
    + now rewrite updateEffect_ids.
    + intros x Hx. apply updateEffect_In in Hx as [[_ Hx]|Hx]; [auto|subst x].
      left. simpl. destruct (Hok eff Hin) as [Hlt|[s Hs]]; [exact Hlt|congruence].
Qed.

Lemma runEffect_watching eff h :
  installed base reg mainKey mainId h -> effectsOk h ->
  In eff (Sync.effects h) -> Sync.eid eff <> effId ->
  watching h -> watching (Sync.runEffect combineBehaviour localeCompare eff h).
Proof.
  intros Hi [Hnd Hok] Hin Hne [G|W].
  - left. eapply mainGone_quiet; [apply runEffect_quiet|exact G].
  - unfold Sync.runEffect. destruct (Sync.body eff) as [s r|o st] eqn:B.
    + destruct (Sync.readSignal s h); [|now right].
      destruct (unsubscribeAll_harmless base reg mainKey mainId h r Hi) as [G'|[_ K]].
      * now left.
      * right. apply K; [exact effId_new|exact W].
    + destruct (runCombine_shape combineBehaviour localeCompare (Sync.eid eff) o st h)
        as (st' & added & E & _).
      cbv zeta in E. right. rewrite E. apply updateEffect_other; [|exact W].
      simpl. congruence.
Qed.

Lemma runEffect_own h :
  installed base reg mainKey mainId h -> Sync.readSignal signal h = true ->
  mainGone mainKey mainId (Sync.runEffect combineBehaviour localeCompare ownEffect h).
Proof.
  intros Hi Hs. unfold Sync.runEffect. simpl. rewrite Hs.
  now apply unsubscribeAll_own with (base := base).
Qed.

Lemma flushPending_mainGone pending h :
  mainGone mainKey mainId h ->
  mainGone mainKey mainId (Sync.flushPending combineBehaviour localeCompare pending h).
Proof. apply mainGone_quiet, flushPending_quiet. Qed.

(** When the signal reads [true] and the effect gets its turn, the main
    subscription ends. *)
Lemma flushPending_fires pending : forall h,
  installed base reg mainKey mainId h -> effectsOk h ->
  Sync.readSignal signal h = true -> watching h -> In effId pending ->
  mainGone mainKey mainId (Sync.flushPending combineBehaviour localeCompare pending h).
Proof.
  induction pending as [|x pending IH]; intros h Hi Hok Hs Hw Hin; [destruct Hin|].
  simpl.
  destruct (Nat.eq_dec x effId) as [->|Hne].
  - apply flushPending_mainGone.
    destruct Hw as [G|W].
    + destruct (Sync.findEffect effId h); [|exact G].
      eapply mainGone_quiet; [apply runEffect_quiet|exact G].
    + pose proof (findEffect_unique h ownEffect (proj1 Hok) W) as F.
      simpl in F. rewrite F. now apply runEffect_own.
  - destruct Hin as [E|Hin]; [congruence|].
    destruct (Sync.findEffect x h) as [eff|] eqn:F; [|now apply IH].
    apply findEffect_In in F as [Hine Heid].
    pose proof (runEffect_quiet combineBehaviour localeCompare eff h) as Q.
    apply IH; auto.
    + eapply installed_quiet; eassumption.
    + now apply runEffect_effectsOk.
    + unfold Sync.readSignal in *. destruct Q as (_ & _ & Sg & _). now rewrite Sg.
    + apply runEffect_watching; auto. congruence.
Qed.

End SignalDynamics.

(** ** [until]: what a call of [on] installs *)

Lemma internalSubscribe_spec q cb destroyRef onErr (selfRemoving : bool) h :
  let id := Sync.nextId h in
  let sub := Sync.mkSubscriber id (if selfRemoving then Sync.CbSelfRemoving q id cb else cb) onErr in
  let h' := snd (Sync.internalSubscribe q cb destroyRef onErr selfRemoving h) in
  fst (Sync.internalSubscribe q cb destroyRef onErr selfRemoving h) = Sync.RemoveSubscriber q id /\
  Sync.nextId h' = S id /\
  Sync.registrations h' = Sync.registrations h /\
  Sync.onceCells h' = Sync.onceCells h /\
  Sync.signals h' = Sync.signals h /\
  Sync.effects h' = Sync.effects h /\
  Sync.eventRegistry h' = Sync.eventRegistry h /\
  Sync.log h' = Sync.log h /\
  stillIn q sub h' /\
  (forall q' s, stillIn q' s h -> stillIn q' s h') /\
  (forall q' s, stillIn q' s h' -> stillIn q' s h \/ (q' = q /\ s = sub)).
Proof.
  intros id sub h'. subst h'. unfold Sync.internalSubscribe. cbn [Sync.fresh].
  fold id. fold sub.
  set (set0 := match mget q (Sync.subscribers (Sync.withNextId (S id) h)) with
               | Some set => set
               | None => []
               end).
  assert (forall x,
            Sync.subscribers x = mset q (set0 ++ [sub]) (Sync.subscribers h) ->
            stillIn q sub x /\
            (forall q' s, stillIn q' s h -> stillIn q' s x) /\
            (forall q' s, stillIn q' s x -> stillIn q' s h \/ (q' = q /\ s = sub))) as K.
  { intros x Ex. unfold stillIn. rewrite Ex. refine (conj _ (conj _ _)).
    - exists (set0 ++ [sub]). split; [apply mget_mset_same|]. apply in_or_app. right. now left.
    - intros q' s (set & E & Hin). destruct (String.eqb_spec q' q) as [->|Hne].
      + exists (set0 ++ [sub]). split; [apply mget_mset_same|].
        apply in_or_app. left. subst set0. simpl. now rewrite E.
      + exists set. split; [|exact Hin]. now rewrite mget_mset_other.
    - intros q' s (set & E & Hin). destruct (String.eqb_spec q' q) as [->|Hne].
      + rewrite mget_mset_same in E. inversion E; subst set.
        apply in_app_or in Hin as [Hin|[<-|[]]]; [|now right].
        left. subst set0. simpl in Hin.
        destruct (mget q (Sync.subscribers h)) as [set|] eqn:G; [eauto|destruct Hin].
      + rewrite mget_mset_other in E by exact Hne. left. eauto. }
  destruct destroyRef as [d|]; simpl; repeat (split; [reflexivity|]); apply K; reflexivity.
Qed.

Lemma removalsBelow_tame base reg cb : removalsBelow base cb -> tame base reg cb.
Proof.
  induction cb; simpl; auto. intros [A B]. left. auto.
Qed.

Section OnInstalls.
Variable behaviour : nat -> HubEvent -> Outcome.
Variable h : Sync.Hub.
Hypothesis h_wf : wellFormed h.

(** [fresh] when [on] is called; the registration takes this identity. *)
Let base : nat := Sync.nextId h.

(** The state while [on] works through its conditions. *)
Record building (done : list Sync.Condition) (x : Sync.Hub) : Prop := mkBuilding {
  bd_next : base < Sync.nextId x;
  bd_reg : exists r,
    Sync.lookup base (Sync.registrations x) = Some r /\ Sync.mainSubscription r = None;
  bd_foreign : forall r' y,
    r' <> base -> Sync.lookup r' (Sync.registrations x) = Some y ->
    Sync.lookup r' (Sync.registrations h) = Some y;
  bd_cells : Sync.onceCells x = Sync.onceCells h;
  bd_signals : Sync.signals x = Sync.signals h;
  bd_registry : Sync.eventRegistry x = Sync.eventRegistry h;
  bd_old : forall q s, stillIn q s h -> stillIn q s x;
  bd_tame : allTame base base x;
  bd_ids : forall eff, In eff (Sync.effects x) -> Sync.eid eff < Sync.nextId x;
  bd_effects : effectsOk base base x;
  bd_stops : forall c, In (Sync.StopKey c) done ->
    exists id, base <= id /\ stillIn c (stopSubscriber base c id) x;
  bd_signals_done : forall sg, In (Sync.StopSignal sg) done ->
    exists e, base <= e /\ In (ownEffect base e sg) (Sync.effects x)
}.

Lemma building_start :
  building []
    (Sync.withRegistrations
       (Sync.store base (Sync.mkRegistration [] None)
          (Sync.registrations (Sync.withNextId (S base) h)))
       (Sync.withNextId (S base) h)).
Proof.
  constructor; simpl; auto.
  - eexists. split; [apply lookup_store_same|reflexivity].
  - intros r' y Hne. now rewrite lookup_store_other.
  - intros q set s E Hin. apply removalsBelow_tame.
    now apply (wf_subscribers h h_wf q set s E Hin).
  - intros eff Hin. destruct (wf_effects h h_wf eff Hin) as [Hlt _]. fold base in Hlt. lia.
  - split; [apply (wf_effect_ids h h_wf)|].
    intros eff Hin. left. now apply (wf_effects h h_wf eff Hin).
  - intros c [].
  - intros sg [].
Qed.

Lemma pushUnsubscriber_spec t x :
  (exists r, Sync.lookup base (Sync.registrations x) = Some r /\
             Sync.mainSubscription r = None) ->
  let x' := Sync.pushUnsubscriber base t x in
  (exists r, Sync.lookup base (Sync.registrations x') = Some r /\
             Sync.mainSubscription r = None) /\
  (forall r' y, r' <> base -> Sync.lookup r' (Sync.registrations x') = Some y ->
                Sync.lookup r' (Sync.registrations x) = Some y) /\
  Sync.subscribers x' = Sync.subscribers x /\ Sync.effects x' = Sync.effects x /\
  Sync.onceCells x' = Sync.onceCells x /\ Sync.signals x' = Sync.signals x /\
  Sync.eventRegistry x' = Sync.eventRegistry x /\ Sync.nextId x' = Sync.nextId x.
Proof.
  intros (r & L & M). unfold Sync.pushUnsubscriber. rewrite L. simpl.
  refine (conj _ (conj _ _)); [| |repeat split].
  - eexists. split; [apply lookup_store_same|exact M].
  - intros r' y Hne. now rewrite lookup_store_other.
Qed.

Lemma building_step done x c :
  building done x -> building (done ++ [c]) (Sync.installCondition base x c).
Proof.
  intros B. destruct c as [k|sg]; unfold Sync.installCondition, Sync.fresh.
  - destruct (internalSubscribe_spec k (Sync.CbUnsubscribeAll base) None None true x)
      as (F & N & R & C & G & E & Y & _ & Hnew & Hold & Hinv).
    destruct (Sync.internalSubscribe k (Sync.CbUnsubscribeAll base) None None true x)
      as [sub x1].
    cbn [fst snd] in *. subst sub.
    destruct (pushUnsubscriber_spec (Sync.RemoveSubscriber k (Sync.nextId x)) x1)
      as (R2 & F2 & S2 & E2 & C2 & G2 & Y2 & N2).
    { rewrite R. apply (bd_reg _ _ B). }
    set (x2 := Sync.pushUnsubscriber base (Sync.RemoveSubscriber k (Sync.nextId x)) x1) in *.
    assert (forall q s, stillIn q s x1 -> stillIn q s x2) as Keep
      by (unfold stillIn; now rewrite S2).
    constructor.
    + rewrite N2, N. pose proof (bd_next _ _ B). lia.
    + exact R2.
    + intros r' y Hne L. apply (bd_foreign _ _ B r' y Hne). rewrite <- R. now apply F2.
    + rewrite C2, C. apply (bd_cells _ _ B).
    + rewrite G2, G. apply (bd_signals _ _ B).
    + rewrite Y2, Y. apply (bd_registry _ _ B).
    + intros q s Hs. apply Keep, Hold. now apply (bd_old _ _ B).
    + intros q set s Eq Hin. rewrite S2 in Eq.
      destruct (Hinv q s (ex_intro _ set (conj Eq Hin))) as [(set0 & E0 & H0)|[_ ->]].
      * eapply (bd_tame _ _ B); eassumption.
      * simpl. now right.
    + intros eff Hin. rewrite E2, E in Hin. rewrite N2, N.
      pose proof (bd_ids _ _ B eff Hin). lia.
    + unfold effectsOk. rewrite E2, E. apply (bd_effects _ _ B).
    + intros c Hc. apply in_app_or in Hc as [Hc|[Hc|[]]].
      * destruct (bd_stops _ _ B c Hc) as (id & Hid & Hs). exists id. auto.
      * inversion Hc; subst c. exists (Sync.nextId x). split.
        -- pose proof (bd_next _ _ B). lia.
        -- apply Keep. exact Hnew.
    + intros s Hs. apply in_app_or in Hs as [Hs|[Hs|[]]]; [|discriminate].
      rewrite E2, E. now apply (bd_signals_done _ _ B).
  - destruct (pushUnsubscriber_spec (Sync.DestroyEffect (Sync.nextId x))
                (Sync.withEffects
                   (Sync.effects (Sync.withNextId (S (Sync.nextId x)) x) ++
                    [Sync.mkEffect (Sync.nextId x) (Sync.UntilSignal sg base)])
                   (Sync.withNextId (S (Sync.nextId x)) x)))
      as (R2 & F2 & S2 & E2 & C2 & G2 & Y2 & N2).
    { apply (bd_reg _ _ B). }
    match goal with |- building _ ?y => set (x2 := y) in * end.
    simpl in S2, E2, C2, G2, Y2, N2.
    constructor.
    + rewrite N2. pose proof (bd_next _ _ B). lia.
    + exact R2.
    + intros r' y Hne L. apply (bd_foreign _ _ B r' y Hne). now apply F2.
    + rewrite C2. apply (bd_cells _ _ B).
    + rewrite G2. apply (bd_signals _ _ B).
    + rewrite Y2. apply (bd_registry _ _ B).
    + intros q s Hs. unfold stillIn. rewrite S2. now apply (bd_old _ _ B).
    + intros q set s Eq Hin. rewrite S2 in Eq. eapply (bd_tame _ _ B); eassumption.
    + intros eff Hin. rewrite E2 in Hin. rewrite N2.
      apply in_app_or in Hin as [Hin|[<-|[]]]; [|simpl; lia].
      pose proof (bd_ids _ _ B eff Hin). lia.
    + destruct (bd_effects _ _ B) as [Hnd Hok]. unfold effectsOk. rewrite E2. split.
      * rewrite map_app. simpl. apply NoDup_app; [exact Hnd|repeat constructor; intros []|].
        intros n Hn [<-|[]]. apply in_map_iff in Hn as (eff & Ee & He).
        pose proof (bd_ids _ _ B eff He). lia.
      * intros eff Hin. apply in_app_or in Hin as [Hin|[<-|[]]]; [auto|].
        right. simpl. eauto.
    + intros c Hc. apply in_app_or in Hc as [Hc|[Hc|[]]]; [|discriminate].
      destruct (bd_stops _ _ B c Hc) as (id & Hid & Hs). exists id. split; [exact Hid|].
      unfold stillIn. now rewrite S2.
    + intros s Hs. rewrite E2. apply in_app_or in Hs as [Hs|[Hs|[]]].
      * destruct (bd_signals_done _ _ B s Hs) as (e & He & Hin). exists e. split; [exact He|].
        apply in_or_app. now left.
      * inversion Hs; subst s. exists (Sync.nextId x). split.
        -- pose proof (bd_next _ _ B). lia.
        -- apply in_or_app. right. now left.
Qed.

Lemma building_all conds : forall done x,
  building done x -> building (done ++ conds) (fold_left (Sync.installCondition base) conds x).
Proof.
  induction conds as [|c conds IH]; intros done x B; simpl.
  - now rewrite app_nil_r.
  - replace (done ++ c :: conds) with ((done ++ [c]) ++ conds)
      by (rewrite <- app_assoc; reflexivity).
    apply IH. now apply building_step.
Qed.

End OnInstalls.

Lemma readSignal_setSignal s b h : Sync.readSignal s (Sync.setSignal s b h) = b.
Proof. unfold Sync.readSignal, Sync.setSignal. simpl. now rewrite lookup_store_same. Qed.

(** ** [until]: the guarantees of a registration and what keeps them *)

Lemma effectsOk_filter base reg h h' keep :
  Sync.effects h' = filter keep (Sync.effects h) -> effectsOk base reg h -> effectsOk base reg h'.
Proof.
  intros E [Hnd Hok]. unfold effectsOk. rewrite E. split.
  - now apply NoDup_eid_filter.
  - intros x Hx. apply filter_In in Hx as [Hx _]. auto.
Qed.

Section UntilHolds.
Variable behaviour : nat -> HubEvent -> Outcome.
Variable combineBehaviour : nat -> list HubEvent -> Outcome.
Variable localeCompare : string -> string -> Z.
Variables (base reg : nat) (mainKey : string) (mainId : nat).
Variable conds : list Sync.Condition.

(** What a call of [on] with conditions [conds] has set up: for each stop
    key a subscriber, for each signal an effect, each of them waiting
    unless the main subscription has already ended. *)
Record untilHolds (h : Sync.Hub) : Prop := mkUntilHolds {
  uh_tame : allTame base reg h;
  uh_installed : installed base reg mainKey mainId h;
  uh_effects : effectsOk base reg h;
  uh_stops : forall c, In (Sync.StopKey c) conds ->
    exists id, base <= id /\ armed reg mainKey mainId c id h;
  uh_signals : forall sg, In (Sync.StopSignal sg) conds ->
    exists e, base <= e /\ watching reg mainKey mainId e sg h
}.

Lemma untilHolds_keeps h h' :
  Sync.registrations h' = Sync.registrations h ->
  Sync.onceCells h' = Sync.onceCells h ->
  shrinks h h' ->
  effectsOk base reg h' ->
  harmless base mainKey mainId h h' ->
  untilHolds h -> untilHolds h'.
Proof.
  intros R C S E H [Ht Hi He Hs Hg]. constructor.
  - eapply allTame_shrinks; eassumption.
  - revert Hi. now apply installed_same.
  - exact E.
  - intros c Hc. destruct (Hs c Hc) as (id & Hid & A). exists id. split; [exact Hid|].
    destruct H as [G|[K _]]; [now left|].
    destruct A as [G|St].
    + left. eapply isSubscribed_shrinks; eassumption.
    + right. apply K; [exact Hid|exact St].
  - intros sg Hsg. destruct (Hg sg Hsg) as (e & He' & W). exists e. split; [exact He'|].
    destruct H as [G|[_ K]]; [now left|].
    destruct W as [G|W].
    + left. eapply isSubscribed_shrinks; eassumption.
    + right. apply K; [exact He'|exact W].
Qed.

Lemma notifyQueries_tame ev pending : forall h,
  allTame base reg h -> installed base reg mainKey mainId h ->
  harmless base mainKey mainId h (Sync.notifyQueries behaviour ev pending h).
Proof.
  induction pending as [|q0 pending IH]; intros h Ht Hi; simpl.
  - right. apply keepsNew_refl.
  - fold (visitQuery behaviour ev q0 h).
    destruct (visitQuery_step behaviour ev q0 h) as (a & sp & S).
    destruct (sync_notifyQueries_step behaviour ev pending (visitQuery behaviour ev q0 h))
      as (a2 & sp2 & S2 & _).
    eapply harmless_then; [now apply (visitQuery_tame behaviour base reg)|exact S2|].
    apply IH.
    + eapply allTame_shrinks; [apply S|exact Ht].
    + eapply installed_step; eassumption.
Qed.

Lemma publish_untilHolds k d h :
  untilHolds h -> untilHolds (snd (Sync.publish behaviour k d h)).
Proof.
  intros U. unfold Sync.publish. destruct (falsy k); [exact U|].
  cbn [Sync.fresh fst snd]. unfold Sync.notifySubscribers.
  set (h1 := Sync.withRegistry _ _).
  assert (untilHolds h1) as U1.
  { apply (untilHolds_keeps h h1 eq_refl eq_refl).
    - now apply shrinks_same.
    - apply (uh_effects _ U).
    - right. now apply keepsNew_same.
    - exact U. }
  set (ev := mkEvent _ _ _ _).
  destruct (sync_notifyQueries_step behaviour ev (mkeys (Sync.subscribers h1)) h1)
    as (a & sp & S & _).
  apply (untilHolds_keeps h1 _ (step_registrations _ _ _ _ S) (step_onceCells _ _ _ _ S)
           (step_shrinks _ _ _ _ S)).
  - destruct (step_effects _ _ _ _ S) as [keep E].
    eapply effectsOk_filter; [exact E|apply (uh_effects _ U1)].
  - apply notifyQueries_tame; [apply (uh_tame _ U1)|apply (uh_installed _ U1)].
  - exact U1.
Qed.

Lemma runEffect_harmless eff h :
  installed base reg mainKey mainId h -> effectsOk base reg h ->
  In eff (Sync.effects h) ->
  harmless base mainKey mainId h (Sync.runEffect combineBehaviour localeCompare eff h).
Proof.
  intros Hi [Hnd Hok] Hin. unfold Sync.runEffect.
  destruct (Sync.body eff) as [s r|o st] eqn:B.
  - destruct (Sync.readSignal s h); [|right; apply keepsNew_refl].
    now apply (unsubscribeAll_harmless base reg).
  - destruct (runCombine_shape combineBehaviour localeCompare (Sync.eid eff) o st h)
      as (st' & added & E & _ & _ & S & _).
    cbv zeta in E, S. right. split.
    + intros q s _. unfold stillIn. now rewrite S.
    + intros e He Hine. rewrite E. apply updateEffect_other; [|exact Hine].
      destruct (Hok eff Hin) as [Hlt|[s Hs]]; [lia|congruence].
Qed.

Lemma runEffect_untilHolds eff h :
  In eff (Sync.effects h) -> untilHolds h ->
  untilHolds (Sync.runEffect combineBehaviour localeCompare eff h).
Proof.
  intros Hin U.
  destruct (runEffect_quiet combineBehaviour localeCompare eff h)
    as (R & C & _ & _ & _ & _ & S).
  apply (untilHolds_keeps h _ R C S).
  - apply runEffect_effectsOk; [apply (uh_effects _ U)|exact Hin].
  - apply runEffect_harmless; [apply (uh_installed _ U)|apply (uh_effects _ U)|exact Hin].
  - exact U.
Qed.

Lemma flushPending_untilHolds pending : forall h,
  untilHolds h -> untilHolds (Sync.flushPending combineBehaviour localeCompare pending h).
Proof.
  induction pending as [|x pending IH]; intros h U; simpl; [exact U|].
  apply IH. destruct (Sync.findEffect x h) as [eff|] eqn:F; [|exact U].
  apply runEffect_untilHolds; [|exact U]. now apply findEffect_In in F.
Qed.

Lemma setSignal_untilHolds s b h : untilHolds h -> untilHolds (Sync.setSignal s b h).
Proof.
  intros U. apply (untilHolds_keeps h (Sync.setSignal s b h) eq_refl eq_refl).
  - now apply shrinks_same.
  - apply (uh_effects _ U).
  - right. now apply keepsNew_same.
  - exact U.
Qed.

(** A publish that matches a stop key ends the main subscription. *)
Lemma publish_stops h c k d :
  untilHolds h -> In (Sync.StopKey c) conds ->
  k <> EmptyString -> Sync.matchQuery k c = true ->
  mainGone mainKey mainId (snd (Sync.publish behaviour k d h)).
Proof.
  intros U Hc Hk Hm. destruct (uh_stops _ U c Hc) as (id & Hid & [G|St]).
  - destruct (sync_publish_delivers behaviour h k d Hk) as (_ & S & _).
    eapply isSubscribed_shrinks; eassumption.
  - eapply publish_fires; try eassumption.
    + apply (uh_tame _ U).
    + apply (uh_installed _ U).
Qed.

(** A turn of the effects while a signal reads [true] ends it as well. *)
Lemma flush_stops h sg :
  untilHolds h -> In (Sync.StopSignal sg) conds -> Sync.readSignal sg h = true ->
  mainGone mainKey mainId (Sync.flushEffects combineBehaviour localeCompare h).
Proof.
  intros U Hsg Hr. destruct (uh_signals _ U sg Hsg) as (e & He & W).
  unfold Sync.flushEffects. pose proof W as [G|Hin].
  - now apply flushPending_mainGone.
  - eapply flushPending_fires; try eassumption.
    + apply (uh_installed _ U).
    + apply (uh_effects _ U).
    + apply in_map_iff. exists (ownEffect reg e sg). split; [reflexivity|exact Hin].
Qed.

End UntilHolds.

(** The conditions [on] works through:
    [Array.isArray(until) ? until : [until]], none when [until] is falsy. *)
Definition stopConditions (o : Sync.HubEventOptions) : list Sync.Condition :=
  match Sync.conditionsOf (Sync.optUntil o) with
  | Some cs => cs
  | None => []
  end.

(** Callbacks whose replay at registration does no more than call the
    caller's function: the caller's own, and the wrapper of [once] while
    its [subscription] is still [null]. *)
Definition replaysQuietly (cb : Sync.Callback) (x : Sync.Hub) : Prop :=
  match cb with
  | Sync.CbUser _ => True
  | Sync.CbOnce c (Sync.CbUser _) _ _ => Sync.getOnceCell c x = None
  | _ => False
  end.

Lemma replaysQuietly_same cb x x' :
  Sync.onceCells x' = Sync.onceCells x -> replaysQuietly cb x -> replaysQuietly cb x'.
Proof.
  intros C. destruct cb as [f| |c user onErr k|reg|q n original]; simpl; auto.
  destruct user; auto. unfold Sync.getOnceCell. now rewrite C.
Qed.

Lemma replaysQuietly_tame base reg cb x : replaysQuietly cb x -> tame base reg cb.
Proof.
  destruct cb as [f| |c user onErr k|r|q n original]; simpl; try tauto.
  destruct user; simpl; tauto.
Qed.

Lemma replaysQuietly_function cb x : replaysQuietly cb x -> Sync.isFunction cb = true.
Proof.
  destruct cb as [f| |c user onErr k|r|q n original]; simpl; try tauto.
Qed.

Lemma replay_quiet behaviour o x :
  replaysQuietly (Sync.optCallback o) x ->
  let x' := Sync.replay behaviour o x in
  Sync.nextId x' = Sync.nextId x /\
  Sync.registrations x' = Sync.registrations x /\
  Sync.onceCells x' = Sync.onceCells x /\
  Sync.signals x' = Sync.signals x /\
  Sync.eventRegistry x' = Sync.eventRegistry x /\
  Sync.subscribers x' = Sync.subscribers x /\
  Sync.effects x' = Sync.effects x.
Proof.
  intros Hq. unfold Sync.replay.
  destruct (Sync.optReplayLatest o); [|repeat split].
  destruct (Sync.findLatestEventForKey (Sync.optKey o) x) as [ev|]; [|repeat split].
  destruct (Sync.optCallback o) as [f| |c user onErr k|reg|q n original];
    try contradiction.
  - cbn [Sync.invoke].
    destruct (behaviour f ev); try (repeat split; reflexivity).
    unfold Sync.handleError. destruct (Sync.optOnError o); repeat split; reflexivity.
  - destruct user as [f| | | |]; try contradiction. simpl in Hq.
    cbn [Sync.invoke].
    change (Sync.getOnceCell c
              (Sync.addLog (Sync.Called (Sync.CbOnce c (Sync.CbUser f) onErr k) ev) x))
      with (Sync.getOnceCell c x).
    rewrite Hq.
    destruct (behaviour f ev); try (repeat split; reflexivity).
    unfold Sync.handleError. destruct onErr; repeat split; reflexivity.
Qed.

Lemma building_same h done x x' :
  Sync.nextId x' = Sync.nextId x ->
  Sync.registrations x' = Sync.registrations x ->
  Sync.onceCells x' = Sync.onceCells x ->
  Sync.signals x' = Sync.signals x ->
  Sync.eventRegistry x' = Sync.eventRegistry x ->
  Sync.subscribers x' = Sync.subscribers x ->
  Sync.effects x' = Sync.effects x ->
  building h done x -> building h done x'.
Proof.
  intros N R C G Y S E [B1 B2 B3 B4 B5 B6 B7 B8 B9 B10 B11 B12].
  constructor; unfold allTame, effectsOk, stillIn in *;
    rewrite ?N, ?R, ?C, ?G, ?Y, ?S, ?E; auto.
Qed.

Lemma on_installs behaviour o h :
  wellFormed h -> Sync.optKey o <> EmptyString -> replaysQuietly (Sync.optCallback o) h ->
  existsb (Sync.signalIsTrue h) (stopConditions o) = false ->
  exists mainId h1,
    Sync.on behaviour o h = (Ok (Sync.UnsubscribeAll (Sync.nextId h)), h1) /\
    stillIn (Sync.optKey o)
      (Sync.mkSubscriber mainId (Sync.optCallback o) (Sync.optOnError o)) h1 /\
    untilHolds (Sync.nextId h) (Sync.nextId h) (Sync.optKey o) mainId (stopConditions o) h1 /\
    Sync.onceCells h1 = Sync.onceCells h.
Proof.
  intros Hwf Hk Hcb Hs.
  assert (falsy (Sync.optKey o) = false) as Fk
    by (destruct (Sync.optKey o); [congruence|reflexivity]).
  unfold Sync.on. rewrite Fk, (replaysQuietly_function _ _ Hcb). cbn [negb].
  fold (stopConditions o). rewrite Hs. cbn [Sync.fresh].
  set (hA := Sync.withRegistrations _ _).
  pose proof (building_all h (stopConditions o) [] hA (building_start h Hwf)) as B.
  cbn [app] in B.
  set (h2 := fold_left _ _ hA) in *.
  assert (replaysQuietly (Sync.optCallback o) h2) as Hcb2
    by (revert Hcb; apply replaysQuietly_same; apply (bd_cells _ _ _ B)).
  destruct (replay_quiet behaviour o h2 Hcb2) as (N3 & R3 & C3 & G3 & Y3 & S3 & E3).
  set (h3 := Sync.replay behaviour o h2) in *.
  assert (building h (stopConditions o) h3) as B3 by (eapply building_same; eauto).
  destruct (internalSubscribe_spec (Sync.optKey o) (Sync.optCallback o)
              (Sync.optDestroyRef o) (Sync.optOnError o) false h3)
    as (F & N & R & C & G & E & Y & _ & Hnew & Hold & Hinv).
  destruct (Sync.internalSubscribe (Sync.optKey o) (Sync.optCallback o)
              (Sync.optDestroyRef o) (Sync.optOnError o) false h3) as [main h4].
  cbn [fst snd] in *. subst main.
  exists (Sync.nextId h3). eexists. split; [reflexivity|].
  destruct (bd_reg _ _ _ B3) as (r & L & M).
  unfold Sync.setMainSubscription. rewrite R, L.
  set (h5 := Sync.withRegistrations _ h4).
  assert (forall q s, stillIn q s h4 -> stillIn q s h5) as Keep by (intros q s K; exact K).
  split; [apply Keep, Hnew|].
  split; [|subst h5; simpl; rewrite C; apply (bd_cells _ _ _ B3)].
  constructor.
  - intros q set s Eq Hin.
    destruct (Hinv q s (ex_intro _ set (conj Eq Hin))) as [(set0 & E0 & H0)|[_ ->]].
    + eapply (bd_tame _ _ _ B3); eassumption.
    + simpl. eapply replaysQuietly_tame. exact Hcb.
  - constructor.
    + eexists. split; [apply lookup_store_same|reflexivity].
    + intros r' y Hne Ly. subst h5. simpl in Ly. rewrite lookup_store_other in Ly by exact Hne.
      apply (bd_foreign _ _ _ B3) in Ly; [|exact Hne].
      apply lookup_In in Ly. now apply (wf_registrations h Hwf r' y Ly).
    + intros c t Hc. unfold Sync.getOnceCell in Hc. subst h5. simpl in Hc.
      rewrite C, (bd_cells _ _ _ B3) in Hc.
      destruct (Sync.lookup c (Sync.onceCells h)) as [cell|] eqn:Lc; [|discriminate].
      subst cell. apply lookup_In in Lc. exact (wf_onceCells h Hwf c t Lc).
  - destruct (bd_effects _ _ _ B3) as [Hnd Hok]. subst h5. split; simpl; rewrite E; auto.
  - intros c Hc. destruct (bd_stops _ _ _ B3 c Hc) as (id & Hid & St).
    exists id. split; [exact Hid|]. right. apply Keep, Hold, St.
  - intros sg Hsg. destruct (bd_signals_done _ _ _ B3 sg Hsg) as (e & He & Hin).
    exists e. split; [exact He|]. right. subst h5. simpl. now rewrite E.
Qed.

(** What may happen to a hub once a registration is made, short of further
    registrations: publishes, writes to signals, turns of the effects. *)
Inductive Activity : Type :=
| Publishes (k : string) (d : value)
| SignalSet (s : nat) (b : bool)
| EffectsFlushed.

Section History.
Variable behaviour : nat -> HubEvent -> Outcome.
Variable combineBehaviour : nat -> list HubEvent -> Outcome.
Variable localeCompare : string -> string -> Z.

Definition perform (x : Sync.Hub) (a : Activity) : Sync.Hub :=
  match a with
  | Publishes k d => snd (Sync.publish behaviour k d x)
  | SignalSet s b => Sync.setSignal s b x
  | EffectsFlushed => Sync.flushEffects combineBehaviour localeCompare x
  end.

Definition after (history : list Activity) (h : Sync.Hub) : Sync.Hub :=
  fold_left perform history h.

Lemma after_untilHolds base reg mainKey mainId conds history : forall h,
  untilHolds base reg mainKey mainId conds h ->
  untilHolds base reg mainKey mainId conds (after history h).
Proof.
  induction history as [|a history IH]; intros h U; [exact U|].
  apply IH. destruct a as [k d|s b|]; simpl.
  - now apply publish_untilHolds.
  - now apply setSignal_untilHolds.
  - now apply flushPending_untilHolds.
Qed.

End History.

(** ** [onCombineLatest]: what the fan-out of a publish leaves alone *)

(** The arrays effect [e] has passed to its callback, oldest first. *)
Definition combineCalls (e : nat) (log : list Sync.LogItem) : list (list HubEvent) :=
  flat_map (fun item =>
              match item with
              | Sync.CombineCalled e' _ events => if Nat.eqb e' e then [events] else []
              | _ => []
              end) log.

Lemma combineCalls_app e a b : combineCalls e (a ++ b) = combineCalls e a ++ combineCalls e b.
Proof. apply flat_map_app. Qed.

Section Bystander.
Variable behaviour : nat -> HubEvent -> Outcome.
Variable e : nat.

(** A step that neither touches effect [e] nor calls its callback. *)
Record bystander (h h' : Sync.Hub) : Prop := mkBystander {
  by_effects : forall b,
    In (Sync.mkEffect e b) (Sync.effects h) -> In (Sync.mkEffect e b) (Sync.effects h');
  by_calls : combineCalls e (Sync.log h') = combineCalls e (Sync.log h)
}.

(** No registration and no [once] closure holds the [destroy] of [e]. *)
Definition sheltered (h : Sync.Hub) : Prop :=
  (forall reg r, Sync.lookup reg (Sync.registrations h) = Some r -> ~ destroys r e) /\
  (forall c t, Sync.getOnceCell c h <> Some (Sync.Single t)).

Lemma sheltered_same h h' :
  Sync.registrations h' = Sync.registrations h -> Sync.onceCells h' = Sync.onceCells h ->
  sheltered h -> sheltered h'.
Proof.
  intros R C [A B]. split; unfold Sync.getOnceCell in *; rewrite ?R, ?C; auto.
Qed.

Lemma sheltered_step h h' a sp : syncStep h h' a sp -> sheltered h -> sheltered h'.
Proof. intros S. apply sheltered_same; apply S. Qed.

Lemma bystander_refl h : bystander h h.
Proof. now constructor. Qed.

Lemma bystander_trans h1 h2 h3 : bystander h1 h2 -> bystander h2 h3 -> bystander h1 h3.
Proof.
  intros [A1 A2] [B1 B2]. constructor; [auto|congruence].
Qed.

Lemma bystander_same h h' :
  Sync.effects h' = Sync.effects h -> Sync.log h' = Sync.log h -> bystander h h'.
Proof. intros E L. constructor; rewrite ?E, ?L; auto. Qed.

Lemma bystander_log h item : combineCalls e [item] = [] -> bystander h (Sync.addLog item h).
Proof.
  intros Hc. constructor; simpl; [auto|].
  now rewrite combineCalls_app, Hc, app_nil_r.
Qed.

Lemma bystander_removeSubscriber q n h : bystander h (Sync.removeSubscriber q n h).
Proof.
  apply bystander_same; unfold Sync.removeSubscriber;
    destruct (mget q (Sync.subscribers h)) as [set|]; try reflexivity;
    destruct (filter _ set); reflexivity.
Qed.

Lemma bystander_teardown t h : t <> Sync.DestroyEffect e -> bystander h (Sync.runTeardown t h).
Proof.
  intros Hne. destruct t as [q n|x]; simpl; [apply bystander_removeSubscriber|].
  constructor; simpl; [|reflexivity].
  intros b Hin. apply filter_In. split; [exact Hin|]. simpl.
  apply Bool.negb_true_iff, Nat.eqb_neq. congruence.
Qed.

Lemma bystander_teardowns ts : forall h,
  (forall t, In t ts -> t <> Sync.DestroyEffect e) ->
  bystander h (fold_left (fun acc unsub => Sync.runTeardown unsub acc) ts h).
Proof.
  induction ts as [|t ts IH]; intros h Hts; simpl; [apply bystander_refl|].
  eapply bystander_trans; [apply bystander_teardown; apply Hts; now left|].
  apply IH. intros t' Ht'. apply Hts. now right.
Qed.

Lemma bystander_unsubscribeAll reg h : sheltered h -> bystander h (Sync.unsubscribeAll reg h).
Proof.
  intros [A _]. unfold Sync.unsubscribeAll.
  destruct (Sync.lookup reg (Sync.registrations h)) as [r|] eqn:L; [|apply bystander_refl].
  specialize (A reg r L).
  assert (bystander h (fold_left (fun acc unsub => Sync.runTeardown unsub acc)
                         (Sync.unsubscribers r) h)) as B.
  { apply bystander_teardowns. intros t Ht ->. apply A. now left. }
  destruct (Sync.mainSubscription r) as [main|] eqn:M; [|exact B].
  eapply bystander_trans; [exact B|]. apply bystander_teardown.
  intros ->. apply A. now right.
Qed.

Lemma bystander_handleError error ev handler q h :
  bystander h (Sync.handleError error ev handler q h).
Proof. unfold Sync.handleError. destruct handler; now apply bystander_log. Qed.

Lemma bystander_invoke cb : forall ev h,
  sheltered h -> bystander h (snd (Sync.invoke behaviour cb ev h)).
Proof.
  induction cb as [f| |c user IH onErr k|reg|q subscriber original IH]; intros ev h Hs; simpl.
  - now apply bystander_log.
  - apply bystander_refl.
  - set (h0 := Sync.addLog (Sync.Called (Sync.CbOnce c user onErr k) ev) h).
    assert (sheltered h0) as Hs0 by (revert Hs; now apply sheltered_same).
    set (h1 := match Sync.getOnceCell c h0 with
               | Some s => Sync.runSubscription s h0
               | None => h0
               end).
    assert (bystander h0 h1 /\ sheltered h1) as [B1 Hs1].
    { subst h1. destruct (Sync.getOnceCell c h0) as [s|] eqn:G.
      - split; [|eapply sheltered_step; [apply sync_runSubscription_step|exact Hs0]].
        destruct s as [|t|r]; simpl.
        + apply bystander_refl.
        + exfalso. exact (proj2 Hs0 c t G).
        + now apply bystander_unsubscribeAll.
      - split; [apply bystander_refl|exact Hs0]. }
    specialize (IH ev h1 Hs1).
    destruct (Sync.invoke behaviour user ev h1) as [out h2]. simpl in IH.
    assert (bystander h h2) as B2.
    { apply (bystander_trans h h0); [now apply bystander_log|].
      eapply bystander_trans; [exact B1|exact IH]. }
    destruct out; simpl; try exact B2.
    eapply bystander_trans; [exact B2|apply bystander_handleError].
  - eapply bystander_trans;
      [apply (bystander_log h (Sync.Called (Sync.CbUnsubscribeAll reg) ev)); reflexivity|].
    apply bystander_unsubscribeAll. revert Hs. now apply sheltered_same.
  - eapply bystander_trans;
      [apply (bystander_log h (Sync.Called (Sync.CbSelfRemoving q subscriber original) ev));
       reflexivity|].
    eapply bystander_trans; [apply bystander_removeSubscriber|].
    apply IH. eapply sheltered_step; [apply sync_removeSubscriber_step|].
    revert Hs. now apply sheltered_same.
Qed.

Lemma bystander_deliver q ev s h :
  sheltered h -> bystander h (Sync.deliver behaviour q ev s h).
Proof.
  intros Hs. unfold Sync.deliver.
  pose proof (bystander_invoke (Sync.callback s) ev h Hs) as B.
  destruct (Sync.invoke behaviour (Sync.callback s) ev h) as [out h1]. simpl in B.
  destruct out as [|error| |error]; try exact B.
  - eapply bystander_trans; [exact B|apply bystander_handleError].
  - eapply bystander_trans; [exact B|]. now apply bystander_same.
Qed.

Lemma bystander_notifySet ev q pending : forall h,
  sheltered h -> bystander h (Sync.notifySet behaviour ev q pending h).
Proof.
  induction pending as [|s pending IH]; intros h Hs; simpl; [apply bystander_refl|].
  fold (visit behaviour ev q s h).
  destruct (visit_step behaviour ev q s h) as (a & sp & S).
  eapply bystander_trans; [|apply IH; eapply sheltered_step; eassumption].
  unfold visit. destruct (Sync.isSubscribed q (Sync.sid s) h);
    [now apply bystander_deliver|apply bystander_refl].
Qed.

Lemma bystander_notifyQueries ev pending : forall h,
  sheltered h -> bystander h (Sync.notifyQueries behaviour ev pending h).
Proof.
  induction pending as [|q pending IH]; intros h Hs; simpl; [apply bystander_refl|].
  fold (visitQuery behaviour ev q h).
  destruct (visitQuery_step behaviour ev q h) as (a & sp & S).
  eapply bystander_trans; [|apply IH; eapply sheltered_step; eassumption].
  unfold visitQuery. destruct (mget q (Sync.subscribers h)) as [set|]; [|apply bystander_refl].
  destruct (Sync.matchQuery (key ev) q); [now apply bystander_notifySet|apply bystander_refl].
Qed.

Lemma bystander_publish k d h :
  sheltered h -> bystander h (snd (Sync.publish behaviour k d h)).
Proof.
  intros Hs. unfold Sync.publish. destruct (falsy k); [apply bystander_refl|].
  cbn [Sync.fresh fst snd]. unfold Sync.notifySubscribers.
  set (h1 := Sync.withRegistry _ _).
  eapply bystander_trans; [apply (bystander_same h h1); reflexivity|].
  apply bystander_notifyQueries. revert Hs. now apply sheltered_same.
Qed.

End Bystander.

(** ** [onCombineLatest]: a turn of the effects *)

Section CombineFlush.
Variable combineBehaviour : nat -> list HubEvent -> Outcome.
Variable localeCompare : string -> string -> Z.

(** The values of the source signals. *)
Definition latest (keys : list string) (h : Sync.Hub) : list (option HubEvent) :=
  map (fun k => mget k (Sync.eventRegistry h)) keys.

(** The array that [runCombine] passes to the callback, when it calls it. *)
Definition fires (o : Sync.HubCombineLatestOptions) (st : Sync.CombineState)
    (h : Sync.Hub) : option (list HubEvent) :=
  let current := latest (Sync.optKeys o) h in
  let previous := Sync.combinedValue localeCompare o (Sync.seenSources st) in
  let combined := Sync.combinedValue localeCompare o current in
  let combinedChanged :=
    negb (Sync.sameSources (Sync.seenSources st) current) &&
    negb (Sync.isNone previous && Sync.isNone combined) in
  let registryChanged :=
    match Sync.seenRegistry st with
    | Some v => negb (Nat.eqb v (Sync.registryVersion h))
    | None => false
    end in
  if Sync.hasRunOnce st && negb (combinedChanged || registryChanged) then None
  else
    match combined with
    | None => None
    | Some events =>
        if negb (Sync.optCombineReplayLatest o) &&
           Nat.eqb (List.length (Sync.eventRegistry h)) 0
        then None
        else Some events
    end.

Definition called (events : option (list HubEvent)) : list (list HubEvent) :=
  match events with
  | Some events => [events]
  | None => []
  end.

(** The memory of the effect after a turn taken in state [h]. *)
Definition settled (o : Sync.HubCombineLatestOptions) (st : Sync.CombineState)
    (h : Sync.Hub) : Prop :=
  Sync.hasRunOnce st = true /\
  Sync.seenSources st = latest (Sync.optKeys o) h /\
  (Sync.seenRegistry st = None \/ Sync.seenRegistry st = Some (Sync.registryVersion h)).

Lemma fires_same o st h h' :
  Sync.eventRegistry h' = Sync.eventRegistry h ->
  Sync.registryVersion h' = Sync.registryVersion h ->
  fires o st h' = fires o st h.
Proof. intros R V. unfold fires, latest. now rewrite R, V. Qed.

Lemma settled_same o st h h' :
  Sync.eventRegistry h' = Sync.eventRegistry h ->
  Sync.registryVersion h' = Sync.registryVersion h ->
  settled o st h -> settled o st h'.
Proof. intros R V. unfold settled, latest. now rewrite R, V. Qed.

Lemma runCombine_calls x o st h e :
  combineCalls e (Sync.log (Sync.runCombine combineBehaviour localeCompare x o st h)) =
  combineCalls e (Sync.log h) ++ (if Nat.eqb x e then called (fires o st h) else []).
Proof.
  unfold Sync.runCombine, fires, latest.
  match goal with
  | |- context [if ?c then _ else _] => destruct c
  end.
  - simpl. destruct (Nat.eqb x e); now rewrite app_nil_r.
  - destruct (Sync.combinedValue localeCompare o _) as [events|].
    + destruct (negb (Sync.optCombineReplayLatest o) &&
                Nat.eqb (List.length (Sync.eventRegistry h)) 0).
      * simpl. destruct (Nat.eqb x e); now rewrite app_nil_r.
      * assert (combineCalls e
                  (Sync.log h ++ [Sync.CombineCalled x (Sync.optCombineCallback o) events]) =
                combineCalls e (Sync.log h) ++
                (if Nat.eqb x e then called (Some events) else [])) as K.
        { rewrite combineCalls_app. simpl. destruct (Nat.eqb x e); reflexivity. }
        destruct (combineBehaviour (Sync.optCombineCallback o) events); try exact K.
        unfold Sync.reportCombineError.
        destruct (Sync.optCombineOnError o); simpl; simpl in K;
          rewrite combineCalls_app, K; simpl; now rewrite app_nil_r.
    + simpl. destruct (Nat.eqb x e); now rewrite app_nil_r.
Qed.

Lemma runCombine_memo x o st h :
  exists st',
    Sync.effects (Sync.runCombine combineBehaviour localeCompare x o st h) =
    Sync.effects (Sync.updateEffect x (Sync.CombineLatest o st') h) /\
    settled o st' h.
Proof.
  unfold Sync.runCombine, settled, latest.
  match goal with
  | |- context [if ?c then _ else _] => destruct c eqn:C
  end.
  - eexists. split; [reflexivity|]. simpl. repeat split.
    destruct (Sync.seenRegistry st) as [v|]; [|now left]. right.
    apply andb_prop in C as [_ C]. apply Bool.negb_true_iff in C.
    apply Bool.orb_false_elim in C as [_ C]. apply Bool.negb_false_iff in C.
    apply Nat.eqb_eq in C. now subst v.
  - destruct (Sync.combinedValue localeCompare o (map _ _)) as [events|].
    + destruct (negb (Sync.optCombineReplayLatest o) &&
                Nat.eqb (List.length (Sync.eventRegistry h)) 0).
      * eexists. split; [reflexivity|]. simpl. repeat split. now right.
      * exists (Sync.mkCombineState true
                  (map (fun k => mget k (Sync.eventRegistry h)) (Sync.optKeys o))
                  (if Sync.optCombineReplayLatest o then None
                   else Some (Sync.registryVersion h))).
        split.
        -- destruct (combineBehaviour (Sync.optCombineCallback o) events); try reflexivity.
           unfold Sync.reportCombineError. destruct (Sync.optCombineOnError o); reflexivity.
        -- simpl. repeat split. destruct (Sync.optCombineReplayLatest o); auto.
    + eexists. split; [reflexivity|]. simpl. repeat split. now left.
Qed.

Section OneEffect.
Variable e : nat.

(** Effects have distinct identities and nothing can destroy [e]. *)
Definition guarded (h : Sync.Hub) : Prop :=
  NoDup (map Sync.eid (Sync.effects h)) /\ sheltered e h.

Lemma runEffect_guarded eff h :
  guarded h -> guarded (Sync.runEffect combineBehaviour localeCompare eff h).
Proof.
  intros [Hnd Hs]. unfold Sync.runEffect. destruct (Sync.body eff) as [s r|o st].
  - destruct (Sync.readSignal s h); [|now split].
    pose proof (sync_unsubscribeAll_step r h) as S.
    split; [|eapply sheltered_step; eassumption].
    destruct (step_effects _ _ _ _ S) as [keep E]. rewrite E. now apply NoDup_eid_filter.
  - destruct (runCombine_shape combineBehaviour localeCompare (Sync.eid eff) o st h)
      as (st' & added & E & _ & _ & _ & R & C & _).
    cbv zeta in E, R, C. split.
    + now rewrite E, updateEffect_ids.
    + revert Hs. now apply sheltered_same.
Qed.

Lemma runEffect_bystander eff h :
  Sync.eid eff <> e -> guarded h ->
  bystander e h (Sync.runEffect combineBehaviour localeCompare eff h).
Proof.
  intros Hne [Hnd Hs]. unfold Sync.runEffect. destruct (Sync.body eff) as [s r|o st].
  - destruct (Sync.readSignal s h); [|apply bystander_refl].
    now apply bystander_unsubscribeAll.
  - constructor.
    + intros b Hin.
      destruct (runCombine_shape combineBehaviour localeCompare (Sync.eid eff) o st h)
        as (st' & added & E & _).
      cbv zeta in E. rewrite E. apply updateEffect_other; [|exact Hin]. simpl. congruence.
    + rewrite runCombine_calls.
      destruct (Nat.eqb_spec (Sync.eid eff) e); [congruence|]. apply app_nil_r.
Qed.

Lemma flushPending_app a : forall b h,
  Sync.flushPending combineBehaviour localeCompare (a ++ b) h =
  Sync.flushPending combineBehaviour localeCompare b
    (Sync.flushPending combineBehaviour localeCompare a h).
Proof. induction a as [|x a IH]; intros b h; simpl; [reflexivity|apply IH]. Qed.

Lemma flushPending_guarded pending : forall h,
  guarded h -> guarded (Sync.flushPending combineBehaviour localeCompare pending h).
Proof.
  induction pending as [|x pending IH]; intros h G; simpl; [exact G|].
  apply IH. destruct (Sync.findEffect x h); [now apply runEffect_guarded|exact G].
Qed.

Lemma flushPending_bystander pending : forall h,
  ~ In e pending -> guarded h ->
  bystander e h (Sync.flushPending combineBehaviour localeCompare pending h).
Proof.
  induction pending as [|x pending IH]; intros h Hn G; simpl; [apply bystander_refl|].
  assert (x <> e) as Hx by (intros ->; apply Hn; now left).
  assert (~ In e pending) as Hn' by (intros Hin; apply Hn; now right).
  destruct (Sync.findEffect x h) as [eff|] eqn:F; [|now apply IH].
  apply findEffect_In in F as [Hin Ex].
  apply (bystander_trans e h (Sync.runEffect combineBehaviour localeCompare eff h)).
  - apply runEffect_bystander; [congruence|exact G].
  - apply IH; [exact Hn'|now apply runEffect_guarded].
Qed.

Lemma updateEffect_self x b h eff :
  In eff (Sync.effects h) -> Sync.eid eff = x ->
  In (Sync.mkEffect x b) (Sync.effects (Sync.updateEffect x b h)).
Proof.
  intros Hin Ex. simpl. apply in_map_iff. exists eff. split; [|exact Hin].
  now rewrite Ex, Nat.eqb_refl.
Qed.

(** A turn of the effects, seen from effect [e]: it runs once, in a state
    with the registry of the start. *)
Lemma flushPending_turn pending o st h :
  NoDup pending -> In e pending -> guarded h ->
  In (Sync.mkEffect e (Sync.CombineLatest o st)) (Sync.effects h) ->
  let h' := Sync.flushPending combineBehaviour localeCompare pending h in
  (exists st', In (Sync.mkEffect e (Sync.CombineLatest o st')) (Sync.effects h') /\
               settled o st' h') /\
  combineCalls e (Sync.log h') = combineCalls e (Sync.log h) ++ called (fires o st h).
Proof.
  intros Hnd Hin G He h'. subst h'.
  apply in_split in Hin as (pre & post & ->).
  apply NoDup_remove_2 in Hnd.
  assert (~ In e pre) as Hpre by (intros X; apply Hnd, in_or_app; now left).
  assert (~ In e post) as Hpost by (intros X; apply Hnd, in_or_app; now right).
  rewrite flushPending_app. simpl.
  set (ha := Sync.flushPending combineBehaviour localeCompare pre h).
  pose proof (flushPending_bystander pre h Hpre G) as [Ba La]. fold ha in Ba, La.
  pose proof (flushPending_guarded pre h G) as Ga. fold ha in Ga.
  pose proof (flushPending_quiet combineBehaviour localeCompare pre h)
    as (_ & _ & _ & Ya & Va & _). fold ha in Ya, Va.
  specialize (Ba _ He).
  pose proof (findEffect_unique ha _ (proj1 Ga) Ba) as F. simpl in F. rewrite F.
  unfold Sync.runEffect. cbn [Sync.body Sync.eid].
  set (hb := Sync.runCombine combineBehaviour localeCompare e o st ha).
  assert (guarded hb) as Gb.
  { pose proof (runEffect_guarded (Sync.mkEffect e (Sync.CombineLatest o st)) ha Ga) as X.
    exact X. }
  destruct (runCombine_memo e o st ha) as (st' & Eb & Sb). fold hb in Eb.
  assert (In (Sync.mkEffect e (Sync.CombineLatest o st')) (Sync.effects hb)) as Hb.
  { rewrite Eb. eapply updateEffect_self; [exact Ba|reflexivity]. }
  pose proof (runCombine_calls e o st ha e) as Lb. fold hb in Lb.
  rewrite Nat.eqb_refl, La, (fires_same o st h ha Ya Va) in Lb.
  destruct (runCombine_shape combineBehaviour localeCompare e o st ha)
    as (? & ? & _ & _ & _ & _ & _ & _ & _ & Yb & Vb & _).
  cbv zeta in Yb, Vb. fold hb in Yb, Vb.
  pose proof (flushPending_bystander post hb Hpost Gb) as [Bc Lc].
  pose proof (flushPending_quiet combineBehaviour localeCompare post hb)
    as (_ & _ & _ & Yc & Vc & _).
  split.
  - exists st'. split; [now apply Bc|].
    apply (settled_same o st' ha); [congruence|congruence|exact Sb].
  - now rewrite Lc, Lb.
Qed.

End OneEffect.
End CombineFlush.

(** ** [onCombineLatest]: when the callback is called *)

Lemma filterNonNull_length {A} (l : list (option A)) :
  List.length (Sync.filterNonNull l) <= List.length l.
Proof.
  induction l as [|[a|] l IH]; simpl; lia.
Qed.

Lemma filterNonNull_missing {A} (l : list (option A)) :
  In None l -> List.length (Sync.filterNonNull l) < List.length l.
Proof.
  induction l as [|[a|] l IH]; simpl; intros Hin.
  - destruct Hin.
  - destruct Hin as [Hin|Hin]; [discriminate|]. specialize (IH Hin). lia.
  - pose proof (filterNonNull_length l). lia.
Qed.

Lemma filterNonNull_full {A} (l : list (option A)) :
  ~ In None l -> List.length (Sync.filterNonNull l) = List.length l.
Proof.
  induction l as [|[a|] l IH]; simpl; intros Hn.
  - reflexivity.
  - f_equal. apply IH. intros Hin. apply Hn. now right.
  - exfalso. apply Hn. now left.
Qed.

Lemma sameSources_differs (r1 r2 : jsmap HubEvent) k ev keys :
  In k keys -> mget k r2 = Some ev ->
  (forall old, mget k r1 = Some old -> oid old <> oid ev) ->
  Sync.sameSources (map (fun k => mget k r1) keys) (map (fun k => mget k r2) keys) = false.
Proof.
  intros Hin E2 Hfresh. induction keys as [|k0 keys IH]; [destruct Hin|].
  simpl. destruct Hin as [->|Hin].
  - rewrite E2. destruct (mget k r1) as [old|] eqn:E1; [|reflexivity].
    simpl. unfold sameEvent.
    destruct (Nat.eqb_spec (oid old) (oid ev)) as [E|E]; [|reflexivity].
    exfalso. exact (Hfresh old eq_refl E).
  - rewrite (IH Hin). apply Bool.andb_false_r.
Qed.

Section Fires.
Variable localeCompare : string -> string -> Z.

Lemma fires_missing o st h :
  In None (latest (Sync.optKeys o) h) -> fires localeCompare o st h = None.
Proof.
  intros Hin. unfold fires.
  assert (Sync.combinedValue localeCompare o (latest (Sync.optKeys o) h) = None) as C.
  { unfold Sync.combinedValue.
    pose proof (filterNonNull_missing _ Hin) as Hlt.
    unfold latest in Hlt at 2. rewrite length_map in Hlt.
    destruct (Nat.eqb_spec (List.length (Sync.filterNonNull (latest (Sync.optKeys o) h)))
                           (List.length (Sync.optKeys o))); [lia|reflexivity]. }
  rewrite C. now destruct (_ && _).
Qed.

Lemma fires_updated o st h1 h2 k ev :
  settled o st h1 -> In k (Sync.optKeys o) ->
  mget k (Sync.eventRegistry h2) = Some ev ->
  (forall old, mget k (Sync.eventRegistry h1) = Some old -> oid old <> oid ev) ->
  ~ In None (latest (Sync.optKeys o) h2) ->
  fires localeCompare o st h2 =
  Some (Sync.sortEvents localeCompare (Sync.optSortBy o)
          (Sync.filterNonNull (latest (Sync.optKeys o) h2))).
Proof.
  intros (Hrun & Hseen & _) Hin E2 Hfresh Hfull. unfold fires.
  assert (Sync.combinedValue localeCompare o (latest (Sync.optKeys o) h2) =
          Some (Sync.sortEvents localeCompare (Sync.optSortBy o)
                  (Sync.filterNonNull (latest (Sync.optKeys o) h2)))) as C.
  { unfold Sync.combinedValue. rewrite (filterNonNull_full _ Hfull).
    unfold latest. now rewrite length_map, Nat.eqb_refl. }
  rewrite C, Hrun, Hseen.
  unfold latest at 1 2.
  rewrite (sameSources_differs _ _ k ev (Sync.optKeys o) Hin E2 Hfresh).
  cbn [negb Sync.isNone andb orb]. rewrite Bool.andb_false_r. cbn [negb andb orb].
  destruct (Sync.eventRegistry h2) as [|entry rest]; [discriminate|].
  cbn [List.length Nat.eqb]. now rewrite Bool.andb_false_r.
Qed.

End Fires.

Lemma wellFormed_guarded h e o st :
  wellFormed h -> In (Sync.mkEffect e (Sync.CombineLatest o st)) (Sync.effects h) ->
  guarded e h.
Proof.
  intros Hwf Hin. split; [apply (wf_effect_ids h Hwf)|]. split.
  - intros reg r L D. apply lookup_In in L.
    destruct (wf_owned h Hwf reg r e _ L D Hin eq_refl) as (s & g & B). discriminate.
  - intros c t G. unfold Sync.getOnceCell in G.
    destruct (Sync.lookup c (Sync.onceCells h)) as [cell|] eqn:L; [|discriminate].
    subst cell. apply lookup_In in L. exact (wf_onceCells h Hwf c t L).
Qed.

Lemma publish_registry behaviour k d h :
  k <> EmptyString ->
  let h' := snd (Sync.publish behaviour k d h) in
  Sync.eventRegistry h' =
  mset k (mkEvent (Sync.nextId h) k d (Sync.now h)) (Sync.eventRegistry h) /\
  Sync.nextId h' = S (Sync.nextId h).
Proof.
  intros Hk h'. subst h'.
  assert (falsy k = false) as Fk by (destruct k; [congruence|reflexivity]).
  unfold Sync.publish. rewrite Fk. cbn [Sync.fresh fst snd]. unfold Sync.notifySubscribers.
  set (h1 := Sync.withRegistry _ _). set (ev := mkEvent _ _ _ _).
  destruct (sync_notifyQueries_step behaviour ev (mkeys (Sync.subscribers h1)) h1)
    as (a & sp & S & _).
  split; [now rewrite (step_registry _ _ _ _ S)|now rewrite (step_nextId _ _ _ _ S)].
Qed.

Lemma publish_guarded behaviour e k d h :
  guarded e h -> guarded e (snd (Sync.publish behaviour k d h)).
Proof.
  intros [Hnd Hs]. unfold Sync.publish. destruct (falsy k); [now split|].
  cbn [Sync.fresh fst snd]. unfold Sync.notifySubscribers.
  set (h1 := Sync.withRegistry _ _). set (ev := mkEvent _ _ _ _).
  destruct (sync_notifyQueries_step behaviour ev (mkeys (Sync.subscribers h1)) h1)
    as (a & sp & S & _).
  split.
  - destruct (step_effects _ _ _ _ S) as [keep E]. rewrite E. now apply NoDup_eid_filter.
  - eapply sheltered_step; [exact S|]. revert Hs. now apply sheltered_same.
Qed.

(** What [onCombineLatest] has set up, and what later activity keeps:
    the effect [e] of the call is alive and nothing can destroy it but
    its own handle, and every event of the registry is older than the
    next one. *)
Record combining (e : nat) (o : Sync.HubCombineLatestOptions) (x : Sync.Hub) : Prop :=
  mkCombining {
    cb_guarded : guarded e x;
    cb_effect : exists st, In (Sync.mkEffect e (Sync.CombineLatest o st)) (Sync.effects x);
    cb_registry : forall k ev,
      mget k (Sync.eventRegistry x) = Some ev -> oid ev < Sync.nextId x
  }.

Lemma onCombineLatest_combining o h :
  wellFormed h -> Sync.optKeys o <> [] -> Sync.firstToSignalError (Sync.optKeys o) = None ->
  fst (Sync.onCombineLatest o h) = Ok (Sync.Single (Sync.DestroyEffect (Sync.nextId h))) /\
  combining (Sync.nextId h) o (snd (Sync.onCombineLatest o h)) /\
  Sync.log (snd (Sync.onCombineLatest o h)) = Sync.log h /\
  Sync.eventRegistry (snd (Sync.onCombineLatest o h)) = Sync.eventRegistry h.
Proof.
  intros Hwf Hkeys Herr. unfold Sync.onCombineLatest.
  destruct (Sync.optKeys o) as [|k0 keys] eqn:K; [congruence|]. rewrite Herr.
  cbn [Sync.fresh].
  set (eff := Sync.mkEffect (Sync.nextId h) _).
  set (h1 := Sync.withEffects _ _).
  assert (combining (Sync.nextId h) o h1) as C.
  { constructor.
    - split; [|split].
      + simpl. rewrite map_app. simpl.
        apply NoDup_app; [apply (wf_effect_ids h Hwf)|repeat constructor; intros []|].
        intros n Hn [<-|[]]. apply in_map_iff in Hn as (x & Ex & Hx).
        destruct (wf_effects h Hwf x Hx) as [Hlt _]. lia.
      + intros reg r L D. simpl in L. apply lookup_In in L.
        destruct (wf_registrations h Hwf reg r L) as [_ [A B]].
        destruct D as [D|D]; [specialize (A _ D)|specialize (B _ D)]; simpl in *; lia.
      + intros c t G. unfold Sync.getOnceCell in G. simpl in G.
        destruct (Sync.lookup c (Sync.onceCells h)) as [cell|] eqn:L; [|discriminate].
        subst cell. apply lookup_In in L. exact (wf_onceCells h Hwf c t L).
    - eexists. simpl. apply in_or_app. right. left. reflexivity.
    - intros k ev E. simpl in E. apply mget_In in E.
      pose proof (wf_registry h Hwf k ev E). simpl. lia. }
  destruct (Sync.optCombineDestroyRef o) as [d|]; simpl; repeat split; try apply C;
    reflexivity.
Qed.

Section CombineHistory.
Variable behaviour : nat -> HubEvent -> Outcome.
Variable combineBehaviour : nat -> list HubEvent -> Outcome.
Variable localeCompare : string -> string -> Z.
Variable e : nat.
Variable o : Sync.HubCombineLatestOptions.

Lemma combining_pending x :
  combining e o x -> In e (map Sync.eid (Sync.effects x)).
Proof.
  intros [_ (st & Hin) _]. apply in_map_iff. eexists. split; [|exact Hin]. reflexivity.
Qed.

Lemma combining_publish k d x :
  combining e o x -> combining e o (snd (Sync.publish behaviour k d x)).
Proof.
  intros C. destruct (string_dec k EmptyString) as [->|Hk]; [exact C|].
  destruct C as [G (st & Hin) R].
  destruct (publish_registry behaviour k d x Hk) as (Y & N).
  constructor.
  - now apply publish_guarded.
  - exists st. now apply (by_effects _ _ _ (bystander_publish behaviour e k d x (proj2 G))).
  - intros k' ev E. rewrite Y in E. rewrite N.
    destruct (String.eqb_spec k' k) as [->|Hne].
    + rewrite mget_mset_same in E. inversion E; subst ev. simpl. lia.
    + rewrite mget_mset_other in E by exact Hne. specialize (R k' ev E). lia.
Qed.

Lemma combining_flush x :
  combining e o x ->
  combining e o (Sync.flushEffects combineBehaviour localeCompare x).
Proof.
  intros C. pose proof (combining_pending x C) as Hp.
  destruct C as [G (st & Hin) R]. unfold Sync.flushEffects.
  destruct (flushPending_turn combineBehaviour localeCompare e
              (map Sync.eid (Sync.effects x)) o st x (proj1 G) Hp G Hin)
    as ((st' & Hin' & _) & _).
  destruct (flushPending_quiet combineBehaviour localeCompare
              (map Sync.eid (Sync.effects x)) x) as (_ & _ & _ & Y & _ & N & _).
  constructor.
  - now apply flushPending_guarded.
  - exists st'. exact Hin'.
  - intros k ev E. rewrite Y in E. rewrite N. exact (R k ev E).
Qed.

Lemma combining_after history : forall x,
  combining e o x ->
  combining e o (after behaviour combineBehaviour localeCompare history x).
Proof.
  induction history as [|a history IH]; intros x C; [exact C|].
  apply IH. destruct a as [k d|s b|]; simpl.
  - now apply combining_publish.
  - destruct C as [G Hin R]. constructor; assumption.
  - now apply combining_flush.
Qed.

(** A turn of the effects: effect [e] calls its callback at most once,
    with the array [fires] tells, and its memory is that of the turn. *)
Lemma combining_turn x st :
  combining e o x -> In (Sync.mkEffect e (Sync.CombineLatest o st)) (Sync.effects x) ->
  let x' := Sync.flushEffects combineBehaviour localeCompare x in
  (exists st', In (Sync.mkEffect e (Sync.CombineLatest o st')) (Sync.effects x') /\
               settled o st' x) /\
  combineCalls e (Sync.log x') = combineCalls e (Sync.log x) ++ called (fires localeCompare o st x).
Proof.
  intros C Hin x'. subst x'. pose proof (combining_pending x C) as Hp.
  destruct C as [G _ R]. unfold Sync.flushEffects.
  destruct (flushPending_turn combineBehaviour localeCompare e
              (map Sync.eid (Sync.effects x)) o st x (proj1 G) Hp G Hin)
    as ((st' & Hin' & S') & L).
  destruct (flushPending_quiet combineBehaviour localeCompare
              (map Sync.eid (Sync.effects x)) x) as (_ & _ & _ & Y & V & _).
  split; [|exact L]. exists st'. split; [exact Hin'|].
  revert S'. apply settled_same; congruence.
Qed.

End CombineHistory.

(** ** Publishes between two turns of the effects *)

Section Between.
Variable behaviour : nat -> HubEvent -> Outcome.
Variable combineBehaviour : nat -> list HubEvent -> Outcome.
Variable localeCompare : string -> string -> Z.

Lemma perform_registry_other a k h :
  (forall d, a <> Publishes k d) ->
  mget k (Sync.eventRegistry (perform behaviour combineBehaviour localeCompare h a))
  = mget k (Sync.eventRegistry h).
Proof.
  intros Hne. destruct a as [k' d|s b|]; simpl.
  - destruct (string_dec k' EmptyString) as [->|Hk']; [reflexivity|].
    destruct (publish_registry behaviour k' d h Hk') as [Y _]. rewrite Y.
    apply mget_mset_other. intros ->. now apply (Hne d).
  - reflexivity.
  - destruct (flushPending_quiet combineBehaviour localeCompare
                (map Sync.eid (Sync.effects h)) h) as (_ & _ & _ & Y & _).
    unfold Sync.flushEffects. now rewrite Y.
Qed.

Lemma after_registry_other history k : forall h,
  (forall d, ~ In (Publishes k d) history) ->
  mget k (Sync.eventRegistry (after behaviour combineBehaviour localeCompare history h))
  = mget k (Sync.eventRegistry h).
Proof.
  induction history as [|a history IH]; intros h Hno; [reflexivity|].
  simpl. rewrite IH.
  - apply perform_registry_other. intros d ->. apply (Hno d). now left.
  - intros d Hin. apply (Hno d). now right.
Qed.

Lemma perform_nextId a h :
  Sync.nextId h <= Sync.nextId (perform behaviour combineBehaviour localeCompare h a).
Proof.
  destruct a as [k d|s b|]; simpl.
  - destruct (string_dec k EmptyString) as [->|Hk]; [apply Nat.le_refl|].
    destruct (publish_registry behaviour k d h Hk) as [_ N]. rewrite N. lia.
  - apply Nat.le_refl.
  - destruct (flushPending_quiet combineBehaviour localeCompare
                (map Sync.eid (Sync.effects h)) h) as (_ & _ & _ & _ & _ & N & _).
    unfold Sync.flushEffects. rewrite N. lia.
Qed.

Lemma after_nextId history : forall h,
  Sync.nextId h <= Sync.nextId (after behaviour combineBehaviour localeCompare history h).
Proof.
  induction history as [|a history IH]; intros h; [apply Nat.le_refl|].
  eapply Nat.le_trans; [apply (perform_nextId a h)|].
  apply (IH (perform behaviour combineBehaviour localeCompare h a)).
Qed.

(** The latest event of a key is the one of the last publish to it. *)
Lemma after_last_publish pre k d post h :
  k <> EmptyString -> (forall d', ~ In (Publishes k d') post) ->
  let y := after behaviour combineBehaviour localeCompare pre h in
  mget k (Sync.eventRegistry
            (after behaviour combineBehaviour localeCompare (pre ++ Publishes k d :: post) h))
  = Some (mkEvent (Sync.nextId y) k d (Sync.now y)).
Proof.
  intros Hk Hno y. unfold after. rewrite fold_left_app. simpl.
  fold (after behaviour combineBehaviour localeCompare pre h). fold y.
  fold (after behaviour combineBehaviour localeCompare post
          (snd (Sync.publish behaviour k d y))).
  rewrite after_registry_other by exact Hno.
  destruct (publish_registry behaviour k d y Hk) as [Y _]. rewrite Y.
  apply mget_mset_same.
Qed.

Definition publishesTo (k : string) (a : Activity) : bool :=
  match a with
  | Publishes k' _ => String.eqb k' k
  | _ => false
  end.

Lemma publishesTo_none k l :
  existsb (publishesTo k) l = false -> forall d, ~ In (Publishes k d) l.
Proof.
  intros E d Hin.
  assert (existsb (publishesTo k) l = true) as T.
  { apply existsb_exists. exists (Publishes k d). split; [exact Hin|]. simpl.
    apply String.eqb_refl. }
  congruence.
Qed.

Lemma last_publish_split k l :
  (exists d, In (Publishes k d) l) ->
  exists pre d post, l = pre ++ Publishes k d :: post /\ forall d', ~ In (Publishes k d') post.
Proof.
  induction l as [|a l IH]; intros (d & Hin); [destruct Hin|].
  destruct (existsb (publishesTo k) l) eqn:E.
  - apply existsb_exists in E as (a' & Ha' & P).
    destruct a' as [k' d'|s b|]; simpl in P; try discriminate.
    apply String.eqb_eq in P. subst k'.
    destruct IH as (pre & d0 & post & -> & Hno); [eauto|].
    exists (a :: pre), d0, post. split; [reflexivity|exact Hno].
  - destruct Hin as [->|Hin]; [|exfalso; exact (publishesTo_none k l E d Hin)].
    exists [], d, l. split; [reflexivity|now apply publishesTo_none].
Qed.

Variable e : nat.
Variable o : Sync.HubCombineLatestOptions.

(** Publishes and signal writes leave effect [e] as it is and do not call
    its callback. *)
Lemma bystander_between between : forall h,
  ~ In EffectsFlushed between -> combining e o h ->
  bystander e h (after behaviour combineBehaviour localeCompare between h).
Proof.
  induction between as [|a between IH]; intros h Hno C; [apply bystander_refl|].
  simpl. eapply bystander_trans; [|apply IH].
  - destruct a as [k d|s b|]; simpl.
    + apply bystander_publish. exact (proj2 (cb_guarded _ _ _ C)).
    + now apply bystander_same.
    + exfalso. apply Hno. now left.
  - intros Hin. apply Hno. now right.
  - destruct a as [k d|s b|]; simpl.
    + now apply combining_publish.
    + destruct C as [G Hin R]. constructor; assumption.
    + exfalso. apply Hno. now left.
Qed.

End Between.

(** C6.  [onCombineLatest] on two valid keys [kx], [ky] creates an effect
    [e].  From then on, whatever publishes, signal writes and turns of
    the effects have happened: a turn of the effects taken while one of
    the keys has no latest event does not call the callback.  And after
    a turn of the effects, whatever publishes and signal writes come
    before the next turn: they do not call the callback; the latest
    event of a key is then the one of the last publish to it, or the one
    it was when nothing was published to it; and the next turn calls the
    callback exactly once, with the latest events of both keys, ordered
    as [sortBy] asks, when [kx] or [ky] was published to and both keys
    have an event, and not at all when one of them still has none. *)
Theorem combineLatest_calls_once_per_turn
    behaviour combineBehaviour localeCompare o kx ky h :
  wellFormed h -> Sync.optKeys o = [kx; ky] ->
  Sync.firstToSignalError [kx; ky] = None ->
  let e := Sync.nextId h in
  let h0 := snd (Sync.onCombineLatest o h) in
  fst (Sync.onCombineLatest o h) = Ok (Sync.Single (Sync.DestroyEffect e)) /\
  forall history,
    let x := after behaviour combineBehaviour localeCompare history h0 in
    let h1 := Sync.flushEffects combineBehaviour localeCompare x in
    ((mget kx (Sync.eventRegistry x) = None \/ mget ky (Sync.eventRegistry x) = None) ->
     combineCalls e (Sync.log h1) = combineCalls e (Sync.log x)) /\
    forall between, ~ In EffectsFlushed between ->
      let h2 := after behaviour combineBehaviour localeCompare between h1 in
      let h3 := Sync.flushEffects combineBehaviour localeCompare h2 in
      combineCalls e (Sync.log h2) = combineCalls e (Sync.log h1) /\
      (forall pre k d post,
         between = pre ++ Publishes k d :: post -> k <> EmptyString ->
         (forall d', ~ In (Publishes k d') post) ->
         let y := after behaviour combineBehaviour localeCompare pre h1 in
         mget k (Sync.eventRegistry h2) = Some (mkEvent (Sync.nextId y) k d (Sync.now y))) /\
      (forall k, (forall d, ~ In (Publishes k d) between) ->
         mget k (Sync.eventRegistry h2) = mget k (Sync.eventRegistry x)) /\
      ((exists d, In (Publishes kx d) between) \/ (exists d, In (Publishes ky d) between) ->
       forall ex ey,
         mget kx (Sync.eventRegistry h2) = Some ex ->
         mget ky (Sync.eventRegistry h2) = Some ey ->
         combineCalls e (Sync.log h3) =
         combineCalls e (Sync.log h1) ++
         [Sync.sortEvents localeCompare (Sync.optSortBy o) [ex; ey]]) /\
      ((mget kx (Sync.eventRegistry h2) = None \/ mget ky (Sync.eventRegistry h2) = None) ->
       combineCalls e (Sync.log h3) = combineCalls e (Sync.log h1)).
Proof.
  intros Hwf Hkeys Herr e h0.
  assert (kx <> EmptyString /\ ky <> EmptyString) as [Hx Hy].
  { split; intros ->; simpl in Herr; [discriminate|].
    destruct (Sync.toSignal kx); discriminate. }
  destruct (onCombineLatest_combining o h Hwf) as (Hok & C0 & _).
  { rewrite Hkeys. discriminate. }
  { now rewrite Hkeys. }
  split; [exact Hok|]. intros history x h1.
  pose proof (combining_after behaviour combineBehaviour localeCompare e o history h0 C0) as C.
  fold x in C.
  destruct (cb_effect _ _ _ C) as (st & Hin).
  destruct (combining_turn combineBehaviour localeCompare e o x st C Hin)
    as ((st1 & Hin1 & S1) & L1).
  fold h1 in Hin1, L1.
  destruct (flushPending_quiet combineBehaviour localeCompare
              (map Sync.eid (Sync.effects x)) x) as (_ & _ & _ & Y1 & V1 & _).
  fold (Sync.flushEffects combineBehaviour localeCompare x) in Y1, V1. fold h1 in Y1, V1.
  split.
  - intros Hmiss. rewrite L1, fires_missing; [apply app_nil_r|].
    unfold latest. rewrite Hkeys. simpl. destruct Hmiss as [-> | ->]; auto.
  - intros between Hno h2 h3.
    pose proof (combining_flush combineBehaviour localeCompare e o x C) as C1. fold h1 in C1.
    pose proof (combining_after behaviour combineBehaviour localeCompare e o between h1 C1)
      as C2.
    fold h2 in C2.
    pose proof (bystander_between behaviour combineBehaviour localeCompare e o
                  between h1 Hno C1) as [B2 L2].
    fold h2 in B2, L2.
    destruct (combining_turn combineBehaviour localeCompare e o h2 st1 C2 (B2 _ Hin1))
      as (_ & L3).
    fold h3 in L3.
    refine (conj L2 (conj _ (conj _ (conj _ _)))).
    + intros pre k d post -> Hk Hpost y.
      now apply after_last_publish.
    + intros k Hk. subst h2. rewrite after_registry_other by exact Hk. now rewrite Y1.
    + intros Hpub ex ey Ex Ey. rewrite L3, L2. f_equal.
      assert (exists k ev, In k (Sync.optKeys o) /\
                mget k (Sync.eventRegistry h2) = Some ev /\ Sync.nextId h1 <= oid ev)
        as (k & ev & Hk & Ek & Hnew).
      { assert (forall k, k <> EmptyString -> (exists d, In (Publishes k d) between) ->
                  exists ev, mget k (Sync.eventRegistry h2) = Some ev /\
                             Sync.nextId h1 <= oid ev) as New.
        { intros k Hk Hd.
          destruct (last_publish_split k between Hd) as (pre & d & post & E & Hpost).
          eexists. split.
          - subst h2. rewrite E. now apply after_last_publish.
          - simpl. apply after_nextId. }
        rewrite Hkeys. destruct Hpub as [Hd|Hd].
        - destruct (New kx Hx Hd) as (ev & Ek & Hn). exists kx, ev. simpl. auto.
        - destruct (New ky Hy Hd) as (ev & Ek & Hn). exists ky, ev. simpl. auto. }
      rewrite (fires_updated localeCompare o st1 h1 h2 k ev).
      * unfold latest. rewrite Hkeys. simpl. now rewrite Ex, Ey.
      * revert S1. now apply settled_same.
      * exact Hk.
      * exact Ek.
      * intros old Eold. pose proof (cb_registry _ _ _ C1 k old Eold). lia.
      * unfold latest. rewrite Hkeys. simpl. rewrite Ex, Ey.
        intros [X|[X|[]]]; discriminate.
    + intros Hmiss. rewrite L3, L2, fires_missing; [apply app_nil_r|].
      unfold latest. rewrite Hkeys. simpl. destruct Hmiss as [-> | ->]; auto.
Qed.

(** [onCombineLatest] on [["x"; "y"]] with a callback [5]. *)
Definition combineXY : Sync.HubCombineLatestOptions :=
  Sync.mkCombineOptions ["x"; "y"] 5 None false None Sync.Unsorted.

Lemma combineLatest_calls_once_per_turn_witness :
  combineCalls 0
    (Sync.log
       (Sync.flushEffects (fun _ _ => Returned) byLength
          (after firstThrows (fun _ _ => Returned) byLength [Publishes "x" (JNum 1)]
             (snd (Sync.onCombineLatest combineXY Sync.empty))))) =
  combineCalls 0
    (Sync.log
       (after firstThrows (fun _ _ => Returned) byLength [Publishes "x" (JNum 1)]
          (snd (Sync.onCombineLatest combineXY Sync.empty)))) /\
  combineCalls 0
    (Sync.log
       (Sync.flushEffects (fun _ _ => Returned) byLength
          (after firstThrows (fun _ _ => Returned) byLength
             [Publishes "x" (JNum 1); Publishes "y" (JNum 2); Publishes "x" (JNum 3)]
             (Sync.flushEffects (fun _ _ => Returned) byLength
                (snd (Sync.onCombineLatest combineXY Sync.empty)))))) =
  combineCalls 0
    (Sync.log
       (Sync.flushEffects (fun _ _ => Returned) byLength
          (snd (Sync.onCombineLatest combineXY Sync.empty)))) ++
  [[mkEvent 3 "x" (JNum 3) 0; mkEvent 2 "y" (JNum 2) 0]].
Proof.
  destruct (combineLatest_calls_once_per_turn firstThrows (fun _ _ => Returned) byLength
              combineXY "x" "y" Sync.empty wellFormed_empty eq_refl eq_refl) as [_ Hist].
  split.
  - destruct (Hist [Publishes "x" (JNum 1)]) as [A _].
    apply A. right. vm_compute. reflexivity.
  - destruct (Hist []) as [_ B].
    destruct (B [Publishes "x" (JNum 1); Publishes "y" (JNum 2); Publishes "x" (JNum 3)])
      as (_ & _ & _ & K & _).
    { intros [E|[E|[E|[]]]]; discriminate. }
    apply (K (or_introl (ex_intro _ (JNum 1) (or_introl eq_refl)))
             (mkEvent 3 "x" (JNum 3) 0) (mkEvent 2 "y" (JNum 2) 0));
      vm_compute; reflexivity.
Defined.

(** Publishes made between two turns of the effects reach the callback
    together: after ["x"], ["y"] and ["x"] again, the next turn makes one
    call, with the second event of ["x"]. *)
Lemma combineLatest_coalesces_publishes :
  combineCalls 0
    (Sync.log
       (after firstThrows (fun _ _ => Returned) byLength
          [EffectsFlushed; Publishes "x" (JNum 1); Publishes "y" (JNum 2);
           Publishes "x" (JNum 3); EffectsFlushed]
          (snd (Sync.onCombineLatest combineXY Sync.empty)))) =
  [[mkEvent 3 "x" (JNum 3) 0; mkEvent 2 "y" (JNum 2) 0]].
Proof. vm_compute. reflexivity. Qed.

(** With a turn of the effects after each publish there are two calls. *)
Lemma combineLatest_turn_after_each_publish :
  combineCalls 0
    (Sync.log
       (after firstThrows (fun _ _ => Returned) byLength
          [EffectsFlushed; Publishes "x" (JNum 1); EffectsFlushed;
           Publishes "y" (JNum 2); EffectsFlushed;
           Publishes "x" (JNum 3); EffectsFlushed]
          (snd (Sync.onCombineLatest combineXY Sync.empty)))) =
  [[mkEvent 1 "x" (JNum 1) 0; mkEvent 2 "y" (JNum 2) 0];
   [mkEvent 3 "x" (JNum 3) 0; mkEvent 2 "y" (JNum 2) 0]].
Proof. vm_compute. reflexivity. Qed.

(** Without [replayLatest] the effect also reads the registry, so a
    publish to another key makes it call again with the same array. *)
Lemma combineLatest_other_key_calls_again :
  combineCalls 0
    (Sync.log
       (after firstThrows (fun _ _ => Returned) byLength
          [Publishes "x" (JNum 1); Publishes "y" (JNum 2); EffectsFlushed;
           Publishes "z" (JNum 3); EffectsFlushed]
          (snd (Sync.onCombineLatest combineXY Sync.empty)))) =
  [[mkEvent 1 "x" (JNum 1) 0; mkEvent 2 "y" (JNum 2) 0];
   [mkEvent 1 "x" (JNum 1) 0; mkEvent 2 "y" (JNum 2) 0]].
Proof. vm_compute. reflexivity. Qed.

(** ** Every hub the service can reach is well formed *)

Lemma wellFormed_same h h' :
  Sync.subscribers h' = Sync.subscribers h ->
  Sync.registrations h' = Sync.registrations h ->
  Sync.onceCells h' = Sync.onceCells h ->
  Sync.effects h' = Sync.effects h ->
  Sync.eventRegistry h' = Sync.eventRegistry h ->
  Sync.nextId h' = Sync.nextId h ->
  wellFormed h -> wellFormed h'.
Proof.
  intros S R C E Y N [W1 W2 W3 W4 W5 W6 W7].
  constructor; rewrite ?S, ?R, ?C, ?E, ?Y, ?N; assumption.
Qed.

Lemma wellFormed_step h h' a sp : syncStep h h' a sp -> wellFormed h -> wellFormed h'.
Proof.
  intros S [W1 W2 W3 W4 W5 W6 W7].
  destruct (step_effects _ _ _ _ S) as [keep E].
  constructor;
    rewrite ?(step_registrations _ _ _ _ S), ?(step_onceCells _ _ _ _ S),
            ?(step_registry _ _ _ _ S), ?(step_nextId _ _ _ _ S), ?E; try assumption.
  - intros q set' s G Hin. destruct (step_shrinks _ _ _ _ S q set' G) as (set & G0 & I).
    exact (W1 q set s G0 (I s Hin)).
  - now apply NoDup_eid_filter.
  - intros x Hx. apply filter_In in Hx as [Hx _]. now apply W5.
  - intros reg r x eff Hr D Hin Ex. apply filter_In in Hin as [Hin _]. eauto.
Qed.

Lemma wellFormed_fresh h : wellFormed h -> wellFormed (Sync.withNextId (S (Sync.nextId h)) h).
Proof.
  intros [W1 W2 W3 W4 W5 W6 W7]. constructor; simpl; try assumption.
  - intros q set s G Hin. destruct (W1 q set s G Hin) as [A B].
    split; [lia|]. eapply removalsBelow_more; [|exact B]. lia.
  - intros reg r Hr. destruct (W2 reg r Hr) as [A B].
    split; [lia|]. eapply registrationBelow_more; [|exact B]. lia.
  - intros x Hx. destruct (W5 x Hx) as [A B]. split; [lia|].
    destruct (Sync.body x); [exact I|]. intros ev Hev. specialize (B ev Hev). lia.
  - intros k ev Hin. specialize (W6 k ev Hin). lia.
Qed.

Lemma mset_In {V} k (v : V) m x : In x (mset k v m) -> x = (k, v) \/ In x m.
Proof.
  induction m as [|[k' v'] m IH]; simpl.
  - intros [<-|[]]. now left.
  - destruct (String.eqb k k'); simpl; intros [<-|H]; auto.
    destruct (IH H); auto.
Qed.

Lemma mdelete_In {V} k (m : jsmap V) x : In x (mdelete k m) -> In x m.
Proof. unfold mdelete. intros H. now apply filter_In in H as [H _]. Qed.

Section Reaches.
Variable behaviour : nat -> HubEvent -> Outcome.
Variable combineBehaviour : nat -> list HubEvent -> Outcome.
Variable localeCompare : string -> string -> Z.

Lemma wellFormed_publish k d h :
  wellFormed h -> wellFormed (snd (Sync.publish behaviour k d h)).
Proof.
  intros W. unfold Sync.publish. destruct (falsy k); [exact W|].
  cbn [Sync.fresh fst snd]. unfold Sync.notifySubscribers.
  set (h1 := Sync.withRegistry _ _). set (ev := mkEvent _ _ _ _).
  destruct (sync_notifyQueries_step behaviour ev (mkeys (Sync.subscribers h1)) h1)
    as (a & sp & S & _).
  eapply wellFormed_step; [exact S|].
  destruct (wellFormed_fresh h W) as [W1 W2 W3 W4 W5 W6 W7].
  constructor; try assumption.
  intros k' ev' Hin. simpl in Hin. apply mset_In in Hin as [Hin|Hin].
  - inversion Hin; subst. simpl. lia.
  - exact (W6 k' ev' Hin).
Qed.

Lemma wellFormed_runEffect eff h :
  In eff (Sync.effects h) -> wellFormed h ->
  wellFormed (Sync.runEffect combineBehaviour localeCompare eff h).
Proof.
  intros Hin W. unfold Sync.runEffect. destruct (Sync.body eff) as [s r|o st] eqn:B.
  - destruct (Sync.readSignal s h); [|exact W].
    eapply wellFormed_step; [apply sync_unsubscribeAll_step|exact W].
  - destruct (runCombine_shape combineBehaviour localeCompare (Sync.eid eff) o st h)
      as (st' & added & E & Seen & _ & S & R & C & _ & Y & _ & N).
    cbv zeta in E, S, R, C, Y, N.
    destruct W as [W1 W2 W3 W4 W5 W6 W7].
    constructor; rewrite ?S, ?R, ?C, ?Y, ?N, ?E; try assumption.
    + now rewrite updateEffect_ids.
    + intros x Hx. apply updateEffect_In in Hx as [[_ Hx]| ->]; [now apply W5|].
      simpl. split; [apply (W5 eff Hin)|].
      intros ev Hev. rewrite Seen in Hev. apply in_map_iff in Hev as (k & Ek & _).
      apply mget_In in Ek. exact (W6 k ev Ek).
    + intros reg r x eff' Hr D Hin' Ex.
      apply updateEffect_In in Hin' as [[_ Hin']| ->]; [eauto|].
      simpl in Ex. subst x.
      destruct (W7 reg r (Sync.eid eff) eff Hr D Hin eq_refl) as (s & g & B'). congruence.
Qed.

Lemma wellFormed_flushPending pending : forall h,
  wellFormed h -> wellFormed (Sync.flushPending combineBehaviour localeCompare pending h).
Proof.
  induction pending as [|x pending IH]; intros h W; simpl; [exact W|].
  apply IH. destruct (Sync.findEffect x h) as [eff|] eqn:F; [|exact W].
  apply findEffect_In in F as [Hin _]. now apply wellFormed_runEffect.
Qed.

Lemma wellFormed_onCombineLatest o h :
  wellFormed h -> wellFormed (snd (Sync.onCombineLatest o h)).
Proof.
  intros W. unfold Sync.onCombineLatest.
  destruct (Sync.optKeys o) as [|k0 keys]; [exact W|].
  destruct (Sync.firstToSignalError (k0 :: keys)); [exact W|].
  cbn [Sync.fresh].
  set (eff := Sync.mkEffect (Sync.nextId h) _).
  set (h1 := Sync.withEffects _ _).
  assert (wellFormed h1) as W1.
  { pose proof W as [V1 V2 V3 V4 V5 V6 V7].
    destruct (wellFormed_fresh h W) as [F1 F2 F3 F4 F5 F6 F7].
    constructor; try assumption.
    - simpl. rewrite map_app. simpl.
      apply NoDup_app; [exact V4|repeat constructor; intros []|].
      intros n Hn [<-|[]]. apply in_map_iff in Hn as (x & Ex & Hx).
      destruct (V5 x Hx) as [Hlt _]. lia.
    - intros x Hx. simpl in Hx. apply in_app_or in Hx as [Hx|[<-|[]]]; [now apply F5|].
      simpl. split; [lia|]. intros ev [].
    - intros reg r x eff' Hr D Hin' Ex. simpl in Hr, Hin'.
      apply in_app_or in Hin' as [Hin'|[<-|[]]]; [eauto|].
      simpl in Ex. subst x. exfalso.
      destruct (V2 reg r Hr) as [_ [A B]].
      destruct D as [D|D]; [specialize (A _ D)|specialize (B _ D)]; simpl in *; lia. }
  destruct (Sync.optCombineDestroyRef o); [|exact W1].
  revert W1. now apply wellFormed_same.
Qed.

End Reaches.

Lemma wellFormed_internalSubscribe q cb destroyRef onErr (selfRemoving : bool) h :
  wellFormed h -> removalsBelow (Sync.nextId h) cb ->
  wellFormed (snd (Sync.internalSubscribe q cb destroyRef onErr selfRemoving h)).
Proof.
  intros W Hcb.
  destruct (internalSubscribe_spec q cb destroyRef onErr selfRemoving h)
    as (_ & N & R & C & _ & E & Y & _ & _ & _ & Hinv).
  set (h' := snd (Sync.internalSubscribe q cb destroyRef onErr selfRemoving h)) in *.
  destruct (wellFormed_fresh h W) as [F1 F2 F3 F4 F5 F6 F7]. simpl in *.
  constructor; rewrite ?N, ?R, ?C, ?E, ?Y; try assumption.
  intros q' set s G Hin.
  destruct (Hinv q' s (ex_intro _ set (conj G Hin))) as [(set0 & G0 & Hin0)|[_ ->]].
  - exact (F1 q' set0 s G0 Hin0).
  - simpl. split; [lia|].
    assert (removalsBelow (S (Sync.nextId h)) cb) as Hcb'
      by (eapply removalsBelow_more; [|exact Hcb]; lia).
    destruct selfRemoving; simpl; [split; [lia|exact Hcb']|exact Hcb'].
Qed.

(** Storing one more teardown in a registration. *)
Lemma wellFormed_registration reg r r' h :
  wellFormed h -> Sync.lookup reg (Sync.registrations h) = Some r ->
  registrationBelow (Sync.nextId h) r' ->
  (forall x, destroys r' x -> destroys r x \/
     forall eff, In eff (Sync.effects h) -> Sync.eid eff = x ->
       exists s g, Sync.body eff = Sync.UntilSignal s g) ->
  wellFormed (Sync.withRegistrations (Sync.store reg r' (Sync.registrations h)) h).
Proof.
  intros [W1 W2 W3 W4 W5 W6 W7] L Hb Hd. apply lookup_In in L.
  constructor; simpl; try assumption.
  - intros reg0 r0 Hin. apply store_In in Hin as [Hin|Hin]; [|now apply W2].
    inversion Hin; subst. split; [apply (W2 reg r L)|exact Hb].
  - intros reg0 r0 x eff Hin D He Ex. apply store_In in Hin as [Hin|Hin]; [|eauto].
    inversion Hin; subst. destruct (Hd _ D) as [D'|K]; eauto.
Qed.

Lemma wellFormed_pushUnsubscriber reg t h :
  wellFormed h -> teardownBelow (Sync.nextId h) t ->
  (forall x, t = Sync.DestroyEffect x ->
     forall eff, In eff (Sync.effects h) -> Sync.eid eff = x ->
       exists s g, Sync.body eff = Sync.UntilSignal s g) ->
  wellFormed (Sync.pushUnsubscriber reg t h).
Proof.
  intros W Ht Hd. unfold Sync.pushUnsubscriber.
  destruct (Sync.lookup reg (Sync.registrations h)) as [r|] eqn:L; [|exact W].
  apply (wellFormed_registration reg r); [exact W|exact L| |].
  - pose proof L as L'. apply lookup_In in L'.
    destruct (wf_registrations h W reg r L') as [_ [A B]]. split; simpl.
    + intros t' Hin. apply in_app_or in Hin as [Hin|[<-|[]]]; auto.
    + exact B.
  - intros x [D|D]; simpl in D.
    + apply in_app_or in D as [D|[D|[]]]; [left; now left|]. right. now apply Hd.
    + left. now right.
Qed.

Lemma wellFormed_setMainSubscription reg q n h :
  wellFormed h -> n < Sync.nextId h ->
  wellFormed (Sync.setMainSubscription reg (Sync.RemoveSubscriber q n) h).
Proof.
  intros W Hn. unfold Sync.setMainSubscription.
  destruct (Sync.lookup reg (Sync.registrations h)) as [r|] eqn:L; [|exact W].
  apply (wellFormed_registration reg r); [exact W|exact L| |].
  - pose proof L as L'. apply lookup_In in L'.
    destruct (wf_registrations h W reg r L') as [_ [A B]]. split; simpl.
    + exact A.
    + intros t' E. inversion E; subst. exact Hn.
  - intros x [D|D]; simpl in D; [left; now left|discriminate].
Qed.

Lemma wellFormed_installCondition reg h c :
  wellFormed h ->
  wellFormed (Sync.installCondition reg h c) /\
  Sync.nextId h <= Sync.nextId (Sync.installCondition reg h c).
Proof.
  intros W. destruct c as [k|s]; unfold Sync.installCondition, Sync.fresh.
  - pose proof (wellFormed_internalSubscribe k (Sync.CbUnsubscribeAll reg) None None true h W I)
      as W1.
    destruct (internalSubscribe_spec k (Sync.CbUnsubscribeAll reg) None None true h)
      as (F & N & _).
    destruct (Sync.internalSubscribe k (Sync.CbUnsubscribeAll reg) None None true h)
      as [sub h1].
    cbn [fst snd] in *. subst sub.
    assert (Sync.nextId (Sync.pushUnsubscriber reg (Sync.RemoveSubscriber k (Sync.nextId h)) h1)
            = Sync.nextId h1) as N'
      by (unfold Sync.pushUnsubscriber; now destruct (Sync.lookup reg _)).
    split; [|rewrite N', N; lia].
    apply wellFormed_pushUnsubscriber; [exact W1|simpl; lia|discriminate].
  - set (e := Sync.nextId h).
    set (h2 := Sync.withEffects _ _).
    assert (wellFormed h2) as W2.
    { pose proof W as [V1 V2 V3 V4 V5 V6 V7].
      destruct (wellFormed_fresh h W) as [F1 F2 F3 F4 F5 F6 F7].
      constructor; try assumption.
      - simpl. rewrite map_app. simpl.
        apply NoDup_app; [exact V4|repeat constructor; intros []|].
        intros n Hn [<-|[]]. apply in_map_iff in Hn as (x & Ex & Hx).
        destruct (V5 x Hx) as [Hlt _]. subst e. lia.
      - intros x Hx. simpl in Hx. apply in_app_or in Hx as [Hx|[<-|[]]]; [now apply F5|].
        simpl. split; [lia|exact I].
      - intros reg0 r x eff' Hr D Hin' Ex. simpl in Hr, Hin'.
        apply in_app_or in Hin' as [Hin'|[<-|[]]]; [eauto|].
        simpl. eauto. }
    assert (Sync.nextId (Sync.pushUnsubscriber reg (Sync.DestroyEffect e) h2) = S e) as N'
      by (unfold Sync.pushUnsubscriber; now destruct (Sync.lookup reg _)).
    split; [|rewrite N'; subst e; lia].
    apply wellFormed_pushUnsubscriber; [exact W2|simpl; lia|].
    intros x Ex eff Hin Eid. inversion Ex; subst x. simpl in Hin.
    apply in_app_or in Hin as [Hin|[<-|[]]]; [|simpl; eauto].
    destruct (wf_effects h W eff Hin) as [Hlt _]. subst e. lia.
Qed.

Lemma wellFormed_conditions reg conds : forall h,
  wellFormed h ->
  wellFormed (fold_left (Sync.installCondition reg) conds h) /\
  Sync.nextId h <= Sync.nextId (fold_left (Sync.installCondition reg) conds h).
Proof.
  induction conds as [|c conds IH]; intros h W; simpl; [split; [exact W|lia]|].
  destruct (wellFormed_installCondition reg h c W) as [W1 N1].
  destruct (IH _ W1) as [W2 N2]. split; [exact W2|lia].
Qed.

Section ReachesOn.
Variable behaviour : nat -> HubEvent -> Outcome.

Lemma wellFormed_replay o h :
  wellFormed h ->
  wellFormed (Sync.replay behaviour o h) /\
  Sync.nextId (Sync.replay behaviour o h) = Sync.nextId h.
Proof.
  intros W. unfold Sync.replay.
  destruct (Sync.optReplayLatest o); [|now split].
  destruct (Sync.findLatestEventForKey (Sync.optKey o) h) as [ev|]; [|now split].
  destruct (sync_invoke_step behaviour (Sync.optCallback o) ev h) as (added & S & _).
  destruct (Sync.invoke behaviour (Sync.optCallback o) ev h) as [out h1]. simpl in S.
  assert (wellFormed h1) as W1 by (eapply wellFormed_step; eassumption).
  pose proof (step_nextId _ _ _ _ S) as N.
  destruct out as [|error| |error]; try (split; assumption).
  pose proof (sync_handleError_step error ev (Sync.optOnError o) (Sync.optKey o) h1) as S2.
  split; [eapply wellFormed_step; eassumption|].
  now rewrite (step_nextId _ _ _ _ S2).
Qed.

(** The handle [on] returns is never the bare teardown of a subscriber. *)
Lemma on_result o h :
  (exists err, fst (Sync.on behaviour o h) = Throw err) \/
  fst (Sync.on behaviour o h) = Ok Sync.Inert \/
  fst (Sync.on behaviour o h) = Ok (Sync.UnsubscribeAll (Sync.nextId h)).
Proof.
  unfold Sync.on. destruct (falsy (Sync.optKey o)); [left; eexists; reflexivity|].
  destruct (negb (Sync.isFunction (Sync.optCallback o))); [left; eexists; reflexivity|].
  destruct (existsb _ _); [right; now left|].
  cbn [Sync.fresh]. right. right.
  now destruct (Sync.internalSubscribe _ _ _ _ _ _).
Qed.

Lemma wellFormed_on o h :
  wellFormed h -> removalsBelow (Sync.nextId h) (Sync.optCallback o) ->
  wellFormed (snd (Sync.on behaviour o h)).
Proof.
  intros W Hcb. unfold Sync.on. destruct (falsy (Sync.optKey o)); [exact W|].
  destruct (negb (Sync.isFunction (Sync.optCallback o))); [exact W|].
  fold (stopConditions o).
  destruct (existsb _ _); [exact W|].
  cbn [Sync.fresh].
  set (hA := Sync.withRegistrations _ _).
  assert (wellFormed hA) as WA.
  { destruct (wellFormed_fresh h W) as [F1 F2 F3 F4 F5 F6 F7].
    constructor; try assumption.
    - intros reg r Hin. simpl in Hin. apply store_In in Hin as [Hin|Hin]; [|now apply F2].
      inversion Hin; subst. simpl. split; [lia|]. split; [intros t []|discriminate].
    - intros reg r x eff Hin D He Ex. simpl in Hin, He.
      apply store_In in Hin as [Hin|Hin]; [|eauto].
      inversion Hin; subst. destruct D as [[]|D]; discriminate. }
  destruct (wellFormed_conditions (Sync.nextId h) (stopConditions o) hA WA) as [W2 N2].
  set (h2 := fold_left _ _ hA) in *.
  destruct (wellFormed_replay o h2 W2) as [W3 N3].
  set (h3 := Sync.replay behaviour o h2) in *.
  assert (Sync.nextId h < Sync.nextId h3) as Hlt by (rewrite N3; simpl in N2; lia).
  assert (removalsBelow (Sync.nextId h3) (Sync.optCallback o)) as Hcb3
    by (eapply removalsBelow_more; [|exact Hcb]; lia).
  pose proof (wellFormed_internalSubscribe (Sync.optKey o) (Sync.optCallback o)
                (Sync.optDestroyRef o) (Sync.optOnError o) false h3 W3 Hcb3) as W4.
  destruct (internalSubscribe_spec (Sync.optKey o) (Sync.optCallback o)
              (Sync.optDestroyRef o) (Sync.optOnError o) false h3) as (F & N & _).
  destruct (Sync.internalSubscribe (Sync.optKey o) (Sync.optCallback o)
              (Sync.optDestroyRef o) (Sync.optOnError o) false h3) as [main h4].
  cbn [fst snd] in *. subst main.
  apply wellFormed_setMainSubscription; [exact W4|lia].
Qed.

Lemma wellFormed_once o h :
  wellFormed h -> removalsBelow (Sync.nextId h) (Sync.optCallback o) ->
  wellFormed (snd (Sync.once behaviour o h)).
Proof.
  intros W Hcb. unfold Sync.once. cbn [Sync.fresh].
  set (c := Sync.nextId h).
  set (h1 := Sync.withOnceCells _ _).
  assert (wellFormed h1) as W1.
  { destruct (wellFormed_fresh h W) as [F1 F2 F3 F4 F5 F6 F7].
    constructor; try assumption.
    intros c' t Hin. simpl in Hin. apply store_In in Hin as [Hin|Hin]; [discriminate|].
    exact (F3 c' t Hin). }
  set (o' := Sync.mkOptions _ _ _ _ _ _).
  assert (wellFormed (snd (Sync.on behaviour o' h1))) as W2.
  { apply wellFormed_on; [exact W1|]. simpl.
    eapply removalsBelow_more; [|exact Hcb]. lia. }
  pose proof (on_result o' h1) as Hr.
  destruct (Sync.on behaviour o' h1) as [r h2]. cbn [fst snd] in *.
  destruct r as [s|err]; [|exact W2].
  cbn [snd].
  destruct W2 as [V1 V2 V3 V4 V5 V6 V7]. constructor; try assumption.
  intros c' t Hin. simpl in Hin. apply store_In in Hin as [Hin|Hin]; [|exact (V3 c' t Hin)].
  inversion Hin; subst.
  destruct Hr as [(err & Hr)|[Hr|Hr]]; discriminate.
Qed.

End ReachesOn.

(** What a caller can pass as a callback. *)
Definition callerCallback (cb : Sync.Callback) : Prop :=
  match cb with
  | Sync.CbUser _ | Sync.CbNotAFunction => True
  | _ => False
  end.

Lemma callerCallback_below n cb : callerCallback cb -> removalsBelow n cb.
Proof. destruct cb; simpl; tauto. Qed.

Section Reachable.
Variable behaviour : nat -> HubEvent -> Outcome.
Variable combineBehaviour : nat -> list HubEvent -> Outcome.
Variable localeCompare : string -> string -> Z.

(** The hubs a program reaches from a new service through its public
    methods, the handles they return, its own signals, the scheduler and
    the clock. *)
Inductive reaches : Sync.Hub -> Prop :=
| reaches_empty : reaches Sync.empty
| reaches_publish h k d : reaches h -> reaches (snd (Sync.publish behaviour k d h))
| reaches_on h o :
    callerCallback (Sync.optCallback o) -> reaches h -> reaches (snd (Sync.on behaviour o h))
| reaches_once h o :
    callerCallback (Sync.optCallback o) -> reaches h ->
    reaches (snd (Sync.once behaviour o h))
| reaches_onCombineLatest h o : reaches h -> reaches (snd (Sync.onCombineLatest o h))
| reaches_unsubscribe h s : reaches h -> reaches (Sync.runSubscription s h)
| reaches_destroy h d : reaches h -> reaches (Sync.triggerDestroy d h)
| reaches_clearEvent h k : reaches h -> reaches (snd (Sync.clearEvent k h))
| reaches_reset h b : reaches h -> reaches (Sync.reset b h)
| reaches_setSignal h s b : reaches h -> reaches (Sync.setSignal s b h)
| reaches_flushEffects h :
    reaches h -> reaches (Sync.flushEffects combineBehaviour localeCompare h)
| reaches_runMicrotasks h : reaches h -> reaches (Sync.runMicrotasks h)
| reaches_tick h dt : reaches h -> reaches (Sync.tick dt h).

Lemma wellFormed_teardowns (hooks : list (nat * Sync.Teardown)) : forall h,
  wellFormed h ->
  wellFormed (fold_left (fun acc hook => Sync.runTeardown (snd hook) acc) hooks h).
Proof.
  induction hooks as [|hook hooks IH]; intros h W; simpl; [exact W|].
  apply IH. eapply wellFormed_step; [apply sync_runTeardown_step|exact W].
Qed.

Lemma wellFormed_tasks tasks : forall h,
  wellFormed h -> wellFormed (fold_left Sync.runTask tasks h).
Proof.
  induction tasks as [|t tasks IH]; intros h W; simpl; [exact W|].
  apply IH. destruct t as [q handler error ev]. simpl.
  eapply wellFormed_step; [apply sync_handleError_step|exact W].
Qed.

Theorem reaches_wellFormed h : reaches h -> wellFormed h.
Proof.
  induction 1 as [|h k d _ IH|h o Hcb _ IH|h o Hcb _ IH|h o _ IH|h s _ IH|h d _ IH
                 |h k _ IH|h b _ IH|h s b _ IH|h _ IH|h _ IH|h dt _ IH].
  - apply wellFormed_empty.
  - now apply wellFormed_publish.
  - apply wellFormed_on; [exact IH|now apply callerCallback_below].
  - apply wellFormed_once; [exact IH|now apply callerCallback_below].
  - now apply wellFormed_onCombineLatest.
  - eapply wellFormed_step; [apply sync_runSubscription_step|exact IH].
  - unfold Sync.triggerDestroy.
    set (h1 := fold_left _ _ h).
    assert (wellFormed h1) as W1 by now apply wellFormed_teardowns.
    revert W1. now apply wellFormed_same.
  - unfold Sync.clearEvent. destruct (falsy k); [exact IH|]. simpl.
    destruct IH as [V1 V2 V3 V4 V5 V6 V7]. constructor; try assumption.
    intros k' ev Hin. simpl in Hin. apply mdelete_In in Hin. exact (V6 k' ev Hin).
  - unfold Sync.reset.
    assert (wellFormed (Sync.withRegistry [] h)) as W1.
    { destruct IH as [V1 V2 V3 V4 V5 V6 V7]. constructor; try assumption.
      intros k' ev []. }
    destruct b; [|exact W1].
    destruct W1 as [V1 V2 V3 V4 V5 V6 V7]. constructor; try assumption.
    intros q set s G. discriminate.
  - revert IH. now apply wellFormed_same.
  - now apply wellFormed_flushPending.
  - unfold Sync.runMicrotasks. apply wellFormed_tasks.
    revert IH. now apply wellFormed_same.
  - revert IH. now apply wellFormed_same.
Qed.

End Reachable.

(** ** [until]: the conditions end the subscription *)

Lemma existsb_same {A} (f g : A -> bool) (l : list A) :
  (forall a, f a = g a) -> existsb f l = existsb g l.
Proof. intros E. induction l as [|a l IH]; simpl; [reflexivity|]. now rewrite E, IH. Qed.

Lemma untilHolds_cell base reg mainKey mainId conds c r x :
  untilHolds base reg mainKey mainId conds x ->
  untilHolds base reg mainKey mainId conds
    (Sync.withOnceCells (Sync.store c (Some (Sync.UnsubscribeAll r)) (Sync.onceCells x)) x).
Proof.
  intros [Ht Hi He Hs Hg]. constructor; try assumption.
  destruct Hi as [A B D]. constructor; try assumption.
  intros c' t G. unfold Sync.getOnceCell in G. simpl in G.
  destruct (Nat.eq_dec c' c) as [->|Hne].
  - rewrite lookup_store_same in G. discriminate.
  - rewrite lookup_store_other in G by exact Hne. exact (D c' t G).
Qed.

Lemma once_installs behaviour o f h :
  wellFormed h -> Sync.optKey o <> EmptyString -> Sync.optCallback o = Sync.CbUser f ->
  existsb (Sync.signalIsTrue h) (stopConditions o) = false ->
  exists mainId h1,
    Sync.once behaviour o h = (Ok (Sync.UnsubscribeAll (S (Sync.nextId h))), h1) /\
    stillIn (Sync.optKey o)
      (Sync.mkSubscriber mainId
         (Sync.CbOnce (Sync.nextId h) (Sync.CbUser f) (Sync.optOnError o) (Sync.optKey o))
         (Sync.optOnError o)) h1 /\
    untilHolds (S (Sync.nextId h)) (S (Sync.nextId h)) (Sync.optKey o) mainId
      (stopConditions o) h1.
Proof.
  intros W Hk Hcb Hs. unfold Sync.once. cbn [Sync.fresh]. rewrite Hcb.
  set (c := Sync.nextId h).
  set (h1 := Sync.withOnceCells _ _).
  set (o' := Sync.mkOptions _ _ _ _ _ _).
  assert (wellFormed h1) as W1.
  { destruct (wellFormed_fresh h W) as [F1 F2 F3 F4 F5 F6 F7].
    constructor; try assumption.
    intros c' t Hin. simpl in Hin. apply store_In in Hin as [Hin|Hin]; [discriminate|].
    exact (F3 c' t Hin). }
  assert (replaysQuietly (Sync.optCallback o') h1) as Hq.
  { simpl. unfold Sync.getOnceCell. simpl. now rewrite lookup_store_same. }
  destruct (on_installs behaviour o' h1 W1 Hk Hq Hs) as (mainId & h2 & Eon & St & U & _).
  rewrite Eon. exists mainId. eexists. split; [reflexivity|]. split.
  - exact St.
  - apply untilHolds_cell. exact U.
Qed.

Section EndsOnConditions.
Variable behaviour : nat -> HubEvent -> Outcome.
Variable combineBehaviour : nat -> list HubEvent -> Outcome.
Variable localeCompare : string -> string -> Z.

(** Subscriber [mainId] of [key] is subscribed in [h1]; and after any
    further publishes, signal writes and turns of the effects, a publish
    whose key matches one of the stop keys of [conds] leaves it
    unsubscribed, and so does a turn of the effects taken while one of
    the signals of [conds] reads [true]. *)
Definition endsOnConditions (key : string) (conds : list Sync.Condition)
    (mainId : nat) (h1 : Sync.Hub) : Prop :=
  Sync.isSubscribed key mainId h1 = true /\
  forall history,
    let x := after behaviour combineBehaviour localeCompare history h1 in
    (forall c k d,
       In (Sync.StopKey c) conds ->
       k <> EmptyString -> Sync.matchQuery k c = true ->
       Sync.isSubscribed key mainId (snd (Sync.publish behaviour k d x)) = false) /\
    (forall sg,
       In (Sync.StopSignal sg) conds ->
       Sync.readSignal sg x = true ->
       Sync.isSubscribed key mainId
         (Sync.flushEffects combineBehaviour localeCompare x) = false).

Lemma untilHolds_ends base reg key conds mainId s h1 :
  stillIn key s h1 -> Sync.sid s = mainId ->
  untilHolds base reg key mainId conds h1 ->
  endsOnConditions key conds mainId h1.
Proof.
  intros St Es U. split; [rewrite <- Es; now apply stillIn_isSubscribed|].
  intros history x.
  pose proof (after_untilHolds behaviour combineBehaviour localeCompare
                _ _ _ _ _ history h1 U) as Ux.
  fold x in Ux. split.
  - intros c k d Hc Hk' Hm. eapply publish_stops; eassumption.
  - intros sg Hsg Hr. eapply flush_stops; eassumption.
Qed.

End EndsOnConditions.

(** ** [until]: the conditions as the caller wrote them *)

(** [until] is one condition or an array of conditions; a condition is a
    stop key or a boolean signal; an empty string given alone is no
    condition. *)
Definition stopSignalOf (u : Sync.Until) (sg : nat) : Prop :=
  match u with
  | Sync.UntilOne (Sync.StopSignal s) => s = sg
  | Sync.UntilMany cs => In (Sync.StopSignal sg) cs
  | _ => False
  end.

Definition stopKeyOf (u : Sync.Until) (c : string) : Prop :=
  match u with
  | Sync.UntilOne (Sync.StopKey k) => k = c /\ c <> EmptyString
  | Sync.UntilMany cs => In (Sync.StopKey c) cs
  | _ => False
  end.

Lemma stopSignalOf_conditions o sg :
  stopSignalOf (Sync.optUntil o) sg <-> In (Sync.StopSignal sg) (stopConditions o).
Proof.
  unfold stopConditions. destruct (Sync.optUntil o) as [|[k|s]|cs]; simpl; try tauto.
  - destruct (falsy k); simpl; split; try tauto. intros [E|[]]. discriminate.
  - split; [intros ->; now left|]. intros [E|[]]. now inversion E.
Qed.

Lemma stopKeyOf_conditions o c :
  stopKeyOf (Sync.optUntil o) c <-> In (Sync.StopKey c) (stopConditions o).
Proof.
  unfold stopConditions. destruct (Sync.optUntil o) as [|[k|s]|cs]; simpl; try tauto.
  - destruct k as [|a k]; simpl.
    + split; [intros [<- Hc]; congruence|tauto].
    + split.
      * intros [<- _]. now left.
      * intros [E|[]]. inversion E. split; [reflexivity|discriminate].
  - split; [tauto|]. intros [E|[]]. discriminate.
Qed.

Lemma signalIsTrue_some o h :
  existsb (Sync.signalIsTrue h) (stopConditions o) = true <->
  exists sg, stopSignalOf (Sync.optUntil o) sg /\ Sync.readSignal sg h = true.
Proof.
  rewrite existsb_exists. split.
  - intros ([k|s] & Hin & T); simpl in T; [discriminate|].
    exists s. split; [now apply stopSignalOf_conditions|exact T].
  - intros (sg & Hsg & T). exists (Sync.StopSignal sg).
    split; [now apply stopSignalOf_conditions|exact T].
Qed.

Lemma signalIsTrue_none o h :
  (forall sg, stopSignalOf (Sync.optUntil o) sg -> Sync.readSignal sg h = false) ->
  existsb (Sync.signalIsTrue h) (stopConditions o) = false.
Proof.
  intros None. destruct (existsb _ _) eqn:E; [|reflexivity].
  apply signalIsTrue_some in E as (sg & Hsg & T). rewrite (None sg Hsg) in T. discriminate.
Qed.

Section EndsWhen.
Variable behaviour : nat -> HubEvent -> Outcome.
Variable handlerBehaviour : nat -> value -> HubEvent -> option value.
Variable combineBehaviour : nat -> list HubEvent -> Outcome.
Variable localeCompare : string -> string -> Z.

(** Subscriber [mainId] of [key] is subscribed in [h1]; and after any
    further publishes, signal writes and turns of the effects: a publish
    whose key matches one of the stop keys of [until] returns and leaves
    it unsubscribed; a turn of the effects taken while one of the signals
    of [until] reads [true] leaves it unsubscribed; a write to a signal
    leaves it as it is. *)
Definition endsWhen (key : string) (u : Sync.Until) (mainId : nat) (h1 : Sync.Hub) : Prop :=
  Sync.isSubscribed key mainId h1 = true /\
  forall history,
    let x := after behaviour combineBehaviour localeCompare history h1 in
    (forall c k d,
       stopKeyOf u c -> k <> EmptyString -> Sync.matchQuery k c = true ->
       fst (Throwing.publish behaviour handlerBehaviour k d x) = Throwing.Returns tt /\
       Sync.isSubscribed key mainId
         (snd (Throwing.publish behaviour handlerBehaviour k d x)) = false) /\
    (forall sg,
       stopSignalOf u sg -> Sync.readSignal sg x = true ->
       Sync.isSubscribed key mainId
         (Sync.flushEffects combineBehaviour localeCompare x) = false) /\
    (forall sg b,
       Sync.isSubscribed key mainId (Sync.setSignal sg b x) = Sync.isSubscribed key mainId x).

Lemma endsOnConditions_endsWhen o mainId h1 :
  Throwing.handlersReturn handlerBehaviour ->
  endsOnConditions behaviour combineBehaviour localeCompare
    (Sync.optKey o) (stopConditions o) mainId h1 ->
  endsWhen (Sync.optKey o) (Sync.optUntil o) mainId h1.
Proof.
  intros Quiet [Sub Ends]. split; [exact Sub|]. intros history x.
  destruct (Ends history) as [Stop Turn]. fold x in Stop, Turn.
  refine (conj _ (conj _ (fun sg b => eq_refl))).
  - intros c k d Hc Hk Hm. rewrite (throwing_publish behaviour handlerBehaviour Quiet).
    cbn [fst snd]. split.
    + unfold Sync.publish. destruct k; [congruence|reflexivity].
    + apply (Stop c k d); [now apply stopKeyOf_conditions|exact Hk|exact Hm].
  - intros sg Hsg T. apply (Turn sg); [now apply stopSignalOf_conditions|exact T].
Qed.

End EndsWhen.


(** Registration with a stop pattern and a signal. *)
Definition stopsOnPatternOrSignal : Sync.HubEventOptions :=
  Sync.mkOptions "a" (Sync.CbUser 2) None false None
    (Sync.UntilMany [Sync.StopKey "stop:*"; Sync.StopSignal 0]).

(** Error handlers that return. *)
Definition noHandlerThrows (g : nat) (error : value) (ev : HubEvent) : option value := None.


(** A signal of [until] that becomes [true] does not end the
    subscription by itself.  After [on] with the signal [0] as [until]:
    the signal is set, ["a"] is published, the signal is cleared, the
    effects take their turn and ["a"] is published again.  The callback
    is called with both events and the subscriber is still subscribed. *)
Definition stopsOnSignal : Sync.HubEventOptions :=
  Sync.mkOptions "a" (Sync.CbUser 2) None false None (Sync.UntilOne (Sync.StopSignal 0)).


(** ** The synchronous service: no identity is handed out twice *)

Section Keeps.
Variable behaviour : nat -> HubEvent -> Outcome.
Variable combineBehaviour : nat -> list HubEvent -> Outcome.
Variable localeCompare : string -> string -> Z.
Variable n : nat.

(** On the way from [h] to [h'], taken when every identity below [n] was
    already handed out: a teardown of an identity below [n] that had
    nothing left to do has nothing to do afterwards, and the
    registrations below [n] are as they were. *)
Definition keeps (h h' : Sync.Hub) : Prop :=
  n <= Sync.nextId h ->
  n <= Sync.nextId h' /\
  (forall t, teardownBelow n t -> tornDown t h -> tornDown t h') /\
  (forall reg, reg < n ->
     Sync.lookup reg (Sync.registrations h') = Sync.lookup reg (Sync.registrations h)).

Lemma keeps_refl h : keeps h h.
Proof. intros Hn. repeat split; auto. Qed.

Lemma keeps_trans h1 h2 h3 : keeps h1 h2 -> keeps h2 h3 -> keeps h1 h3.
Proof.
  intros A B Hn. destruct (A Hn) as (N2 & T2 & R2). destruct (B N2) as (N3 & T3 & R3).
  repeat split; [exact N3|auto|]. intros reg Hr. now rewrite R3, R2.
Qed.

Lemma tornDown_same t h h' :
  Sync.subscribers h' = Sync.subscribers h -> Sync.effects h' = Sync.effects h ->
  tornDown t h -> tornDown t h'.
Proof. intros S E. destruct t; simpl; now rewrite ?S, ?E. Qed.

Lemma keeps_same h h' :
  Sync.subscribers h' = Sync.subscribers h -> Sync.effects h' = Sync.effects h ->
  Sync.registrations h' = Sync.registrations h -> Sync.nextId h <= Sync.nextId h' ->
  keeps h h'.
Proof.
  intros S E R N Hn. repeat split; [lia| |intros; now rewrite R].
  intros t _. now apply tornDown_same.
Qed.

Lemma keeps_runTeardown t h : keeps h (Sync.runTeardown t h).
Proof.
  intros Hn. pose proof (sync_runTeardown_step t h) as S.
  repeat split.
  - now rewrite (step_nextId _ _ _ _ S).
  - intros t' _. apply tornDown_stable.
  - intros. now rewrite sync_runTeardown_registrations.
Qed.

Lemma keeps_teardowns ts : forall h,
  keeps h (fold_left (fun acc unsub => Sync.runTeardown unsub acc) ts h).
Proof.
  induction ts as [|t ts IH]; intros h; simpl; [apply keeps_refl|].
  eapply keeps_trans; [apply keeps_runTeardown|apply IH].
Qed.

Lemma keeps_unsubscribeAll reg h : keeps h (Sync.unsubscribeAll reg h).
Proof.
  unfold Sync.unsubscribeAll.
  destruct (Sync.lookup reg (Sync.registrations h)) as [r|]; [|apply keeps_refl].
  destruct (Sync.mainSubscription r); [|apply keeps_teardowns].
  eapply keeps_trans; [apply keeps_teardowns|apply keeps_runTeardown].
Qed.

Lemma keeps_runSubscription s h : keeps h (Sync.runSubscription s h).
Proof.
  destruct s; simpl; [apply keeps_refl|apply keeps_runTeardown|apply keeps_unsubscribeAll].
Qed.

Lemma keeps_log item h : keeps h (Sync.addLog item h).
Proof. now apply keeps_same. Qed.

Lemma keeps_handleError error ev handler q h :
  keeps h (Sync.handleError error ev handler q h).
Proof. unfold Sync.handleError. destruct handler; apply keeps_log. Qed.

Lemma keeps_invoke cb : forall ev h, keeps h (snd (Sync.invoke behaviour cb ev h)).
Proof.
  induction cb as [f| |c user IH onErr k|reg|q subscriber original IH]; intros ev h; simpl.
  - apply keeps_log.
  - apply keeps_refl.
  - set (h0 := Sync.addLog (Sync.Called (Sync.CbOnce c user onErr k) ev) h).
    set (h1 := match Sync.getOnceCell c h0 with
               | Some s => Sync.runSubscription s h0
               | None => h0
               end).
    assert (keeps h h1) as K1.
    { eapply keeps_trans; [apply (keeps_log (Sync.Called (Sync.CbOnce c user onErr k) ev))|].
      fold h0. subst h1.
      destruct (Sync.getOnceCell c h0); [apply keeps_runSubscription|apply keeps_refl]. }
    specialize (IH ev h1). destruct (Sync.invoke behaviour user ev h1) as [out h2].
    simpl in IH. pose proof (keeps_trans _ _ _ K1 IH) as K2.
    destruct out; simpl; try exact K2.
    eapply keeps_trans; [exact K2|apply keeps_handleError].
  - eapply keeps_trans; [apply keeps_log|apply keeps_unsubscribeAll].
  - eapply keeps_trans;
      [apply (keeps_log (Sync.Called (Sync.CbSelfRemoving q subscriber original) ev))|].
    eapply keeps_trans; [apply (keeps_runTeardown (Sync.RemoveSubscriber q subscriber))|].
    apply IH.
Qed.

Lemma keeps_deliver q ev s h : keeps h (Sync.deliver behaviour q ev s h).
Proof.
  unfold Sync.deliver. pose proof (keeps_invoke (Sync.callback s) ev h) as K.
  destruct (Sync.invoke behaviour (Sync.callback s) ev h) as [out h1]. simpl in K.
  destruct out as [|error| |error]; try exact K.
  eapply keeps_trans; [exact K|apply keeps_handleError].
Qed.

Lemma keeps_notifySet ev q pending : forall h,
  keeps h (Sync.notifySet behaviour ev q pending h).
Proof.
  induction pending as [|s pending IH]; intros h; simpl; [apply keeps_refl|].
  eapply keeps_trans; [|apply IH].
  destruct (Sync.isSubscribed q (Sync.sid s) h); [apply keeps_deliver|apply keeps_refl].
Qed.

Lemma keeps_notifyQueries ev pending : forall h,
  keeps h (Sync.notifyQueries behaviour ev pending h).
Proof.
  induction pending as [|q pending IH]; intros h; simpl; [apply keeps_refl|].
  eapply keeps_trans; [|apply IH].
  destruct (mget q (Sync.subscribers h)) as [set|]; [|apply keeps_refl].
  destruct (Sync.matchQuery (key ev) q); [apply keeps_notifySet|apply keeps_refl].
Qed.

Lemma keeps_publish k d h : keeps h (snd (Sync.publish behaviour k d h)).
Proof.
  unfold Sync.publish. destruct (falsy k); [apply keeps_refl|].
  cbn [Sync.fresh fst snd]. unfold Sync.notifySubscribers.
  set (h1 := Sync.withRegistry _ _).
  eapply keeps_trans; [apply (keeps_same h h1); try reflexivity; simpl; lia|].
  apply keeps_notifyQueries.
Qed.

Lemma keeps_internalSubscribe q cb destroyRef onErr (selfRemoving : bool) h :
  keeps h (snd (Sync.internalSubscribe q cb destroyRef onErr selfRemoving h)).
Proof.
  intros Hn. unfold Sync.internalSubscribe. cbn [Sync.fresh].
  set (subscriber := Sync.mkSubscriber _ _ _).
  set (h1 := Sync.withSubscribers _ _).
  assert (n <= Sync.nextId h1 /\
          (forall t, teardownBelow n t -> tornDown t h -> tornDown t h1) /\
          (forall reg, reg < n ->
             Sync.lookup reg (Sync.registrations h1) = Sync.lookup reg (Sync.registrations h)))
    as K.
  { repeat split; [simpl; lia|].
    intros [q' id|e] Hb T; simpl in *; [|exact T].
    unfold subscriberGone in *.
    destruct (String.eqb_spec q' q) as [->|Hq].
    - rewrite mget_mset_same. split.
      + intros E. apply app_eq_nil in E as [_ E]. discriminate.
      + rewrite forallb_app. apply andb_true_intro. split.
        * destruct (mget q (Sync.subscribers h)); [apply T|reflexivity].
        * simpl. rewrite Bool.andb_true_r. apply Bool.negb_true_iff, Nat.eqb_neq. lia.
    - now rewrite mget_mset_other. }
  destruct destroyRef; simpl; exact K.
Qed.

Lemma keeps_registration reg r h :
  n <= reg ->
  keeps h (Sync.withRegistrations (Sync.store reg r (Sync.registrations h)) h).
Proof.
  intros Hreg Hn. repeat split; [exact Hn|intros t _ T; exact T|].
  intros reg' Hr. simpl. apply lookup_store_other. lia.
Qed.

Lemma keeps_pushUnsubscriber reg t h : n <= reg -> keeps h (Sync.pushUnsubscriber reg t h).
Proof.
  intros Hreg. unfold Sync.pushUnsubscriber.
  destruct (Sync.lookup reg (Sync.registrations h));
    [exact (keeps_registration reg _ h Hreg)|apply keeps_refl].
Qed.

Lemma keeps_setMainSubscription reg t h :
  n <= reg -> keeps h (Sync.setMainSubscription reg t h).
Proof.
  intros Hreg. unfold Sync.setMainSubscription.
  destruct (Sync.lookup reg (Sync.registrations h));
    [exact (keeps_registration reg _ h Hreg)|apply keeps_refl].
Qed.

Lemma keeps_newEffect b h :
  keeps h (Sync.withEffects
             (Sync.effects (snd (Sync.fresh h)) ++ [Sync.mkEffect (Sync.nextId h) b])
             (snd (Sync.fresh h))).
Proof.
  intros Hn. repeat split; [simpl; lia|].
  intros [q' id|e] Hb T; simpl in *; [exact T|].
  rewrite forallb_app, T. simpl. rewrite Bool.andb_true_r.
  apply Bool.negb_true_iff, Nat.eqb_neq. lia.
Qed.

Lemma keeps_installCondition reg h c : n <= reg -> keeps h (Sync.installCondition reg h c).
Proof.
  intros Hreg. destruct c as [k|s]; unfold Sync.installCondition.
  - pose proof (keeps_internalSubscribe k (Sync.CbUnsubscribeAll reg) None None true h) as K.
    destruct (Sync.internalSubscribe k (Sync.CbUnsubscribeAll reg) None None true h)
      as [sub h1]. simpl in K.
    exact (keeps_trans _ _ _ K (keeps_pushUnsubscriber reg sub h1 Hreg)).
  - cbn [Sync.fresh].
    exact (keeps_trans _ _ _ (keeps_newEffect (Sync.UntilSignal s reg) h)
             (keeps_pushUnsubscriber reg _ _ Hreg)).
Qed.

Lemma keeps_conditions reg conds : forall h,
  n <= reg -> keeps h (fold_left (Sync.installCondition reg) conds h).
Proof.
  induction conds as [|c conds IH]; intros h Hreg; simpl; [apply keeps_refl|].
  exact (keeps_trans _ _ _ (keeps_installCondition reg h c Hreg) (IH _ Hreg)).
Qed.

Lemma keeps_replay o h : keeps h (Sync.replay behaviour o h).
Proof.
  unfold Sync.replay. destruct (Sync.optReplayLatest o); [|apply keeps_refl].
  destruct (Sync.findLatestEventForKey (Sync.optKey o) h) as [ev|]; [|apply keeps_refl].
  pose proof (keeps_invoke (Sync.optCallback o) ev h) as K.
  destruct (Sync.invoke behaviour (Sync.optCallback o) ev h) as [out h1]. simpl in K.
  destruct out; try exact K.
  eapply keeps_trans; [exact K|apply keeps_handleError].
Qed.

Lemma keeps_on o h : keeps h (snd (Sync.on behaviour o h)).
Proof.
  intros Hn. revert Hn. change (keeps h (snd (Sync.on behaviour o h))).
  unfold Sync.on. destruct (falsy (Sync.optKey o)); [apply keeps_refl|].
  destruct (negb (Sync.isFunction (Sync.optCallback o))); [apply keeps_refl|].
  destruct (existsb _ _); [apply keeps_refl|].
  cbn [Sync.fresh].
  set (conds := match Sync.conditionsOf (Sync.optUntil o) with
                | Some cs => cs
                | None => []
                end).
  set (h0 := Sync.withNextId _ h).
  set (h1 := Sync.withRegistrations _ h0).
  intros Hn.
  assert (keeps h h0) as K0 by (apply keeps_same; try reflexivity; simpl; lia).
  pose proof (keeps_registration (Sync.nextId h) (Sync.mkRegistration [] None) h0 Hn) as K1.
  fold h1 in K1.
  pose proof (keeps_conditions (Sync.nextId h) conds h1 Hn) as K2.
  set (h2 := fold_left _ conds h1) in *.
  pose proof (keeps_replay o h2) as K3.
  set (h3 := Sync.replay behaviour o h2) in *.
  pose proof (keeps_internalSubscribe (Sync.optKey o) (Sync.optCallback o)
                (Sync.optDestroyRef o) (Sync.optOnError o) false h3) as K4.
  destruct (Sync.internalSubscribe _ _ _ _ false h3) as [main h4]. simpl in K4. simpl.
  pose proof (keeps_setMainSubscription (Sync.nextId h) main h4 Hn) as K5.
  exact (keeps_trans _ _ _ K0
           (keeps_trans _ _ _ K1
              (keeps_trans _ _ _ K2
                 (keeps_trans _ _ _ K3 (keeps_trans _ _ _ K4 K5)))) Hn).
Qed.

Lemma keeps_once o h : keeps h (snd (Sync.once behaviour o h)).
Proof.
  unfold Sync.once. cbn [Sync.fresh].
  set (h1 := Sync.withOnceCells _ _).
  set (o' := Sync.mkOptions _ _ _ _ _ _).
  assert (keeps h h1) as K1 by (apply keeps_same; try reflexivity; simpl; lia).
  pose proof (keeps_on o' h1) as K2.
  destruct (Sync.on behaviour o' h1) as [r h2]. simpl in K2.
  destruct r as [s|err]; simpl.
  - eapply keeps_trans; [exact K1|]. eapply keeps_trans; [exact K2|].
    now apply keeps_same.
  - eapply keeps_trans; eassumption.
Qed.

Lemma keeps_onCombineLatest o h : keeps h (snd (Sync.onCombineLatest o h)).
Proof.
  unfold Sync.onCombineLatest.
  destruct (Sync.optKeys o); [apply keeps_refl|].
  destruct (Sync.firstToSignalError _); [apply keeps_refl|].
  cbn [Sync.fresh].
  pose proof (keeps_newEffect
                (Sync.CombineLatest o (Sync.mkCombineState false [] None)) h) as K.
  cbn [Sync.fresh snd] in K.
  destruct (Sync.optCombineDestroyRef o); simpl; [|exact K].
  eapply keeps_trans; [exact K|]. now apply keeps_same.
Qed.

Lemma keeps_hooks (hooks : list (nat * Sync.Teardown)) : forall h,
  keeps h (fold_left (fun acc hook => Sync.runTeardown (snd hook) acc) hooks h).
Proof.
  induction hooks as [|hook hooks IH]; intros h; simpl; [apply keeps_refl|].
  eapply keeps_trans; [apply keeps_runTeardown|apply IH].
Qed.

Lemma keeps_triggerDestroy d h : keeps h (Sync.triggerDestroy d h).
Proof.
  unfold Sync.triggerDestroy.
  eapply keeps_trans; [apply keeps_hooks|]. now apply keeps_same.
Qed.

Lemma keeps_reset b h : keeps h (Sync.reset b h).
Proof.
  unfold Sync.reset.
  eapply keeps_trans; [apply (keeps_same h (Sync.withRegistry [] h)); reflexivity|].
  destruct b; [|apply keeps_refl].
  intros Hn. repeat split; [exact Hn|].
  intros [q id|e] _ T; simpl in *; [exact I|exact T].
Qed.

Lemma keeps_updateEffect e b h : keeps h (Sync.updateEffect e b h).
Proof.
  intros Hn. repeat split; [exact Hn|].
  intros [q id|x] _ T; simpl in *; [exact T|].
  rewrite forallb_forall in *. intros y Hy. apply in_map_iff in Hy as (z & <- & Hz).
  specialize (T z Hz). destruct (Nat.eqb_spec (Sync.eid z) e) as [E|E]; simpl; [|exact T].
  now rewrite <- E.
Qed.

Lemma keeps_runCombine e o st h :
  keeps h (Sync.runCombine combineBehaviour localeCompare e o st h).
Proof.
  unfold Sync.runCombine.
  repeat match goal with
         | |- keeps _ (if ?c then _ else _) => destruct c
         | |- keeps _ (match ?c with Some _ => _ | None => _ end) => destruct c
         end; try apply keeps_updateEffect.
  set (h1 := Sync.updateEffect _ _ h).
  assert (keeps h (Sync.addLog (Sync.CombineCalled e (Sync.optCombineCallback o) l) h1)) as K
    by (eapply keeps_trans; [apply keeps_updateEffect|apply keeps_log]).
  destruct (combineBehaviour _ _); try exact K.
  eapply keeps_trans; [exact K|].
  unfold Sync.reportCombineError. destruct (Sync.optCombineOnError o); apply keeps_log.
Qed.

Lemma keeps_runEffect eff h : keeps h (Sync.runEffect combineBehaviour localeCompare eff h).
Proof.
  unfold Sync.runEffect. destruct (Sync.body eff) as [s reg|o st].
  - destruct (Sync.readSignal s h); [apply keeps_unsubscribeAll|apply keeps_refl].
  - apply keeps_runCombine.
Qed.

Lemma keeps_flushPending pending : forall h,
  keeps h (Sync.flushPending combineBehaviour localeCompare pending h).
Proof.
  induction pending as [|x pending IH]; intros h; simpl; [apply keeps_refl|].
  eapply keeps_trans; [|apply IH].
  destruct (Sync.findEffect x h); [apply keeps_runEffect|apply keeps_refl].
Qed.

Lemma keeps_tasks tasks : forall h, keeps h (fold_left Sync.runTask tasks h).
Proof.
  induction tasks as [|t tasks IH]; intros h; simpl; [apply keeps_refl|].
  eapply keeps_trans; [|apply IH]. destruct t. apply keeps_handleError.
Qed.

End Keeps.

Section Evolves.
Variable behaviour : nat -> HubEvent -> Outcome.
Variable combineBehaviour : nat -> list HubEvent -> Outcome.
Variable localeCompare : string -> string -> Z.

(** The states a program can bring the service to from state [h0] on,
    through its public methods, the handles they return, its signals,
    the scheduler and the clock. *)
Inductive evolves (h0 : Sync.Hub) : Sync.Hub -> Prop :=
| evolves_refl : evolves h0 h0
| evolves_publish h k d : evolves h0 h -> evolves h0 (snd (Sync.publish behaviour k d h))
| evolves_on h o : evolves h0 h -> evolves h0 (snd (Sync.on behaviour o h))
| evolves_once h o : evolves h0 h -> evolves h0 (snd (Sync.once behaviour o h))
| evolves_onCombineLatest h o : evolves h0 h -> evolves h0 (snd (Sync.onCombineLatest o h))
| evolves_unsubscribe h s : evolves h0 h -> evolves h0 (Sync.runSubscription s h)
| evolves_destroy h d : evolves h0 h -> evolves h0 (Sync.triggerDestroy d h)
| evolves_clearEvent h k : evolves h0 h -> evolves h0 (snd (Sync.clearEvent k h))
| evolves_reset h b : evolves h0 h -> evolves h0 (Sync.reset b h)
| evolves_setSignal h s b : evolves h0 h -> evolves h0 (Sync.setSignal s b h)
| evolves_flushEffects h :
    evolves h0 h -> evolves h0 (Sync.flushEffects combineBehaviour localeCompare h)
| evolves_runMicrotasks h : evolves h0 h -> evolves h0 (Sync.runMicrotasks h)
| evolves_tick h dt : evolves h0 h -> evolves h0 (Sync.tick dt h).

Lemma evolves_keeps n h0 z : evolves h0 z -> keeps n h0 z.
Proof.
  induction 1 as [|h k d _ IH|h o _ IH|h o _ IH|h o _ IH|h s _ IH|h d _ IH
                 |h k _ IH|h b _ IH|h s b _ IH|h _ IH|h _ IH|h dt _ IH];
    [apply keeps_refl|eapply keeps_trans; [exact IH|]..].
  - apply keeps_publish.
  - apply keeps_on.
  - apply keeps_once.
  - apply keeps_onCombineLatest.
  - apply keeps_runSubscription.
  - apply keeps_triggerDestroy.
  - unfold Sync.clearEvent. destruct (falsy k); [apply keeps_refl|]. now apply keeps_same.
  - apply keeps_reset.
  - now apply keeps_same.
  - apply keeps_flushPending.
  - unfold Sync.runMicrotasks.
    eapply keeps_trans; [apply (keeps_same n h (Sync.withMicrotasks [] h)); reflexivity|].
    apply keeps_tasks.
  - now apply keeps_same.
Qed.

(** Handle [s] was handed out before state [h]: its teardown, or the
    registration of the call of [on] it belongs to, is of that state. *)
Definition issued (s : Sync.HubSubscription) (h : Sync.Hub) : Prop :=
  match s with
  | Sync.Inert => True
  | Sync.Single t => teardownBelow (Sync.nextId h) t
  | Sync.UnsubscribeAll reg => Sync.lookup reg (Sync.registrations h) <> None
  end.

(** Once a handle was used, it has nothing left to do, whatever happened
    to the hub since. *)
Lemma sync_used_handle_stays s h z :
  wellFormed h -> issued s h -> evolves (Sync.runSubscription s h) z ->
  Sync.runSubscription s z = z.
Proof.
  intros W I Ev.
  pose proof (sync_runSubscription_step s h) as S.
  destruct (evolves_keeps (Sync.nextId h) _ _ Ev) as (_ & T & R);
    [rewrite (step_nextId _ _ _ _ S); lia|].
  destruct s as [|t|reg]; simpl in *.
  - reflexivity.
  - apply tornDown_fixed, (T t I), tornDown_after.
  - unfold Sync.unsubscribeAll at 1.
    destruct (Sync.lookup reg (Sync.registrations h)) as [r|] eqn:L; [|congruence].
    destruct (wf_registrations h W reg r (lookup_In _ _ _ L)) as [Hreg [Bu Bm]].
    rewrite (R reg Hreg), sync_unsubscribeAll_registrations, L.
    assert (forall t, In t (Sync.unsubscribers r) \/ Sync.mainSubscription r = Some t ->
              tornDown t z) as Done.
    { intros t Ht.
      assert (teardownBelow (Sync.nextId h) t) as B by (destruct Ht; auto).
      apply (T t B). unfold Sync.unsubscribeAll. rewrite L.
      destruct (tornDown_all (Sync.unsubscribers r) h) as [_ D].
      destruct Ht as [Ht|Ht].
      - destruct (Sync.mainSubscription r); [apply tornDown_stable|]; now apply D.
      - rewrite Ht. apply tornDown_after. }
    rewrite tornDown_all_fixed by (intros t Ht; apply Done; now left).
    destruct (Sync.mainSubscription r) as [main|]; [|reflexivity].
    apply tornDown_fixed, Done. now right.
Qed.

End Evolves.

Section Issued.
Variable behaviour : nat -> HubEvent -> Outcome.

Lemma registered_pushUnsubscriber reg reg' t h :
  Sync.lookup reg (Sync.registrations h) <> None ->
  Sync.lookup reg (Sync.registrations (Sync.pushUnsubscriber reg' t h)) <> None.
Proof.
  intros L. unfold Sync.pushUnsubscriber.
  destruct (Sync.lookup reg' (Sync.registrations h)) as [r|] eqn:E; [|exact L]. simpl.
  destruct (Nat.eq_dec reg reg') as [->|Hne].
  - rewrite lookup_store_same. discriminate.
  - now rewrite lookup_store_other.
Qed.

Lemma registered_installCondition reg reg' h c :
  Sync.lookup reg (Sync.registrations h) <> None ->
  Sync.lookup reg (Sync.registrations (Sync.installCondition reg' h c)) <> None.
Proof.
  intros L. destruct c as [k|s]; unfold Sync.installCondition.
  - destruct (internalSubscribe_spec k (Sync.CbUnsubscribeAll reg') None None true h)
      as (_ & _ & R & _).
    destruct (Sync.internalSubscribe k (Sync.CbUnsubscribeAll reg') None None true h)
      as [sub h1]. simpl in R.
    apply registered_pushUnsubscriber. now rewrite R.
  - cbn [Sync.fresh]. now apply registered_pushUnsubscriber.
Qed.

Lemma registered_conditions reg reg' conds : forall h,
  Sync.lookup reg (Sync.registrations h) <> None ->
  Sync.lookup reg (Sync.registrations (fold_left (Sync.installCondition reg') conds h))
  <> None.
Proof.
  induction conds as [|c conds IH]; intros h L; simpl; [exact L|].
  apply IH. now apply registered_installCondition.
Qed.

Lemma replay_registrations o h :
  Sync.registrations (Sync.replay behaviour o h) = Sync.registrations h.
Proof.
  unfold Sync.replay. destruct (Sync.optReplayLatest o); [|reflexivity].
  destruct (Sync.findLatestEventForKey (Sync.optKey o) h) as [ev|]; [|reflexivity].
  destruct (sync_invoke_step behaviour (Sync.optCallback o) ev h) as (added & S & _).
  destruct (Sync.invoke behaviour (Sync.optCallback o) ev h) as [out h1]. simpl in S.
  pose proof (step_registrations _ _ _ _ S) as R.
  destruct out; try exact R.
  now rewrite (step_registrations _ _ _ _ (sync_handleError_step _ _ _ _ h1)).
Qed.

Lemma issued_on o h s :
  fst (Sync.on behaviour o h) = Ok s -> issued s (snd (Sync.on behaviour o h)).
Proof.
  unfold Sync.on. destruct (falsy (Sync.optKey o)); [discriminate|].
  destruct (negb (Sync.isFunction (Sync.optCallback o))); [discriminate|].
  destruct (existsb _ _); simpl; [intros E; inversion E; exact I|].
  cbn [Sync.fresh].
  set (conds := match Sync.conditionsOf (Sync.optUntil o) with
                | Some cs => cs
                | None => []
                end).
  set (h1 := Sync.withRegistrations _ _).
  assert (Sync.lookup (Sync.nextId h) (Sync.registrations h1) <> None) as L1
    by (subst h1; simpl; rewrite lookup_store_same; discriminate).
  pose proof (registered_conditions _ (Sync.nextId h) conds h1 L1) as L2.
  set (h2 := fold_left _ conds h1) in *.
  rewrite <- (replay_registrations o h2) in L2.
  set (h3 := Sync.replay behaviour o h2) in *.
  destruct (internalSubscribe_spec (Sync.optKey o) (Sync.optCallback o)
              (Sync.optDestroyRef o) (Sync.optOnError o) false h3) as (_ & _ & R & _).
  destruct (Sync.internalSubscribe _ _ _ _ false h3) as [main h4]. simpl in R.
  simpl. intros E. inversion E; subst s. simpl.
  unfold Sync.setMainSubscription. rewrite R.
  destruct (Sync.lookup (Sync.nextId h) (Sync.registrations h3)); [|congruence].
  simpl. rewrite lookup_store_same. discriminate.
Qed.

Lemma issued_once o h s :
  fst (Sync.once behaviour o h) = Ok s -> issued s (snd (Sync.once behaviour o h)).
Proof.
  unfold Sync.once. cbn [Sync.fresh].
  set (h1 := Sync.withOnceCells _ _).
  set (o' := Sync.mkOptions _ _ _ _ _ _).
  pose proof (issued_on o' h1) as I.
  destruct (Sync.on behaviour o' h1) as [r h2]. simpl in I.
  destruct r as [s'|err]; simpl; [|discriminate].
  intros E. inversion E; subst s'. specialize (I s eq_refl).
  destruct s; exact I.
Qed.

Lemma issued_onCombineLatest o h s :
  fst (Sync.onCombineLatest o h) = Ok s -> issued s (snd (Sync.onCombineLatest o h)).
Proof.
  unfold Sync.onCombineLatest. destruct (Sync.optKeys o); [discriminate|].
  destruct (Sync.firstToSignalError _); [discriminate|].
  cbn [Sync.fresh].
  destruct (Sync.optCombineDestroyRef o); simpl; intros E; inversion E; simpl; lia.
Qed.

End Issued.

(** ** The queued service: a handle removes by function reference *)

Lemma callback_eqb_eq a : forall b, Queued.callback_eqb a b = true -> a = b.
Proof.
  induction a as [f| |c u IH|c u IH]; intros [g| |d v|d v]; simpl; try discriminate.
  - intros E. apply Nat.eqb_eq in E. now subst.
  - reflexivity.
  - intros E. apply andb_prop in E as [E1 E2]. apply Nat.eqb_eq in E1.
    now rewrite E1, (IH v E2).
  - intros E. apply andb_prop in E as [E1 E2]. apply Nat.eqb_eq in E1.
    now rewrite E1, (IH v E2).
Qed.

Lemma queued_withSubscribers_same h : Queued.withSubscribers (Queued.subscribers h) h = h.
Proof. now destruct h. Qed.

(** Function [cb] is registered under [query]. *)
Definition queuedRegistered (query : string) (cb : Queued.Callback) (h : Queued.Hub) : Prop :=
  exists entries en,
    mget query (Queued.subscribers h) = Some entries /\ In en entries /\
    Queued.callback en = cb.

(** No list of the registry is empty: [unsubscribe] deletes the key of a
    list it has emptied, and [internalSubscribe] only appends. *)
Definition queuedTidy (h : Queued.Hub) : Prop :=
  forall query, mget query (Queued.subscribers h) <> Some [].

Lemma queued_unsubscribe_gone q cb h :
  queuedTidy h -> ~ queuedRegistered q cb h -> Queued.unsubscribe q cb h = h.
Proof.
  intros Tidy Gone. unfold Queued.unsubscribe.
  destruct (mget q (Queued.subscribers h)) as [entries|] eqn:E; [|reflexivity].
  assert (forallb (fun sub => negb (Queued.callback_eqb (Queued.callback sub) cb)) entries
          = true) as All.
  { apply forallb_forall. intros en Hen.
    destruct (Queued.callback_eqb (Queued.callback en) cb) eqn:B; [|reflexivity].
    exfalso. apply Gone. exists entries, en. repeat split; auto.
    now apply callback_eqb_eq. }
  rewrite (filter_all_true _ _ All).
  destruct entries as [|en entries]; [exfalso; exact (Tidy q E)|].
  rewrite (mset_same _ _ _ E). apply queued_withSubscribers_same.
Qed.

Lemma queued_unsubscribe_removes q cb h :
  queuedRegistered q cb h ->
  ~ queuedRegistered q cb (Queued.unsubscribe q cb h) /\ Queued.unsubscribe q cb h <> h.
Proof.
  intros Reg.
  assert (~ queuedRegistered q cb (Queued.unsubscribe q cb h)) as Gone.
  { intros (entries & en & E & Hen & Ecb).
    exact (queuedAbsent_after q cb h entries en E Hen Ecb). }
  split; [exact Gone|]. intros Same. apply Gone. now rewrite Same.
Qed.

Lemma queued_unsubscribe_tidy q cb h : queuedTidy h -> queuedTidy (Queued.unsubscribe q cb h).
Proof.
  intros Tidy q'. unfold Queued.unsubscribe.
  destruct (mget q (Queued.subscribers h)) as [entries|] eqn:E; [|apply Tidy].
  destruct (filter _ entries) as [|x xs] eqn:F; simpl.
  - destruct (String.eqb_spec q' q) as [->|Hne].
    + rewrite mget_mdelete_same. discriminate.
    + rewrite mget_mdelete_other by exact Hne. apply Tidy.
  - destruct (String.eqb_spec q' q) as [->|Hne].
    + rewrite mget_mset_same. discriminate.
    + rewrite mget_mset_other by exact Hne. apply Tidy.
Qed.

Lemma queued_internalSubscribe_tidy q cb destroyRef onErr h :
  queuedTidy h -> queuedTidy (snd (Queued.internalSubscribe q cb destroyRef onErr h)).
Proof.
  intros Tidy. unfold Queued.internalSubscribe.
  set (h1 := Queued.withSubscribers _ h).
  assert (queuedTidy h1) as T1.
  { intros q'. subst h1. simpl. destruct (String.eqb_spec q' q) as [->|Hne].
    - rewrite mget_mset_same. intros E. inversion E as [E'].
      apply app_eq_nil in E' as [_ E']. discriminate.
    - rewrite mget_mset_other by exact Hne. apply Tidy. }
  destruct destroyRef; exact T1.
Qed.

(** The options of [subscribe({ key: "k", callback: f })], [f] being [1]. *)
Definition subscribeK : Queued.HubEventOptions :=
  Queued.mkOptions "k" (Queued.CbUser 1) None false None.

(** In the queued service a handle whose subscription is already removed
    is not a no-op once the same function is subscribed again under the
    same key: the old handle removes the new subscription. *)
Lemma stale_handle_removes_new_subscription :
  exists s1 h1 s2 h2,
    Queued.subscribe (fun _ _ => Returned) subscribeK Queued.empty = (Ok s1, h1) /\
    Queued.subscribers (Queued.runSubscription s1 h1) = [] /\
    Queued.subscribe (fun _ _ => Returned) subscribeK (Queued.runSubscription s1 h1)
    = (Ok s2, h2) /\
    Queued.subscribers h2 = [("k"%string, [Queued.mkEntry (Queued.CbUser 1) None])] /\
    Queued.subscribers (Queued.runSubscription s1 h2) = [] /\
    Queued.runSubscription s1 h2 <> h2.
Proof.
  do 4 eexists. repeat split.
  intros E. apply (f_equal Queued.subscribers) in E. vm_compute in E. discriminate.
Qed.

Section QueuedReaches.
Variable behaviour : nat -> HubEvent -> Outcome.

(** The states a program can bring the queued service to, through its
    public methods, the handles they return, the destroy hooks of
    owners, the scheduler and the clock. *)
Inductive queuedReaches : Queued.Hub -> Prop :=
| queuedReaches_empty : queuedReaches Queued.empty
| queuedReaches_publish h k d : queuedReaches h -> queuedReaches (snd (Queued.publish k d h))
| queuedReaches_publishNoData h k :
    queuedReaches h -> queuedReaches (snd (Queued.publishNoData k h))
| queuedReaches_subscribe h o :
    queuedReaches h -> queuedReaches (snd (Queued.subscribe behaviour o h))
| queuedReaches_subscribeAsync h o :
    queuedReaches h -> queuedReaches (snd (Queued.subscribeAsync behaviour o h))
| queuedReaches_on h o : queuedReaches h -> queuedReaches (snd (Queued.on behaviour o h))
| queuedReaches_onAsync h o :
    queuedReaches h -> queuedReaches (snd (Queued.onAsync behaviour o h))
| queuedReaches_once h o : queuedReaches h -> queuedReaches (snd (Queued.once behaviour o h))
| queuedReaches_onceAsync h o :
    queuedReaches h -> queuedReaches (snd (Queued.onceAsync behaviour o h))
| queuedReaches_unsubscribe h s : queuedReaches h -> queuedReaches (Queued.runSubscription s h)
| queuedReaches_destroy h d : queuedReaches h -> queuedReaches (Queued.triggerDestroy d h)
| queuedReaches_clearEvent h k : queuedReaches h -> queuedReaches (snd (Queued.clearEvent k h))
| queuedReaches_reset h b : queuedReaches h -> queuedReaches (Queued.reset b h)
| queuedReaches_unsubscribeAll h k :
    queuedReaches h -> queuedReaches (Queued.unsubscribeAll k h)
| queuedReaches_settle h : queuedReaches h -> queuedReaches (Queued.settle behaviour h)
| queuedReaches_tick h dt : queuedReaches h -> queuedReaches (Queued.tick dt h).

Lemma queuedTidy_same h h' :
  Queued.subscribers h' = Queued.subscribers h -> queuedTidy h -> queuedTidy h'.
Proof. intros E T q. rewrite E. apply T. Qed.

Lemma queued_runSubscription_tidy s h : queuedTidy h -> queuedTidy (Queued.runSubscription s h).
Proof.
  intros T. unfold Queued.runSubscription.
  destruct (Queued.manualUnsubscribe s); [now apply queued_unsubscribe_tidy|exact T].
Qed.

Lemma queued_invoke_tidy cb : forall ev h,
  queuedTidy h -> queuedTidy (snd (Queued.invoke behaviour cb ev h)).
Proof.
  induction cb as [f| |c user IH|c user IH]; intros ev h T; simpl.
  - exact T.
  - exact T.
  - destruct (Queued.hasRun _); [exact T|].
    match goal with
    | |- context [Queued.invoke behaviour user ev ?x] =>
        assert (queuedTidy x) as Tx
    end.
    { destruct (Queued.subscription _); [apply queued_runSubscription_tidy|]; exact T. }
    specialize (IH ev _ Tx). destruct (Queued.invoke behaviour user ev _) as [out h3].
    exact IH.
  - match goal with
    | |- context [Queued.invoke behaviour user ev ?x] =>
        assert (queuedTidy x) as Tx by exact T; specialize (IH ev x Tx)
    end.
    destruct (Queued.invoke behaviour user ev _) as [out h1]. simpl in IH.
    destruct out; exact IH.
Qed.

Lemma queued_runTask_tidy t h : queuedTidy h -> queuedTidy (Queued.runTask behaviour t h).
Proof.
  intros T. destruct t as [q en ev|q en error ev|c]; simpl.
  - pose proof (queued_invoke_tidy (Queued.callback en) ev h T) as I.
    destruct (Queued.invoke behaviour (Queued.callback en) ev h) as [out h1]. simpl in I.
    destruct out; exact I.
  - destruct (Queued.onError en); exact T.
  - destruct (Queued.subscription _); [now apply queued_runSubscription_tidy|exact T].
Qed.

Lemma queued_runTasks_tidy fuel : forall h,
  queuedTidy h -> queuedTidy (Queued.runTasks behaviour fuel h).
Proof.
  induction fuel as [|fuel IH]; intros h T; simpl; [exact T|].
  destruct (Queued.microtasks h) as [|t rest]; [exact T|].
  apply IH, queued_runTask_tidy. exact T.
Qed.

Lemma queued_notifySubscribers_subscribers ev h :
  Queued.subscribers (Queued.notifySubscribers ev h) = Queued.subscribers h.
Proof.
  unfold Queued.notifySubscribers.
  assert (forall groups x,
            Queued.subscribers
              (fold_left
                 (fun acc group =>
                    if Queued.matchQuery (key ev) (fst group)
                    then fold_left
                           (fun acc' entry => Queued.addTask (Queued.TCall (fst group) entry ev) acc')
                           (snd group) acc
                    else acc) groups x)
            = Queued.subscribers x) as F.
  { induction groups as [|g groups IH]; intros x; simpl; [reflexivity|].
    rewrite IH. destruct (Queued.matchQuery (key ev) (fst g)); [|reflexivity].
    generalize x. induction (snd g) as [|en l IHl]; intros y; simpl; [reflexivity|].
    now rewrite IHl. }
  apply F.
Qed.

Lemma queued_drainQueue_subscribers h :
  Queued.subscribers (Queued.drainQueue h) = Queued.subscribers h.
Proof.
  unfold Queued.drainQueue. destruct (Queued.eventQueue h) as [|ev queue]; [reflexivity|].
  assert (forall q r x,
            Queued.subscribers
              (snd (fold_left
                      (fun (acc : jsmap HubEvent * Queued.Hub) ev0 =>
                         (mset (key ev0) ev0 (fst acc), Queued.notifySubscribers ev0 (snd acc)))
                      q (r, x)))
            = Queued.subscribers x) as F.
  { induction q as [|e q IH]; intros r x; simpl; [reflexivity|].
    rewrite IH. apply queued_notifySubscribers_subscribers. }
  specialize (F (ev :: queue) (Queued.eventRegistry h) h).
  destruct (fold_left _ (ev :: queue) (Queued.eventRegistry h, h)) as [updated h1].
  exact F.
Qed.

Lemma queued_subscribe_tidy o h :
  queuedTidy h -> queuedTidy (snd (Queued.subscribe behaviour o h)).
Proof.
  intros T. unfold Queued.subscribe. destruct (falsy (Queued.optKey o)); [exact T|].
  destruct (negb (Queued.isFunction (Queued.optCallback o))); [exact T|].
  match goal with
  | |- context [Queued.internalSubscribe _ _ _ _ ?x] => assert (queuedTidy x) as Tx
  end.
  { destruct (Queued.optReplayLatest o); [|exact T].
    destruct (mget (Queued.optKey o) (Queued.eventRegistry h)) as [ev|]; [|exact T].
    pose proof (queued_invoke_tidy (Queued.optCallback o) ev h T) as I.
    destruct (Queued.invoke behaviour (Queued.optCallback o) ev h) as [out h']. simpl in I.
    destruct out; try exact I.
    unfold Queued.reportReplayError. destruct (Queued.optOnError o); exact I. }
  pose proof (queued_internalSubscribe_tidy (Queued.optKey o) (Queued.optCallback o)
                (Queued.optDestroyRef o) (Queued.optOnError o) _ Tx) as S.
  destruct (Queued.internalSubscribe _ _ _ _ _) as [s h2]. exact S.
Qed.

Lemma queued_subscribeAsync_tidy o h :
  queuedTidy h -> queuedTidy (snd (Queued.subscribeAsync behaviour o h)).
Proof.
  intros T. unfold Queued.subscribeAsync. destruct (falsy (Queued.optKey o)); [exact T|].
  destruct (negb (Queued.isFunction (Queued.optCallback o))); [exact T|].
  match goal with
  | |- context [Queued.internalSubscribe _ _ _ _ ?x] => assert (queuedTidy x) as Tx
  end.
  { destruct (Queued.optReplayLatest o); [|exact T].
    destruct (mget (Queued.optKey o) (Queued.eventRegistry h)) as [ev|]; [|exact T].
    pose proof (queued_invoke_tidy (Queued.optCallback o) ev h T) as I.
    destruct (Queued.invoke behaviour (Queued.optCallback o) ev h) as [out h']. simpl in I.
    assert (queuedTidy (Queued.runMicrotasks behaviour h')) as R
      by (now apply queued_runTasks_tidy).
    destruct out; try exact R;
      unfold Queued.reportReplayError; destruct (Queued.optOnError o); exact R. }
  pose proof (queued_internalSubscribe_tidy (Queued.optKey o) (Queued.optCallback o)
                (Queued.optDestroyRef o) (Queued.optOnError o) _ Tx) as S.
  destruct (Queued.internalSubscribe _ _ _ _ _) as [s h2]. exact S.
Qed.

Lemma queued_hooks_tidy (hooks : list (nat * (string * Queued.Callback))) : forall h,
  queuedTidy h ->
  queuedTidy (fold_left
                (fun acc hook => Queued.unsubscribe (fst (snd hook)) (snd (snd hook)) acc)
                hooks h).
Proof.
  induction hooks as [|hook hooks IH]; intros h T; simpl; [exact T|].
  apply IH. now apply queued_unsubscribe_tidy.
Qed.

(** In every state the queued service can reach no list of the registry
    is empty. *)
Lemma queuedReaches_tidy h : queuedReaches h -> queuedTidy h.
Proof.
  induction 1 as [|h k d _ IH|h k _ IH|h o _ IH|h o _ IH|h o _ IH|h o _ IH|h o _ IH|h o _ IH
                 |h s _ IH|h d _ IH|h k _ IH|h b _ IH|h k _ IH|h _ IH|h dt _ IH].
  - intros q. discriminate.
  - unfold Queued.publish. destruct (falsy k); [exact IH|].
    destruct (looselyNull d); exact IH.
  - unfold Queued.publishNoData. destruct (falsy k); exact IH.
  - now apply queued_subscribe_tidy.
  - now apply queued_subscribeAsync_tidy.
  - unfold Queued.on. now apply queued_subscribe_tidy.
  - unfold Queued.onAsync. now apply queued_subscribeAsync_tidy.
  - unfold Queued.once, Queued.newClosure.
    match goal with
    | |- context [Queued.subscribe behaviour ?o' ?x] =>
        pose proof (queued_subscribe_tidy o' x IH) as S;
        destruct (Queued.subscribe behaviour o' x) as [r h1]
    end.
    destruct r; exact S.
  - unfold Queued.onceAsync, Queued.newClosure.
    match goal with
    | |- context [Queued.subscribeAsync behaviour ?o' ?x] =>
        pose proof (queued_subscribeAsync_tidy o' x IH) as S;
        destruct (Queued.subscribeAsync behaviour o' x) as [r h1]
    end.
    destruct r; [|exact S]. simpl in S |- *.
    apply (queuedTidy_same (Queued.runMicrotasks behaviour h1)); [reflexivity|].
    now apply queued_runTasks_tidy.
  - now apply queued_runSubscription_tidy.
  - unfold Queued.triggerDestroy.
    eapply queuedTidy_same; [|apply queued_hooks_tidy; exact IH]. reflexivity.
  - unfold Queued.clearEvent. destruct (falsy k); exact IH.
  - unfold Queued.reset. destruct b; [intros q; discriminate|exact IH].
  - unfold Queued.unsubscribeAll. intros q.
    destruct k as [k|]; [|discriminate].
    destruct (falsy k); simpl; [discriminate|].
    destruct (String.eqb_spec q k) as [->|Hne].
    + rewrite mget_mdelete_same. discriminate.
    + rewrite mget_mdelete_other by exact Hne. apply IH.
  - unfold Queued.settle. apply queued_runTasks_tidy.
    eapply queuedTidy_same; [apply queued_drainQueue_subscribers|exact IH].
  - exact IH.
Qed.

End QueuedReaches.

(** C9.  What holds of [handle.unsubscribe()] on a subscription that is
    already removed.  In both services that hand out handles a second
    call right after the first, or a call right after a bulk removal
    ([unsubscribeAll], or [reset] with [clearSubscribers]), leaves the
    state, or the subscriber registry, as it was; the functions are total
    and return a state only, so no call raises.

    In the synchronous service a handle removes subscriber objects and
    effects by identity.  Every handle returned by [on], [once] and
    [onCombineLatest] is one the service has issued; and once an issued
    handle was used, it leaves the state as it is whatever the program
    has done since: publishes, new subscriptions, other handles, destroy
    hooks, resets, signal writes, turns of the effects, the clock.

    In the queued service a handle removes by function reference, every
    entry of its key that holds its function.  It leaves the state as it
    is when no entry of its key holds its function; when one does, put
    there by whatever subscription, it removes it and so changes the
    state.  (This is stated of registries none of whose lists is empty,
    as they are in every state the queued service can reach.) *)
Theorem unsubscribe_idempotent :
  (forall (h : Queued.Hub) q cb,
     Queued.unsubscribe q cb (Queued.unsubscribe q cb h) = Queued.unsubscribe q cb h) /\
  (forall (h : Queued.Hub) s,
     Queued.runSubscription s (Queued.runSubscription s h) = Queued.runSubscription s h) /\
  (forall (h : Queued.Hub) s,
     Queued.runSubscription s (Queued.unsubscribeAll (Some (Queued.sQuery s)) h)
     = Queued.unsubscribeAll (Some (Queued.sQuery s)) h) /\
  (forall (h : Queued.Hub) s,
     Queued.runSubscription s (Queued.unsubscribeAll None h) = Queued.unsubscribeAll None h) /\
  (forall (h : Queued.Hub) s,
     Queued.runSubscription s (Queued.reset true h) = Queued.reset true h) /\
  (forall (h : Sync.Hub) q subscriber,
     Sync.removeSubscriber q subscriber (Sync.removeSubscriber q subscriber h)
     = Sync.removeSubscriber q subscriber h) /\
  (forall (h : Sync.Hub) s,
     Sync.runSubscription s (Sync.runSubscription s h) = Sync.runSubscription s h) /\
  (forall (h : Sync.Hub) s,
     Sync.subscribers (Sync.runSubscription s (Sync.reset true h))
     = Sync.subscribers (Sync.reset true h)) /\
  (forall (behaviour : nat -> HubEvent -> Outcome) (h : Sync.Hub),
     (forall o s, fst (Sync.on behaviour o h) = Ok s ->
                  issued s (snd (Sync.on behaviour o h))) /\
     (forall o s, fst (Sync.once behaviour o h) = Ok s ->
                  issued s (snd (Sync.once behaviour o h))) /\
     (forall o s, fst (Sync.onCombineLatest o h) = Ok s ->
                  issued s (snd (Sync.onCombineLatest o h)))) /\
  (forall (behaviour : nat -> HubEvent -> Outcome)
          (combineBehaviour : nat -> list HubEvent -> Outcome)
          (localeCompare : string -> string -> Z) (h z : Sync.Hub) s,
     wellFormed h -> issued s h ->
     evolves behaviour combineBehaviour localeCompare (Sync.runSubscription s h) z ->
     Sync.runSubscription s z = z) /\
  (forall (h : Queued.Hub) s,
     queuedTidy h ->
     ~ queuedRegistered (Queued.sQuery s) (Queued.sCallback s) h ->
     Queued.runSubscription s h = h) /\
  (forall (h : Queued.Hub) s,
     Queued.manualUnsubscribe s = true ->
     queuedRegistered (Queued.sQuery s) (Queued.sCallback s) h ->
     ~ queuedRegistered (Queued.sQuery s) (Queued.sCallback s) (Queued.runSubscription s h) /\
     Queued.runSubscription s h <> h) /\
  (forall (behaviour : nat -> HubEvent -> Outcome) (h : Queued.Hub),
     queuedReaches behaviour h -> queuedTidy h).
Proof.
  refine (conj _ (conj _ (conj _ (conj _ (conj _ (conj _ (conj _ (conj _
           (conj _ (conj _ (conj _ (conj _ _)))))))))))); intros.
  - apply queued_unsubscribe_twice.
  - apply queued_runSubscription_twice.
  - apply queued_runSubscription_absent. unfold Queued.unsubscribeAll.
    destruct (falsy (Queued.sQuery s)); simpl; [reflexivity|apply mget_mdelete_same].
  - now apply queued_runSubscription_absent.
  - now apply queued_runSubscription_absent.
  - apply (sync_runSubscription_twice (Sync.Single (Sync.RemoveSubscriber q subscriber))).
  - apply sync_runSubscription_twice.
  - now apply sync_runSubscription_no_subscribers.
  - refine (conj _ (conj _ _)); intros o s.
    + apply issued_on.
    + apply issued_once.
    + apply issued_onCombineLatest.
  - eapply sync_used_handle_stays; eassumption.
  - unfold Queued.runSubscription.
    destruct (Queued.manualUnsubscribe s); [now apply queued_unsubscribe_gone|reflexivity].
  - unfold Queued.runSubscription.
    match goal with H : Queued.manualUnsubscribe s = true |- _ => rewrite H end.
    now apply queued_unsubscribe_removes.
  - eapply queuedReaches_tidy; eassumption.
Qed.

(** [on({ key: "a", callback: f })], [f] being [1]. *)
Definition plainOnA : Sync.HubEventOptions :=
  Sync.mkOptions "a" (Sync.CbUser 1) None false None Sync.NoUntil.

Lemma unsubscribe_idempotent_witness :
  let h := snd (Sync.on (fun _ _ => Returned) plainOnA Sync.empty) in
  let z := snd (Sync.on (fun _ _ => Returned) plainOnA
                  (Sync.runSubscription (Sync.UnsubscribeAll 0) h)) in
  Sync.isSubscribed "a" 3 z = true /\
  Sync.runSubscription (Sync.UnsubscribeAll 0) z = z.
Proof.
  intros h z. split; [reflexivity|].
  refine (proj1 (proj2 (proj2 (proj2 (proj2 (proj2 (proj2 (proj2 (proj2 (proj2
            unsubscribe_idempotent)))))))))
            (fun _ _ => Returned) (fun _ _ => Returned) (fun _ _ => 0%Z) h z
            (Sync.UnsubscribeAll 0) _ _ _).
  - apply wellFormed_on; [apply wellFormed_empty|exact I].
  - simpl. discriminate.
  - apply evolves_on, evolves_refl.
Defined.

(* ================================================================== *)
(** * Part III: further properties of the three services *)
(* ================================================================== *)

(** ** The matcher of the first two services, read through [split] *)

Lemma split_no_colon p : includes colon p = false -> split colon p = [p].
Proof.
  induction p as [|a p IH]; simpl; [reflexivity|].
  destruct (Ascii.eqb a colon) eqn:E; simpl; [discriminate|].
  intros H. now rewrite (IH H).
Qed.

Lemma split_first_colon p s :
  includes colon p = false -> split colon (p ++ String colon s) = p :: split colon s.
Proof.
  induction p as [|a p IH]; simpl.
  - intros _. reflexivity.
  - destruct (Ascii.eqb a colon) eqn:E; simpl; [discriminate|].
    intros H. now rewrite (IH H).
Qed.

(** A string with a colon is what stands before its first colon, the
    colon, and the rest. *)
Lemma first_colon k :
  includes colon k = true ->
  exists p s, includes colon p = false /\ k = (p ++ String colon s)%string.
Proof.
  induction k as [|a k IH]; simpl; [discriminate|].
  destruct (Ascii.eqb_spec a colon) as [->|Hne]; simpl.
  - intros _. exists EmptyString, k. split; reflexivity.
  - intros H. destruct (IH H) as (p & s & Hp & ->).
    exists (String a p), s. split; [|reflexivity].
    simpl. destruct (Ascii.eqb_spec a colon); [congruence|exact Hp].
Qed.

Lemma includes_app c a b : includes c (a ++ b) = includes c a || includes c b.
Proof.
  induction a as [|x a IH]; simpl; [reflexivity|].
  now rewrite IH, Bool.orb_assoc.
Qed.

Lemma app_inv_colon p p' s s' :
  includes colon p = false -> includes colon p' = false ->
  (p ++ String colon s = p' ++ String colon s')%string -> p = p' /\ s = s'.
Proof.
  revert p'. induction p as [|a p IH]; intros [|a' p']; simpl.
  - intros _ _ E. inversion E. now split.
  - intros _ H E. inversion E; subst a'. now rewrite Ascii.eqb_refl in H.
  - intros H _ E. inversion E; subst a. now rewrite Ascii.eqb_refl in H.
  - intros H H' E. inversion E; subst a'.
    destruct (Ascii.eqb a colon); [discriminate|]. simpl in H, H'.
    destruct (IH p' H H' H2) as [-> ->]. now split.
Qed.

(** The first part of [t.split(':')] is ["*"] exactly when [t] is ["*"]
    or starts with ["*:"]. *)
Lemma first_part_star t :
  slot 0 (split colon t) = Some "*" <->
  t = "*" \/ exists t', t = ("*:" ++ t')%string.
Proof.
  destruct (includes colon t) eqn:C.
  - destruct (first_colon t C) as (p & s & Hp & ->).
    rewrite (split_first_colon p s Hp). simpl. split.
    + intros E. inversion E; subst p. right. now exists s.
    + intros [E|(t' & E)].
      * exfalso. rewrite E in C. discriminate.
      * f_equal. change ("*:" ++ t')%string with ("*" ++ String colon t')%string in E.
        now destruct (app_inv_colon p "*" s t' Hp eq_refl E).
  - rewrite (split_no_colon t C). simpl. split.
    + intros E. inversion E. now left.
    + intros [->|(t' & ->)]; [reflexivity|discriminate].
Qed.

(** X1.  The matcher of the first and of the queued service accepts a key
    for a pattern exactly when they are equal, or the pattern is ["*"],
    or both have a colon, agree on what stands before their first colon,
    and the second part of the pattern is ["*"].  Only the first two parts
    of the pattern are looked at: whatever follows a second colon of the
    pattern is ignored, and so is everything after the first colon of the
    key. *)
Theorem split_matchQuery_meaning (k q : string) :
  (Queued.matchQuery k q = true <->
   k = q \/ q = "*" \/
   exists p s t,
     includes colon p = false /\
     k = (p ++ ":" ++ s)%string /\ q = (p ++ ":*" ++ t)%string /\
     (t = EmptyString \/ exists t', t = (":" ++ t')%string)) /\
  Bus.matchQuery k q = Queued.matchQuery k q.
Proof.
  split; [|reflexivity].
  unfold Queued.matchQuery.
  destruct (String.eqb_spec k q) as [->|Hkq]; [split; auto|].
  destruct (String.eqb_spec q "*") as [->|Hq]; [split; auto|].
  split.
  - intros H. right. right.
    destruct (includes colon k) eqn:Ck; [|discriminate].
    destruct (includes colon q) eqn:Cq; [|discriminate].
    simpl in H.
    destruct (first_colon k Ck) as (pk & sk & Hpk & ->).
    destruct (first_colon q Cq) as (pq & sq & Hpq & ->).
    rewrite (split_first_colon pk sk Hpk), (split_first_colon pq sq Hpq) in H.
    simpl in H. apply andb_prop in H as [E1 E2].
    apply String.eqb_eq in E1. subst pq.
    change (match split colon sq with [] => None | x :: _ => Some x end)
      with (slot 0 (split colon sq)) in E2.
    unfold option_string_eqb in E2.
    destruct (slot 0 (split colon sq)) as [part|] eqn:S0; [|discriminate].
    apply String.eqb_eq in E2. subst part.
    apply first_part_star in S0.
    destruct S0 as [->|(t' & ->)].
    + exists pk, sk, EmptyString. repeat split; auto.
    + exists pk, sk, (":" ++ t')%string. repeat split; eauto.
  - intros [E|[E|(p & s & t & Hp & -> & -> & Ht)]]; [congruence|congruence|].
    assert (slot 0 (split colon ("*" ++ t)%string) = Some "*") as S0.
    { apply first_part_star. destruct Ht as [->|(t' & ->)]; [now left|right; now exists t']. }
    assert (includes colon (p ++ ":" ++ s) = true) as Ck
      by (rewrite includes_app; simpl; apply Bool.orb_true_r).
    assert (includes colon (p ++ ":*" ++ t) = true) as Cq
      by (rewrite includes_app; simpl; apply Bool.orb_true_r).
    rewrite Ck, Cq. cbn [andb].
    change (p ++ ":" ++ s)%string with (p ++ String colon s)%string.
    change (p ++ ":*" ++ t)%string with (p ++ String colon ("*" ++ t))%string.
    rewrite (split_first_colon p s Hp), (split_first_colon p ("*" ++ t) Hp).
    change (slot 1 (p :: split colon ("*" ++ t)%string))
      with (slot 0 (split colon ("*" ++ t)%string)).
    rewrite S0. simpl. now rewrite String.eqb_refl.
Qed.

(** ** The matcher of the synchronous service, read without the regular
       expression *)

(** A pattern read directly: [*] stands for one or more characters other
    than [:], every other character for itself. *)
Fixpoint wildcard (q : string) (k : string) : bool :=
  match q with
  | EmptyString => falsy k
  | String c q' =>
      if Ascii.eqb c star then
        (fix segment (t : string) : bool :=
           match t with
           | EmptyString => false
           | String a rest =>
               negb (Ascii.eqb a colon) && (wildcard q' rest || segment rest)
           end) k
      else
        match k with
        | String a rest => Ascii.eqb a c && wildcard q' rest
        | EmptyString => false
        end
  end.

(** The atoms a pattern stands for. *)
Fixpoint atomsOf (q : string) : list Regex.Atom :=
  match q with
  | EmptyString => []
  | String c q' => (if Ascii.eqb c star then Regex.Segment else Regex.Lit c) :: atomsOf q'
  end.

Lemma parse_plain c rest fuel :
  Regex.isSpecial c = false ->
  Regex.parse (S fuel) (String c rest) =
  option_map (cons (Regex.Lit c)) (Regex.parse fuel rest).
Proof.
  destruct c as [b0 b1 b2 b3 b4 b5 b6 b7].
  destruct b0, b1, b2, b3, b4, b5, b6, b7; intros H; try discriminate H; reflexivity.
Qed.

Lemma parse_escaped c rest fuel :
  Regex.parse (S fuel) (String backslash (String c rest)) =
  option_map (cons (Regex.Lit c)) (Regex.parse fuel rest).
Proof. reflexivity. Qed.

Lemma parse_segment rest fuel :
  Regex.parse (S fuel) ("[^:]+" ++ rest) =
  option_map (cons Regex.Segment) (Regex.parse fuel rest).
Proof. reflexivity. Qed.

(** The source text built for a pattern always parses, to the atoms of
    the pattern: every character that means something in a regular
    expression has been escaped. *)
Lemma parse_pattern q : forall fuel tail atoms n,
  (forall extra, Regex.parse (n + extra) tail = Some atoms) ->
  String.length q + n <= fuel ->
  Regex.parse fuel (Regex.replaceStars (Regex.escapeSpecials q) ++ tail) =
  Some (atomsOf q ++ atoms).
Proof.
  induction q as [|c q IH]; intros fuel tail atoms n Ht Hf.
  - simpl in *. replace fuel with (n + (fuel - n)) by lia. apply Ht.
  - simpl in Hf. destruct fuel as [|fuel]; [lia|].
    assert (String.length q + n <= fuel) as Hf' by lia.
    specialize (IH fuel tail atoms n Ht Hf').
    cbn [Regex.escapeSpecials atomsOf].
    destruct (Regex.isSpecial c) eqn:Sp.
    + assert (Ascii.eqb c star = false) as Ns.
      { destruct (Ascii.eqb_spec c star) as [->|]; [discriminate Sp|reflexivity]. }
      rewrite Ns. cbn [Regex.replaceStars].
      replace (Ascii.eqb backslash star) with false by reflexivity.
      rewrite Ns. cbn [String.append].
      rewrite parse_escaped, IH. reflexivity.
    + cbn [Regex.replaceStars].
      destruct (Ascii.eqb_spec c star) as [->|Hne].
      * change (("[^:]+" ++ Regex.replaceStars (Regex.escapeSpecials q)) ++ tail)%string
          with ("[^:]+" ++ (Regex.replaceStars (Regex.escapeSpecials q) ++ tail))%string.
        rewrite parse_segment, IH. reflexivity.
      * cbn [String.append]. rewrite parse_plain by exact Sp. rewrite IH. reflexivity.
Qed.

Lemma escapeSpecials_length q :
  String.length q <= String.length (Regex.escapeSpecials q).
Proof.
  induction q as [|c q IH]; simpl; [lia|].
  destruct (Regex.isSpecial c); simpl; lia.
Qed.

Lemma string_length_app (a b : string) :
  String.length (a ++ b) = String.length a + String.length b.
Proof. induction a as [|c a IH]; simpl; [reflexivity|now rewrite IH]. Qed.

Lemma replaceStars_length q :
  String.length q <= String.length (Regex.replaceStars q).
Proof.
  induction q as [|c q IH]; simpl; [lia|].
  destruct (Ascii.eqb c star); simpl; lia.
Qed.

Lemma buildWildcardRegex_parses q :
  Regex.parse (S (String.length (Regex.buildWildcardRegex q))) (Regex.buildWildcardRegex q) =
  Some (Regex.Bol :: atomsOf q ++ [Regex.Eol]).
Proof.
  unfold Regex.buildWildcardRegex.
  set (body := Regex.replaceStars (Regex.escapeSpecials q)).
  change ("^" ++ body ++ "$")%string with (String "^" (body ++ "$")).
  cbn [String.length].
  change (Regex.parse (S (S (String.length (body ++ "$")))) (String "^" (body ++ "$")))
    with (option_map (cons Regex.Bol) (Regex.parse (S (String.length (body ++ "$"))) (body ++ "$"))).
  rewrite (parse_pattern q _ "$" [Regex.Eol] 2); [reflexivity|reflexivity|].
  rewrite string_length_app. simpl.
  pose proof (escapeSpecials_length q). 
  pose proof (replaceStars_length (Regex.escapeSpecials q)). fold body in H0. lia.
Qed.

Lemma matchFrom_anchored more : forall s,
  Regex.matchFrom (Regex.Bol :: more) false s = false.
Proof. induction s as [|a s IH]; simpl; [reflexivity|exact IH]. Qed.

Lemma matchHere_wildcard q : forall b k,
  Regex.matchHere (atomsOf q ++ [Regex.Eol]) b k = wildcard q k.
Proof.
  induction q as [|c q IH]; intros b k.
  - simpl. now rewrite Bool.andb_true_r.
  - cbn [atomsOf app wildcard]. destruct (Ascii.eqb c star).
    + cbn [Regex.matchHere]. induction k as [|a k IHk]; [reflexivity|].
      rewrite IH, IHk. reflexivity.
    + cbn [Regex.matchHere]. destruct k as [|a k]; [reflexivity|]. now rewrite IH.
Qed.

(** The test of the built expression, computed on the pattern itself. *)
Lemma test_buildWildcardRegex (q k : string) :
  Regex.test (Sync.buildWildcardRegex q) k = wildcard q k.
Proof.
  unfold Regex.test, Sync.buildWildcardRegex. rewrite buildWildcardRegex_parses.
  destruct k as [|a k]; cbn [Regex.matchFrom Regex.matchHere andb].
  - rewrite Bool.orb_false_r. apply matchHere_wildcard.
  - rewrite matchFrom_anchored, Bool.orb_false_r. apply matchHere_wildcard.
Qed.

(** X2.  The regular expression [buildWildcardRegex] builds for a pattern
    accepts exactly the keys that the pattern, read directly, stands for:
    [*] is one or more characters other than [:], and every other
    character of the pattern, whatever it means in a regular expression,
    is matched as itself. *)
Theorem buildWildcardRegex_is_wildcard (q k : string) :
  Regex.test (Sync.buildWildcardRegex q) k = wildcard q k.
Proof.
  unfold Regex.test, Sync.buildWildcardRegex. rewrite buildWildcardRegex_parses.
  destruct k as [|a k]; cbn [Regex.matchFrom Regex.matchHere andb].
  - rewrite Bool.orb_false_r. apply matchHere_wildcard.
  - rewrite matchFrom_anchored, Bool.orb_false_r. apply matchHere_wildcard.
Qed.

(** The number of colons of a string: one less than its segments. *)
Fixpoint colons (s : string) : nat :=
  match s with
  | EmptyString => 0
  | String a rest => (if Ascii.eqb a colon then 1 else 0) + colons rest
  end.

Lemma wildcard_literal q : forall k,
  includes star q = false -> wildcard q k = String.eqb k q.
Proof.
  induction q as [|c q IH]; intros k H.
  - destruct k; reflexivity.
  - simpl in H. apply Bool.orb_false_elim in H as [Hc Hq].
    cbn [wildcard]. rewrite Hc. destruct k as [|a k]; [reflexivity|].
    rewrite (IH k Hq). simpl. destruct (Ascii.eqb a c); reflexivity.
Qed.

Lemma wildcard_refl q : wildcard q q = true.
Proof.
  induction q as [|c q IH]; [reflexivity|].
  cbn [wildcard]. destruct (Ascii.eqb_spec c star) as [->|Hne].
  - rewrite IH. reflexivity.
  - now rewrite Ascii.eqb_refl, IH.
Qed.

Lemma wildcard_shape q : forall k,
  wildcard q k = true -> colons k = colons q /\ String.length q <= String.length k.
Proof.
  induction q as [|c q IH]; intros k H.
  - destruct k; [split; reflexivity|discriminate].
  - cbn [wildcard] in H. destruct (Ascii.eqb_spec c star) as [->|Hne].
    + cbn [colons String.length]. replace (Ascii.eqb star colon) with false by reflexivity.
      induction k as [|a k IHk]; [discriminate|].
      apply andb_prop in H as [Ha H]. apply Bool.negb_true_iff in Ha.
      cbn [colons String.length]. rewrite Ha.
      apply Bool.orb_prop in H as [H|H].
      * destruct (IH k H) as [A B]. split; [exact A|]. simpl. lia.
      * destruct (IHk H) as [A B]. split; [exact A|]. simpl in *. lia.
    + destruct k as [|a k]; [discriminate|].
      apply andb_prop in H as [Ha H]. apply Ascii.eqb_eq in Ha. subst a.
      destruct (IH k H) as [A B]. cbn [colons String.length]. split; lia.
Qed.

(** X3.  The matcher of the synchronous service accepts a key for a
    pattern exactly when the pattern is ["*"] or the key is what the
    pattern stands for, [*] being one or more characters other than [:].
    So a pattern without [*] accepts its own key only, and a pattern other
    than ["*"] never accepts a key with another number of colons, or a
    shorter key. *)
Theorem sync_matchQuery_meaning (k q : string) :
  Sync.matchQuery k q = (String.eqb q "*" || wildcard q k) /\
  (includes star q = false -> Sync.matchQuery k q = String.eqb k q) /\
  (q <> "*" -> Sync.matchQuery k q = true ->
   colons k = colons q /\ String.length q <= String.length k).
Proof.
  assert (Sync.matchQuery k q = (String.eqb q "*" || wildcard q k)) as M.
  { unfold Sync.matchQuery.
    destruct (String.eqb_spec q "*") as [->|Hq]; [reflexivity|].
    destruct (String.eqb_spec k q) as [->|Hk]; simpl.
    - now rewrite wildcard_refl.
    - destruct (includes star q) eqn:St; simpl.
      + apply test_buildWildcardRegex.
      + rewrite (wildcard_literal q k St). symmetry. now apply String.eqb_neq. }
  refine (conj M (conj _ _)).
  - intros St. rewrite M, (wildcard_literal q k St).
    destruct (String.eqb_spec q "*") as [E|Hq]; [|reflexivity].
    rewrite E in St. discriminate St.
  - intros Hq H. rewrite M in H.
    destruct (String.eqb_spec q "*") as [E|_]; [congruence|].
    now apply wildcard_shape.
Qed.

Lemma sync_matchQuery_meaning_witness :
  colons "user:login" = colons "user:*" /\
  String.length "user:*" <= String.length "user:login".
Proof.
  apply (proj2 (proj2 (sync_matchQuery_meaning "user:login" "user:*")));
    [discriminate|reflexivity].
Defined.

(** ** The registry of the queued services *)

(** The last event of a queue that carries key [k]. *)
Definition lastFor (k : string) (queue : list HubEvent) : option HubEvent :=
  find (fun ev => String.eqb (key ev) k) (rev queue).

Lemma fold_mset_last queue : forall (registry : jsmap HubEvent) k,
  mget k (fold_left (fun r ev => mset (key ev) ev r) queue registry) =
  match lastFor k queue with
  | Some ev => Some ev
  | None => mget k registry
  end.
Proof.
  unfold lastFor. induction queue as [|ev queue IH] using rev_ind; intros registry k.
  - reflexivity.
  - rewrite fold_left_app, rev_app_distr. simpl.
    destruct (String.eqb_spec (key ev) k) as [<-|Hne].
    + apply mget_mset_same.
    + rewrite mget_mset_other by congruence. apply IH.
Qed.

Lemma queued_drain_queue h : Queued.eventQueue (Queued.drainQueue h) = [].
Proof.
  unfold Queued.drainQueue.
  destruct (Queued.eventQueue h) as [|ev queue] eqn:E; [exact E|].
  now destruct (fold_left _ (ev :: queue) (Queued.eventRegistry h, h)).
Qed.

Lemma bus_drain_registry behaviour h :
  Bus.eventRegistry (Bus.drainQueue behaviour h)
  = fold_left (fun r ev => mset (key ev) ev r) (Bus.eventQueue h) (Bus.eventRegistry h) /\
  Bus.eventQueue (Bus.drainQueue behaviour h) = [].
Proof.
  unfold Bus.drainQueue.
  destruct (Bus.eventQueue h) as [|ev queue] eqn:E; [split; [reflexivity|exact E]|].
  assert (forall q r x,
            fst (fold_left
                   (fun (acc : jsmap HubEvent * Bus.Hub) ev0 =>
                      (mset (key ev0) ev0 (fst acc),
                       Bus.notifySubscribers behaviour ev0 (snd acc)))
                   q (r, x))
            = fold_left (fun r0 ev0 => mset (key ev0) ev0 r0) q r) as F.
  { induction q as [|e q IH]; intros r x; simpl; [reflexivity|apply IH]. }
  specialize (F (ev :: queue) (Bus.eventRegistry h) h).
  destruct (fold_left _ (ev :: queue) (Bus.eventRegistry h, h)) as [updated h1].
  simpl in F. simpl. split; [exact F|reflexivity].
Qed.

(** X4.  One run of the queue effect, in the first and in the queued
    service, leaves the event queue empty, and the registry then holds,
    for every key, the last queued event of that key, or what it held
    before when none was queued: events are written in the order of their
    publishes, and the last one wins. *)
Theorem drain_last_event_wins :
  (forall (behaviour : nat -> HubEvent -> Outcome) (h : Queued.Hub),
     Queued.eventQueue (Queued.settle behaviour h) = [] /\
     forall k,
       mget k (Queued.eventRegistry (Queued.settle behaviour h)) =
       match lastFor k (Queued.eventQueue h) with
       | Some ev => Some ev
       | None => mget k (Queued.eventRegistry h)
       end) /\
  (forall (behaviour : nat -> HubEvent -> option value) (h : Bus.Hub),
     Bus.eventQueue (Bus.drainQueue behaviour h) = [] /\
     forall k,
       Bus.toSignal k (Bus.drainQueue behaviour h) =
       match lastFor k (Bus.eventQueue h) with
       | Some ev => Some ev
       | None => Bus.toSignal k h
       end).
Proof.
  split.
  - intros behaviour h. split.
    + unfold Queued.settle.
      destruct (queued_runMicrotasks_frame behaviour (Queued.drainQueue h)) as (_ & Q & _).
      rewrite Q. apply queued_drain_queue.
    + intros k. rewrite queued_settle_registry. apply fold_mset_last.
  - intros behaviour h. destruct (bus_drain_registry behaviour h) as [R Q].
    split; [exact Q|]. intros k. unfold Bus.toSignal. rewrite R. apply fold_mset_last.
Qed.

Lemma queued_runMicrotasks_idle behaviour x :
  Queued.microtasks x = [] -> Queued.runMicrotasks behaviour x = x.
Proof. intros M. unfold Queued.runMicrotasks. now rewrite M. Qed.

(** X5.  [publishNoData] with a non-empty key queues an event whose data
    is [undefined], the payload [publish] refuses: after the scheduling
    tick the event is the latest one of its key, and every function
    registered under a matching query has been called with it. *)
Theorem publishNoData_stores_undefined :
  forall (behaviour : nat -> HubEvent -> Outcome) (h : Queued.Hub) (k : string),
    k <> EmptyString ->
    let ev := mkEvent (Queued.nextId h) k JUndefined (Queued.now h) in
    Queued.publish k JUndefined h = (Throw DataCannotBeNullOrUndefined, h) /\
    exists h1 read added,
      Queued.publishNoData k h = (Ok tt, h1) /\
      Queued.toSignal k = Ok read /\
      read h1 = read h /\
      read (Queued.settle behaviour h1) = Some ev /\
      Queued.log (Queued.settle behaviour h1) = Queued.log h ++ added /\
      forall q entries en,
        In (q, entries) (Queued.subscribers h) -> Queued.matchQuery k q = true ->
        In en entries -> Queued.isFunction (Queued.callback en) = true ->
        In (Queued.Called (Queued.callback en) ev) added.
Proof.
  intros behaviour h k Hk ev.
  assert (falsy k = false) as Fk by (destruct k; [congruence|reflexivity]).
  split; [now apply queued_publish_null_payload|].
  unfold Queued.publishNoData, Queued.toSignal. rewrite Fk. fold ev.
  set (h1 := Queued.withNextId _ _).
  destruct (queued_drain_tasks h1) as (L & N).
  destruct (queued_runMicrotasks_serves behaviour (Queued.drainQueue h1)) as (added & LA & _ & S).
  exists h1, (fun x => mget k (Queued.eventRegistry x)), added.
  refine (conj eq_refl (conj eq_refl (conj eq_refl (conj _ (conj _ _))))).
  - rewrite queued_settle_registry. subst h1. simpl.
    rewrite fold_left_app. simpl. apply mget_mset_same.
  - unfold Queued.settle. rewrite LA, L. reflexivity.
  - intros q entries en Hg Hm Hen Hf.
    destruct (S (Queued.TCall q en ev)) as (A & _); [|now apply A].
    apply (N ev q entries en); auto.
    subst h1. simpl. apply in_or_app. right. now left.
Qed.

Lemma publishNoData_stores_undefined_witness :
  exists h1 read,
    Queued.publishNoData "ping" Queued.empty = (Ok tt, h1) /\
    Queued.toSignal "ping" = Ok read /\
    read (Queued.settle (fun _ _ => Returned) h1) = Some (mkEvent 0 "ping" JUndefined 0).
Proof.
  destruct (publishNoData_stores_undefined (fun _ _ => Returned) Queued.empty "ping"
              ltac:(discriminate)) as (_ & h1 & read & added & P & T & _ & R & _).
  exists h1, read. repeat split; assumption.
Defined.

(** X6.  [reset] of the queued service empties the registry at once but
    not the event queue: an event published before the reset and not yet
    drained is the latest event of its key again after the next
    scheduling tick.  With [clearSubscribers], and no promise reaction
    pending, that tick calls nobody. *)
Theorem reset_keeps_queued_events :
  forall (behaviour : nat -> HubEvent -> Outcome) (h : Queued.Hub)
         (k : string) (d : value) (clearSubscribers : bool),
    k <> EmptyString -> looselyNull d = false ->
    let ev := mkEvent (Queued.nextId h) k d (Queued.now h) in
    let h2 := Queued.reset clearSubscribers (snd (Queued.publish k d h)) in
    (forall k', mget k' (Queued.eventRegistry h2) = None) /\
    mget k (Queued.eventRegistry (Queued.settle behaviour h2)) = Some ev /\
    (clearSubscribers = true -> Queued.microtasks h = [] ->
     Queued.log (Queued.settle behaviour h2) = Queued.log h).
Proof.
  intros behaviour h k d b Hk Hd ev h2.
  assert (falsy k = false) as Fk by (destruct k; [congruence|reflexivity]).
  assert (Queued.eventQueue h2 = Queued.eventQueue h ++ [ev] /\
          Queued.eventRegistry h2 = []) as [Q R].
  { subst h2. unfold Queued.publish. rewrite Fk, Hd. fold ev.
    unfold Queued.reset. destruct b; split; reflexivity. }
  refine (conj _ (conj _ _)).
  - intros k'. now rewrite R.
  - rewrite queued_settle_registry, Q, fold_left_app. simpl. apply mget_mset_same.
  - intros -> Hm.
    assert (Queued.subscribers h2 = [] /\ Queued.microtasks h2 = [] /\
            Queued.log h2 = Queued.log h) as (S & M & L).
    { subst h2. unfold Queued.publish. rewrite Fk, Hd. simpl. auto. }
    assert (forall queue r x,
              Queued.subscribers x = [] ->
              snd (fold_left
                     (fun (acc : jsmap HubEvent * Queued.Hub) e =>
                        (mset (key e) e (fst acc), Queued.notifySubscribers e (snd acc)))
                     queue (r, x)) = x) as F.
    { induction queue as [|e queue IH]; intros r x Sx; simpl; [reflexivity|].
      assert (Queued.notifySubscribers e x = x) as E
        by (unfold Queued.notifySubscribers; now rewrite Sx).
      rewrite E. now apply IH. }
    unfold Queued.settle, Queued.drainQueue.
    destruct (Queued.eventQueue h2) as [|e queue] eqn:E.
    { destruct (Queued.eventQueue h); discriminate Q. }
    specialize (F (e :: queue) (Queued.eventRegistry h2) h2 S).
    destruct (fold_left _ (e :: queue) (Queued.eventRegistry h2, h2)) as [updated x].
    simpl in F. subst x.
    rewrite queued_runMicrotasks_idle; [exact L|exact M].
Qed.

Lemma reset_keeps_queued_events_witness :
  mget "k" (Queued.eventRegistry
              (Queued.settle (fun _ _ => Returned)
                 (Queued.reset true (snd (Queued.publish "k" (JNum 1) Queued.empty)))))
  = Some (mkEvent 0 "k" (JNum 1) 0).
Proof.
  apply (proj1 (proj2 (reset_keeps_queued_events (fun _ _ => Returned) Queued.empty
                         "k" (JNum 1) true ltac:(discriminate) eq_refl))).
Defined.

(** ** The first service: reading and removing events, [destroyRef] *)

Lemma bus_filterBoolean_In {A} (l : list (option A)) a :
  In a (Bus.filterBoolean l) <-> In (Some a) l.
Proof.
  induction l as [|[x|] l IH]; simpl.
  - tauto.
  - rewrite IH. split; intros [H|H]; auto; left; congruence.
  - rewrite IH. split; [auto|]. intros [H|H]; [discriminate|exact H].
Qed.

Lemma bus_filterBoolean_length {A} (l : list (option A)) :
  List.length (Bus.filterBoolean l) <= List.length l.
Proof. induction l as [|[x|] l IH]; simpl; lia. Qed.

(** X7.  In the first service [drop] and [reset] write the registry only:
    after [drop(k)] the key [k] reads [null] and every other key reads as
    before, after [reset()] every key reads [null], and in both cases the
    subscribers and the events still queued are untouched, so that a
    queued event of a dropped key is back after the next run of the
    effect.  [toSignalMultiple] checks nothing: it reads the listed keys
    in their order and leaves out those without an event. *)
Theorem bus_drop_reset_reads :
  forall (behaviour : nat -> HubEvent -> option value) (h : Bus.Hub) (k : string)
         (keys : list string),
    (Bus.toSignal k (Bus.drop k h) = None /\
     (forall k', k' <> k -> Bus.toSignal k' (Bus.drop k h) = Bus.toSignal k' h) /\
     Bus.subscribers (Bus.drop k h) = Bus.subscribers h /\
     Bus.eventQueue (Bus.drop k h) = Bus.eventQueue h) /\
    ((forall k', Bus.toSignal k' (Bus.reset h) = None) /\
     Bus.toSignalMultiple keys (Bus.reset h) = [] /\
     Bus.subscribers (Bus.reset h) = Bus.subscribers h /\
     Bus.eventQueue (Bus.reset h) = Bus.eventQueue h) /\
    (forall ev, lastFor k (Bus.eventQueue h) = Some ev ->
       Bus.toSignal k (Bus.drainQueue behaviour (Bus.drop k h)) = Some ev /\
       Bus.toSignal k (Bus.drainQueue behaviour (Bus.reset h)) = Some ev) /\
    (List.length (Bus.toSignalMultiple keys h) <= List.length keys /\
     (forall ev, In ev (Bus.toSignalMultiple keys h) <->
                 exists k', In k' keys /\ Bus.toSignal k' h = Some ev) /\
     (forall k1 k2 e1 e2, Bus.toSignal k1 h = Some e1 -> Bus.toSignal k2 h = Some e2 ->
        Bus.toSignalMultiple [k1; k2] h = [e1; e2])).
Proof.
  intros behaviour h k keys. unfold Bus.toSignal, Bus.toSignalMultiple.
  refine (conj _ (conj _ (conj _ _))).
  - simpl. repeat split.
    + apply mget_mdelete_same.
    + intros k' Hne. now apply mget_mdelete_other.
  - simpl. repeat split.
    induction keys as [|k0 keys IH]; simpl; [reflexivity|exact IH].
  - intros ev Hl.
    destruct (bus_drain_registry behaviour (Bus.drop k h)) as [R1 _].
    destruct (bus_drain_registry behaviour (Bus.reset h)) as [R2 _].
    rewrite R1, R2, !fold_mset_last. simpl. now rewrite Hl.
  - refine (conj _ (conj _ _)).
    + etransitivity; [apply bus_filterBoolean_length|]. now rewrite length_map.
    + intros ev. rewrite bus_filterBoolean_In, in_map_iff. split.
      * intros (k' & E & Hin). eauto.
      * intros (k' & Hin & E). eauto.
    + intros k1 k2 e1 e2 E1 E2. simpl. now rewrite E1, E2.
Qed.

Lemma bus_drop_reset_reads_witness :
  Bus.toSignal "k" (Bus.drainQueue (fun _ _ => None)
                      (Bus.drop "k" (snd (Bus.emit "k" (JNum 1) Bus.empty))))
  = Some (mkEvent 0 "k" (JNum 1) 0).
Proof.
  apply (proj1 (proj1 (proj2 (proj2 (bus_drop_reset_reads (fun _ _ => None)
                         (snd (Bus.emit "k" (JNum 1) Bus.empty)) "k" []))) _ eq_refl)).
Defined.

(** No callback registered under [query] is the function [f]. *)
Definition busAbsent (query : string) (f : nat) (h : Bus.Hub) : Prop :=
  forall callbacks, mget query (Bus.subscribers h) = Some callbacks -> ~ In f callbacks.

Lemma busAbsent_after query f h : busAbsent query f (Bus.unsubscribe query f h).
Proof.
  unfold busAbsent, Bus.unsubscribe. intros callbacks.
  destruct (mget query (Bus.subscribers h)) as [l|] eqn:E.
  - destruct (filter _ l) as [|x xs] eqn:F; simpl.
    + now rewrite mget_mdelete_same.
    + rewrite mget_mset_same. intros H Hin. inversion H; subst callbacks.
      rewrite <- F in Hin. apply filter_In in Hin as [_ Hne].
      now rewrite Nat.eqb_refl in Hne.
  - rewrite E. discriminate.
Qed.

Lemma busAbsent_stable query f q' f' h :
  busAbsent query f h -> busAbsent query f (Bus.unsubscribe q' f' h).
Proof.
  unfold busAbsent, Bus.unsubscribe. intros P callbacks.
  destruct (mget q' (Bus.subscribers h)) as [l|] eqn:E; [|apply P].
  destruct (String.eqb_spec query q') as [->|Hq].
  - destruct (filter _ l) as [|x xs] eqn:F; simpl.
    + now rewrite mget_mdelete_same.
    + rewrite mget_mset_same. intros H Hin. inversion H; subst callbacks.
      rewrite <- F in Hin. apply filter_In in Hin as [Hin _]. eapply P; eassumption.
  - destruct (filter _ l) as [|x xs]; simpl.
    + rewrite mget_mdelete_other by assumption. apply P.
    + rewrite mget_mset_other by assumption. apply P.
Qed.

Lemma busAbsent_hooks query f (hooks : list (nat * (string * nat))) : forall h,
  (busAbsent query f h \/ exists d, In (d, (query, f)) hooks) ->
  busAbsent query f
    (fold_left (fun acc hook => Bus.unsubscribe (fst (snd hook)) (snd (snd hook)) acc) hooks h).
Proof.
  induction hooks as [|hook hooks IH]; intros h [P|[d Hd]]; simpl.
  - exact P.
  - destruct Hd.
  - apply IH. left. now apply busAbsent_stable.
  - destruct Hd as [->|Hd]; apply IH; [left; apply busAbsent_after|right; eauto].
Qed.

(** X8.  In the first service, as in the queued one, the function
    [subscribe] returns for a subscription made with a [destroyRef] does
    nothing: the callback stays registered and the next matching event
    still reaches it; it goes when the owner is destroyed.  Without a
    [destroyRef] the returned function removes the callback. *)
Theorem bus_destroyRef_handle_does_nothing :
  forall (behaviour : nat -> HubEvent -> option value) (h : Bus.Hub)
         (q : string) (f d : nat),
    let u := fst (Bus.subscribe q f (Some d) h) in
    let h1 := snd (Bus.subscribe q f (Some d) h) in
    Bus.runUnsubscriber u h1 = h1 /\
    (exists callbacks, mget q (Bus.subscribers h1) = Some callbacks /\ In f callbacks) /\
    (forall k payload,
       k <> EmptyString -> looselyNull payload = false -> Bus.matchQuery k q = true ->
       exists added,
         Bus.log (Bus.drainQueue behaviour (snd (Bus.emit k payload (Bus.runUnsubscriber u h1))))
         = Bus.log h1 ++ added /\
         In (Bus.Called f (mkEvent (Bus.nextId h1) k payload (Bus.now h1))) added) /\
    busAbsent q f (Bus.triggerDestroy d h1) /\
    busAbsent q f (Bus.runUnsubscriber (fst (Bus.subscribe q f None h))
                     (snd (Bus.subscribe q f None h))).
Proof.
  intros behaviour h q f d u h1.
  set (callbacks := match mget q (Bus.subscribers h) with Some l => l | None => [] end).
  assert (mget q (Bus.subscribers h1) = Some (callbacks ++ [f])) as Hget
    by (subst h1; simpl; apply mget_mset_same).
  refine (conj eq_refl (conj _ (conj _ (conj _ _)))).
  - eexists. split; [exact Hget|]. apply in_or_app. right. now left.
  - intros k payload Hk Hp Hm.
    change (Bus.runUnsubscriber u h1) with h1.
    destruct (bus_emit_delivers behaviour h1 k payload Hk Hp) as (_ & added & L & D).
    exists added. split; [exact L|].
    apply mget_In in Hget.
    apply (D q _ f Hget Hm). apply in_or_app. right. now left.
  - unfold Bus.triggerDestroy, busAbsent. cbn [Bus.subscribers].
    apply busAbsent_hooks. right. exists d. apply filter_In. split.
    + subst h1. simpl. apply in_or_app. right. now left.
    + simpl. apply Nat.eqb_refl.
  - simpl. apply busAbsent_after.
Qed.

Lemma bus_destroyRef_handle_does_nothing_witness :
  exists added,
    Bus.log (Bus.drainQueue (fun _ _ => None)
               (snd (Bus.emit "data" (JNum 1)
                       (Bus.runUnsubscriber (fst (Bus.subscribe "data" 1 (Some 7) Bus.empty))
                          (snd (Bus.subscribe "data" 1 (Some 7) Bus.empty))))))
    = [] ++ added /\
    In (Bus.Called 1 (mkEvent 0 "data" (JNum 1) 0)) added.
Proof.
  apply (proj1 (proj2 (proj2 (bus_destroyRef_handle_does_nothing (fun _ _ => None)
                                Bus.empty "data" 1 7))) "data" (JNum 1));
    [discriminate|reflexivity|reflexivity].
Defined.

(** ** Two subscriptions of one function *)

(** [on] without [until] and without replay. *)
Lemma on_plain behaviour o h :
  Sync.optKey o <> EmptyString -> Sync.isFunction (Sync.optCallback o) = true ->
  Sync.optReplayLatest o = false -> Sync.optUntil o = Sync.NoUntil ->
  let n := Sync.nextId h in
  let s := Sync.mkSubscriber (S n) (Sync.optCallback o) (Sync.optOnError o) in
  let h' := snd (Sync.on behaviour o h) in
  fst (Sync.on behaviour o h) = Ok (Sync.UnsubscribeAll n) /\
  stillIn (Sync.optKey o) s h' /\
  Sync.lookup n (Sync.registrations h') =
    Some (Sync.mkRegistration [] (Some (Sync.RemoveSubscriber (Sync.optKey o) (S n)))) /\
  Sync.nextId h' = S (S n) /\
  (forall q x, stillIn q x h -> stillIn q x h') /\
  (forall r, r <> n ->
     Sync.lookup r (Sync.registrations h') = Sync.lookup r (Sync.registrations h)) /\
  Sync.log h' = Sync.log h /\ Sync.eventRegistry h' = Sync.eventRegistry h.
Proof.
  intros Hk Hf Hr Hu n s h'. subst h'.
  assert (falsy (Sync.optKey o) = false) as Fk
    by (destruct (Sync.optKey o); [congruence|reflexivity]).
  unfold Sync.on, Sync.replay. rewrite Fk, Hf, Hr, Hu. cbn [negb Sync.conditionsOf existsb].
  cbn [Sync.fresh fold_left]. fold n.
  set (hA := Sync.withRegistrations _ _).
  destruct (internalSubscribe_spec (Sync.optKey o) (Sync.optCallback o)
              (Sync.optDestroyRef o) (Sync.optOnError o) false hA)
    as (F & N & R & _ & _ & _ & Y & L & Hnew & Hold & _).
  destruct (Sync.internalSubscribe (Sync.optKey o) (Sync.optCallback o)
              (Sync.optDestroyRef o) (Sync.optOnError o) false hA) as [main h4].
  cbn [fst snd] in *. subst main.
  change (Sync.nextId hA) with (S n) in *.
  assert (Sync.lookup n (Sync.registrations h4) = Some (Sync.mkRegistration [] None)) as L4
    by (rewrite R; apply lookup_store_same).
  unfold Sync.setMainSubscription. rewrite L4.
  set (h5 := Sync.withRegistrations _ h4).
  refine (conj eq_refl (conj _ (conj _ (conj _ (conj _ (conj _ (conj _ _))))))).
  - exact Hnew.
  - apply lookup_store_same.
  - exact N.
  - intros q x Hx. apply Hold. exact Hx.
  - intros r Hne. subst h5. simpl. rewrite lookup_store_other by exact Hne.
    rewrite R. subst hA. simpl. now rewrite lookup_store_other.
  - exact L.
  - exact Y.
Qed.

(** X9. When one function is subscribed twice under the same key and the
    first subscription is unsubscribed: in the queued service, which
    removes by function reference, no entry holding that function is left
    under the key, so the second subscription is gone too; in the
    synchronous service, which removes by subscriber identity, the second
    subscriber is still registered. *)
Theorem same_function_subscribed_twice :
  forall (qBehaviour : nat -> HubEvent -> Outcome)
         (sBehaviour : nat -> HubEvent -> Outcome)
         (hq : Queued.Hub) (hs : Sync.Hub) (k : string) (f : nat)
         (e1 e2 : option nat),
    k <> EmptyString ->
    (let o1 := Queued.mkOptions k (Queued.CbUser f) None false e1 in
     let o2 := Queued.mkOptions k (Queued.CbUser f) None false e2 in
     let h1 := snd (Queued.subscribe qBehaviour o1 hq) in
     let h2 := snd (Queued.subscribe qBehaviour o2 h1) in
     exists s1,
       fst (Queued.subscribe qBehaviour o1 hq) = Ok s1 /\
       (exists before,
          mget k (Queued.subscribers h2)
            = Some (before ++ [Queued.mkEntry (Queued.CbUser f) e1;
                               Queued.mkEntry (Queued.CbUser f) e2])) /\
       queuedAbsent k (Queued.CbUser f) (Queued.runSubscription s1 h2)) /\
    (let o1 := Sync.mkOptions k (Sync.CbUser f) None false e1 Sync.NoUntil in
     let o2 := Sync.mkOptions k (Sync.CbUser f) None false e2 Sync.NoUntil in
     let h1 := snd (Sync.on sBehaviour o1 hs) in
     let h2 := snd (Sync.on sBehaviour o2 h1) in
     let first := S (Sync.nextId hs) in
     let second := S (S (S (Sync.nextId hs))) in
     exists s1,
       fst (Sync.on sBehaviour o1 hs) = Ok s1 /\
       stillIn k (Sync.mkSubscriber first (Sync.CbUser f) e1) h2 /\
       stillIn k (Sync.mkSubscriber second (Sync.CbUser f) e2) h2 /\
       Sync.isSubscribed k first (Sync.runSubscription s1 h2) = false /\
       stillIn k (Sync.mkSubscriber second (Sync.CbUser f) e2)
         (Sync.runSubscription s1 h2)).
Proof.
  intros qBehaviour sBehaviour hq hs k f e1 e2 Hk.
  assert (falsy k = false) as Fk by (destruct k; [congruence|reflexivity]).
  split.
  - cbv zeta. unfold Queued.subscribe. cbn [Queued.optKey Queued.optCallback
      Queued.optReplayLatest Queued.optDestroyRef Queued.optOnError Queued.isFunction negb].
    rewrite Fk. unfold Queued.internalSubscribe. cbn [fst snd Queued.subscribers Queued.withSubscribers].
    eexists. split; [reflexivity|]. split.
    + rewrite !mget_mset_same. exists (match mget k (Queued.subscribers hq) with
                                       | Some l => l | None => [] end).
      now rewrite <- app_assoc.
    + unfold Queued.runSubscription. cbn [Queued.manualUnsubscribe Queued.sQuery Queued.sCallback].
      apply queuedAbsent_after.
  - cbv zeta.
    destruct (on_plain sBehaviour
                (Sync.mkOptions k (Sync.CbUser f) None false e1 Sync.NoUntil) hs
                Hk eq_refl eq_refl eq_refl)
      as (F1 & In1 & R1 & N1 & Old1 & _).
    cbn [Sync.optKey Sync.optCallback Sync.optOnError] in F1, In1, R1, N1, Old1.
    set (h1 := snd (Sync.on sBehaviour _ hs)) in *.
    destruct (on_plain sBehaviour
                (Sync.mkOptions k (Sync.CbUser f) None false e2 Sync.NoUntil) h1
                Hk eq_refl eq_refl eq_refl)
      as (F2 & In2 & _ & _ & Old2 & Reg2 & _).
    cbn [Sync.optKey Sync.optCallback Sync.optOnError] in F2, In2, Old2, Reg2.
    set (h2 := snd (Sync.on sBehaviour _ h1)) in *.
    rewrite N1 in In2, Reg2.
    exists (Sync.UnsubscribeAll (Sync.nextId hs)). split; [exact F1|].
    split; [apply Old2, In1|]. split; [exact In2|].
    assert (Sync.runSubscription (Sync.UnsubscribeAll (Sync.nextId hs)) h2
            = Sync.removeSubscriber k (S (Sync.nextId hs)) h2) as E.
    { unfold Sync.runSubscription, Sync.unsubscribeAll.
      rewrite Reg2 by lia. rewrite R1. reflexivity. }
    rewrite E. split.
    + apply isSubscribed_removed.
    + apply stillIn_removeSubscriber; [simpl; lia|exact In2].
Qed.

Lemma same_function_subscribed_twice_witness :
  exists s1,
    fst (Sync.on (fun _ _ => Returned)
           (Sync.mkOptions "data" (Sync.CbUser 1) None false None Sync.NoUntil) Sync.empty)
      = Ok s1 /\
    Sync.isSubscribed "data" 1
      (Sync.runSubscription s1
         (snd (Sync.on (fun _ _ => Returned)
                 (Sync.mkOptions "data" (Sync.CbUser 1) None false None Sync.NoUntil)
                 (snd (Sync.on (fun _ _ => Returned)
                         (Sync.mkOptions "data" (Sync.CbUser 1) None false None Sync.NoUntil)
                         Sync.empty))))) = false.
Proof.
  destruct (proj2 (same_function_subscribed_twice (fun _ _ => Returned) (fun _ _ => Returned)
                     Queued.empty Sync.empty "data" 1 None None ltac:(discriminate)))
    as (s1 & E & _ & _ & G & _).
  exists s1. split; [exact E|exact G].
Defined.

(** ** The event a wildcard replay finds *)

(** What the loop of [findLatestEventForKey] holds after the entries [done]:
    nothing when no key of [done] passes the test [p], else the first
    entry of greatest timestamp among those that pass. *)
Definition latestAmong (p : string -> bool) (done : jsmap HubEvent)
    (found : option HubEvent) : Prop :=
  match found with
  | None => forall e, In e done -> p (fst e) = false
  | Some ev =>
      exists before eventKey after,
        done = before ++ (eventKey, ev) :: after /\
        p eventKey = true /\
        (forall e, In e before -> p (fst e) = true ->
           (timestamp (snd e) < timestamp ev)%Z) /\
        (forall e, In e after -> p (fst e) = true ->
           (timestamp (snd e) <= timestamp ev)%Z)
  end.

Lemma latestAmong_loop (p : string -> bool) (entries : jsmap HubEvent) :
  forall done found,
    latestAmong p done found ->
    latestAmong p (done ++ entries)
      (fold_left
         (fun latestEvent entry =>
            if p (fst entry) then
              match latestEvent with
              | None => Some (snd entry)
              | Some latest =>
                  if (timestamp latest <? timestamp (snd entry))%Z then Some (snd entry)
                  else latestEvent
              end
            else latestEvent)
         entries found).
Proof.
  induction entries as [|[ek ev] entries IH]; intros done found Inv.
  - rewrite app_nil_r. exact Inv.
  - cbn [fold_left fst snd].
    replace (done ++ (ek, ev) :: entries) with ((done ++ [(ek, ev)]) ++ entries)
      by (rewrite <- app_assoc; reflexivity).
    apply IH. destruct (p ek) eqn:Pk.
    + destruct found as [latest|].
      * destruct Inv as (before & lk & after & -> & Pl & Hb & Ha).
        destruct (Z.ltb_spec (timestamp latest) (timestamp ev)) as [Lt|Ge].
        -- exists (before ++ (lk, latest) :: after), ek, []. repeat split.
           ++ exact Pk.
           ++ intros e Hin Pe. apply in_app_or in Hin as [Hin|[<-|Hin]].
              ** specialize (Hb e Hin Pe). lia.
              ** exact Lt.
              ** specialize (Ha e Hin Pe). lia.
           ++ intros e [].
        -- exists before, lk, (after ++ [(ek, ev)]). repeat split.
           ++ rewrite <- app_assoc. reflexivity.
           ++ exact Pl.
           ++ exact Hb.
           ++ intros e Hin Pe. apply in_app_or in Hin as [Hin|[<-|[]]].
              ** exact (Ha e Hin Pe).
              ** exact Ge.
      * exists done, ek, []. repeat split.
        -- exact Pk.
        -- intros e Hin Pe. rewrite (Inv e Hin) in Pe. discriminate.
        -- intros e [].
    + destruct found as [latest|].
      * destruct Inv as (before & lk & after & -> & Pl & Hb & Ha).
        exists before, lk, (after ++ [(ek, ev)]). repeat split.
        -- rewrite <- app_assoc. reflexivity.
        -- exact Pl.
        -- exact Hb.
        -- intros e Hin Pe. apply in_app_or in Hin as [Hin|[<-|[]]].
           ++ exact (Ha e Hin Pe).
           ++ cbn [fst] in Pe. congruence.
      * intros e Hin. apply in_app_or in Hin as [Hin|[<-|[]]]; [exact (Inv e Hin)|exact Pk].
Qed.

Lemma latestAmong_ext (p p' : string -> bool) done found :
  (forall eventKey, p eventKey = p' eventKey) ->
  latestAmong p done found -> latestAmong p' done found.
Proof.
  intros E. destruct found as [ev|]; simpl.
  - intros (before & ek & after & D & P & Hb & Ha). exists before, ek, after.
    repeat split; [exact D|now rewrite <- E| |].
    + intros e Hin Pe. apply Hb; [exact Hin|now rewrite E].
    + intros e Hin Pe. apply Ha; [exact Hin|now rewrite E].
  - intros N e Hin. rewrite <- E. now apply N.
Qed.

(** The pattern [*] alone stands for the non-empty keys without a colon. *)
Lemma wildcard_star (k : string) :
  wildcard "*" k = negb (falsy k) && negb (includes colon k).
Proof.
  induction k as [|a rest IH]; [reflexivity|].
  change (wildcard "*" (String a rest))
    with (negb (Ascii.eqb a colon) && (falsy rest || wildcard "*" rest)).
  rewrite IH. cbn [falsy includes negb andb].
  destruct (Ascii.eqb a colon); [reflexivity|].
  destruct rest as [|b rest]; reflexivity.
Qed.

(** X10.  [findLatestEventForKey] of the synchronous service: for a key
    without [*] it is the registry's entry of that key; for a pattern it
    is undefined exactly when no registered key fits the pattern, and
    else the first registered event of greatest timestamp among those
    whose key fits.  The pattern is read by the regular expression alone,
    so the query [*], which [matchQuery] accepts for every key, here
    fits only the non-empty keys without a colon. *)
Theorem findLatestEventForKey_is_latest (k : string) (h : Sync.Hub) :
  (includes star k = false ->
     Sync.findLatestEventForKey k h = mget k (Sync.eventRegistry h)) /\
  (includes star k = true ->
     latestAmong (wildcard k) (Sync.eventRegistry h) (Sync.findLatestEventForKey k h)) /\
  (forall eventKey,
     Sync.matchQuery eventKey "*" = true /\
     wildcard "*" eventKey = negb (falsy eventKey) && negb (includes colon eventKey)).
Proof.
  unfold Sync.findLatestEventForKey. split; [|split].
  - intros ->. reflexivity.
  - intros ->. cbn [negb].
    apply (latestAmong_ext (Regex.test (Sync.buildWildcardRegex k))).
    + intros eventKey. apply test_buildWildcardRegex.
    + apply (latestAmong_loop (Regex.test (Sync.buildWildcardRegex k))
               (Sync.eventRegistry h) [] None).
      intros e [].
  - intros eventKey. split; [reflexivity|apply wildcard_star].
Qed.

Lemma findLatestEventForKey_is_latest_witness :
  latestAmong (wildcard "user:*")
    [("user:a", mkEvent 0 "user:a" (JNum 1) 5%Z);
     ("cart", mkEvent 1 "cart" (JNum 2) 9%Z);
     ("user:b", mkEvent 2 "user:b" (JNum 3) 5%Z)]
    (Sync.findLatestEventForKey "user:*"
       (Sync.withRegistry
          [("user:a", mkEvent 0 "user:a" (JNum 1) 5%Z);
           ("cart", mkEvent 1 "cart" (JNum 2) 9%Z);
           ("user:b", mkEvent 2 "user:b" (JNum 3) 5%Z)] Sync.empty)).
Proof.
  exact (proj1 (proj2 (findLatestEventForKey_is_latest "user:*"
                         (Sync.withRegistry
                            [("user:a", mkEvent 0 "user:a" (JNum 1) 5%Z);
                             ("cart", mkEvent 1 "cart" (JNum 2) 9%Z);
                             ("user:b", mkEvent 2 "user:b" (JNum 3) 5%Z)] Sync.empty)))
           eq_refl).
Defined.

(** ** What every reachable registry looks like *)

(** The registry of events and the clock are the same in [h'] as in [h]. *)
Definition sameData (h h' : Sync.Hub) : Prop :=
  Sync.eventRegistry h' = Sync.eventRegistry h /\ Sync.now h' = Sync.now h.

Lemma sameData_refl h : sameData h h.
Proof. now split. Qed.

Lemma sameData_trans h1 h2 h3 : sameData h1 h2 -> sameData h2 h3 -> sameData h1 h3.
Proof. intros [A B] [C D]. split; congruence. Qed.

Lemma sameData_step h h' a sp : syncStep h h' a sp -> sameData h h'.
Proof. intros S. split; [apply (step_registry _ _ _ _ S)|apply (step_now _ _ _ _ S)]. Qed.

Lemma sameData_internalSubscribe q cb destroyRef onErr (selfRemoving : bool) h :
  sameData h (snd (Sync.internalSubscribe q cb destroyRef onErr selfRemoving h)).
Proof.
  unfold Sync.internalSubscribe. cbn [Sync.fresh]. destruct destroyRef; now split.
Qed.

Lemma sameData_pushUnsubscriber reg t h : sameData h (Sync.pushUnsubscriber reg t h).
Proof. unfold Sync.pushUnsubscriber. destruct (Sync.lookup reg _); now split. Qed.

Lemma sameData_setMainSubscription reg t h : sameData h (Sync.setMainSubscription reg t h).
Proof. unfold Sync.setMainSubscription. destruct (Sync.lookup reg _); now split. Qed.

Lemma sameData_installCondition reg h c : sameData h (Sync.installCondition reg h c).
Proof.
  destruct c as [k|s]; unfold Sync.installCondition.
  - pose proof (sameData_internalSubscribe k (Sync.CbUnsubscribeAll reg) None None true h) as A.
    destruct (Sync.internalSubscribe k (Sync.CbUnsubscribeAll reg) None None true h)
      as [sub h1].
    eapply sameData_trans; [exact A|apply sameData_pushUnsubscriber].
  - cbn [Sync.fresh].
    eapply sameData_trans; [|apply sameData_pushUnsubscriber]. now split.
Qed.

Lemma sameData_conditions reg conds : forall h,
  sameData h (fold_left (Sync.installCondition reg) conds h).
Proof.
  induction conds as [|c conds IH]; intros h; simpl; [apply sameData_refl|].
  eapply sameData_trans; [apply sameData_installCondition|apply IH].
Qed.

Lemma sameData_teardowns (hooks : list (nat * Sync.Teardown)) : forall h,
  sameData h (fold_left (fun acc hook => Sync.runTeardown (snd hook) acc) hooks h).
Proof.
  induction hooks as [|hook hooks IH]; intros h; simpl; [apply sameData_refl|].
  eapply sameData_trans; [|apply IH].
  eapply sameData_step. apply sync_runTeardown_step.
Qed.

Lemma sameData_tasks tasks : forall h, sameData h (fold_left Sync.runTask tasks h).
Proof.
  induction tasks as [|t tasks IH]; intros h; simpl; [apply sameData_refl|].
  eapply sameData_trans; [|apply IH]. destruct t as [q handler error ev]. simpl.
  eapply sameData_step. apply sync_handleError_step.
Qed.

Section SameData.
Variable behaviour : nat -> HubEvent -> Outcome.
Variable combineBehaviour : nat -> list HubEvent -> Outcome.
Variable localeCompare : string -> string -> Z.

Lemma sameData_replay o h : sameData h (Sync.replay behaviour o h).
Proof.
  unfold Sync.replay. destruct (Sync.optReplayLatest o); [|apply sameData_refl].
  destruct (Sync.findLatestEventForKey (Sync.optKey o) h) as [ev|]; [|apply sameData_refl].
  destruct (sync_invoke_step behaviour (Sync.optCallback o) ev h) as (added & S & _).
  destruct (Sync.invoke behaviour (Sync.optCallback o) ev h) as [out h1]. simpl in S.
  apply sameData_step in S.
  destruct out as [|error| |error]; try exact S.
  eapply sameData_trans; [exact S|]. eapply sameData_step. apply sync_handleError_step.
Qed.

Lemma sameData_on o h : sameData h (snd (Sync.on behaviour o h)).
Proof.
  unfold Sync.on. destruct (falsy (Sync.optKey o)); [apply sameData_refl|].
  destruct (negb (Sync.isFunction (Sync.optCallback o))); [apply sameData_refl|].
  destruct (existsb _ _); [apply sameData_refl|].
  cbn [Sync.fresh].
  set (conds := match Sync.conditionsOf (Sync.optUntil o) with
                | Some cs => cs
                | None => []
                end).
  set (hA := Sync.withRegistrations _ _).
  pose proof (sameData_conditions (Sync.nextId h) conds hA) as A.
  set (h2 := fold_left _ conds hA) in *.
  pose proof (sameData_replay o h2) as B.
  set (h3 := Sync.replay behaviour o h2) in *.
  pose proof (sameData_internalSubscribe (Sync.optKey o) (Sync.optCallback o)
                (Sync.optDestroyRef o) (Sync.optOnError o) false h3) as C.
  destruct (Sync.internalSubscribe (Sync.optKey o) (Sync.optCallback o)
              (Sync.optDestroyRef o) (Sync.optOnError o) false h3) as [main h4].
  cbn [snd] in *.
  apply (sameData_trans h hA); [now split|].
  apply (sameData_trans hA h2); [exact A|].
  apply (sameData_trans h2 h3); [exact B|].
  apply (sameData_trans h3 h4); [exact C|].
  apply sameData_setMainSubscription.
Qed.

Lemma sameData_once o h : sameData h (snd (Sync.once behaviour o h)).
Proof.
  unfold Sync.once. cbn [Sync.fresh].
  set (h1 := Sync.withOnceCells _ _).
  set (o' := Sync.mkOptions _ _ _ _ _ _).
  pose proof (sameData_on o' h1) as A.
  destruct (Sync.on behaviour o' h1) as [r h2]. cbn [snd] in A.
  apply (sameData_trans h h1); [now split|].
  destruct r as [s|err]; cbn [snd]; [|exact A].
  apply (sameData_trans h1 h2); [exact A|now split].
Qed.

Lemma sameData_onCombineLatest o h : sameData h (snd (Sync.onCombineLatest o h)).
Proof.
  unfold Sync.onCombineLatest.
  destruct (Sync.optKeys o) as [|k0 keys]; [apply sameData_refl|].
  destruct (Sync.firstToSignalError (k0 :: keys)); [apply sameData_refl|].
  cbn [Sync.fresh]. destruct (Sync.optCombineDestroyRef o); now split.
Qed.

Lemma sameData_runEffect eff h :
  sameData h (Sync.runEffect combineBehaviour localeCompare eff h).
Proof.
  unfold Sync.runEffect. destruct (Sync.body eff) as [s r|o st].
  - destruct (Sync.readSignal s h); [|apply sameData_refl].
    eapply sameData_step. apply sync_unsubscribeAll_step.
  - unfold Sync.runCombine.
    match goal with
    | |- context [if ?c then _ else _] => destruct c
    end; [now split|].
    destruct (Sync.combinedValue localeCompare o _) as [combinedEvents|]; [|now split].
    destruct (negb (Sync.optCombineReplayLatest o) &&
              Nat.eqb (List.length (Sync.eventRegistry h)) 0); [now split|].
    destruct (combineBehaviour (Sync.optCombineCallback o) combinedEvents);
      try (now split).
    unfold Sync.reportCombineError. destruct (Sync.optCombineOnError o); now split.
Qed.

Lemma sameData_flushPending pending : forall h,
  sameData h (Sync.flushPending combineBehaviour localeCompare pending h).
Proof.
  induction pending as [|x pending IH]; intros h; simpl; [apply sameData_refl|].
  eapply sameData_trans; [|apply IH].
  destruct (Sync.findEffect x h); [apply sameData_runEffect|apply sameData_refl].
Qed.

End SameData.

(** The registry holds one entry per key, each a non-empty key with an
    event of that key, published no later than now. *)
Definition registrySound (h : Sync.Hub) : Prop :=
  registryOk (Sync.eventRegistry h) /\
  forall k ev, mget k (Sync.eventRegistry h) = Some ev ->
    k <> EmptyString /\ key ev = k /\ (timestamp ev <= Sync.now h)%Z.

Lemma registrySound_same h h' : sameData h h' -> registrySound h -> registrySound h'.
Proof. intros [A B] [R K]. unfold registrySound. rewrite A, B. now split. Qed.

Lemma mget_mdelete_Some {V} k k' (v : V) m :
  mget k (mdelete k' m) = Some v -> mget k m = Some v.
Proof.
  destruct (String.eqb_spec k k') as [->|Hne].
  - now rewrite mget_mdelete_same.
  - now rewrite mget_mdelete_other.
Qed.

(** X11.  In every state a program can bring the synchronous service to
    through its public methods, the handles they return, its signals, the
    scheduler and the clock, the registry holds one entry per key; no
    entry is stored under the empty key; each entry is an event of the
    key it is stored under; and no stored event is stamped later than the
    current time. *)
Theorem reachable_registry_sound :
  forall (behaviour : nat -> HubEvent -> Outcome)
         (combineBehaviour : nat -> list HubEvent -> Outcome)
         (localeCompare : string -> string -> Z) (h : Sync.Hub),
    reaches behaviour combineBehaviour localeCompare h ->
    registryOk (Sync.eventRegistry h) /\
    forall k ev, mget k (Sync.eventRegistry h) = Some ev ->
      k <> EmptyString /\ key ev = k /\ (timestamp ev <= Sync.now h)%Z.
Proof.
  intros behaviour combineBehaviour localeCompare h R.
  change (registrySound h).
  induction R as [|h k d _ IH|h o Hcb _ IH|h o Hcb _ IH|h o _ IH|h s _ IH|h d _ IH
                 |h k _ IH|h b _ IH|h s b _ IH|h _ IH|h _ IH|h dt _ IH].
  - split; [apply registryOk_empty|]. intros k ev E. discriminate.
  - unfold Sync.publish. destruct (falsy k) eqn:Fk; [exact IH|].
    cbn [Sync.fresh fst snd]. unfold Sync.notifySubscribers.
    set (h1 := Sync.withRegistry _ _). set (ev := mkEvent _ _ _ _).
    destruct (sync_notifyQueries_step behaviour ev (mkeys (Sync.subscribers h1)) h1)
      as (a & sp & S & _).
    apply (registrySound_same h1); [eapply sameData_step; exact S|].
    destruct IH as [Rok K]. split.
    + apply (registryOk_mset (Sync.eventRegistry h) ev Rok).
    + intros k' ev' E. simpl in E.
      destruct (String.eqb_spec k' k) as [->|Hne].
      * rewrite mget_mset_same in E. inversion E; subst ev'. simpl.
        repeat split; [|lia]. intros ->. discriminate.
      * rewrite mget_mset_other in E by exact Hne. exact (K k' ev' E).
  - revert IH. apply registrySound_same, sameData_on.
  - revert IH. apply registrySound_same, sameData_once.
  - revert IH. apply registrySound_same, sameData_onCombineLatest.
  - revert IH. apply registrySound_same. eapply sameData_step.
    apply sync_runSubscription_step.
  - revert IH. apply registrySound_same. unfold Sync.triggerDestroy.
    eapply sameData_trans; [apply sameData_teardowns|]. now split.
  - unfold Sync.clearEvent. destruct (falsy k); [exact IH|]. simpl.
    destruct IH as [Rok K]. split.
    + now apply registryOk_mdelete.
    + intros k' ev' E. simpl in E. apply mget_mdelete_Some in E. exact (K k' ev' E).
  - unfold Sync.reset.
    assert (registrySound (Sync.withRegistry [] h)) as W1.
    { split; [apply registryOk_empty|]. intros k ev E. discriminate. }
    destruct b; [|exact W1]. revert W1. apply registrySound_same. now split.
  - revert IH. apply registrySound_same. now split.
  - revert IH. apply registrySound_same. apply sameData_flushPending.
  - revert IH. apply registrySound_same. unfold Sync.runMicrotasks.
    eapply sameData_trans; [|apply sameData_tasks]. now split.
  - destruct IH as [Rok K]. split; [exact Rok|].
    intros k ev E. destruct (K k ev E) as (A & B & C). simpl in *.
    repeat split; try assumption. lia.
Qed.

Lemma reachable_registry_sound_witness :
  registryOk
    (Sync.eventRegistry
       (Sync.tick 3 (snd (Sync.publish (fun _ _ => Returned) "cart" (JNum 1) Sync.empty)))).
Proof.
  apply (proj1 (reachable_registry_sound (fun _ _ => Returned) (fun _ _ => Returned)
                  (fun _ _ => 0%Z) _
                  (reaches_tick _ _ _ _ 3
                     (reaches_publish _ _ _ _ "cart" (JNum 1) (reaches_empty _ _ _))))).
Defined.

(** ** [onCombineLatest]: the keys it accepts, and its handle *)

Lemma firstToSignalError_None keys :
  Sync.firstToSignalError keys = None <->
  forall k, In k keys -> k <> EmptyString /\ includes star k = false.
Proof.
  induction keys as [|k keys IH]; cbn [Sync.firstToSignalError In].
  - split; [intros _ k []|reflexivity].
  - unfold Sync.toSignal. destruct (falsy k) eqn:Fk.
    + split; [discriminate|]. intros H. destruct (H k (or_introl eq_refl)) as [X _].
      destruct k; [congruence|discriminate].
    + destruct (includes star k) eqn:St.
      * split; [discriminate|]. intros H. destruct (H k (or_introl eq_refl)) as [_ X].
        congruence.
      * rewrite IH. split.
        -- intros H k' [<-|Hin]; [split; [intros ->; discriminate|exact St]|now apply H].
        -- intros H k' Hin. apply H. now right.
Qed.

Lemma firstToSignalError_first pre k post :
  (forall x, In x pre -> x <> EmptyString /\ includes star x = false) ->
  Sync.firstToSignalError (pre ++ k :: post) =
  if falsy k then Some KeyCannotBeEmpty
  else if includes star k then Some ToSignalDoesNotSupportWildcards
  else Sync.firstToSignalError post.
Proof.
  induction pre as [|x pre IH]; intros Hpre.
  - simpl. unfold Sync.toSignal. destruct (falsy k); [reflexivity|].
    destruct (includes star k); reflexivity.
  - destruct (Hpre x (or_introl eq_refl)) as [Hx Sx].
    assert (falsy x = false) as Fx by (destruct x; [congruence|reflexivity]).
    cbn [app Sync.firstToSignalError]. unfold Sync.toSignal at 1. rewrite Fx, Sx.
    apply IH. intros y Hy. apply Hpre. now right.
Qed.

(** X12.  [onCombineLatest] of the synchronous service checks its keys
    before it changes anything: an empty list, an empty key or a key with
    a [*] makes it throw and leaves the service as it was, the first
    offending key deciding the error.  With an acceptable list it
    returns a handle, adds one effect, and calls nothing yet. *)
Theorem onCombineLatest_checks_keys :
  forall (o : Sync.HubCombineLatestOptions) (h : Sync.Hub),
    (Sync.optKeys o = [] ->
     Sync.onCombineLatest o h = (Throw KeysArrayCannotBeEmpty, h)) /\
    (forall pre k post,
       Sync.optKeys o = pre ++ k :: post ->
       (forall x, In x pre -> x <> EmptyString /\ includes star x = false) ->
       (k = EmptyString ->
        Sync.onCombineLatest o h = (Throw KeyCannotBeEmpty, h)) /\
       (k <> EmptyString -> includes star k = true ->
        Sync.onCombineLatest o h = (Throw ToSignalDoesNotSupportWildcards, h))) /\
    (Sync.optKeys o <> [] ->
     (forall k, In k (Sync.optKeys o) -> k <> EmptyString /\ includes star k = false) ->
     let h' := snd (Sync.onCombineLatest o h) in
     fst (Sync.onCombineLatest o h) = Ok (Sync.Single (Sync.DestroyEffect (Sync.nextId h))) /\
     Sync.effects h' =
       Sync.effects h ++
       [Sync.mkEffect (Sync.nextId h)
          (Sync.CombineLatest o (Sync.mkCombineState false [] None))] /\
     Sync.log h' = Sync.log h /\
     Sync.subscribers h' = Sync.subscribers h /\
     Sync.eventRegistry h' = Sync.eventRegistry h).
Proof.
  intros o h. split; [|split].
  - intros K. unfold Sync.onCombineLatest. now rewrite K.
  - intros pre k post K Hpre.
    pose proof (firstToSignalError_first pre k post Hpre) as F. rewrite <- K in F.
    assert (Sync.optKeys o <> []) as Hne by (rewrite K; now destruct pre).
    unfold Sync.onCombineLatest.
    destruct (Sync.optKeys o) as [|k0 keys] eqn:K0; [congruence|].
    split.
    + intros ->. change (Sync.firstToSignalError (k0 :: keys) = Some KeyCannotBeEmpty) in F.
      now rewrite F.
    + intros Hk St.
      assert (falsy k = false) as Fk by (destruct k; [congruence|reflexivity]).
      rewrite Fk, St in F. now rewrite F.
  - intros Hne Hall h'. subst h'.
    apply firstToSignalError_None in Hall.
    unfold Sync.onCombineLatest.
    destruct (Sync.optKeys o) as [|k0 keys] eqn:K0; [congruence|].
    rewrite Hall. cbn [Sync.fresh].
    destruct (Sync.optCombineDestroyRef o); simpl; repeat split; reflexivity.
Qed.

Lemma onCombineLatest_checks_keys_witness :
  Sync.onCombineLatest
    (Sync.mkCombineOptions ["cart"; "user:*"; EmptyString] 5 None false None Sync.Unsorted)
    Sync.empty
  = (Throw ToSignalDoesNotSupportWildcards, Sync.empty).
Proof.
  apply (proj2 (proj1 (proj2 (onCombineLatest_checks_keys
                                (Sync.mkCombineOptions ["cart"; "user:*"; EmptyString]
                                   5 None false None Sync.Unsorted) Sync.empty))
                  ["cart"] "user:*" [EmptyString] eq_refl
                  ltac:(intros x [<-|[]]; split; [discriminate|reflexivity])));
    [discriminate|reflexivity].
Defined.

(** ** [onCombineLatest]: after its handle was used *)

Section Retired.
Variable behaviour : nat -> HubEvent -> Outcome.
Variable combineBehaviour : nat -> list HubEvent -> Outcome.
Variable localeCompare : string -> string -> Z.
Variable e : nat.

(** Effect [e] is gone and nothing holds its [destroy]. *)
Definition retired (h : Sync.Hub) : Prop :=
  guarded e h /\ ~ In e (map Sync.eid (Sync.effects h)).

Lemma filter_ids keep (l : list Sync.Effect) :
  ~ In e (map Sync.eid l) -> ~ In e (map Sync.eid (filter keep l)).
Proof.
  intros Hn Hin. apply Hn. apply in_map_iff in Hin as (x & Ex & Hx).
  apply filter_In in Hx as [Hx _]. apply in_map_iff. eauto.
Qed.

Lemma retired_publish k d h :
  retired h ->
  retired (snd (Sync.publish behaviour k d h)) /\
  combineCalls e (Sync.log (snd (Sync.publish behaviour k d h))) = combineCalls e (Sync.log h).
Proof.
  intros [G Hn]. split; [split|].
  - now apply publish_guarded.
  - unfold Sync.publish. destruct (falsy k); [exact Hn|].
    cbn [Sync.fresh fst snd]. unfold Sync.notifySubscribers.
    set (h1 := Sync.withRegistry _ _). set (ev := mkEvent _ _ _ _).
    destruct (sync_notifyQueries_step behaviour ev (mkeys (Sync.subscribers h1)) h1)
      as (a & sp & S & _).
    destruct (step_effects _ _ _ _ S) as [keep E]. rewrite E. now apply filter_ids.
  - apply (by_calls _ _ _ (bystander_publish behaviour e k d h (proj2 G))).
Qed.

Lemma runEffect_ids eff h :
  ~ In e (map Sync.eid (Sync.effects h)) ->
  ~ In e (map Sync.eid (Sync.effects (Sync.runEffect combineBehaviour localeCompare eff h))).
Proof.
  intros Hn. unfold Sync.runEffect. destruct (Sync.body eff) as [s r|o st].
  - destruct (Sync.readSignal s h); [|exact Hn].
    destruct (step_effects _ _ _ _ (sync_unsubscribeAll_step r h)) as [keep E].
    rewrite E. now apply filter_ids.
  - destruct (runCombine_shape combineBehaviour localeCompare (Sync.eid eff) o st h)
      as (st' & added & E & _).
    cbv zeta in E. now rewrite E, updateEffect_ids.
Qed.

Lemma flushPending_ids pending : forall h,
  ~ In e (map Sync.eid (Sync.effects h)) ->
  ~ In e (map Sync.eid
            (Sync.effects (Sync.flushPending combineBehaviour localeCompare pending h))).
Proof.
  induction pending as [|x pending IH]; intros h Hn; simpl; [exact Hn|].
  apply IH. destruct (Sync.findEffect x h); [now apply runEffect_ids|exact Hn].
Qed.

Lemma retired_flush h :
  retired h ->
  retired (Sync.flushEffects combineBehaviour localeCompare h) /\
  combineCalls e (Sync.log (Sync.flushEffects combineBehaviour localeCompare h))
  = combineCalls e (Sync.log h).
Proof.
  intros [G Hn]. unfold Sync.flushEffects. split; [split|].
  - now apply flushPending_guarded.
  - now apply flushPending_ids.
  - apply (by_calls _ _ _
             (flushPending_bystander combineBehaviour localeCompare e _ h Hn G)).
Qed.

Lemma retired_after history : forall h,
  retired h ->
  combineCalls e (Sync.log (after behaviour combineBehaviour localeCompare history h))
  = combineCalls e (Sync.log h).
Proof.
  induction history as [|a history IH]; intros h R; [reflexivity|].
  simpl. destruct a as [k d|s b|]; simpl.
  - destruct (retired_publish k d h R) as [R' L]. now rewrite IH.
  - rewrite IH; [reflexivity|]. exact R.
  - destruct (retired_flush h R) as [R' L]. now rewrite IH.
Qed.

End Retired.

(** X13.  Once the handle that [onCombineLatest] returned has been used,
    the callback is never called again: whatever was published, written
    to signals or run by the scheduler before, and whatever is published,
    written or run after, the calls the effect has made stay those it had
    made when the handle was used. *)
Theorem combineLatest_handle_stops_calls :
  forall (behaviour : nat -> HubEvent -> Outcome)
         (combineBehaviour : nat -> list HubEvent -> Outcome)
         (localeCompare : string -> string -> Z)
         (o : Sync.HubCombineLatestOptions) (h : Sync.Hub),
    wellFormed h -> Sync.optKeys o <> [] ->
    Sync.firstToSignalError (Sync.optKeys o) = None ->
    exists s,
      fst (Sync.onCombineLatest o h) = Ok s /\
      forall before later,
        let x := after behaviour combineBehaviour localeCompare before
                   (snd (Sync.onCombineLatest o h)) in
        let y := Sync.runSubscription s x in
        let z := after behaviour combineBehaviour localeCompare later y in
        combineCalls (Sync.nextId h) (Sync.log z) = combineCalls (Sync.nextId h) (Sync.log x) /\
        combineCalls (Sync.nextId h)
          (Sync.log (Sync.flushEffects combineBehaviour localeCompare z))
        = combineCalls (Sync.nextId h) (Sync.log x).
Proof.
  intros behaviour combineBehaviour localeCompare o h Hwf Hkeys Herr.
  destruct (onCombineLatest_combining o h Hwf Hkeys Herr) as (Hok & C0 & _).
  eexists. split; [exact Hok|]. intros before later x y z.
  pose proof (combining_after behaviour combineBehaviour localeCompare
                (Sync.nextId h) o before _ C0) as C.
  fold x in C. destruct C as [[Hnd Hs] _ _].
  assert (retired (Sync.nextId h) y) as R.
  { subst y. cbn [Sync.runSubscription Sync.runTeardown]. unfold Sync.destroyEffect.
    split; [split|].
    - simpl. now apply NoDup_eid_filter.
    - revert Hs. now apply sheltered_same.
    - simpl. intros Hin. apply in_map_iff in Hin as (eff & Ex & Hx).
      apply filter_In in Hx as [_ Hx]. rewrite Ex, Nat.eqb_refl in Hx. discriminate. }
  assert (combineCalls (Sync.nextId h) (Sync.log y) = combineCalls (Sync.nextId h) (Sync.log x))
    as Ly by reflexivity.
  split.
  - subst z. rewrite (retired_after behaviour combineBehaviour localeCompare _ later y R).
    exact Ly.
  - subst z.
    assert (Sync.flushEffects combineBehaviour localeCompare
              (after behaviour combineBehaviour localeCompare later y)
            = after behaviour combineBehaviour localeCompare (later ++ [EffectsFlushed]) y)
      as E by (unfold after; rewrite fold_left_app; reflexivity).
    rewrite E, (retired_after behaviour combineBehaviour localeCompare _ _ y R). exact Ly.
Qed.

Lemma combineLatest_handle_stops_calls_witness :
  exists s,
    fst (Sync.onCombineLatest combineXY Sync.empty) = Ok s /\
    forall before later,
      combineCalls 0
        (Sync.log
           (after (fun _ _ => Returned) (fun _ _ => Returned) byLength later
              (Sync.runSubscription s
                 (after (fun _ _ => Returned) (fun _ _ => Returned) byLength before
                    (snd (Sync.onCombineLatest combineXY Sync.empty))))))
      = combineCalls 0
          (Sync.log
             (after (fun _ _ => Returned) (fun _ _ => Returned) byLength before
                (snd (Sync.onCombineLatest combineXY Sync.empty)))).
Proof.
  destruct (combineLatest_handle_stops_calls (fun _ _ => Returned) (fun _ _ => Returned)
              byLength combineXY Sync.empty wellFormed_empty
              ltac:(discriminate) eq_refl) as (s & E & K).
  exists s. split; [exact E|]. intros before later. exact (proj1 (K before later)).
Defined.

(** ** [once] with [replayLatest] *)

(** The events the caller's function [f] was called with, oldest first. *)
Fixpoint syncCallsOf (f : nat) (l : list Sync.LogItem) : list HubEvent :=
  match l with
  | [] => []
  | Sync.Called (Sync.CbUser g) ev :: rest =>
      if Nat.eqb f g then ev :: syncCallsOf f rest else syncCallsOf f rest
  | _ :: rest => syncCallsOf f rest
  end.

Lemma syncCallsOf_app f a b : syncCallsOf f (a ++ b) = syncCallsOf f a ++ syncCallsOf f b.
Proof.
  induction a as [|x a IH]; [reflexivity|]. simpl.
  destruct x as [cb ev| | | | |]; try exact IH.
  destruct cb; try exact IH. destruct (Nat.eqb f f0); [simpl; now rewrite IH|exact IH].
Qed.

Lemma mset_absent {V} k (v : V) m : mget k m = None -> mset k v m = m ++ [(k, v)].
Proof.
  induction m as [|[k' v'] m IH]; simpl; [reflexivity|].
  destruct (String.eqb k k'); [discriminate|]. intros E. now rewrite IH.
Qed.

Lemma mdelete_mset_absent {V} k (v : V) m : mget k m = None -> mdelete k (mset k v m) = m.
Proof.
  intros E. rewrite (mset_absent k v m E). unfold mdelete. rewrite filter_app. simpl.
  rewrite String.eqb_refl. simpl. rewrite app_nil_r.
  induction m as [|[k' v'] m IH]; simpl in *; [reflexivity|].
  destruct (String.eqb k k'); [discriminate|]. simpl. now rewrite IH.
Qed.

Section OnceReplay.
Variable behaviour : nat -> HubEvent -> Outcome.

Lemma notifyQueries_app ev a : forall b h,
  Sync.notifyQueries behaviour ev (a ++ b) h =
  Sync.notifyQueries behaviour ev b (Sync.notifyQueries behaviour ev a h).
Proof. induction a as [|q a IH]; intros b h; simpl; [reflexivity|apply IH]. Qed.

Lemma notifyQueries_skips ev pending h :
  (forall q set, In q pending -> mget q (Sync.subscribers h) = Some set ->
     Sync.matchQuery (key ev) q = false) ->
  Sync.notifyQueries behaviour ev pending h = h.
Proof.
  induction pending as [|q pending IH]; intros Hskip; simpl; [reflexivity|].
  destruct (mget q (Sync.subscribers h)) as [set|] eqn:G.
  - rewrite (Hskip q set (or_introl eq_refl) G). apply IH.
    intros q' set' Hin. apply Hskip. now right.
  - apply IH. intros q' set' Hin. apply Hskip. now right.
Qed.

End OnceReplay.

(** What the wrapper of [once] logs when it forwards [ev] to [f]. *)
Definition onceTrace (behaviour : nat -> HubEvent -> Outcome) (c f : nat)
    (onErr : option nat) (k : string) (ev : HubEvent) : list Sync.LogItem :=
  Sync.Called (Sync.CbOnce c (Sync.CbUser f) onErr k) ev ::
  Sync.Called (Sync.CbUser f) ev ::
  match behaviour f ev with
  | Threw error => [syncRouted k onErr error ev]
  | _ => []
  end.

Lemma syncCallsOf_onceTrace behaviour c f onErr k ev :
  syncCallsOf f (onceTrace behaviour c f onErr k ev) = [ev].
Proof.
  unfold onceTrace. simpl. rewrite Nat.eqb_refl.
  destruct (behaviour f ev); try reflexivity. unfold syncRouted. now destruct onErr.
Qed.

Lemma internalSubscribe_subscribers q cb destroyRef onErr (selfRemoving : bool) h :
  Sync.subscribers (snd (Sync.internalSubscribe q cb destroyRef onErr selfRemoving h)) =
  mset q ((match mget q (Sync.subscribers h) with
           | Some set => set
           | None => []
           end) ++
          [Sync.mkSubscriber (Sync.nextId h)
             (if selfRemoving then Sync.CbSelfRemoving q (Sync.nextId h) cb else cb) onErr])
       (Sync.subscribers h).
Proof.
  unfold Sync.internalSubscribe. cbn [Sync.fresh]. destruct destroyRef; reflexivity.
Qed.

(** The replay of the wrapper of [once], made while its [subscription]
    variable is still [null]. *)
Lemma replay_once_log behaviour c f onErr k ev0 x :
  Sync.getOnceCell c x = None -> includes star k = false ->
  mget k (Sync.eventRegistry x) = Some ev0 ->
  Sync.log (Sync.replay behaviour
              (Sync.mkOptions k (Sync.CbOnce c (Sync.CbUser f) onErr k) None true onErr
                 Sync.NoUntil) x)
  = Sync.log x ++ onceTrace behaviour c f onErr k ev0.
Proof.
  intros Hc Hstar Hreg. unfold Sync.replay, Sync.findLatestEventForKey.
  cbn [Sync.optReplayLatest Sync.optKey Sync.optCallback Sync.optOnError].
  rewrite Hstar. cbn [negb]. rewrite Hreg. cbn [Sync.invoke].
  change (Sync.getOnceCell c
            (Sync.addLog (Sync.Called (Sync.CbOnce c (Sync.CbUser f) onErr k) ev0) x))
    with (Sync.getOnceCell c x).
  rewrite Hc. unfold onceTrace.
  destruct (behaviour f ev0); simpl; rewrite <- ?app_assoc; try reflexivity.
  unfold Sync.handleError, syncRouted. destruct onErr; simpl; now rewrite <- !app_assoc.
Qed.

(** The state [once] leaves when it replays a stored event. *)
Lemma once_replay_state behaviour h k f onErr ev0 :
  k <> EmptyString -> includes star k = false ->
  mget k (Sync.eventRegistry h) = Some ev0 ->
  let c := Sync.nextId h in
  let sub := Sync.mkSubscriber (S (S c)) (Sync.CbOnce c (Sync.CbUser f) onErr k) onErr in
  let h1 := snd (Sync.once behaviour
                   (Sync.mkOptions k (Sync.CbUser f) None true onErr Sync.NoUntil) h) in
  Sync.subscribers h1 =
    mset k ((match mget k (Sync.subscribers h) with
             | Some set => set
             | None => []
             end) ++ [sub]) (Sync.subscribers h) /\
  Sync.getOnceCell c h1 = Some (Sync.UnsubscribeAll (S c)) /\
  Sync.lookup (S c) (Sync.registrations h1) =
    Some (Sync.mkRegistration [] (Some (Sync.RemoveSubscriber k (S (S c))))) /\
  Sync.log h1 = Sync.log h ++ onceTrace behaviour c f onErr k ev0.
Proof.
  intros Hk Hstar Hreg c sub h1. subst h1.
  assert (falsy k = false) as Fk by (destruct k; [congruence|reflexivity]).
  unfold Sync.once. cbn [Sync.fresh Sync.optKey Sync.optCallback Sync.optOnError
    Sync.optReplayLatest Sync.optUntil]. fold c.
  set (h0 := Sync.withOnceCells _ _).
  unfold Sync.on. cbn [Sync.optKey Sync.optCallback Sync.optOnError Sync.optReplayLatest
    Sync.optUntil Sync.optDestroyRef Sync.isFunction negb Sync.conditionsOf existsb].
  rewrite Fk. cbn [Sync.fresh fold_left].
  change (Sync.nextId h0) with (S c).
  set (hA := Sync.withRegistrations _ _).
  set (o' := Sync.mkOptions k (Sync.CbOnce c (Sync.CbUser f) onErr k) None true onErr
               Sync.NoUntil).
  assert (Sync.getOnceCell c hA = None) as Hcell.
  { unfold Sync.getOnceCell. subst hA h0. simpl. now rewrite lookup_store_same. }
  assert (replaysQuietly (Sync.optCallback o') hA) as Hq by exact Hcell.
  destruct (replay_quiet behaviour o' hA Hq) as (N3 & R3 & C3 & _ & _ & S3 & _).
  pose proof (replay_once_log behaviour c f onErr k ev0 hA Hcell Hstar Hreg) as L3.
  fold o' in L3.
  set (h3 := Sync.replay behaviour o' hA) in *.
  destruct (internalSubscribe_spec k (Sync.CbOnce c (Sync.CbUser f) onErr k) None onErr
              false h3) as (F & N & R & C & _ & _ & _ & L & _).
  pose proof (internalSubscribe_subscribers k (Sync.CbOnce c (Sync.CbUser f) onErr k) None
                onErr false h3) as S4.
  destruct (Sync.internalSubscribe k (Sync.CbOnce c (Sync.CbUser f) onErr k) None onErr
              false h3) as [main h4].
  cbn [fst snd] in *. subst main.
  change (Sync.nextId hA) with (S (S c)) in N3. rewrite N3 in *.
  assert (Sync.lookup (S c) (Sync.registrations h4) = Some (Sync.mkRegistration [] None)) as L4.
  { rewrite R, R3. subst hA. simpl. apply lookup_store_same. }
  unfold Sync.setMainSubscription. rewrite L4. cbn [snd].
  refine (conj _ (conj _ (conj _ _))).
  - simpl. rewrite S4, S3. reflexivity.
  - unfold Sync.getOnceCell. simpl. now rewrite lookup_store_same.
  - simpl. apply lookup_store_same.
  - simpl. rewrite L, L3. reflexivity.
Qed.

(** A publish that reaches no subscriber but the wrapper of one [once]. *)
Lemma once_subscriber_fires behaviour x k c reg id f onErr onErr' d subs0 :
  k <> EmptyString ->
  (forall q set, mget q subs0 = Some set -> Sync.matchQuery k q = false) ->
  Sync.subscribers x =
    mset k [Sync.mkSubscriber id (Sync.CbOnce c (Sync.CbUser f) onErr k) onErr'] subs0 ->
  Sync.getOnceCell c x = Some (Sync.UnsubscribeAll reg) ->
  Sync.lookup reg (Sync.registrations x) =
    Some (Sync.mkRegistration [] (Some (Sync.RemoveSubscriber k id))) ->
  let ev := mkEvent (Sync.nextId x) k d (Sync.now x) in
  let x2 := snd (Sync.publish behaviour k d x) in
  Sync.log x2 = Sync.log x ++ onceTrace behaviour c f onErr k ev /\
  Sync.subscribers x2 = subs0.
Proof.
  intros Hk Hnone Hsubs Hcell Hregn ev x2. subst x2.
  assert (falsy k = false) as Fk by (destruct k; [congruence|reflexivity]).
  assert (mget k subs0 = None) as Hsub.
  { destruct (mget k subs0) as [set|] eqn:G; [|reflexivity].
    pose proof (Hnone k set G) as X. rewrite regex_matchQuery_refl in X. discriminate. }
  unfold Sync.publish. rewrite Fk. cbn [Sync.fresh fst snd].
  change (Sync.now (Sync.withNextId (S (Sync.nextId x)) x)) with (Sync.now x). fold ev.
  set (hR := Sync.withRegistry _ _).
  unfold Sync.notifySubscribers.
  change (Sync.subscribers hR) with (Sync.subscribers x).
  set (sub := Sync.mkSubscriber id (Sync.CbOnce c (Sync.CbUser f) onErr k) onErr') in *.
  rewrite Hsubs, (mset_absent k [sub] subs0 Hsub).
  unfold mkeys. rewrite map_app. cbn [map fst]. rewrite notifyQueries_app.
  rewrite (notifyQueries_skips behaviour ev (map fst subs0) hR).
  2:{ intros q set Hin G. change (Sync.subscribers hR) with (Sync.subscribers x) in G.
      rewrite Hsubs in G.
      assert (q <> k) as Hne.
      { intros ->. apply (mget_None_not_key k subs0 Hsub). exact Hin. }
      rewrite mget_mset_other in G by exact Hne. exact (Hnone q set G). }
  cbn [Sync.notifyQueries].
  change (Sync.subscribers hR) with (Sync.subscribers x).
  rewrite Hsubs, mget_mset_same. change (key ev) with k. rewrite regex_matchQuery_refl.
  cbn [Sync.notifySet].
  assert (Sync.isSubscribed k (Sync.sid sub) hR = true) as Hin.
  { unfold Sync.isSubscribed. change (Sync.subscribers hR) with (Sync.subscribers x).
    rewrite Hsubs, mget_mset_same. simpl. now rewrite Nat.eqb_refl. }
  rewrite Hin. unfold Sync.deliver. cbn [Sync.callback sub Sync.invoke].
  set (h0 := Sync.addLog _ hR).
  change (Sync.getOnceCell c h0) with (Sync.getOnceCell c x). rewrite Hcell.
  cbn [Sync.runSubscription]. unfold Sync.unsubscribeAll.
  change (Sync.registrations h0) with (Sync.registrations x). rewrite Hregn.
  cbn [Sync.unsubscribers Sync.mainSubscription fold_left Sync.runTeardown].
  unfold Sync.removeSubscriber.
  change (Sync.subscribers h0) with (Sync.subscribers x).
  rewrite Hsubs, mget_mset_same. cbn [filter Sync.sid sub]. rewrite Nat.eqb_refl.
  cbn [negb]. rewrite (mdelete_mset_absent k [sub] subs0 Hsub).
  unfold onceTrace. fold ev.
  destruct (behaviour f ev) as [|error| |error]; cbn [fst snd Sync.log Sync.subscribers
    Sync.addLog Sync.withLog Sync.withSubscribers Sync.onError];
    try (split; [subst h0 hR; simpl; now rewrite <- !app_assoc|reflexivity]).
  unfold Sync.handleError, syncRouted.
  destruct onErr; (split; [subst h0 hR; simpl; now rewrite <- !app_assoc|reflexivity]).
Qed.

(** A publish no subscriber listens to. *)
Lemma publish_unheard behaviour x k d :
  (forall q set, mget q (Sync.subscribers x) = Some set -> Sync.matchQuery k q = false) ->
  Sync.log (snd (Sync.publish behaviour k d x)) = Sync.log x /\
  Sync.subscribers (snd (Sync.publish behaviour k d x)) = Sync.subscribers x.
Proof.
  intros Hnone. unfold Sync.publish. destruct (falsy k); [now split|].
  cbn [Sync.fresh fst snd]. unfold Sync.notifySubscribers.
  rewrite notifyQueries_skips; [now split|].
  intros q set _ G. exact (Hnone q set G).
Qed.



Lemma lookupClosure_store_same c v l :
  Queued.lookupClosure c (Queued.storeClosure c v l) = v.
Proof.
  induction l as [|[c' v'] l IH]; simpl.
  - now rewrite Nat.eqb_refl.
  - destruct (Nat.eqb c c') eqn:E; simpl; rewrite ?Nat.eqb_refl, ?E; auto.
Qed.

(** What the wrapper of [once] of the queued service logs when it is
    replayed: its own call, the call of [f], and the report of what [f]
    threw. *)
Definition queuedOnceReplay (behaviour : nat -> HubEvent -> Outcome) (c f : nat)
    (onErr : option nat) (k : string) (ev : HubEvent) : list Queued.LogItem :=
  Queued.Called (Queued.CbOnce c (Queued.CbUser f)) ev ::
  Queued.Called (Queued.CbUser f) ev ::
  match behaviour f ev with
  | Threw error =>
      [match onErr with
       | Some handler => Queued.HandlerCalled handler error ev
       | None => Queued.ReplayWarned k error
       end]
  | _ => []
  end.

Lemma queued_once_replay_state behaviour h k f onErr ev0 :
  k <> EmptyString -> mget k (Queued.eventRegistry h) = Some ev0 ->
  let c := Queued.nextId h in
  let h1 := snd (Queued.once behaviour
                   (Queued.mkOptions k (Queued.CbUser f) None true onErr) h) in
  Queued.subscribers h1 =
    mset k ((match mget k (Queued.subscribers h) with
             | Some l => l
             | None => []
             end) ++ [Queued.mkEntry (Queued.CbOnce c (Queued.CbUser f)) onErr])
         (Queued.subscribers h) /\
  Queued.hasRun (Queued.getClosure c h1) = true /\
  Queued.log h1 = Queued.log h ++ queuedOnceReplay behaviour c f onErr k ev0 /\
  Queued.eventQueue h1 = Queued.eventQueue h /\
  Queued.microtasks h1 = Queued.microtasks h /\
  Queued.nextId h1 = S c /\ Queued.now h1 = Queued.now h.
Proof.
  intros Hk Hreg c h1. subst h1.
  assert (falsy k = false) as Fk by (destruct k; [congruence|reflexivity]).
  unfold Queued.once, Queued.newClosure.
  cbn [Queued.optKey Queued.optCallback Queued.optOnError Queued.optReplayLatest]. fold c.
  set (h0 := Queued.withNextId _ _).
  unfold Queued.subscribe.
  cbn [Queued.optKey Queued.optCallback Queued.optOnError Queued.optReplayLatest
       Queued.optDestroyRef Queued.isFunction negb].
  rewrite Fk. change (Queued.eventRegistry h0) with (Queued.eventRegistry h). rewrite Hreg.
  cbn [Queued.invoke].
  set (hL := Queued.addLog _ h0).
  assert (Queued.getClosure c hL = Queued.mkClosure false None) as G0.
  { unfold Queued.getClosure. subst hL h0. simpl. apply lookupClosure_store_same. }
  rewrite G0. cbn [Queued.hasRun].
  set (hS := Queued.setHasRun c hL).
  assert (Queued.getClosure c hS = Queued.mkClosure true None) as G1.
  { unfold Queued.getClosure. subst hS. unfold Queued.setHasRun. simpl.
    rewrite lookupClosure_store_same. now rewrite G0. }
  rewrite G1. cbn [Queued.subscription].
  match goal with
  | |- context [Queued.internalSubscribe _ _ _ _ ?x] => set (hR := x)
  end.
  assert (Queued.subscribers hR = Queued.subscribers h /\
          Queued.closures hR = Queued.closures hS /\
          Queued.log hR = Queued.log h ++ queuedOnceReplay behaviour c f onErr k ev0 /\
          Queued.eventQueue hR = Queued.eventQueue h /\
          Queued.microtasks hR = Queued.microtasks h /\
          Queued.nextId hR = S c /\ Queued.now hR = Queued.now h) as (S & C & L & Q & M & N & T).
  { subst hR. unfold queuedOnceReplay, Queued.reportReplayError.
    cbn [Queued.optOnError Queued.optKey].
    destruct (behaviour f ev0); try destruct onErr; simpl; rewrite <- ?app_assoc;
      repeat split; reflexivity. }
  unfold Queued.internalSubscribe. cbn [fst snd].
  unfold Queued.setSubscription.
  refine (conj _ (conj _ (conj L (conj Q (conj M (conj N T)))))).
  - simpl. now rewrite S.
  - unfold Queued.getClosure at 1. simpl. rewrite lookupClosure_store_same. simpl.
    unfold Queued.getClosure. simpl. rewrite C. exact (f_equal Queued.hasRun G1).
Qed.

Lemma queued_notify_skips ev (groups : jsmap (list Queued.Entry)) : forall acc,
  (forall q l, In (q, l) groups -> Queued.matchQuery (key ev) q = false) ->
  fold_left
    (fun acc group =>
       if Queued.matchQuery (key ev) (fst group)
       then fold_left (fun acc' entry => Queued.addTask (Queued.TCall (fst group) entry ev) acc')
                      (snd group) acc
       else acc)
    groups acc = acc.
Proof.
  induction groups as [|[q l] groups IH]; intros acc Hskip; simpl; [reflexivity|].
  rewrite (Hskip q l (or_introl eq_refl)). apply IH.
  intros q' l' Hin. apply (Hskip q' l'). now right.
Qed.

(** A publish heard by nobody but the wrapper of a [once] that has run. *)
Lemma queued_spent_wrapper_heard behaviour x k c f onErr d subs0 :
  k <> EmptyString -> looselyNull d = false ->
  (forall q l, In (q, l) subs0 -> Queued.matchQuery k q = false) ->
  Queued.subscribers x =
    mset k [Queued.mkEntry (Queued.CbOnce c (Queued.CbUser f)) onErr] subs0 ->
  Queued.hasRun (Queued.getClosure c x) = true ->
  Queued.eventQueue x = [] -> Queued.microtasks x = [] ->
  let ev := mkEvent (Queued.nextId x) k d (Queued.now x) in
  let x2 := Queued.settle behaviour (snd (Queued.publish k d x)) in
  Queued.log x2 = Queued.log x ++ [Queued.Called (Queued.CbOnce c (Queued.CbUser f)) ev] /\
  Queued.subscribers x2 = Queued.subscribers x /\
  mget k (Queued.eventRegistry x2) = Some ev.
Proof.
  intros Hk Hd Hnone Hsubs Hrun Hq Hm ev x2. subst x2.
  assert (falsy k = false) as Fk by (destruct k; [congruence|reflexivity]).
  assert (mget k subs0 = None) as Hsub.
  { destruct (mget k subs0) as [l|] eqn:G; [|reflexivity].
    apply mget_In in G. pose proof (Hnone k l G) as X.
    rewrite split_matchQuery_refl in X. discriminate. }
  rewrite (mset_absent k _ subs0 Hsub) in Hsubs.
  destruct x as [queue registry subs closures hooks tasks lg nw nid].
  cbn [Queued.subscribers Queued.eventQueue Queued.microtasks Queued.log Queued.nextId
       Queued.now] in *.
  unfold Queued.getClosure in Hrun. cbn [Queued.closures] in Hrun.
  subst subs queue tasks.
  unfold Queued.publish. rewrite Fk, Hd. cbn [snd].
  unfold Queued.settle, Queued.drainQueue, Queued.withNextId, Queued.withQueue.
  cbn [Queued.eventQueue Queued.eventRegistry Queued.subscribers Queued.closures
       Queued.destroyHooks Queued.microtasks Queued.log Queued.now Queued.nextId app
       fold_left fst snd key].
  unfold Queued.notifySubscribers.
  cbn [Queued.subscribers]. rewrite fold_left_app.
  rewrite (queued_notify_skips _ subs0) by exact Hnone.
  cbn [fold_left fst snd key]. rewrite split_matchQuery_refl.
  unfold Queued.addTask, Queued.withMicrotasks, Queued.withRegistry, Queued.withQueue.
  cbn [Queued.eventQueue Queued.eventRegistry Queued.subscribers Queued.closures
       Queued.destroyHooks Queued.microtasks Queued.log Queued.now Queued.nextId app].
  unfold Queued.runMicrotasks.
  cbn [Queued.microtasks map Queued.taskWeight Queued.callback Queued.resumptions
       list_sum Nat.add Queued.runTasks Queued.withMicrotasks Queued.runTask Queued.invoke].
  change (list_sum [2]) with 2.
  simpl. unfold Queued.getClosure. simpl. rewrite Hrun. simpl.
  repeat split. apply mget_mset_same.
Qed.

Lemma queuedCallsOf_app f a b :
  queuedCallsOf f (a ++ b) = queuedCallsOf f a ++ queuedCallsOf f b.
Proof.
  induction a as [|x a IH]; [reflexivity|]. simpl.
  destruct x as [cb ev| | |]; try exact IH.
  destruct cb; try exact IH. destruct (Nat.eqb f f0); [simpl; now rewrite IH|exact IH].
Qed.



(** ** The first service: the exact order of delivery *)

Section BusTrace.
Variable behaviour : nat -> HubEvent -> option value.

(** What one call of a subscriber writes: the call, and the warning when
    the function throws. *)
Definition busCallTrace (query : string) (ev : HubEvent) (f : nat) : list Bus.LogItem :=
  Bus.Called f ev ::
  match behaviour f ev with
  | Some error => [Bus.Warned query error]
  | None => []
  end.

(** The fan-out of one event: the queries in the order they were first
    subscribed, the functions of a query in the order they were added. *)
Definition busFanOut (subs : jsmap (list nat)) (ev : HubEvent) : list Bus.LogItem :=
  flat_map (fun entry : string * list nat =>
              if Bus.matchQuery (key ev) (fst entry)
              then flat_map (busCallTrace (fst entry) ev) (snd entry)
              else [])
           subs.

Lemma bus_callAll_trace query ev callbacks : forall h,
  let h' := fold_left (Bus.callSubscriber behaviour query ev) callbacks h in
  Bus.log h' = Bus.log h ++ flat_map (busCallTrace query ev) callbacks /\
  Bus.subscribers h' = Bus.subscribers h.
Proof.
  induction callbacks as [|f callbacks IH]; intros h; simpl.
  - now rewrite app_nil_r.
  - destruct (IH (Bus.callSubscriber behaviour query ev h f)) as [L S].
    rewrite L, S. unfold Bus.callSubscriber, busCallTrace.
    destruct (behaviour f ev); simpl; rewrite <- !app_assoc; now split.
Qed.

Lemma bus_groups_trace ev (groups : jsmap (list nat)) : forall h,
  let h' := fold_left
              (fun acc (entry : string * list nat) =>
                 if Bus.matchQuery (key ev) (fst entry)
                 then fold_left (Bus.callSubscriber behaviour (fst entry) ev) (snd entry) acc
                 else acc)
              groups h in
  Bus.log h' = Bus.log h ++ busFanOut groups ev /\
  Bus.subscribers h' = Bus.subscribers h.
Proof.
  induction groups as [|g groups IH]; intros h; simpl.
  - now rewrite app_nil_r.
  - destruct (Bus.matchQuery (key ev) (fst g)).
    + destruct (bus_callAll_trace (fst g) ev (snd g) h) as [L0 S0].
      match goal with |- context [fold_left _ groups ?x] =>
        destruct (IH x) as [L1 S1] end.
      rewrite L1, S1, L0, S0, <- app_assoc. now split.
    + apply IH.
Qed.

Lemma bus_queue_trace queue : forall registry h,
  let r := fold_left
             (fun (acc : jsmap HubEvent * Bus.Hub) ev =>
                (mset (key ev) ev (fst acc), Bus.notifySubscribers behaviour ev (snd acc)))
             queue (registry, h) in
  Bus.log (snd r) = Bus.log h ++ flat_map (busFanOut (Bus.subscribers h)) queue /\
  Bus.subscribers (snd r) = Bus.subscribers h.
Proof.
  induction queue as [|ev queue IH]; intros registry h; simpl.
  - now rewrite app_nil_r.
  - destruct (bus_groups_trace ev (Bus.subscribers h) h) as [L0 S0].
    fold (Bus.notifySubscribers behaviour ev h) in L0, S0.
    destruct (IH (mset (key ev) ev registry) (Bus.notifySubscribers behaviour ev h))
      as [L1 S1].
    rewrite L1, S1, L0, S0, <- app_assoc. now split.
Qed.

Lemma busFanOut_sound subs ev f ev' :
  In (Bus.Called f ev') (busFanOut subs ev) ->
  ev' = ev /\
  exists q callbacks,
    In (q, callbacks) subs /\ Bus.matchQuery (key ev) q = true /\ In f callbacks.
Proof.
  unfold busFanOut. intros Hin. apply in_flat_map in Hin as ([q callbacks] & Hg & Hin).
  simpl in Hin. destruct (Bus.matchQuery (key ev) q) eqn:M; [|destruct Hin].
  apply in_flat_map in Hin as (g & Hg' & Hin). unfold busCallTrace in Hin.
  destruct Hin as [E|Hin].
  - inversion E; subst. split; [reflexivity|]. exists q, callbacks. auto.
  - destruct (behaviour g ev); [destruct Hin as [E|[]]; discriminate|destruct Hin].
Qed.

End BusTrace.

(** X16.  One run of the queue effect of the first service writes the
    queued events in the order they were emitted, and for each event
    calls the functions of every matching query, the queries in the order
    they were first subscribed and the functions of a query in the order
    they were added, a function that throws being followed by its
    warning; the subscribers are left as they were.  So a function is
    called only with a queued event, and only if it is registered under a
    query that matches the key of that event. *)
Theorem bus_delivery_order :
  forall (behaviour : nat -> HubEvent -> option value) (h : Bus.Hub),
    let h' := Bus.drainQueue behaviour h in
    Bus.log h' =
      Bus.log h ++ flat_map (busFanOut behaviour (Bus.subscribers h)) (Bus.eventQueue h) /\
    Bus.subscribers h' = Bus.subscribers h /\
    forall f ev,
      In (Bus.Called f ev)
         (flat_map (busFanOut behaviour (Bus.subscribers h)) (Bus.eventQueue h)) ->
      In ev (Bus.eventQueue h) /\
      exists q callbacks,
        In (q, callbacks) (Bus.subscribers h) /\
        Bus.matchQuery (key ev) q = true /\ In f callbacks.
Proof.
  intros behaviour h h'. subst h'. refine (conj _ (conj _ _)).
  - unfold Bus.drainQueue. destruct (Bus.eventQueue h) as [|ev0 queue] eqn:Q.
    + simpl. now rewrite app_nil_r.
    + destruct (bus_queue_trace behaviour (ev0 :: queue) (Bus.eventRegistry h) h) as [L _].
      destruct (fold_left _ (ev0 :: queue) (Bus.eventRegistry h, h)) as [updated h1].
      exact L.
  - unfold Bus.drainQueue. destruct (Bus.eventQueue h) as [|ev0 queue] eqn:Q; [reflexivity|].
    destruct (bus_queue_trace behaviour (ev0 :: queue) (Bus.eventRegistry h) h) as [_ S].
    destruct (fold_left _ (ev0 :: queue) (Bus.eventRegistry h, h)) as [updated h1].
    exact S.
  - intros f ev Hin. apply in_flat_map in Hin as (ev' & Hq & Hin).
    apply busFanOut_sound in Hin as [-> Hin]. split; [exact Hq|exact Hin].
Qed.

(** ** The queued service: what the effect schedules *)

(** The calls scheduled for one event: the queries in the order they
    were first subscribed, the entries of a query in the order they were
    added. *)
Definition queuedFanOut (subs : jsmap (list Queued.Entry)) (ev : HubEvent)
    : list Queued.Task :=
  flat_map (fun group : string * list Queued.Entry =>
              if Queued.matchQuery (key ev) (fst group)
              then map (fun entry => Queued.TCall (fst group) entry ev) (snd group)
              else [])
           subs.

Lemma queued_entries_schedule query ev entries : forall acc,
  let r := fold_left
             (fun acc' entry => Queued.addTask (Queued.TCall query entry ev) acc')
             entries acc in
  Queued.microtasks r =
    Queued.microtasks acc ++ map (fun entry => Queued.TCall query entry ev) entries /\
  Queued.log r = Queued.log acc /\ Queued.subscribers r = Queued.subscribers acc.
Proof.
  induction entries as [|en entries IH]; intros acc; simpl.
  - now rewrite app_nil_r.
  - destruct (IH (Queued.addTask (Queued.TCall query en ev) acc)) as (M & L & S).
    rewrite M, L, S. simpl. rewrite <- app_assoc. now repeat split.
Qed.

Lemma queued_groups_schedule ev (groups : jsmap (list Queued.Entry)) : forall acc,
  let r := fold_left
             (fun acc group =>
                if Queued.matchQuery (key ev) (fst group)
                then fold_left
                       (fun acc' entry => Queued.addTask (Queued.TCall (fst group) entry ev) acc')
                       (snd group) acc
                else acc)
             groups acc in
  Queued.microtasks r = Queued.microtasks acc ++ queuedFanOut groups ev /\
  Queued.log r = Queued.log acc /\ Queued.subscribers r = Queued.subscribers acc.
Proof.
  induction groups as [|g groups IH]; intros acc; simpl.
  - now rewrite app_nil_r.
  - destruct (Queued.matchQuery (key ev) (fst g)).
    + destruct (queued_entries_schedule (fst g) ev (snd g) acc) as (M0 & L0 & S0).
      match goal with |- context [fold_left _ groups ?x] =>
        destruct (IH x) as (M1 & L1 & S1) end.
      rewrite M1, L1, S1, M0, L0, S0, <- app_assoc. now repeat split.
    + apply IH.
Qed.

Lemma queued_queue_schedule queue : forall registry h,
  let r := fold_left
             (fun (acc : jsmap HubEvent * Queued.Hub) ev =>
                (mset (key ev) ev (fst acc), Queued.notifySubscribers ev (snd acc)))
             queue (registry, h) in
  Queued.microtasks (snd r) =
    Queued.microtasks h ++ flat_map (queuedFanOut (Queued.subscribers h)) queue /\
  Queued.log (snd r) = Queued.log h /\ Queued.subscribers (snd r) = Queued.subscribers h.
Proof.
  induction queue as [|ev queue IH]; intros registry h; simpl.
  - now rewrite app_nil_r.
  - destruct (queued_groups_schedule ev (Queued.subscribers h) h) as (M0 & L0 & S0).
    fold (Queued.notifySubscribers ev h) in M0, L0, S0.
    destruct (IH (mset (key ev) ev registry) (Queued.notifySubscribers ev h))
      as (M1 & L1 & S1).
    rewrite M1, L1, S1, M0, L0, S0, <- app_assoc. now repeat split.
Qed.

Lemma queued_drain_schedule h :
  Queued.microtasks (Queued.drainQueue h) =
    Queued.microtasks h ++
    flat_map (queuedFanOut (Queued.subscribers h)) (Queued.eventQueue h) /\
  Queued.log (Queued.drainQueue h) = Queued.log h /\
  Queued.subscribers (Queued.drainQueue h) = Queued.subscribers h.
Proof.
  unfold Queued.drainQueue. destruct (Queued.eventQueue h) as [|ev0 queue] eqn:Q.
  - simpl. now rewrite app_nil_r.
  - destruct (queued_queue_schedule (ev0 :: queue) (Queued.eventRegistry h) h) as (M & L & S).
    destruct (fold_left _ (ev0 :: queue) (Queued.eventRegistry h, h)) as [updated h1].
    exact (conj M (conj L S)).
Qed.

Lemma queuedFanOut_nil ev : queuedFanOut [] ev = [].
Proof. reflexivity. Qed.

Lemma flat_map_nil {A B} (l : list A) : flat_map (fun _ : A => @nil B) l = [].
Proof. induction l as [|a l IH]; [reflexivity|exact IH]. Qed.

(** X17.  The effect of the queued service calls nothing itself: it
    schedules one call for every queued event and every entry of every
    matching query, events in the order they were published, queries in
    the order they were first subscribed, entries in the order they were
    added.  A call that is scheduled is made even if the subscribers are
    removed before the scheduled calls run; removing all subscribers
    before the effect runs leaves the queued events without any call. *)
Theorem queued_scheduled_calls_survive :
  forall (behaviour : nat -> HubEvent -> Outcome) (h : Queued.Hub),
    let x := Queued.drainQueue h in
    Queued.microtasks x =
      Queued.microtasks h ++
      flat_map (queuedFanOut (Queued.subscribers h)) (Queued.eventQueue h) /\
    Queued.log x = Queued.log h /\
    (forall ev q entries f onErr removed,
       In ev (Queued.eventQueue h) -> In (q, entries) (Queued.subscribers h) ->
       Queued.matchQuery (key ev) q = true ->
       In (Queued.mkEntry (Queued.CbUser f) onErr) entries ->
       exists added,
         Queued.log (Queued.runMicrotasks behaviour (Queued.unsubscribeAll removed x))
         = Queued.log h ++ added /\
         In (Queued.Called (Queued.CbUser f) ev) added) /\
    (Queued.microtasks h = [] ->
     Queued.log (Queued.settle behaviour (Queued.unsubscribeAll None h)) = Queued.log h).
Proof.
  intros behaviour h x. subst x.
  destruct (queued_drain_schedule h) as (M & L & S).
  refine (conj M (conj L (conj _ _))).
  - intros ev q entries f onErr removed Hev Hg Hm Hen.
    set (y := Queued.unsubscribeAll removed (Queued.drainQueue h)).
    assert (Queued.microtasks y = Queued.microtasks (Queued.drainQueue h) /\
            Queued.log y = Queued.log (Queued.drainQueue h)) as [My Ly].
    { subst y. unfold Queued.unsubscribeAll.
      destruct removed as [k|]; [destruct (falsy k)|]; now split. }
    destruct (queued_runMicrotasks_serves behaviour y) as (added & LA & _ & Sv).
    exists added. split; [now rewrite LA, Ly, L|].
    destruct (Sv (Queued.TCall q (Queued.mkEntry (Queued.CbUser f) onErr) ev)) as (C & _).
    + rewrite My, M. apply in_or_app. right. apply in_flat_map. exists ev.
      split; [exact Hev|]. unfold queuedFanOut. apply in_flat_map. exists (q, entries).
      split; [exact Hg|]. simpl. rewrite Hm. apply in_map_iff. eauto.
    + apply C. reflexivity.
  - intros Hm. unfold Queued.settle.
    destruct (queued_drain_schedule (Queued.unsubscribeAll None h)) as (M' & L' & _).
    rewrite queued_runMicrotasks_idle; [exact L'|].
    rewrite M'. simpl. rewrite Hm. simpl.
    change (queuedFanOut []) with (fun _ : HubEvent => @nil Queued.Task).
    apply flat_map_nil.
Qed.

Lemma queued_scheduled_calls_survive_witness :
  exists added,
    Queued.log
      (Queued.runMicrotasks (fun _ _ => Returned)
         (Queued.unsubscribeAll None
            (Queued.drainQueue
               (snd (Queued.publish "k" (JNum 1)
                       (snd (Queued.subscribe (fun _ _ => Returned)
                               (Queued.mkOptions "k" (Queued.CbUser 7) None false None)
                               Queued.empty)))))))
    = [] ++ added /\
    In (Queued.Called (Queued.CbUser 7) (mkEvent 0 "k" (JNum 1) 0%Z)) added.
Proof.
  apply (proj1 (proj2 (proj2 (queued_scheduled_calls_survive (fun _ _ => Returned)
                                (snd (Queued.publish "k" (JNum 1)
                                        (snd (Queued.subscribe (fun _ _ => Returned)
                                                (Queued.mkOptions "k" (Queued.CbUser 7) None
                                                   false None)
                                                Queued.empty)))))))
           (mkEvent 0 "k" (JNum 1) 0%Z) "k" [Queued.mkEntry (Queued.CbUser 7) None] 7 None None).
  - simpl. now left.
  - simpl. now left.
  - reflexivity.
  - simpl. now left.
Defined.

(** ** The synchronous service: [destroyRef] and [until] *)

Lemma internalSubscribe_hooks q cb destroyRef onErr (selfRemoving : bool) h :
  Sync.destroyHooks (snd (Sync.internalSubscribe q cb destroyRef onErr selfRemoving h)) =
  Sync.destroyHooks h ++
  match destroyRef with
  | Some d => [(d, Sync.RemoveSubscriber q (Sync.nextId h))]
  | None => []
  end.
Proof.
  unfold Sync.internalSubscribe. cbn [Sync.fresh].
  destruct destroyRef; simpl; [reflexivity|now rewrite app_nil_r].
Qed.

(** [on] with one stop key and no replay. *)
Lemma on_stopKey_state behaviour h k c f destroyRef onErr :
  k <> EmptyString -> c <> EmptyString ->
  let n := Sync.nextId h in
  let stop := Sync.mkSubscriber (S n)
                (Sync.CbSelfRemoving c (S n) (Sync.CbUnsubscribeAll n)) None in
  let main := Sync.mkSubscriber (S (S n)) (Sync.CbUser f) onErr in
  let o := Sync.mkOptions k (Sync.CbUser f) destroyRef false onErr
             (Sync.UntilOne (Sync.StopKey c)) in
  let h' := snd (Sync.on behaviour o h) in
  fst (Sync.on behaviour o h) = Ok (Sync.UnsubscribeAll n) /\
  stillIn c stop h' /\ stillIn k main h' /\
  Sync.lookup n (Sync.registrations h') =
    Some (Sync.mkRegistration [Sync.RemoveSubscriber c (S n)]
            (Some (Sync.RemoveSubscriber k (S (S n))))) /\
  Sync.destroyHooks h' =
    Sync.destroyHooks h ++
    match destroyRef with
    | Some d => [(d, Sync.RemoveSubscriber k (S (S n)))]
    | None => []
    end.
Proof.
  intros Hk Hc n stop main o h'. subst h'.
  assert (falsy k = false) as Fk by (destruct k; [congruence|reflexivity]).
  assert (falsy c = false) as Fc by (destruct c; [congruence|reflexivity]).
  unfold Sync.on, Sync.replay.
  cbn [o Sync.optKey Sync.optCallback Sync.optOnError Sync.optReplayLatest Sync.optUntil
       Sync.optDestroyRef Sync.isFunction negb Sync.conditionsOf].
  rewrite Fk, Fc. cbn [existsb Sync.signalIsTrue orb Sync.fresh fold_left]. fold n.
  set (hA := Sync.withRegistrations _ _).
  unfold Sync.installCondition.
  destruct (internalSubscribe_spec c (Sync.CbUnsubscribeAll n) None None true hA)
    as (F1 & N1 & R1 & _ & _ & _ & _ & _ & New1 & _).
  pose proof (internalSubscribe_hooks c (Sync.CbUnsubscribeAll n) None None true hA) as K1.
  destruct (Sync.internalSubscribe c (Sync.CbUnsubscribeAll n) None None true hA)
    as [sub h1].
  cbn [fst snd] in *. subst sub.
  change (Sync.nextId hA) with (S n) in *.
  assert (Sync.lookup n (Sync.registrations h1) = Some (Sync.mkRegistration [] None)) as L1.
  { rewrite R1. subst hA. simpl. apply lookup_store_same. }
  unfold Sync.pushUnsubscriber. rewrite L1.
  cbn [Sync.unsubscribers Sync.mainSubscription app].
  set (h2 := Sync.withRegistrations _ h1).
  assert (stillIn c stop h2) as St2 by exact New1.
  destruct (internalSubscribe_spec k (Sync.CbUser f) destroyRef onErr false h2)
    as (F3 & N3 & R3 & _ & _ & _ & _ & _ & New3 & Old3 & _).
  pose proof (internalSubscribe_hooks k (Sync.CbUser f) destroyRef onErr false h2) as K3.
  destruct (Sync.internalSubscribe k (Sync.CbUser f) destroyRef onErr false h2)
    as [mainSub h3].
  cbn [fst snd] in *. subst mainSub.
  change (Sync.nextId h2) with (Sync.nextId h1) in *. rewrite N1 in *.
  assert (Sync.lookup n (Sync.registrations h3) =
          Some (Sync.mkRegistration [Sync.RemoveSubscriber c (S n)] None)) as L3.
  { rewrite R3. subst h2. simpl. apply lookup_store_same. }
  unfold Sync.setMainSubscription. rewrite L3. cbn [Sync.unsubscribers].
  refine (conj eq_refl (conj _ (conj _ (conj _ _)))).
  - apply Old3. exact St2.
  - exact New3.
  - simpl. apply lookup_store_same.
  - simpl. rewrite K3. change (Sync.destroyHooks h2) with (Sync.destroyHooks h1).
    rewrite K1, app_nil_r. reflexivity.
Qed.

Lemma hooks_of_new_owner (hooks : list (nat * Sync.Teardown)) d :
  (forall t, ~ In (d, t) hooks) ->
  filter (fun hook : nat * Sync.Teardown => Nat.eqb (fst hook) d) hooks = [].
Proof.
  induction hooks as [|[d' t] hooks IH]; intros Hfresh; [reflexivity|].
  simpl. destruct (Nat.eqb_spec d' d) as [->|Hne].
  - exfalso. apply (Hfresh t). now left.
  - apply IH. intros t' Hin. apply (Hfresh t'). now right.
Qed.

(** X18.  [on] of the synchronous service with a [destroyRef] and a stop
    key in [until], for an owner that has registered nothing before.
    The returned handle works although a [destroyRef] was given: it
    removes the subscriber and the stop-key subscriber.  Destroying the
    owner removes the subscriber only: the stop-key subscriber that
    [until] installed stays registered. *)
Theorem sync_destroyRef_leaves_stop_key :
  forall (behaviour : nat -> HubEvent -> Outcome) (h : Sync.Hub) (k c : string)
         (f d : nat) (onErr : option nat),
    k <> EmptyString -> c <> EmptyString ->
    (forall t, ~ In (d, t) (Sync.destroyHooks h)) ->
    let n := Sync.nextId h in
    let o := Sync.mkOptions k (Sync.CbUser f) (Some d) false onErr
               (Sync.UntilOne (Sync.StopKey c)) in
    let h1 := snd (Sync.on behaviour o h) in
    exists s,
      fst (Sync.on behaviour o h) = Ok s /\
      Sync.isSubscribed k (S (S n)) h1 = true /\
      Sync.isSubscribed c (S n) h1 = true /\
      Sync.isSubscribed k (S (S n)) (Sync.runSubscription s h1) = false /\
      Sync.isSubscribed c (S n) (Sync.runSubscription s h1) = false /\
      Sync.isSubscribed k (S (S n)) (Sync.triggerDestroy d h1) = false /\
      Sync.isSubscribed c (S n) (Sync.triggerDestroy d h1) = true.
Proof.
  intros behaviour h k c f d onErr Hk Hc Hfresh n o h1.
  destruct (on_stopKey_state behaviour h k c f (Some d) onErr Hk Hc)
    as (F & Stop & Main & L & K).
  fold n in F, Stop, Main, L, K. fold o in F, Stop, Main, L, K. fold h1 in Stop, Main, L, K.
  exists (Sync.UnsubscribeAll n). split; [exact F|].
  split; [exact (stillIn_isSubscribed _ _ _ Main)|].
  split; [exact (stillIn_isSubscribed _ _ _ Stop)|].
  assert (Sync.runSubscription (Sync.UnsubscribeAll n) h1 =
          Sync.removeSubscriber k (S (S n)) (Sync.removeSubscriber c (S n) h1)) as E.
  { cbn [Sync.runSubscription]. unfold Sync.unsubscribeAll. rewrite L. reflexivity. }
  assert (filter (fun hook : nat * Sync.Teardown => Nat.eqb (fst hook) d) (Sync.destroyHooks h)
          = []) as Hmine.
  { apply hooks_of_new_owner. exact Hfresh. }
  assert (fold_left (fun acc hook => Sync.runTeardown (snd hook) acc)
            (filter (fun hook : nat * Sync.Teardown => Nat.eqb (fst hook) d)
                    (Sync.destroyHooks h1)) h1
          = Sync.removeSubscriber k (S (S n)) h1) as D.
  { rewrite K, filter_app, Hmine. simpl. now rewrite Nat.eqb_refl. }
  refine (conj _ (conj _ (conj _ _))).
  - rewrite E. apply isSubscribed_removed.
  - rewrite E.
    apply (isSubscribed_shrinks (Sync.removeSubscriber c (S n) h1)).
    + apply (step_shrinks _ _ _ _ (sync_removeSubscriber_step k (S (S n)) _)).
    + apply isSubscribed_removed.
  - unfold Sync.triggerDestroy. rewrite D.
    change (Sync.isSubscribed k (S (S n)) (Sync.removeSubscriber k (S (S n)) h1) = false).
    apply isSubscribed_removed.
  - unfold Sync.triggerDestroy. rewrite D.
    match goal with
    | |- Sync.isSubscribed c (S n) ?x = true =>
        change (Sync.isSubscribed c (S n) (Sync.removeSubscriber k (S (S n)) h1) = true)
    end.
    apply (stillIn_isSubscribed c
             (Sync.mkSubscriber (S n)
                (Sync.CbSelfRemoving c (S n) (Sync.CbUnsubscribeAll n)) None)).
    apply stillIn_removeSubscriber; [simpl; lia|exact Stop].
Qed.

Lemma sync_destroyRef_leaves_stop_key_witness :
  exists s,
    fst (Sync.on (fun _ _ => Returned)
           (Sync.mkOptions "data" (Sync.CbUser 1) (Some 7) false None
              (Sync.UntilOne (Sync.StopKey "stop"))) Sync.empty) = Ok s /\
    Sync.isSubscribed "stop" 1
      (Sync.triggerDestroy 7
         (snd (Sync.on (fun _ _ => Returned)
                 (Sync.mkOptions "data" (Sync.CbUser 1) (Some 7) false None
                    (Sync.UntilOne (Sync.StopKey "stop"))) Sync.empty))) = true.
Proof.
  destruct (sync_destroyRef_leaves_stop_key (fun _ _ => Returned) Sync.empty "data" "stop"
              1 7 None ltac:(discriminate) ltac:(discriminate) ltac:(intros t []))
    as (s & E & _ & _ & _ & _ & _ & G).
  exists s. split; [exact E|exact G].
Defined.

(** ** The queued service: errors of a replayed callback *)



(** ** The queued service: replay and delivery of one event *)

Lemma queuedFanOut_skips (subs : jsmap (list Queued.Entry)) ev :
  (forall q l, In (q, l) subs -> Queued.matchQuery (key ev) q = false) ->
  queuedFanOut subs ev = [].
Proof.
  unfold queuedFanOut. induction subs as [|[q l] subs IH]; intros Hskip; [reflexivity|].
  simpl. rewrite (Hskip q l (or_introl eq_refl)). apply IH.
  intros q' l' Hin. apply (Hskip q' l'). now right.
Qed.

Lemma queuedFanOut_app a b ev : queuedFanOut (a ++ b) ev = queuedFanOut a ev ++ queuedFanOut b ev.
Proof. apply flat_map_app. Qed.

(** The scheduled call of a caller's function, when it is the only
    reaction pending. *)
Lemma queued_single_call behaviour x q f onErr ev :
  Queued.microtasks x = [Queued.TCall q (Queued.mkEntry (Queued.CbUser f) onErr) ev] ->
  queuedCallsOf f (Queued.log (Queued.runMicrotasks behaviour x)) =
  queuedCallsOf f (Queued.log x) ++ [ev].
Proof.
  intros Hm. destruct x as [queue registry subs closures hooks tasks lg nw nid].
  cbn [Queued.microtasks Queued.log] in *. subst tasks.
  unfold Queued.runMicrotasks.
  cbn [Queued.microtasks map Queued.taskWeight Queued.callback Queued.resumptions].
  change (list_sum [2 + 0]) with 2.
  simpl. destruct (behaviour f ev); simpl; try destruct onErr; simpl;
    rewrite ?queuedCallsOf_app; simpl; rewrite Nat.eqb_refl; rewrite ?app_nil_r;
    reflexivity.
Qed.

Lemma queued_settle_one behaviour y k f onErr ev subs0 :
  key ev = k ->
  (forall q l, In (q, l) subs0 -> Queued.matchQuery k q = false) ->
  Queued.subscribers y = subs0 ++ [(k, [Queued.mkEntry (Queued.CbUser f) onErr])] ->
  Queued.eventQueue y = [ev] -> Queued.microtasks y = [] ->
  queuedCallsOf f (Queued.log (Queued.settle behaviour y)) =
  queuedCallsOf f (Queued.log y) ++ [ev].
Proof.
  intros Hkey Hnone Hs Hq Hm. destruct (queued_drain_schedule y) as (M & L & _).
  unfold Queued.settle.
  rewrite (queued_single_call behaviour (Queued.drainQueue y) k f onErr ev);
    [now rewrite L|].
  rewrite M, Hm, Hq, Hs. cbn [flat_map app]. rewrite app_nil_r, queuedFanOut_app.
  rewrite queuedFanOut_skips by (rewrite Hkey; exact Hnone).
  unfold queuedFanOut. simpl. now rewrite Hkey, split_matchQuery_refl.
Qed.

(** X20.  Replay and delivery never both reach a subscriber with the same
    event.  In the queued service, for a key that no earlier subscriber
    listens to and that has no stored event yet, on a service with
    nothing pending: whether a function subscribes with [replayLatest]
    before the publish, between the publish and the run of the effect,
    or after the effect has run, it is called with the published event
    exactly once. *)
Theorem queued_replay_or_delivery :
  forall (behaviour : nat -> HubEvent -> Outcome) (h : Queued.Hub) (k : string) (f : nat)
         (onErr : option nat) (d : value),
    k <> EmptyString -> looselyNull d = false ->
    (forall q l, In (q, l) (Queued.subscribers h) -> Queued.matchQuery k q = false) ->
    Queued.eventQueue h = [] -> Queued.microtasks h = [] ->
    mget k (Queued.eventRegistry h) = None ->
    let o := Queued.mkOptions k (Queued.CbUser f) None true onErr in
    let ev := mkEvent (Queued.nextId h) k d (Queued.now h) in
    queuedCallsOf f
      (Queued.log (Queued.settle behaviour
                     (snd (Queued.publish k d (snd (Queued.subscribe behaviour o h))))))
      = queuedCallsOf f (Queued.log h) ++ [ev] /\
    queuedCallsOf f
      (Queued.log (Queued.settle behaviour
                     (snd (Queued.subscribe behaviour o (snd (Queued.publish k d h))))))
      = queuedCallsOf f (Queued.log h) ++ [ev] /\
    queuedCallsOf f
      (Queued.log (snd (Queued.subscribe behaviour o
                          (Queued.settle behaviour (snd (Queued.publish k d h))))))
      = queuedCallsOf f (Queued.log h) ++ [ev].
Proof.
  intros behaviour h k f onErr d Hk Hd Hnone Hq Hm Hreg o ev.
  assert (falsy k = false) as Fk by (destruct k; [congruence|reflexivity]).
  assert (mget k (Queued.subscribers h) = None) as Hsub.
  { destruct (mget k (Queued.subscribers h)) as [l|] eqn:G; [|reflexivity].
    apply mget_In in G. pose proof (Hnone k l G) as X.
    rewrite split_matchQuery_refl in X. discriminate. }
  refine (conj _ (conj _ _)).
  - unfold Queued.subscribe, Queued.publish.
    cbn [o Queued.optKey Queued.optCallback Queued.optDestroyRef Queued.optReplayLatest
         Queued.optOnError Queued.isFunction negb].
    rewrite Fk, Hreg, Hd. unfold Queued.internalSubscribe. cbn [snd].
    rewrite Hsub. cbn [app]. rewrite (mset_absent k _ _ Hsub).
    match goal with
    | |- context [Queued.settle behaviour ?y] =>
        rewrite (queued_settle_one behaviour y k f onErr ev (Queued.subscribers h))
    end; try reflexivity; try exact Hnone; simpl; rewrite ?Hq, ?Hm; reflexivity.
  - unfold Queued.subscribe, Queued.publish.
    cbn [o Queued.optKey Queued.optCallback Queued.optDestroyRef Queued.optReplayLatest
         Queued.optOnError Queued.isFunction negb].
    rewrite Fk, Hd. cbn [snd]. fold ev.
    set (hp := Queued.withNextId _ _).
    assert (mget k (Queued.eventRegistry hp) = None) as Hreg' by exact Hreg.
    assert (mget k (Queued.subscribers hp) = None) as Hsub' by exact Hsub.
    rewrite Hreg'. unfold Queued.internalSubscribe. cbn [snd].
    rewrite Hsub'. cbn [app].
    change (Queued.subscribers hp) with (Queued.subscribers h).
    rewrite (mset_absent k _ _ Hsub).
    match goal with
    | |- context [Queued.settle behaviour ?y] =>
        rewrite (queued_settle_one behaviour y k f onErr ev (Queued.subscribers h))
    end; try reflexivity; try exact Hnone; simpl; rewrite ?Hq, ?Hm; reflexivity.
  - set (h1 := Queued.settle behaviour (snd (Queued.publish k d h))).
    assert (mget k (Queued.eventRegistry h1) = Some ev /\ Queued.log h1 = Queued.log h)
      as [R1 L1].
    { subst h1. unfold Queued.publish. rewrite Fk, Hd. cbn [snd]. fold ev. split.
      - rewrite queued_settle_registry. simpl. rewrite Hq. simpl. apply mget_mset_same.
      - unfold Queued.settle.
        match goal with
        | |- context [Queued.drainQueue ?y] =>
            destruct (queued_drain_schedule y) as (M & L & _)
        end.
        rewrite queued_runMicrotasks_idle; [exact L|].
        rewrite M. simpl. rewrite Hm, Hq. simpl. rewrite app_nil_r.
        apply queuedFanOut_skips. exact Hnone. }
    unfold Queued.subscribe.
    cbn [o Queued.optKey Queued.optCallback Queued.optDestroyRef Queued.optReplayLatest
         Queued.optOnError Queued.isFunction negb Queued.invoke].
    rewrite Fk, R1. unfold Queued.internalSubscribe, Queued.reportReplayError.
    cbn [Queued.optOnError Queued.optKey].
    destruct (behaviour f ev); try destruct onErr; simpl; rewrite ?queuedCallsOf_app, L1;
      simpl; rewrite Nat.eqb_refl; rewrite ?app_nil_r; reflexivity.
Qed.

Lemma queued_replay_or_delivery_witness :
  queuedCallsOf 7
    (Queued.log
       (Queued.settle (fun _ _ => Returned)
          (snd (Queued.subscribe (fun _ _ => Returned)
                  (Queued.mkOptions "k" (Queued.CbUser 7) None true None)
                  (snd (Queued.publish "k" (JNum 1) Queued.empty))))))
  = [] ++ [mkEvent 0 "k" (JNum 1) 0%Z].
Proof.
  apply (proj1 (proj2 (queued_replay_or_delivery (fun _ _ => Returned) Queued.empty "k" 7
                         None (JNum 1) ltac:(discriminate) eq_refl ltac:(intros q l [])
                         eq_refl eq_refl eq_refl))).
Defined.

(** ** [once] and the check of the callback *)

(** [once] of the synchronous service without replay and without
    [until], whatever the callback is. *)
Lemma sync_once_state behaviour h k user onErr :
  k <> EmptyString ->
  let c := Sync.nextId h in
  let sub := Sync.mkSubscriber (S (S c)) (Sync.CbOnce c user onErr k) onErr in
  let o := Sync.mkOptions k user None false onErr Sync.NoUntil in
  let h1 := snd (Sync.once behaviour o h) in
  fst (Sync.once behaviour o h) = Ok (Sync.UnsubscribeAll (S c)) /\
  Sync.subscribers h1 =
    mset k ((match mget k (Sync.subscribers h) with
             | Some set => set
             | None => []
             end) ++ [sub]) (Sync.subscribers h) /\
  Sync.getOnceCell c h1 = Some (Sync.UnsubscribeAll (S c)) /\
  Sync.lookup (S c) (Sync.registrations h1) =
    Some (Sync.mkRegistration [] (Some (Sync.RemoveSubscriber k (S (S c))))) /\
  Sync.log h1 = Sync.log h.
Proof.
  intros Hk c sub o h1. subst h1.
  assert (falsy k = false) as Fk by (destruct k; [congruence|reflexivity]).
  unfold Sync.once. cbn [o Sync.fresh Sync.optKey Sync.optCallback Sync.optOnError
    Sync.optReplayLatest Sync.optUntil]. fold c.
  set (h0 := Sync.withOnceCells _ _).
  unfold Sync.on, Sync.replay.
  cbn [Sync.optKey Sync.optCallback Sync.optOnError Sync.optReplayLatest
    Sync.optUntil Sync.optDestroyRef Sync.isFunction negb Sync.conditionsOf existsb].
  rewrite Fk. cbn [Sync.fresh fold_left].
  change (Sync.nextId h0) with (S c).
  set (hA := Sync.withRegistrations _ _).
  destruct (internalSubscribe_spec k (Sync.CbOnce c user onErr k) None onErr false hA)
    as (F & N & R & C & _ & _ & _ & L & _).
  pose proof (internalSubscribe_subscribers k (Sync.CbOnce c user onErr k) None
                onErr false hA) as S4.
  destruct (Sync.internalSubscribe k (Sync.CbOnce c user onErr k) None onErr false hA)
    as [main h4].
  cbn [fst snd] in *. subst main.
  change (Sync.nextId hA) with (S (S c)) in *.
  assert (Sync.lookup (S c) (Sync.registrations h4) = Some (Sync.mkRegistration [] None)) as L4.
  { rewrite R. subst hA. simpl. apply lookup_store_same. }
  unfold Sync.setMainSubscription. rewrite L4. cbn [fst snd].
  refine (conj eq_refl (conj _ (conj _ (conj _ _)))).
  - simpl. rewrite S4. reflexivity.
  - unfold Sync.getOnceCell. simpl. now rewrite lookup_store_same.
  - simpl. apply lookup_store_same.
  - simpl. rewrite L. reflexivity.
Qed.

(** A publish that reaches no subscriber but the wrapper of a [once]
    whose callback is not a function. *)
Lemma once_subscriber_fails behaviour x k c reg id onErr onErr' d subs0 :
  k <> EmptyString ->
  (forall q set, mget q subs0 = Some set -> Sync.matchQuery k q = false) ->
  Sync.subscribers x =
    mset k [Sync.mkSubscriber id (Sync.CbOnce c Sync.CbNotAFunction onErr k) onErr'] subs0 ->
  Sync.getOnceCell c x = Some (Sync.UnsubscribeAll reg) ->
  Sync.lookup reg (Sync.registrations x) =
    Some (Sync.mkRegistration [] (Some (Sync.RemoveSubscriber k id))) ->
  let ev := mkEvent (Sync.nextId x) k d (Sync.now x) in
  let x2 := snd (Sync.publish behaviour k d x) in
  Sync.log x2 =
    Sync.log x ++ [Sync.Called (Sync.CbOnce c Sync.CbNotAFunction onErr k) ev;
                   syncRouted k onErr (JStr "TypeError") ev] /\
  Sync.subscribers x2 = subs0.
Proof.
  intros Hk Hnone Hsubs Hcell Hregn ev x2. subst x2.
  assert (falsy k = false) as Fk by (destruct k; [congruence|reflexivity]).
  assert (mget k subs0 = None) as Hsub.
  { destruct (mget k subs0) as [set|] eqn:G; [|reflexivity].
    pose proof (Hnone k set G) as X. rewrite regex_matchQuery_refl in X. discriminate. }
  unfold Sync.publish. rewrite Fk. cbn [Sync.fresh fst snd].
  change (Sync.now (Sync.withNextId (S (Sync.nextId x)) x)) with (Sync.now x). fold ev.
  set (hR := Sync.withRegistry _ _).
  unfold Sync.notifySubscribers.
  change (Sync.subscribers hR) with (Sync.subscribers x).
  set (sub := Sync.mkSubscriber id (Sync.CbOnce c Sync.CbNotAFunction onErr k) onErr') in *.
  rewrite Hsubs, (mset_absent k [sub] subs0 Hsub).
  unfold mkeys. rewrite map_app. cbn [map fst]. rewrite notifyQueries_app.
  rewrite (notifyQueries_skips behaviour ev (map fst subs0) hR).
  2:{ intros q set Hin G. change (Sync.subscribers hR) with (Sync.subscribers x) in G.
      rewrite Hsubs in G.
      assert (q <> k) as Hne.
      { intros ->. apply (mget_None_not_key k subs0 Hsub). exact Hin. }
      rewrite mget_mset_other in G by exact Hne. exact (Hnone q set G). }
  cbn [Sync.notifyQueries].
  change (Sync.subscribers hR) with (Sync.subscribers x).
  rewrite Hsubs, mget_mset_same. change (key ev) with k. rewrite regex_matchQuery_refl.
  cbn [Sync.notifySet].
  assert (Sync.isSubscribed k (Sync.sid sub) hR = true) as Hin.
  { unfold Sync.isSubscribed. change (Sync.subscribers hR) with (Sync.subscribers x).
    rewrite Hsubs, mget_mset_same. simpl. now rewrite Nat.eqb_refl. }
  rewrite Hin. unfold Sync.deliver. cbn [Sync.callback sub Sync.invoke].
  set (h0 := Sync.addLog _ hR).
  change (Sync.getOnceCell c h0) with (Sync.getOnceCell c x). rewrite Hcell.
  cbn [Sync.runSubscription]. unfold Sync.unsubscribeAll.
  change (Sync.registrations h0) with (Sync.registrations x). rewrite Hregn.
  cbn [Sync.unsubscribers Sync.mainSubscription fold_left Sync.runTeardown].
  unfold Sync.removeSubscriber.
  change (Sync.subscribers h0) with (Sync.subscribers x).
  rewrite Hsubs, mget_mset_same. cbn [filter Sync.sid sub]. rewrite Nat.eqb_refl.
  cbn [negb]. rewrite (mdelete_mset_absent k [sub] subs0 Hsub).
  unfold Sync.handleError, syncRouted.
  destruct onErr; (split; [subst h0 hR; simpl; now rewrite <- !app_assoc|reflexivity]).
Qed.

(** [once] of the queued service without replay, whatever the callback. *)
Lemma queued_once_state behaviour h k user onErr :
  k <> EmptyString ->
  let c := Queued.nextId h in
  let wrapper := Queued.CbOnce c user in
  let o := Queued.mkOptions k user None false onErr in
  let h1 := snd (Queued.once behaviour o h) in
  fst (Queued.once behaviour o h) = Ok (Queued.mkSubscription k wrapper true) /\
  Queued.subscribers h1 =
    mset k ((match mget k (Queued.subscribers h) with
             | Some l => l
             | None => []
             end) ++ [Queued.mkEntry wrapper onErr]) (Queued.subscribers h) /\
  Queued.getClosure c h1 =
    Queued.mkClosure false (Some (Queued.mkSubscription k wrapper true)) /\
  Queued.log h1 = Queued.log h /\
  Queued.eventQueue h1 = Queued.eventQueue h /\
  Queued.microtasks h1 = Queued.microtasks h.
Proof.
  intros Hk c wrapper o h1. subst h1.
  assert (falsy k = false) as Fk by (destruct k; [congruence|reflexivity]).
  unfold Queued.once, Queued.newClosure.
  cbn [o Queued.optKey Queued.optCallback Queued.optOnError Queued.optReplayLatest]. fold c.
  unfold Queued.subscribe.
  cbn [Queued.optKey Queued.optCallback Queued.optOnError Queued.optReplayLatest
       Queued.optDestroyRef Queued.isFunction negb].
  rewrite Fk. unfold Queued.internalSubscribe. cbn [fst snd].
  unfold Queued.setSubscription, Queued.getClosure. simpl.
  rewrite !lookupClosure_store_same. repeat split.
Qed.

(** Computation on a hub of the queued service written out field by field. *)
Ltac queued_fields :=
  cbv beta iota zeta delta
    [Queued.withMicrotasks Queued.withLog Queued.addLog Queued.addTask Queued.withClosures
     Queued.withSubscribers Queued.withQueue Queued.withRegistry Queued.withNextId
     Queued.setHasRun Queued.setSubscription Queued.getClosure Queued.eventQueue
     Queued.eventRegistry Queued.subscribers Queued.closures Queued.destroyHooks
     Queued.microtasks Queued.log Queued.now Queued.nextId Queued.hasRun Queued.subscription
     Queued.callback Queued.onError fst snd Queued.runTasks Queued.runTask Queued.invoke
     Queued.runSubscription Queued.manualUnsubscribe Queued.sQuery Queued.sCallback
     Queued.unsubscribe].

(** A publish heard by nobody but the wrapper of a [once] whose callback
    is not a function. *)
Lemma queued_wrapper_fails behaviour x k c onErr d subs0 :
  k <> EmptyString -> looselyNull d = false ->
  (forall q l, In (q, l) subs0 -> Queued.matchQuery k q = false) ->
  Queued.subscribers x =
    mset k [Queued.mkEntry (Queued.CbOnce c Queued.CbNotAFunction) onErr] subs0 ->
  Queued.getClosure c x =
    Queued.mkClosure false
      (Some (Queued.mkSubscription k (Queued.CbOnce c Queued.CbNotAFunction) true)) ->
  Queued.eventQueue x = [] -> Queued.microtasks x = [] ->
  let ev := mkEvent (Queued.nextId x) k d (Queued.now x) in
  let x2 := Queued.settle behaviour (snd (Queued.publish k d x)) in
  Queued.log x2 =
    Queued.log x ++
    [Queued.Called (Queued.CbOnce c Queued.CbNotAFunction) ev;
     match onErr with
     | Some handler => Queued.HandlerCalled handler (JStr "TypeError") ev
     | None => Queued.Warned k (JStr "TypeError")
     end] /\
  Queued.subscribers x2 = subs0.
Proof.
  intros Hk Hd Hnone Hsubs Hcell Hq Hm ev x2. subst x2.
  assert (falsy k = false) as Fk by (destruct k; [congruence|reflexivity]).
  assert (mget k subs0 = None) as Hsub.
  { destruct (mget k subs0) as [l|] eqn:G; [|reflexivity].
    apply mget_In in G. pose proof (Hnone k l G) as X.
    rewrite split_matchQuery_refl in X. discriminate. }
  pose proof (mdelete_mset_absent k
                [Queued.mkEntry (Queued.CbOnce c Queued.CbNotAFunction) onErr] subs0 Hsub)
    as Hdel.
  pose proof (mget_mset_same k
                [Queued.mkEntry (Queued.CbOnce c Queued.CbNotAFunction) onErr] subs0)
    as Hget.
  rewrite (mset_absent k _ subs0 Hsub) in Hsubs, Hdel, Hget.
  destruct x as [queue registry subs closures hooks tasks lg nw nid].
  cbn [Queued.subscribers Queued.eventQueue Queued.microtasks Queued.log Queued.nextId
       Queued.now] in *.
  unfold Queued.getClosure in Hcell. cbn [Queued.closures] in Hcell.
  subst subs queue tasks.
  unfold Queued.publish. rewrite Fk, Hd. cbn [snd].
  unfold Queued.settle, Queued.drainQueue, Queued.withNextId, Queued.withQueue.
  cbn [Queued.eventQueue Queued.eventRegistry Queued.subscribers Queued.closures
       Queued.destroyHooks Queued.microtasks Queued.log Queued.now Queued.nextId app
       fold_left fst snd key].
  unfold Queued.notifySubscribers.
  cbn [Queued.subscribers]. rewrite fold_left_app.
  rewrite (queued_notify_skips _ subs0) by exact Hnone.
  cbn [fold_left fst snd key]. rewrite split_matchQuery_refl.
  unfold Queued.addTask, Queued.withMicrotasks, Queued.withRegistry, Queued.withQueue.
  cbn [Queued.eventQueue Queued.eventRegistry Queued.subscribers Queued.closures
       Queued.destroyHooks Queued.microtasks Queued.log Queued.now Queued.nextId app].
  unfold Queued.runMicrotasks.
  cbn [Queued.microtasks map Queued.taskWeight Queued.callback Queued.resumptions].
  change (list_sum [2 + 0]) with 2.
  queued_fields. rewrite Hcell. queued_fields. rewrite lookupClosure_store_same.
  queued_fields. rewrite Hget. cbn [filter]. queued_fields.
  rewrite callback_eqb_refl. cbn [negb]. queued_fields. rewrite Hdel.
  queued_fields. cbn [app]. queued_fields.
  destruct onErr; queued_fields; rewrite <- app_assoc; split; reflexivity.
Qed.

(** X21.  [once] does not check that the callback is a function.  In the
    queued and in the synchronous service, registering a value that is
    not a function throws "Callback must be a function" through
    [subscribe] or [on] and changes nothing, but succeeds through
    [once], which registers its own wrapper.  When the key has no other
    listener (and, in the queued service, nothing is pending), the next
    publish to the key calls the wrapper, which unsubscribes and fails
    with a [TypeError]; the error goes to [onError], or to the console
    when there is none, and the subscribers are again those from before
    the registration. *)
Theorem once_skips_the_function_check :
  forall (qBehaviour sBehaviour : nat -> HubEvent -> Outcome)
         (hq : Queued.Hub) (hs : Sync.Hub) (k : string) (onErr : option nat) (d : value),
    k <> EmptyString -> looselyNull d = false ->
    (forall q l, In (q, l) (Queued.subscribers hq) -> Queued.matchQuery k q = false) ->
    Queued.eventQueue hq = [] -> Queued.microtasks hq = [] ->
    (forall q set, mget q (Sync.subscribers hs) = Some set -> Sync.matchQuery k q = false) ->
    (let o := Queued.mkOptions k Queued.CbNotAFunction None false onErr in
     let wrapper := Queued.CbOnce (Queued.nextId hq) Queued.CbNotAFunction in
     let h1 := snd (Queued.once qBehaviour o hq) in
     let ev := mkEvent (Queued.nextId h1) k d (Queued.now h1) in
     let h2 := Queued.settle qBehaviour (snd (Queued.publish k d h1)) in
     Queued.subscribe qBehaviour o hq = (Throw CallbackMustBeAFunction, hq) /\
     (exists s, fst (Queued.once qBehaviour o hq) = Ok s) /\
     Queued.log h2 =
       Queued.log hq ++
       [Queued.Called wrapper ev;
        match onErr with
        | Some handler => Queued.HandlerCalled handler (JStr "TypeError") ev
        | None => Queued.Warned k (JStr "TypeError")
        end] /\
     Queued.subscribers h2 = Queued.subscribers hq) /\
    (let o := Sync.mkOptions k Sync.CbNotAFunction None false onErr Sync.NoUntil in
     let wrapper := Sync.CbOnce (Sync.nextId hs) Sync.CbNotAFunction onErr k in
     let h1 := snd (Sync.once sBehaviour o hs) in
     let ev := mkEvent (Sync.nextId h1) k d (Sync.now h1) in
     let h2 := snd (Sync.publish sBehaviour k d h1) in
     Sync.on sBehaviour o hs = (Throw CallbackMustBeAFunction, hs) /\
     (exists s, fst (Sync.once sBehaviour o hs) = Ok s) /\
     Sync.log h2 =
       Sync.log hs ++
       [Sync.Called wrapper ev;
        match onErr with
        | Some handler => Sync.HandlerCalled handler (JStr "TypeError") ev
        | None => Sync.Warned k k (JStr "TypeError")
        end] /\
     Sync.subscribers h2 = Sync.subscribers hs).
Proof.
  intros qBehaviour sBehaviour hq hs k onErr d Hk Hd HnoneQ Hq Hm HnoneS.
  assert (falsy k = false) as Fk by (destruct k; [congruence|reflexivity]).
  split.
  - intros o wrapper h1 ev h2.
    assert (mget k (Queued.subscribers hq) = None) as Hsub.
    { destruct (mget k (Queued.subscribers hq)) as [l|] eqn:G; [|reflexivity].
      apply mget_In in G. pose proof (HnoneQ k l G) as X.
      rewrite split_matchQuery_refl in X. discriminate. }
    destruct (queued_once_state qBehaviour hq k Queued.CbNotAFunction onErr Hk)
      as (F1 & S1 & C1 & L1 & Q1 & M1).
    fold o in F1, S1, C1, L1, Q1, M1. fold h1 in S1, C1, L1, Q1, M1.
    rewrite Hsub in S1. cbn [app] in S1. rewrite Hq in Q1. rewrite Hm in M1.
    destruct (queued_wrapper_fails qBehaviour h1 k (Queued.nextId hq) onErr d
                (Queued.subscribers hq) Hk Hd HnoneQ S1 C1 Q1 M1) as (L2 & S2).
    fold ev in L2. fold h2 in L2, S2.
    refine (conj _ (conj _ (conj _ S2))).
    + unfold Queued.subscribe. cbn [o Queued.optKey Queued.optCallback Queued.isFunction negb].
      now rewrite Fk.
    + eexists. exact F1.
    + rewrite L2, L1. reflexivity.
  - intros o wrapper h1 ev h2.
    assert (mget k (Sync.subscribers hs) = None) as Hsub.
    { destruct (mget k (Sync.subscribers hs)) as [set|] eqn:G; [|reflexivity].
      pose proof (HnoneS k set G) as X. rewrite regex_matchQuery_refl in X. discriminate. }
    destruct (sync_once_state sBehaviour hs k Sync.CbNotAFunction onErr Hk)
      as (F1 & S1 & C1 & R1 & L1).
    fold o in F1, S1, C1, R1, L1. fold h1 in S1, C1, R1, L1.
    rewrite Hsub in S1. cbn [app] in S1.
    destruct (once_subscriber_fails sBehaviour h1 k (Sync.nextId hs) (S (Sync.nextId hs))
                (S (S (Sync.nextId hs))) onErr onErr d (Sync.subscribers hs)
                Hk HnoneS S1 C1 R1) as (L2 & S2).
    fold ev in L2. fold h2 in L2, S2.
    refine (conj _ (conj _ (conj _ S2))).
    + unfold Sync.on. cbn [o Sync.optKey Sync.optCallback Sync.isFunction negb].
      now rewrite Fk.
    + eexists. exact F1.
    + rewrite L2, L1. unfold syncRouted. destruct onErr; reflexivity.
Qed.

Lemma once_skips_the_function_check_witness :
  Sync.log
    (snd (Sync.publish (fun _ _ => Returned) "k" (JNum 1)
            (snd (Sync.once (fun _ _ => Returned)
                    (Sync.mkOptions "k" Sync.CbNotAFunction None false (Some 9) Sync.NoUntil)
                    Sync.empty))))
  = [] ++ [Sync.Called (Sync.CbOnce 0 Sync.CbNotAFunction (Some 9) "k")
             (mkEvent 3 "k" (JNum 1) 0%Z);
           Sync.HandlerCalled 9 (JStr "TypeError") (mkEvent 3 "k" (JNum 1) 0%Z)].
Proof.
  apply (proj1 (proj2 (proj2 (proj2 (once_skips_the_function_check
                                       (fun _ _ => Returned) (fun _ _ => Returned)
                                       Queued.empty Sync.empty "k" (Some 9) (JNum 1)
                                       ltac:(discriminate) eq_refl ltac:(intros q l [])
                                       eq_refl eq_refl
                                       ltac:(intros q set G; discriminate)))))).
Defined.

(** ** The first service: [emit] and the signal of a key *)

(** X22.  [emit] of the first service refuses an empty key and, for any
    other key, the payloads [null] and [undefined], leaving the bus as it
    was.  A valid [emit] only queues the event: no signal changes and
    nobody is called until the effect runs; after the run the signal of
    the key holds the event, and when two events of one key are emitted
    before the run it holds the second. *)
Theorem bus_emit_then_read :
  forall (behaviour : nat -> HubEvent -> option value) (h : Bus.Hub) (k : string)
         (d d2 : value),
    Bus.emit EmptyString d h = (Throw KeyCannotBeEmpty, h) /\
    (k <> EmptyString -> looselyNull d = true ->
     Bus.emit k d h = (Throw DataCannotBeNullOrUndefined, h)) /\
    (k <> EmptyString -> looselyNull d = false ->
     let ev := mkEvent (Bus.nextId h) k d (Bus.now h) in
     let h1 := snd (Bus.emit k d h) in
     fst (Bus.emit k d h) = Ok tt /\
     (forall k', Bus.toSignal k' h1 = Bus.toSignal k' h) /\
     Bus.log h1 = Bus.log h /\
     Bus.toSignal k (Bus.drainQueue behaviour h1) = Some ev /\
     (looselyNull d2 = false ->
      Bus.toSignal k (Bus.drainQueue behaviour (snd (Bus.emit k d2 h1))) =
      Some (mkEvent (S (Bus.nextId h)) k d2 (Bus.now h)))).
Proof.
  intros behaviour h k d d2. refine (conj eq_refl (conj _ _)).
  - intros Hk Hd.
    assert (falsy k = false) as Fk by (destruct k; [congruence|reflexivity]).
    unfold Bus.emit. now rewrite Fk, Hd.
  - intros Hk Hd ev h1. subst h1.
    assert (falsy k = false) as Fk by (destruct k; [congruence|reflexivity]).
    unfold Bus.emit. rewrite Fk, Hd. fold ev. cbn [fst snd].
    refine (conj eq_refl (conj _ (conj eq_refl (conj _ _)))).
    + intros k'. reflexivity.
    + unfold Bus.toSignal.
      match goal with
      | |- context [Bus.drainQueue behaviour ?x] =>
          destruct (bus_drain_registry behaviour x) as [R _]
      end.
      rewrite R. cbn [Bus.eventQueue Bus.eventRegistry]. rewrite fold_left_app.
      simpl. apply mget_mset_same.
    + intros Hd2. rewrite Hd2. cbn [snd]. unfold Bus.toSignal.
      match goal with
      | |- context [Bus.drainQueue behaviour ?x] =>
          destruct (bus_drain_registry behaviour x) as [R _]
      end.
      rewrite R. cbn [Bus.eventQueue Bus.eventRegistry Bus.nextId Bus.now].
      rewrite !fold_left_app. simpl. apply mget_mset_same.
Qed.

Lemma bus_emit_then_read_witness :
  Bus.toSignal "k"
    (Bus.drainQueue (fun _ _ => None)
       (snd (Bus.emit "k" (JNum 2) (snd (Bus.emit "k" (JNum 1) Bus.empty)))))
  = Some (mkEvent 1 "k" (JNum 2) 0%Z).
Proof.
  apply (proj2 (proj2 (proj2 (proj2 (proj2 (proj2
           (bus_emit_then_read (fun _ _ => None) Bus.empty "k" (JNum 1) (JNum 2)))
           ltac:(discriminate) eq_refl)))));
    reflexivity.
Defined.

(** ** The synchronous service: [publish] and the signal of a key *)

(** X23.  [publish] of the synchronous service refuses only the empty
    key: every payload, [null] and [undefined] included, is stored, and
    the signal of the key reads the new event as soon as [publish]
    returns, the signals of the other keys reading as before.
    [clearEvent] makes the signal of its key read [null] and [reset]
    does so for every key.  [toSignal] refuses the empty key and any key
    with a [*]. *)
Theorem sync_publish_then_read :
  forall (behaviour : nat -> HubEvent -> Outcome) (h : Sync.Hub) (k : string) (d : value)
         (clearSubscribers : bool),
    Sync.publish behaviour EmptyString d h = (Throw KeyCannotBeEmpty, h) /\
    Sync.toSignal EmptyString = Throw KeyCannotBeEmpty /\
    (k <> EmptyString -> includes star k = true ->
     Sync.toSignal k = Throw ToSignalDoesNotSupportWildcards) /\
    (k <> EmptyString -> includes star k = false ->
     exists read,
       Sync.toSignal k = Ok read /\
       fst (Sync.publish behaviour k d h) = Ok tt /\
       read (snd (Sync.publish behaviour k d h))
         = Some (mkEvent (Sync.nextId h) k d (Sync.now h)) /\
       (forall k' read', k' <> k -> Sync.toSignal k' = Ok read' ->
          read' (snd (Sync.publish behaviour k d h)) = read' h) /\
       read (snd (Sync.clearEvent k (snd (Sync.publish behaviour k d h)))) = None /\
       read (Sync.reset clearSubscribers (snd (Sync.publish behaviour k d h))) = None).
Proof.
  intros behaviour h k d b. refine (conj eq_refl (conj eq_refl (conj _ _))).
  - intros Hk St.
    assert (falsy k = false) as Fk by (destruct k; [congruence|reflexivity]).
    unfold Sync.toSignal. now rewrite Fk, St.
  - intros Hk St.
    assert (falsy k = false) as Fk by (destruct k; [congruence|reflexivity]).
    destruct (publish_registry behaviour k d h Hk) as (Y & _).
    unfold Sync.toSignal at 1. rewrite Fk, St. eexists. split; [reflexivity|].
    cbv beta. refine (conj _ (conj _ (conj _ (conj _ _)))).
    + unfold Sync.publish. rewrite Fk. reflexivity.
    + rewrite Y. apply mget_mset_same.
    + intros k' read' Hne E. unfold Sync.toSignal in E.
      destruct (falsy k'); [discriminate|]. destruct (includes star k'); [discriminate|].
      inversion E; subst read'. cbv beta. rewrite Y. now apply mget_mset_other.
    + unfold Sync.clearEvent. rewrite Fk. simpl. apply mget_mdelete_same.
    + unfold Sync.reset. destruct b; reflexivity.
Qed.

Lemma sync_publish_then_read_witness :
  exists read,
    Sync.toSignal "k" = Ok read /\
    read (snd (Sync.publish (fun _ _ => Returned) "k" JNull Sync.empty))
      = Some (mkEvent 0 "k" JNull 0%Z).
Proof.
  destruct (proj2 (proj2 (proj2 (sync_publish_then_read (fun _ _ => Returned) Sync.empty
                                   "k" JNull false)))
              ltac:(discriminate) eq_refl) as (read & E & _ & R & _).
  exists read. split; [exact E|exact R].
Defined.
